(** * bcrypto: the arbitrary-precision integer engine (native BigInt backend)

    A shallow embedding of [lib/native/bn.js]: the module-level helper
    functions over BigInt values, the [BN] class wrapping them, and the
    reduction context [Red].  A BigInt is a [Z]; a JavaScript number that
    the code requires to be a safe integer is a [Z] with its range check;
    exceptions are values of [exn] carried by the [result] monad. *)

From Stdlib Require Import ZArith List String Ascii Lia Bool Znumtheory.
From Stdlib Require Import Permutation.
From Stdlib Require DecimalString.
Import ListNotations.
Local Open Scope Z_scope.

(** ** Exceptions and results *)

Inductive exn : Type :=
| Error (msg : string)
| TypeError (msg : string)
| RangeError (msg : string).

(** [Timeout] is not a JavaScript outcome: it is what the bounded loop
    iterator below answers when its budget is exhausted. *)
Inductive result (A : Type) : Type :=
| Ok (a : A)
| Throw (e : exn)
| Timeout.

Arguments Ok {A} a.
Arguments Throw {A} e.
Arguments Timeout {A}.

Definition bind {A B : Type} (c : result A) (k : A -> result B) : result B :=
  match c with
  | Ok a => k a
  | Throw e => Throw e
  | Timeout => Timeout
  end.

Notation "x <- c ;; k" := (bind c (fun x => k))
  (at level 61, c at next level, right associativity).
Notation "c ;;; k" := (bind c (fun _ => k))
  (at level 61, right associativity).

Definition is_throw {A : Type} (c : result A) : Prop :=
  exists e, c = Throw e.

(** A call inside a loop round: an exception or an exhausted budget of the
    callee leaves the enclosing function at once. *)
Definition call {A St R : Type} (c : result A) (k : A -> St + result R)
  : St + result R :=
  match c with
  | Ok a => k a
  | Throw e => inr (Throw e)
  | Timeout => inr Timeout
  end.

(** ** Loops

    [iter d body s] runs [body] from [s] for at most [2 ^ d] rounds.  A
    round answers [inl s'] to go round again and [inr r] to leave the
    enclosing function with [r]. *)

Section Loop.
Context {St R : Type}.
Variable body : St -> St + R.

Fixpoint iter (d : nat) (s : St) : St + R :=
  match d with
  | O => body s
  | S d' =>
      match iter d' s with
      | inl s' => iter d' s'
      | inr r => inr r
      end
  end.

Fixpoint iter_nat (fuel : nat) (s : St) : option R :=
  match fuel with
  | O => None
  | S fuel' =>
      match body s with
      | inl s' => iter_nat fuel' s'
      | inr r => Some r
      end
  end.

End Loop.

Definition loop {St R : Type} (d : nat) (body : St -> St + result R) (s : St)
  : result R :=
  match iter body d s with
  | inl _ => Timeout
  | inr r => r
  end.

(** The same with a plain count of rounds, for the loops of [sqrtm], which
    need not end when the modulus is not prime. *)
Definition loop_nat {St R : Type} (fuel : nat) (body : St -> St + result R)
  (s : St) : result R :=
  match iter_nat body fuel s with
  | None => Timeout
  | Some r => r
  end.

(** The depth that lets a loop whose measure starts at [m] run to its end. *)
Definition budget (m : Z) : nat := S (Z.to_nat (Z.log2 m)).

(** ** Helpers of the source: guards *)

Definition dquote : string := String (ascii_of_nat 34) EmptyString.

Definition assert (value : bool) : result unit :=
  if value then Ok tt else Throw (Error "Assertion failed.").

Definition enforce (value : bool) (name type : string) : result unit :=
  if value then Ok tt
  else Throw (TypeError (dquote ++ name ++ dquote ++ " must be a(n) " ++ type ++ ".")).

Definition range (value : bool) (name : string) : result unit :=
  if value then Ok tt
  else Throw (RangeError (dquote ++ name ++ dquote ++ " only works with positive numbers.")).

Definition red_error (name : string) : exn :=
  TypeError (dquote ++ name ++ dquote ++ " only works with red numbers.").

Definition red (value : bool) (name : string) : result unit :=
  if value then Ok tt else Throw (red_error name).

Definition nonred (value : bool) (name : string) : result unit :=
  if value then Ok tt
  else Throw (TypeError (dquote ++ name ++ dquote ++ " only works with normal numbers.")).

Definition nonzero (value : bool) : result unit :=
  if value then Ok tt else Throw (RangeError "Cannot divide by zero.").

(** [Number.isSafeInteger] and the 26-bit "small integer" test, on a
    JavaScript number that is already known to be integral. *)
Definition MAX_SAFE_INTEGER : Z := 9007199254740991.

Definition isInteger (num : Z) : bool :=
  (- MAX_SAFE_INTEGER <=? num) && (num <=? MAX_SAFE_INTEGER).

Definition isSMI (num : Z) : bool :=
  isInteger num && (- 0x3ffffff <=? num) && (num <=? 0x3ffffff).

(** ** BigInt operators

    [x / y] truncates toward zero ([Z.quot]) and [x % y] takes the sign of
    the dividend ([Z.rem]); [<<] and [>>] are [Z.shiftl] and [Z.shiftr]
    (a negative count shifts the other way in both languages); [&], [|],
    [^] and [~] act on the infinite two's complement form, as [Z.land],
    [Z.lor], [Z.lxor] and [Z.lnot] do.  [x ** y] raises a RangeError on a
    negative exponent. *)

Definition bigint_pow (x y : Z) : result Z :=
  if y <? 0 then Throw (RangeError "Exponent must be non-negative")
  else Ok (x ^ y).

Definition abs (x : Z) : Z := if x <? 0 then - x else x.

(** ** Truncation division + modulo *)

Definition quorem (x y : Z) : result (Z * Z) :=
  assert (negb (y =? 0)) ;;;
  let q := Z.quot x y in
  let r := x - q * y in
  Ok (q, r).

(** ** Modulo *)

Definition remrn (x y : Z) : result Z :=
  assert (negb (y =? 0)) ;;; Ok (Z.rem x y).

(** ** Euclidean division + modulo *)

Definition divmod (x y : Z) : result (Z * Z) :=
  assert (negb (y =? 0)) ;;;
  let q := Z.quot x y in
  let r := x - q * y in
  if r <? 0 then
    if y <? 0 then Ok (q + 1, r - y) else Ok (q - 1, r + y)
  else Ok (q, r).

Definition div (x y : Z) : result Z :=
  assert (negb (y =? 0)) ;;;
  let q := Z.quot x y in
  if x >=? 0 then Ok q
  else
    let r := x - q * y in
    if r <? 0 then
      if y <? 0 then Ok (q + 1) else Ok (q - 1)
    else Ok q.

Definition mod' (x y : Z) : result Z :=
  assert (negb (y =? 0)) ;;;
  let r := Z.rem x y in
  if r <? 0 then
    if y <? 0 then Ok (r - y) else Ok (r + y)
  else Ok r.

Definition modrn (x y : Z) : result Z :=
  r <- remrn x y ;;
  if r <? 0 then
    if y <? 0 then Ok (r - y) else Ok (r + y)
  else Ok r.

(** ** Round division *)

Definition divRound (x y : Z) : result Z :=
  assert (negb (y =? 0)) ;;;
  let half := if y <? 0 then - (Z.shiftr (- y) 1) else Z.shiftr y 1 in
  if xorb (x <? 0) (y <? 0) then Ok (Z.quot (x - half) y)
  else Ok (Z.quot (x + half) y).

(** ** Bit manipulation *)

Definition mask (width : Z) : Z := Z.shiftl 1 width - 1.

Definition uand (x y : Z) : Z :=
  let neg := x <? 0 in
  let num := Z.land (abs x) (abs y) in
  if neg then - num else num.

Definition uandn (x y : Z) : Z := uand x y.

Definition uor (x y : Z) : Z :=
  let neg := x <? 0 in
  let num := Z.lor (abs x) (abs y) in
  if neg then - num else num.

Definition uorn (x y : Z) : Z := uor x y.

Definition uxor (x y : Z) : Z :=
  let neg := x <? 0 in
  let num := Z.lxor (abs x) (abs y) in
  if neg then - num else num.

Definition uxorn (x y : Z) : Z := uxor x y.

Definition ushr (x y : Z) : Z :=
  if x <? 0 then - (Z.shiftr (- x) y) else Z.shiftr x y.

Definition ushrn (x y : Z) : Z := ushr x y.

Definition notn (x width : Z) : Z :=
  let neg := x <? 0 in
  let x := if neg then - x else x in
  let x := Z.lxor x (mask width) in
  if neg then - x else x.

Definition setn (x bit : Z) (val : bool) : Z :=
  if val then Z.lor x (Z.shiftl 1 bit)
  else Z.land x (Z.lnot (Z.shiftl 1 bit)).

Definition usetn (x bit : Z) (val : bool) : Z :=
  let neg := x <? 0 in
  let x := if neg then - x else x in
  let x := setn x bit val in
  if neg then - x else x.

Definition testn (x bit : Z) : bool :=
  negb (Z.land x (Z.shiftl 1 bit) =? 0).

Definition utestn (x bit : Z) : bool := testn (abs x) bit.

Definition maskn (x width : Z) : Z := Z.land x (mask width).

Definition umaskn (x width : Z) : Z :=
  let neg := x <? 0 in
  let x := if neg then - x else x in
  let x := Z.land x (mask width) in
  if neg then - x else x.

(** ** Comparisons *)

Definition cmp (x y : Z) : Z :=
  if x <? y then -1 else if x >? y then 1 else 0.

Definition ucmp (x y : Z) : Z := cmp (abs x) (abs y).

(** ** Counting bits

    Both functions strip the number in chunks of decreasing width; one
    chunk width is one [while] loop of the source. *)

Definition U8_MAX : Z := Z.shiftl 1 8 - 1.
Definition U16_MAX : Z := Z.shiftl 1 16 - 1.
Definition U32_MAX : Z := Z.shiftl 1 32 - 1.
Definition U64_MAX : Z := Z.shiftl 1 64 - 1.
Definition U128_MAX : Z := Z.shiftl 1 128 - 1.
Definition U256_MAX : Z := Z.shiftl 1 256 - 1.

(** [while (x >= max) { i += w; x >>= w; }] *)
Definition words_round (max w : Z) (s : Z * Z) : Z * Z + result (Z * Z) :=
  let '(x, i) := s in
  if x >=? max then inl (Z.shiftr x w, i + w) else inr (Ok s).

(** [while (x > 0n) { i += 1; x >>= 1n; }] *)
Definition words_last (s : Z * Z) : Z * Z + result (Z * Z) :=
  let '(x, i) := s in
  if x >? 0 then inl (Z.shiftr x 1, i + 1) else inr (Ok s).

(** [>>> 0] on an integral number: reduction to an unsigned 32-bit value. *)
Definition to_uint32 (v : Z) : Z := v mod 2 ^ 32.

Definition countWords (x w : Z) : result Z :=
  if x =? 0 then Ok 0
  else
    let x := if x <? 0 then - x else x in
    let d := budget x in
    s <- loop d (words_round U256_MAX 256) (x, 0) ;;
    s <- loop d (words_round U128_MAX 128) s ;;
    s <- loop d (words_round U64_MAX 64) s ;;
    s <- loop d (words_round U32_MAX 32) s ;;
    s <- loop d (words_round U16_MAX 16) s ;;
    s <- loop d (words_round U8_MAX 8) s ;;
    s <- loop d words_last s ;;
    Ok (to_uint32 ((snd s + (w - 1)) / w)).

Definition byteLength (x : Z) : result Z := countWords x 8.

Definition bitLength (x : Z) : result Z := countWords x 1.

(** [while ((x & max) === 0n) { i += w; x >>= w; }] *)
Definition zeros_round (max w : Z) (s : Z * Z) : Z * Z + result (Z * Z) :=
  let '(x, i) := s in
  if Z.land x max =? 0 then inl (Z.shiftr x w, i + w) else inr (Ok s).

Definition zeroBits (x : Z) : result Z :=
  if x =? 0 then Ok 0
  else
    let x := if x <? 0 then - x else x in
    let d := budget x in
    s <- loop d (zeros_round U32_MAX 32) (x, 0) ;;
    s <- loop d (zeros_round U16_MAX 16) s ;;
    s <- loop d (zeros_round U8_MAX 8) s ;;
    s <- loop d (zeros_round 1 1) s ;;
    Ok (snd s).

(** ** Exponentiation: integer square root (Newton's iteration) *)

Definition sqrt_round (x : Z) (r : Z) : Z + result Z :=
  let z := Z.quot x r in
  let z := z + r in
  let z := Z.shiftr z 1 in
  if z >=? r then inr (Ok r) else inl z.

Definition sqrt (x : Z) : result Z :=
  assert (x >=? 0) ;;;
  if x <=? 1 then Ok x
  else
    bl <- bitLength x ;;
    let r := Z.shiftl 1 (Z.shiftr bl 1 + 1) in
    loop (budget r) (sqrt_round x) r.

Definition isSquare (n : Z) : result bool :=
  if n <? 0 then Ok false
  else
    r <- sqrt n ;;
    Ok (r ^ 2 =? n).

(** ** Number theoretic functions *)

(** [while (y !== 0n) [x, y] = [y, x % y];] *)
Definition gcd_round (s : Z * Z) : Z * Z + result Z :=
  let '(x, y) := s in
  if negb (y =? 0) then inl (y, Z.rem x y) else inr (Ok x).

Definition gcd (x y : Z) : result Z :=
  let x := abs x in
  let y := abs y in
  loop (budget y) gcd_round (x, y).

Definition lcm (x y : Z) : result Z :=
  if (x =? 0) || (y =? 0) then Ok 0
  else
    g <- gcd x y ;;
    Ok (abs (Z.quot x g * y)).

(** The state of the extended Euclidean loop of [egcd]. *)
Record egcd_state : Type := mk_egcd_state {
  eg_s : Z; eg_os : Z; eg_t : Z; eg_ot : Z; eg_r : Z; eg_or : Z
}.

Definition egcd_round (st : egcd_state) : egcd_state + result egcd_state :=
  if negb (eg_r st =? 0) then
    let q := Z.quot (eg_or st) (eg_r st) in
    inl {| eg_or := eg_r st; eg_r := eg_or st - q * eg_r st;
           eg_os := eg_s st; eg_s := eg_os st - q * eg_s st;
           eg_ot := eg_t st; eg_t := eg_ot st - q * eg_t st |}
  else inr (Ok st).

Definition egcd (x y : Z) : result (Z * Z * Z) :=
  let st0 := {| eg_s := 0; eg_os := 1; eg_t := 1; eg_ot := 0;
                eg_r := abs y; eg_or := abs x |} in
  st <- loop (budget (abs y)) egcd_round st0 ;;
  let '(or', os, ot) :=
    if eg_or st <? 0 then (- eg_or st, - eg_os st, - eg_ot st)
    else (eg_or st, eg_os st, eg_ot st) in
  let os := if x <? 0 then - os else os in
  let ot := if y <? 0 then - ot else ot in
  Ok (os, ot, or').

(** The state of the loop of [invert]. *)
Record inv_state : Type := mk_inv_state {
  iv_t : Z; iv_nt : Z; iv_r : Z; iv_nr : Z
}.

Definition invert_round (st : inv_state) : inv_state + result inv_state :=
  if negb (iv_nr st =? 0) then
    let q := Z.quot (iv_r st) (iv_nr st) in
    inl {| iv_t := iv_nt st; iv_nt := iv_t st - q * iv_nt st;
           iv_r := iv_nr st; iv_nr := iv_r st - q * iv_nr st |}
  else inr (Ok st).

Definition invert (x y : Z) : result Z :=
  assert (y >? 0) ;;;
  if y =? 1 then Throw (RangeError "Not invertible.")
  else
    x <- (if (x <? 0) || (x >=? y) then mod' x y else Ok x) ;;
    st <- loop (budget x) invert_round
            {| iv_t := 0; iv_nt := 1; iv_r := y; iv_nr := x |} ;;
    let '(r, t) :=
      if iv_r st <? 0 then (- iv_r st, - iv_t st) else (iv_r st, iv_t st) in
    if negb (r =? 1) then Throw (RangeError "Not invertible.")
    else
      let t := if t <? 0 then t + y else t in
      Ok t.

(** [while (y > 0n) { ... }] of [powm], on the state [(x, y, r)]. *)
Definition powm_round (m : Z) (s : Z * Z * Z) : Z * Z * Z + result Z :=
  let '(x, y, r) := s in
  if y >? 0 then
    let r := if Z.land y 1 =? 1 then Z.rem (r * x) m else r in
    let y := Z.shiftr y 1 in
    let x := Z.rem (x ^ 2) m in
    inl (x, y, r)
  else inr (Ok r).

Definition powm (x y m : Z) : result Z :=
  assert (m >? 0) ;;;
  xy <- (if y <? 0 then
           x <- invert x m ;; Ok (x, - y)
         else
           x <- mod' x m ;; Ok (x, y)) ;;
  let '(x, y) := xy in
  loop (budget y) (powm_round m) (x, y, 1).

Definition fermat (x y : Z) : result Z :=
  assert (y >? 0) ;;;
  if y =? 1 then Throw (RangeError "Not invertible.")
  else
    inv <- powm x (y - 2) y ;;
    if inv =? 0 then Throw (RangeError "Not invertible.")
    else Ok inv.

Definition legendre (x y : Z) : result Z :=
  range (y >? 0) "legendre" ;;;
  if Z.land y 1 =? 0 then Throw (Error "legendre: `num` must be odd.")
  else
    s <- powm x (Z.shiftr (y - 1) 1) y ;;
    if s =? 0 then Ok 0
    else if s =? 1 then Ok 1
    else if s =? y - 1 then Ok (-1)
    else Throw (Error "Invalid prime.").

(** One round of the [for (;;)] of [jacobi], on the state [(a, b, j)]. *)
Definition jacobi_round (st : Z * Z * Z) : Z * Z * Z + result Z :=
  let '(a, b, j) := st in
  if b =? 1 then inr (Ok j)
  else if a =? 0 then inr (Ok 0)
  else
    let a := Z.rem a b in
    if a =? 0 then inr (Ok 0)
    else
      call (zeroBits a) (fun s =>
        let j :=
          if negb (Z.land s 1 =? 0) then
            let bmod8 := Z.land b 7 in
            if (bmod8 =? 3) || (bmod8 =? 5) then - j else j
          else j in
        let c := Z.shiftr a s in
        let j := if (Z.land b 3 =? 3) && (Z.land c 3 =? 3) then - j else j in
        inl (b, c, j)).

Definition jacobi (x y : Z) : result Z :=
  if (y =? 0) || (Z.land y 1 =? 0) then
    Throw (Error "jacobi: `num` must be odd.")
  else
    let a := x in
    let b := y in
    let j := 1 in
    let '(b, j) :=
      if b <? 0 then ((- b), (if a <? 0 then -1 else j)) else (b, j) in
    a <- (if a <? 0 then mod' a b else Ok a) ;;
    loop (budget b) jacobi_round (a, b, j).

(** [while (jacobi(n, p) !== -1) n += 1n;] *)
Definition nonresidue_round (p : Z) (n : Z) : Z + result Z :=
  call (jacobi n p) (fun j =>
    if negb (j =? -1) then inl (n + 1) else inr (Ok n)).

(** [while (t !== 1n) { t = (t ** 2n) % p; m += 1n; }] on the state [(t, m)]. *)
Definition order_round (p : Z) (s : Z * Z) : Z * Z + result (Z * Z) :=
  let '(t, m) := s in
  if negb (t =? 1) then inl (Z.rem (t ^ 2) p, m + 1) else inr (Ok s).

(** The state of the outer loop of the Tonelli-Shanks part of [sqrtm]. *)
Record ts_state : Type := mk_ts_state {
  ts_y : Z; ts_b : Z; ts_g : Z; ts_k : Z
}.

Definition tonelli_round (fuel : nat) (p : Z) (st : ts_state)
  : ts_state + result Z :=
  call (loop_nat fuel (order_round p) (ts_b st, 0)) (fun tm =>
    let m := snd tm in
    if m =? 0 then inr (Ok (ts_y st))
    else
      call (assert (negb (m =? ts_k st))) (fun _ =>
        let t := Z.shiftl 1 (ts_k st - m - 1) in
        call (powm (ts_g st) t p) (fun t =>
          let g := Z.rem (t ^ 2) p in
          let y := Z.rem (ts_y st * t) p in
          let b := Z.rem (ts_b st * g) p in
          inl {| ts_y := y; ts_b := b; ts_g := g; ts_k := m |}))).

(** [sqrtm] need not return when [p] is not prime; [fuel] bounds the
    rounds of each of its three loops. *)
Definition sqrtm (fuel : nat) (x p : Z) : result Z :=
  assert (p >? 0) ;;;
  j <- jacobi x p ;;
  if j =? -1 then Throw (Error "X is not a square mod P.")
  else if j =? 0 then Ok 0
  else
    x <- (if (x <? 0) || (x >=? p) then mod' x p else Ok x) ;;
    if Z.land p 3 =? 3 then
      let e := Z.shiftr (p + 1) 2 in
      powm x e p
    else if Z.land p 7 =? 5 then
      let e := Z.shiftr p 3 in
      let t := Z.shiftl x 1 in
      a <- powm t e p ;;
      let b := Z.rem (a ^ 2) p in
      let b := Z.rem (b * t) p in
      b <- mod' (b - 1) p ;;
      let b := Z.rem (b * x) p in
      let b := Z.rem (b * a) p in
      Ok b
    else
      let s := p - 1 in
      e <- zeroBits s ;;
      let s := Z.shiftr s e in
      n <- loop_nat fuel (nonresidue_round p) 2 ;;
      y <- powm x (Z.shiftr (s + 1) 1) p ;;
      b <- powm x s p ;;
      g <- powm n s p ;;
      loop_nat fuel (tonelli_round fuel p)
        {| ts_y := y; ts_b := b; ts_g := g; ts_k := e |}.

Definition sqrtpq (fuel : nat) (x p q : Z) : result Z :=
  assert (p >? 0) ;;;
  assert (q >? 0) ;;;
  sp <- sqrtm fuel x p ;;
  sq <- sqrtm fuel x q ;;
  e <- egcd p q ;;
  let '(mp, mq, _) := e in
  mod' (sq * mp * p + sp * mq * q) (p * q).

(** ** Primality testing: the strong Lucas test *)

(** [n.toString(10)], wanted by one error message only. *)
Definition decimal (n : Z) : string :=
  DecimalString.NilZero.string_of_int (Z.to_int n).

(** The parameter search of [isPrimeLucas]: a round either goes on with
    the next [p], or leaves the loop with [p] ([inl p]), or leaves the
    function with a verdict ([inr b]) or an exception. *)
Definition lucas_search_round (n limit : Z) (p : Z)
  : Z + result (Z + bool) :=
  if p >? 10000 then
    inr (Throw (Error ("Cannot find (D/n) = -1 for " ++ decimal n ++ ".")))
  else if (limit >? 0) && (p >? limit) then inr (Ok (inr false))
  else
    let d := p * p - 4 in
    call (jacobi d n) (fun j =>
      if j =? -1 then inr (Ok (inl p))
      else if j =? 0 then inr (Ok (inr (n =? p + 2)))
      else
        call (if p =? 40 then isSquare n else Ok false) (fun sq =>
          if sq then inr (Ok (inr false)) else inl (p + 1))).

(** [for (let i = BigInt(bitLength(s)); i >= 0n; i--)] on [(i, x, y)]. *)
Definition lucas_double_round (n p s : Z) (st : Z * Z * Z)
  : Z * Z * Z + result (Z * Z) :=
  let '(i, x, y) := st in
  if i >=? 0 then
    if negb (Z.land s (Z.shiftl 1 i) =? 0) then
      call (mod' (x * y + n - p) n) (fun x' =>
        call (mod' (y ^ 2 + (n - 2)) n) (fun y' => inl (i - 1, x', y')))
    else
      call (mod' (y * x + n - p) n) (fun y' =>
        call (mod' (x ^ 2 + (n - 2)) n) (fun x' => inl (i - 1, x', y')))
  else inr (Ok (x, y)).

(** [for (let t = 0; t < r - 1; t++)] on [(t, x)]. *)
Definition lucas_final_round (n r : Z) (st : Z * Z) : Z * Z + result bool :=
  let '(t, x) := st in
  if t <? r - 1 then
    if x =? 0 then inr (Ok true)
    else if x =? 2 then inr (Ok false)
    else call (mod' (x ^ 2 - 2) n) (fun x' => inl (t + 1, x'))
  else inr (Ok false).

Definition isPrimeLucas (n limit : Z) : result bool :=
  enforce (to_uint32 limit =? limit) "limit" "integer" ;;;
  if n <=? 1 then Ok false
  else if Z.land n 1 =? 0 then Ok (n =? 2)
  else
    found <- loop (budget 10000) (lucas_search_round n limit) 3 ;;
    match found with
    | inr verdict => Ok verdict
    | inl p =>
        let s := n + 1 in
        r <- zeroBits s ;;
        let nm2 := n - 2 in
        let s := Z.shiftr s r in
        bl <- bitLength s ;;
        xy <- loop (budget (bl + 1)) (lucas_double_round n p s) (bl, 2, p) ;;
        let '(x, y) := xy in
        let a := x * p in
        let b := Z.shiftl y 1 in
        let '(a, b) := if a <? b then (b, a) else (a, b) in
        if ((x =? 2) || (x =? nm2)) && (Z.rem (a - b) n =? 0) then Ok true
        else loop (budget r) (lucas_final_round n r) (0, x)
    end.

(** ** Two's complement *)

Definition toTwos (x width : Z) : Z :=
  if x <? 0 then notn (- x) width + 1 else x.

Definition fromTwos (x width : Z) : Z :=
  if testn x (width - 1) then - (notn x width + 1) else x.

(** ** Conversion to and from bytes

    A Node.js [Buffer] is a view of [buf_length] bytes, starting at
    [buf_offset], into a backing store [buf_store] that it may share with
    other buffers.  [fromBuffer] looks at the bytes of the store that
    precede the view when the view is not aligned to 8 bytes, so the store
    is part of the model.  A new buffer is placed after the bytes [pool]
    that are already in its store. *)

Record Buffer : Type := mk_Buffer {
  buf_store : list Z;
  buf_offset : Z;
  buf_length : Z
}.

Definition alloc_buffer (pool bytes : list Z) : Buffer :=
  {| buf_store := pool ++ bytes;
     buf_offset := Z.of_nat (List.length pool);
     buf_length := Z.of_nat (List.length bytes) |}.

(** [data[i]] *)
Definition buf_get (data : Buffer) (i : Z) : Z :=
  nth (Z.to_nat (buf_offset data + i)) (buf_store data) 0.

Definition contents (data : Buffer) : list Z :=
  firstn (Z.to_nat (buf_length data))
    (skipn (Z.to_nat (buf_offset data)) (buf_store data)).

(** [res[i] = v] on a list of elements; an index out of range writes
    nothing, as on a typed array. *)
Fixpoint list_set (l : list Z) (i : nat) (v : Z) : list Z :=
  match l, i with
  | [], _ => []
  | _ :: tl, O => v :: tl
  | hd :: tl, S i' => hd :: list_set tl i' v
  end.

Definition array_set (l : list Z) (i : Z) (v : Z) : list Z :=
  if i <? 0 then l else list_set l (Z.to_nat i) v.

Definition array_get (l : list Z) (i : Z) : Z :=
  if i <? 0 then 0 else nth (Z.to_nat i) l 0.

(** [reverse(data)] swaps in place, on the state [(i, j, data)]. *)
Definition reverse_round (s : Z * Z * list Z)
  : Z * Z * list Z + result (list Z) :=
  let '(i, j, data) := s in
  if i >? j then
    let di := array_get data i in
    let dj := array_get data j in
    inl (i - 1, j + 1, array_set (array_set data i dj) j di)
  else inr (Ok data).

Definition reverse (data : list Z) : result (list Z) :=
  let len := Z.of_nat (List.length data) in
  loop (budget len) reverse_round (len - 1, 0, data).

(** [reverse] on a buffer rewrites the bytes of its view. *)
Definition reverse_buffer (data : Buffer) : result Buffer :=
  r <- reverse (contents data) ;;
  let off := Z.to_nat (buf_offset data) in
  let len := Z.to_nat (buf_length data) in
  Ok {| buf_store := firstn off (buf_store data) ++ r
                     ++ skipn (off + len) (buf_store data);
        buf_offset := buf_offset data;
        buf_length := buf_length data |}.

(** The built-ins the conversions rest on, after the language's
    definition: [BigInt.prototype.toString(16)] on a number that is not
    negative, [String.prototype.padStart], and [Buffer.from(hex, 'hex')],
    which decodes pairs of hexadecimal digits up to the first pair that is
    not one. *)

Definition hex_char (d : Z) : ascii :=
  if d <? 10 then ascii_of_nat (Z.to_nat (48 + d))
  else ascii_of_nat (Z.to_nat (87 + d)).

Fixpoint hex_digits (fuel : nat) (n : Z) (acc : string) : string :=
  match fuel with
  | O => acc
  | S fuel' =>
      let acc := String (hex_char (n mod 16)) acc in
      if n / 16 =? 0 then acc else hex_digits fuel' (n / 16) acc
  end.

Definition toString16 (n : Z) : string := hex_digits (budget n) n EmptyString.

Fixpoint pad_fill (fill : nat) (cur pad : string) : string :=
  match fill with
  | O => EmptyString
  | S fill' =>
      match cur with
      | String c rest => String c (pad_fill fill' rest pad)
      | EmptyString =>
          match pad with
          | String c rest => String c (pad_fill fill' rest pad)
          | EmptyString => EmptyString
          end
      end
  end.

Definition padStart (s : string) (target : Z) (pad : string) : string :=
  let len := Z.of_nat (String.length s) in
  if target <=? len then s
  else pad_fill (Z.to_nat (target - len)) pad pad ++ s.

Definition hex_value (c : ascii) : option Z :=
  let k := Z.of_nat (nat_of_ascii c) in
  if (48 <=? k) && (k <=? 57) then Some (k - 48)
  else if (97 <=? k) && (k <=? 102) then Some (k - 87)
  else if (65 <=? k) && (k <=? 70) then Some (k - 55)
  else None.

Fixpoint hex_decode (s : string) : list Z :=
  match s with
  | String hi (String lo rest) =>
      match hex_value hi, hex_value lo with
      | Some h, Some l => (16 * h + l) :: hex_decode rest
      | _, _ => []
      end
  | _ => []
  end.

(** The [endian] argument: absent, or a string that must be ['be'] or
    ['le']. *)
Definition endian_or_be (endian : option string) : string :=
  match endian with Some e => e | None => "be" end.

Definition is_endian (endian : string) : bool :=
  String.eqb endian "be" || String.eqb endian "le".

Definition toBuffer (pool : list Z) (n : Z) (endian : option string)
  (length : option Z) : result Buffer :=
  let endian := endian_or_be endian in
  let length := match length with Some l => l | None => 0 end in
  enforce (is_endian endian) "endian" "endianness" ;;;
  enforce (to_uint32 length =? length) "length" "integer" ;;;
  let str := toString16 (abs n) in
  let str :=
    if negb (Z.land (Z.of_nat (String.length str)) 1 =? 0)
    then String "0" str else str in
  let bytes := Z.shiftr (Z.of_nat (String.length str)) 1 in
  let size := if negb (length =? 0) then length else Z.max 1 bytes in
  if bytes >? size then
    Throw (RangeError "Byte array longer than desired length.")
  else
    let hex := padStart str (size * 2) "00" in
    let out := alloc_buffer pool (hex_decode hex) in
    if String.eqb endian "le" then reverse_buffer out else Ok out.

(** The element [arr[i]] of a [BigUint64Array] over the bytes of [data],
    read in the byte order [ENDIAN] of the machine. *)
Definition uint64_at (ENDIAN : string) (data : Buffer) (i : Z) : Z :=
  let byte k := buf_get data (8 * i + k) in
  if String.eqb ENDIAN "be" then
    fold_left (fun acc k => Z.lor (Z.shiftl acc 8) (byte (Z.of_nat k)))
      (seq 0 8) 0
  else
    fold_left (fun acc k => Z.lor (Z.shiftl acc 8) (byte (Z.of_nat k)))
      (rev (seq 0 8)) 0.

(** The indices [from, from + 1, ..., to - 1]. *)
Definition upto (from to : Z) : list Z :=
  map (fun k => from + Z.of_nat k) (seq 0 (Z.to_nat (to - from))).

(** The second half of [fromBuffer]: the view is widened down to an
    address that is a multiple of 8, read as 64-bit words and single
    bytes in the byte order [ENDIAN] of the machine, and the bytes that
    are not the view's are dropped again. *)
Definition read_words (ENDIAN : string) (data : Buffer) : Z :=
  let unaligned := Z.land (buf_offset data) 7 in
  let data :=
    if negb (unaligned =? 0) then
      {| buf_store := buf_store data;
         buf_offset := buf_offset data - unaligned;
         buf_length := unaligned + buf_length data |}
    else data in
  let arr_length := Z.shiftr (buf_length data) 3 in
  let left := Z.land (buf_length data) 7 in
  let start := buf_length data - left in
  if String.eqb ENDIAN "be" then
    let n := fold_left (fun n i => Z.lor (Z.shiftl n 64) (uint64_at ENDIAN data i))
               (upto 0 arr_length) 0 in
    let n := fold_left (fun n i => Z.lor (Z.shiftl n 8) (buf_get data i))
               (upto start (buf_length data)) n in
    if negb (unaligned =? 0)
    then Z.land n (mask ((buf_length data - unaligned) * 8)) else n
  else
    let n := fold_left (fun n i => Z.lor (Z.shiftl n 8) (buf_get data i))
               (rev (upto start (buf_length data))) 0 in
    let n := fold_left (fun n i => Z.lor (Z.shiftl n 64) (uint64_at ENDIAN data i))
               (rev (upto 0 arr_length)) n in
    if negb (unaligned =? 0)
    then Z.shiftr n (unaligned * 8) else n.

(** [ENDIAN] is the byte order of the machine and [pool] the bytes before
    the copy that is made when the two byte orders differ. *)
Definition fromBuffer (ENDIAN : string) (pool : list Z) (data : Buffer)
  (endian : option string) : result Z :=
  let endian := endian_or_be endian in
  enforce (is_endian endian) "endian" "endianness" ;;;
  data <- (if negb (String.eqb endian ENDIAN)
           then reverse_buffer (alloc_buffer pool (contents data))
           else Ok data) ;;
  Ok (read_words ENDIAN data).

(** [while (q > 0n) { res[i--] = Number(q & 0xffn); q >>= 8n; }] and its
    little-endian twin, on the state [(q, i, res)]. *)
Definition bytes_round (dir : Z) (s : Z * Z * list Z)
  : Z * Z * list Z + result (Z * list Z) :=
  let '(q, i, res) := s in
  if q >? 0 then inl (Z.shiftr q 8, i + dir, array_set res i (Z.land q 255))
  else inr (Ok (i, res)).

(** The constructors an array-like value can be asked for or made by.
    [OtherT] stands for any other constructor whose instances hold the
    numbers that are written to their elements, as [Uint16Array] or a
    class of array-like objects do.  A constructor on which the write of
    a number raises or fails, as the typed arrays of BigInts, is outside
    the model. *)
Inductive ArrayType : Type :=
| BufferT | ArrayT | Int8ArrayT | Uint8ArrayT | Uint8ClampedArrayT | OtherT.

(** [allocate(ArrayType, size)]: [size] elements, each holding [junk]
    until it is written. *)
Definition allocate (junk : Z) (type : ArrayType) (size : Z) : list Z :=
  repeat junk (Z.to_nat size).

Definition toArrayLike (junk : Z) (n : Z) (type : ArrayType)
  (endian : option string) (length : option Z) : result (list Z) :=
  let endian := endian_or_be endian in
  let length := match length with Some l => l | None => 0 end in
  enforce (is_endian endian) "endian" "endianness" ;;;
  enforce (to_uint32 length =? length) "length" "integer" ;;;
  bytes <- byteLength n ;;
  let size := if negb (length =? 0) then length else Z.max 1 bytes in
  if bytes >? size then
    Throw (RangeError "Byte array longer than desired length.")
  else
    let res := allocate junk type size in
    let q := abs n in
    if String.eqb endian "be" then
      ir <- loop (budget q) (bytes_round (-1)) (q, size - 1, res) ;;
      let '(i, res) := ir in
      Ok (fold_left (fun res i => array_set res i 0) (rev (upto 0 (i + 1))) res)
    else
      ir <- loop (budget q) (bytes_round 1) (q, 0, res) ;;
      let '(i, res) := ir in
      Ok (fold_left (fun res i => array_set res i 0) (upto i size) res).

Definition fromArrayLike (data : list Z) (endian : option string) : result Z :=
  let endian := endian_or_be endian in
  enforce (is_endian endian) "endian" "endianness" ;;;
  let len := Z.of_nat (List.length data) in
  if len <=? 0 then Ok 0
  else if String.eqb endian "be" then
    Ok (fold_left (fun n i => Z.lor (Z.shiftl n 8) (array_get data i))
          (upto 0 len) 0)
  else
    Ok (fold_left (fun n i => Z.lor (Z.shiftl n 8) (array_get data i))
          (rev (upto 0 len)) 0).

(** ** The classes

    A reduction context is an object: two contexts are the same context
    only if they are the same object, whatever their moduli.  [red_ref]
    is the identity of the object (its reference), which the caller of the
    constructor supplies fresh; [a === b] on contexts compares it. *)

Record Red : Type := mk_Red {
  red_ref : nat;
  red_m : Z
}.

Definition same_object (a b : Red) : bool := Nat.eqb (red_ref a) (red_ref b).

(** A big number: its BigInt [n] and the context it is tagged with, if
    any ([this.red], [null] when untagged). *)
Record BN : Type := mk_BN {
  bn_n : Z;
  bn_red : option Red
}.

(** [new BN(n)] from a BigInt. *)
Definition new_BN (n : Z) : BN := {| bn_n := n; bn_red := None |}.

Definition is_tagged (a : BN) : bool :=
  match bn_red a with Some _ => true | None => false end.

(** The named primes of the catalogue. *)
Definition prime_by_name (name : string) : result Z :=
  if String.eqb name "p192" then Ok (2 ^ 192 - 2 ^ 64 - 1)
  else if String.eqb name "p224" then Ok (2 ^ 224 - 2 ^ 96 + 1)
  else if String.eqb name "p521" then Ok (2 ^ 521 - 1)
  else if String.eqb name "k256" then Ok (2 ^ 256 - 2 ^ 32 - 977)
  else if String.eqb name "p25519" then Ok (2 ^ 255 - 19)
  else if String.eqb name "p448" then Ok (2 ^ 448 - 2 ^ 224 - 1)
  else Throw (Error ("Unknown prime " ++ name)).

(** *** class BN

    An in-place method answers the receiver as it is after the call; the
    pure form runs the in-place one on a clone.  Arguments that the source
    checks to be big numbers are big numbers by their type. *)

Module BN.

Definition negative (this : BN) : Z := if bn_n this <? 0 then 1 else 0.

Definition set_n (this : BN) (v : Z) : BN :=
  {| bn_n := v; bn_red := bn_red this |}.

Definition inject (this num : BN) : BN :=
  {| bn_n := bn_n num; bn_red := bn_red num |}.

Definition clone (this : BN) : BN := inject (new_BN 0) this.

(** Addition, subtraction, multiplication *)

Definition iadd (this num : BN) : result BN :=
  Ok (set_n this (bn_n this + bn_n num)).

Definition iaddn (this : BN) (num : Z) : result BN :=
  enforce (isSMI num) "num" "smi" ;;;
  Ok (set_n this (bn_n this + num)).

Definition add (this num : BN) : result BN := iadd (clone this) num.

Definition addn (this : BN) (num : Z) : result BN := iaddn (clone this) num.

Definition isub (this num : BN) : result BN :=
  Ok (set_n this (bn_n this - bn_n num)).

Definition isubn (this : BN) (num : Z) : result BN :=
  enforce (isSMI num) "num" "smi" ;;;
  Ok (set_n this (bn_n this - num)).

Definition sub (this num : BN) : result BN := isub (clone this) num.

Definition subn (this : BN) (num : Z) : result BN := isubn (clone this) num.

Definition imul (this num : BN) : result BN :=
  Ok (set_n this (bn_n this * bn_n num)).

Definition imuln (this : BN) (num : Z) : result BN :=
  enforce (isSMI num) "num" "smi" ;;;
  Ok (set_n this (bn_n this * num)).

Definition mul (this num : BN) : result BN := imul (clone this) num.

Definition muln (this : BN) (num : Z) : result BN := imuln (clone this) num.

(** Truncation division and modulo *)

Definition quorem (this num : BN) : result (BN * BN) :=
  nonzero (negb (bn_n num =? 0)) ;;;
  qr <- quorem (bn_n this) (bn_n num) ;;
  Ok (new_BN (fst qr), new_BN (snd qr)).

Definition iquo (this num : BN) : result BN :=
  nonzero (negb (bn_n num =? 0)) ;;;
  Ok (set_n this (Z.quot (bn_n this) (bn_n num))).

Definition iquon (this : BN) (num : Z) : result BN :=
  enforce (isSMI num) "num" "smi" ;;;
  nonzero (negb (num =? 0)) ;;;
  Ok (set_n this (Z.quot (bn_n this) num)).

Definition quo (this num : BN) : result BN := iquo (clone this) num.

Definition quon (this : BN) (num : Z) : result BN := iquon (clone this) num.

Definition irem (this num : BN) : result BN :=
  nonzero (negb (bn_n num =? 0)) ;;;
  Ok (set_n this (Z.rem (bn_n this) (bn_n num))).

Definition iremn (this : BN) (num : Z) : result BN :=
  enforce (isSMI num) "num" "smi" ;;;
  nonzero (negb (num =? 0)) ;;;
  Ok (set_n this (Z.rem (bn_n this) num)).

Definition rem (this num : BN) : result BN := irem (clone this) num.

Definition remn (this : BN) (num : Z) : result BN := iremn (clone this) num.

(** Euclidean division and modulo *)

Definition divmod (this num : BN) : result (BN * BN) :=
  nonzero (negb (bn_n num =? 0)) ;;;
  qr <- divmod (bn_n this) (bn_n num) ;;
  Ok (new_BN (fst qr), new_BN (snd qr)).

Definition idiv (this num : BN) : result BN :=
  nonzero (negb (bn_n num =? 0)) ;;;
  q <- div (bn_n this) (bn_n num) ;;
  Ok (set_n this q).

Definition idivn (this : BN) (num : Z) : result BN :=
  enforce (isSMI num) "num" "smi" ;;;
  nonzero (negb (num =? 0)) ;;;
  q <- div (bn_n this) num ;;
  Ok (set_n this q).

Definition div (this num : BN) : result BN := idiv (clone this) num.

Definition divn (this : BN) (num : Z) : result BN := idivn (clone this) num.

Definition imod (this num : BN) : result BN :=
  nonzero (negb (bn_n num =? 0)) ;;;
  r <- mod' (bn_n this) (bn_n num) ;;
  Ok (set_n this r).

Definition imodn (this : BN) (num : Z) : result BN :=
  enforce (isSMI num) "num" "smi" ;;;
  nonzero (negb (num =? 0)) ;;;
  r <- mod' (bn_n this) num ;;
  Ok (set_n this r).

Definition mod' (this num : BN) : result BN := imod (clone this) num.

Definition modn (this : BN) (num : Z) : result BN := imodn (clone this) num.

Definition divRound (this num : BN) : result BN :=
  nonzero (negb (bn_n num =? 0)) ;;;
  q <- divRound (bn_n this) (bn_n num) ;;
  Ok (new_BN q).

(** Exponentiation *)

Definition ipow (this num : BN) : result BN :=
  v <- bigint_pow (bn_n this) (abs (bn_n num)) ;;
  Ok (set_n this v).

Definition ipown (this : BN) (num : Z) : result BN :=
  enforce (isSMI num) "num" "smi" ;;;
  v <- bigint_pow (bn_n this) (abs num) ;;
  Ok (set_n this v).

Definition pow (this num : BN) : result BN := ipow (clone this) num.

Definition pown (this : BN) (num : Z) : result BN := ipown (clone this) num.

Definition isqr (this : BN) : result BN :=
  v <- bigint_pow (bn_n this) 2 ;;
  Ok (set_n this v).

Definition sqr (this : BN) : result BN := isqr (clone this).

Definition isqrt (this : BN) : result BN :=
  range (negative this =? 0) "isqrt" ;;;
  r <- sqrt (bn_n this) ;;
  Ok (set_n this r).

Definition sqrt (this : BN) : result BN := isqrt (clone this).

Definition isSquare (this : BN) : result bool := isSquare (bn_n this).

(** AND, OR, XOR and their unsigned forms *)

Definition iand (this num : BN) : result BN :=
  Ok (set_n this (Z.land (bn_n this) (bn_n num))).

Definition iandn (this : BN) (num : Z) : result BN :=
  enforce (isSMI num) "num" "smi" ;;;
  Ok (set_n this (Z.land (bn_n this) num)).

Definition and (this num : BN) : result BN := iand (clone this) num.

Definition andn (this : BN) (num : Z) : result BN := iandn (clone this) num.

Definition iuand (this num : BN) : result BN :=
  Ok (set_n this (uand (bn_n this) (bn_n num))).

Definition iuandn (this : BN) (num : Z) : result BN :=
  enforce (isSMI num) "num" "smi" ;;;
  Ok (set_n this (uandn (bn_n this) num)).

Definition uand (this num : BN) : result BN := iuand (clone this) num.

Definition uandn (this : BN) (num : Z) : result BN := iuandn (clone this) num.

Definition ior (this num : BN) : result BN :=
  Ok (set_n this (Z.lor (bn_n this) (bn_n num))).

Definition iorn (this : BN) (num : Z) : result BN :=
  enforce (isSMI num) "num" "smi" ;;;
  Ok (set_n this (Z.lor (bn_n this) num)).

Definition or (this num : BN) : result BN := ior (clone this) num.

Definition orn (this : BN) (num : Z) : result BN := iorn (clone this) num.

Definition iuor (this num : BN) : result BN :=
  Ok (set_n this (uor (bn_n this) (bn_n num))).

Definition iuorn (this : BN) (num : Z) : result BN :=
  enforce (isSMI num) "num" "smi" ;;;
  Ok (set_n this (uorn (bn_n this) num)).

Definition uor (this num : BN) : result BN := iuor (clone this) num.

Definition uorn (this : BN) (num : Z) : result BN := iuorn (clone this) num.

Definition ixor (this num : BN) : result BN :=
  Ok (set_n this (Z.lxor (bn_n this) (bn_n num))).

Definition ixorn (this : BN) (num : Z) : result BN :=
  enforce (isSMI num) "num" "smi" ;;;
  Ok (set_n this (Z.lxor (bn_n this) num)).

Definition xor (this num : BN) : result BN := ixor (clone this) num.

Definition xorn (this : BN) (num : Z) : result BN := ixorn (clone this) num.

Definition iuxor (this num : BN) : result BN :=
  Ok (set_n this (uxor (bn_n this) (bn_n num))).

Definition iuxorn (this : BN) (num : Z) : result BN :=
  enforce (isSMI num) "num" "smi" ;;;
  Ok (set_n this (uxorn (bn_n this) num)).

(** As in the source, the pure form goes through [ixor]. *)
Definition uxor (this num : BN) : result BN := ixor (clone this) num.

Definition uxorn (this : BN) (num : Z) : result BN := iuxorn (clone this) num.

(** NOT *)

Definition inot (this : BN) : result BN :=
  Ok (set_n this (Z.lnot (bn_n this))).

Definition not (this : BN) : result BN := inot (clone this).

Definition inotn (this : BN) (width : Z) : result BN :=
  enforce (isInteger width) "width" "integer" ;;;
  range (width >=? 0) "inotn" ;;;
  Ok (set_n this (notn (bn_n this) width)).

Definition notn (this : BN) (width : Z) : result BN := inotn (clone this) width.

(** Shifts *)

Definition ishl (this num : BN) : result BN :=
  range (negative num =? 0) "ishl" ;;;
  Ok (set_n this (Z.shiftl (bn_n this) (bn_n num))).

Definition ishln (this : BN) (bits : Z) : result BN :=
  enforce (isInteger bits) "bits" "integer" ;;;
  range (bits >=? 0) "ishln" ;;;
  Ok (set_n this (Z.shiftl (bn_n this) bits)).

Definition shl (this num : BN) : result BN := ishl (clone this) num.

Definition shln (this : BN) (bits : Z) : result BN := ishln (clone this) bits.

Definition iushl (this num : BN) : result BN :=
  range (negative num =? 0) "iushl" ;;;
  Ok (set_n this (Z.shiftl (bn_n this) (bn_n num))).

Definition iushln (this : BN) (bits : Z) : result BN :=
  enforce (isInteger bits) "bits" "integer" ;;;
  range (bits >=? 0) "iushln" ;;;
  Ok (set_n this (Z.shiftl (bn_n this) bits)).

Definition ushl (this num : BN) : result BN := iushl (clone this) num.

Definition ushln (this : BN) (bits : Z) : result BN := iushln (clone this) bits.

Definition ishr (this num : BN) : result BN :=
  range (negative num =? 0) "ishr" ;;;
  Ok (set_n this (Z.shiftr (bn_n this) (bn_n num))).

Definition ishrn (this : BN) (bits : Z) : result BN :=
  enforce (isInteger bits) "bits" "integer" ;;;
  range (bits >=? 0) "ishrn" ;;;
  Ok (set_n this (Z.shiftr (bn_n this) bits)).

Definition shr (this num : BN) : result BN := ishr (clone this) num.

Definition shrn (this : BN) (bits : Z) : result BN := ishrn (clone this) bits.

Definition iushr (this num : BN) : result BN :=
  range (negative num =? 0) "iushr" ;;;
  Ok (set_n this (ushr (bn_n this) (bn_n num))).

Definition iushrn (this : BN) (bits : Z) : result BN :=
  enforce (isInteger bits) "bits" "integer" ;;;
  range (bits >=? 0) "iushrn" ;;;
  Ok (set_n this (ushrn (bn_n this) bits)).

Definition ushr (this num : BN) : result BN := iushr (clone this) num.

Definition ushrn (this : BN) (bits : Z) : result BN := iushrn (clone this) bits.

(** Negation, comparison *)

Definition ineg (this : BN) : result BN := Ok (set_n this (- bn_n this)).

Definition neg (this : BN) : result BN := ineg (clone this).

Definition iabs (this : BN) : result BN := Ok (set_n this (abs (bn_n this))).

Definition abs (this : BN) : result BN := iabs (clone this).

Definition cmp (this num : BN) : Z := cmp (bn_n this) (bn_n num).

Definition eq (this num : BN) : bool := bn_n this =? bn_n num.

Definition sign (this : BN) : Z :=
  (if bn_n this >? 0 then 1 else 0) - (if bn_n this <? 0 then 1 else 0).

Definition isZero (this : BN) : bool := bn_n this =? 0.

Definition isNeg (this : BN) : bool := bn_n this <? 0.

Definition isOdd (this : BN) : bool := Z.land (bn_n this) 1 =? 1.

Definition isEven (this : BN) : bool := Z.land (bn_n this) 1 =? 0.

Definition ucmp (this num : BN) : Z := ucmp (bn_n this) (bn_n num).

(** Number theoretic functions *)

Definition legendre (this num : BN) : result Z :=
  legendre (bn_n this) (bn_n num).

Definition jacobi (this num : BN) : result Z := jacobi (bn_n this) (bn_n num).

Definition igcd (this num : BN) : result BN :=
  g <- gcd (bn_n this) (bn_n num) ;;
  Ok (set_n this g).

Definition gcd (this num : BN) : result BN := igcd (clone this) num.

Definition egcd (this p : BN) : result (BN * BN * BN) :=
  r <- egcd (bn_n this) (bn_n p) ;;
  let '(a, b, g) := r in
  Ok (new_BN a, new_BN b, new_BN g).

Definition iinvert (this num : BN) : result BN :=
  range (bn_n num >=? 1) "iinvert" ;;;
  t <- invert (bn_n this) (bn_n num) ;;
  Ok (set_n this t).

Definition invert (this num : BN) : result BN := iinvert (clone this) num.

Definition ifermat (this num : BN) : result BN :=
  range (bn_n num >=? 1) "ifermat" ;;;
  t <- fermat (bn_n this) (bn_n num) ;;
  Ok (set_n this t).

Definition fermat (this num : BN) : result BN := ifermat (clone this) num.

Definition ipowm (this y m : BN) : result BN :=
  range (bn_n m >=? 1) "ipowm" ;;;
  nonred (negb (is_tagged this) && negb (is_tagged y)) "ipowm" ;;;
  r <- powm (bn_n this) (bn_n y) (bn_n m) ;;
  Ok (set_n this r).

Definition ipowmn (this : BN) (y : Z) (m : BN) : result BN :=
  enforce (isSMI y) "y" "smi" ;;;
  range (bn_n m >=? 1) "ipowmn" ;;;
  nonred (negb (is_tagged this)) "ipowmn" ;;;
  r <- powm (bn_n this) y (bn_n m) ;;
  Ok (set_n this r).

Definition powm (this y m : BN) : result BN := ipowm (clone this) y m.

Definition powmn (this : BN) (y : Z) (m : BN) : result BN :=
  ipowmn (clone this) y m.

Definition isqrtm (fuel : nat) (this p : BN) : result BN :=
  range (bn_n p >=? 1) "isqrtm" ;;;
  nonred (negb (is_tagged this)) "isqrtm" ;;;
  r <- sqrtm fuel (bn_n this) (bn_n p) ;;
  Ok (set_n this r).

Definition sqrtm (fuel : nat) (this p : BN) : result BN :=
  isqrtm fuel (clone this) p.

Definition isPrimeLucas (this : BN) (limit : Z) : result bool :=
  isPrimeLucas (bn_n this) limit.

Definition toTwos (this : BN) (width : Z) : result BN :=
  enforce (isInteger width) "width" "integer" ;;;
  Ok (new_BN (toTwos (bn_n this) width)).

Definition fromTwos (this : BN) (width : Z) : result BN :=
  enforce (isInteger width) "width" "integer" ;;;
  range (width >? 0) "width" ;;;
  Ok (new_BN (fromTwos (bn_n this) width)).

(** [_forceRed] *)
Definition forceRed_ (this : BN) (ctx : Red) : BN :=
  {| bn_n := bn_n this; bn_red := Some ctx |}.

Definition byteLength (this : BN) : result Z := byteLength (bn_n this).

Definition bitLength (this : BN) : result Z := bitLength (bn_n this).

Definition zeroBits (this : BN) : result Z := zeroBits (bn_n this).

(** Conversion *)

(** What [toArrayLike] answers: a buffer, an array, a typed array over the
    store of a buffer, or an object made by another constructor. *)
Inductive ArrayLike : Type :=
| IsBuffer (b : Buffer)
| IsArray (elems : list Z)
| IsTyped (type : ArrayType) (view : Buffer)
| IsOther (elems : list Z).

Definition to_int8 (v : Z) : Z := if v >=? 128 then v - 256 else v.

(** The elements an array-like value shows when it is indexed. *)
Definition elements (a : ArrayLike) : list Z :=
  match a with
  | IsBuffer b => contents b
  | IsArray elems => elems
  | IsTyped Int8ArrayT view => map to_int8 (contents view)
  | IsTyped _ view => contents view
  | IsOther elems => elems
  end.

Definition toBuffer (pool : list Z) (this : BN) (endian : option string)
  (length : option Z) : result Buffer :=
  toBuffer pool (bn_n this) endian length.

Definition toArray (pool : list Z) (this : BN) (endian : option string)
  (length : option Z) : result (list Z) :=
  buf <- toBuffer pool this endian length ;;
  Ok (contents buf).

Definition toArrayLike (pool : list Z) (junk : Z) (this : BN)
  (type : ArrayType) (endian : option string) (length : option Z)
  : result ArrayLike :=
  match type with
  | BufferT => buf <- toBuffer pool this endian length ;; Ok (IsBuffer buf)
  | ArrayT => a <- toArray pool this endian length ;; Ok (IsArray a)
  | Int8ArrayT | Uint8ArrayT | Uint8ClampedArrayT =>
      buf <- toBuffer pool this endian length ;;
      Ok (IsTyped type buf)
  | OtherT =>
      a <- toArrayLike junk (bn_n this) type endian length ;;
      Ok (IsOther a)
  end.

Definition encode (pool : list Z) (this : BN) (endian : option string)
  (length : option Z) : result Buffer :=
  toBuffer pool this endian length.

Definition fromArray (this : BN) (data : list Z) (endian : option string)
  : result BN :=
  v <- fromArrayLike data endian ;;
  Ok (set_n this v).

Definition fromBuffer (ENDIAN : string) (pool : list Z) (this : BN)
  (data : Buffer) (endian : option string) : result BN :=
  v <- fromBuffer ENDIAN pool data endian ;;
  Ok (set_n this v).

Definition fromArrayLike (ENDIAN : string) (pool : list Z) (this : BN)
  (data : ArrayLike) (endian : option string) : result BN :=
  match data with
  | IsBuffer b => fromBuffer ENDIAN pool this b endian
  | IsArray elems => fromArray this elems endian
  | IsTyped _ view => fromBuffer ENDIAN pool this view endian
  | IsOther elems =>
      v <- fromArrayLike elems endian ;;
      Ok (set_n this v)
  end.

Definition decode (ENDIAN : string) (pool : list Z) (this : BN)
  (data : Buffer) (endian : option string) : result BN :=
  fromBuffer ENDIAN pool this data endian.

End BN.

(** *** class Red: the reduction engine *)

Module Red.

(** [new Red(m)], for a modulus given as a big number or as the name of a
    catalogue prime; [ref] is the reference of the new object. *)
Definition create (ref : nat) (m : string + BN) : result Red :=
  m <- match m with
       | inl name => prime_by_name name
       | inr m => Ok (bn_n m)
       end ;;
  range (m >=? 1) "reduction" ;;;
  Ok {| red_ref := ref; red_m := m |}.

Definition verify1 (this : Red) (a : BN) : result unit :=
  range (BN.negative a =? 0) "red" ;;;
  red (is_tagged a) "red".

Definition verify2 (this : Red) (a b : BN) : result unit :=
  range (Z.lor (BN.negative a) (BN.negative b) =? 0) "red" ;;;
  red (match bn_red a, bn_red b with
       | Some ra, Some rb => same_object ra rb
       | _, _ => false
       end) "red".

Definition ineg (this : Red) (a : BN) : result BN :=
  verify1 this a ;;;
  if negb (bn_n a =? 0) then Ok (BN.set_n a (red_m this - bn_n a))
  else Ok a.

Definition neg (this : Red) (a : BN) : result BN := ineg this (BN.clone a).

Definition iadd (this : Red) (a b : BN) : result BN :=
  verify2 this a b ;;;
  let n := bn_n a + bn_n b in
  let n := if n >=? red_m this then n - red_m this else n in
  Ok (BN.set_n a n).

Definition add (this : Red) (a b : BN) : result BN := iadd this (BN.clone a) b.

Definition isub (this : Red) (a b : BN) : result BN :=
  verify2 this a b ;;;
  let n := bn_n a - bn_n b in
  let n := if n <? 0 then n + red_m this else n in
  Ok (BN.set_n a n).

Definition sub (this : Red) (a b : BN) : result BN := isub this (BN.clone a) b.

Definition ishln (this : Red) (a : BN) (num : Z) : result BN :=
  verify1 this a ;;;
  let n := Z.shiftl (bn_n a) num in
  let n := Z.rem n (red_m this) in
  Ok (BN.set_n a n).

Definition shln (this : Red) (a : BN) (num : Z) : result BN :=
  ishln this (BN.clone a) num.

Definition imul (this : Red) (a b : BN) : result BN :=
  verify2 this a b ;;;
  let n := bn_n a * bn_n b in
  let n := Z.rem n (red_m this) in
  Ok (BN.set_n a n).

Definition mul (this : Red) (a b : BN) : result BN :=
  verify2 this a b ;;;
  imul this (BN.clone a) b.

Definition isqr (this : Red) (a : BN) : result BN :=
  verify1 this a ;;;
  let n := bn_n a ^ 2 in
  let n := Z.rem n (red_m this) in
  Ok (BN.set_n a n).

Definition sqr (this : Red) (a : BN) : result BN := isqr this (BN.clone a).

Definition isqrt (fuel : nat) (this : Red) (a : BN) : result BN :=
  verify1 this a ;;;
  r <- sqrtm fuel (bn_n a) (red_m this) ;;
  Ok (BN.set_n a r).

Definition sqrt (fuel : nat) (this : Red) (a : BN) : result BN :=
  isqrt fuel this (BN.clone a).

Definition iinvert (this : Red) (a : BN) : result BN :=
  verify1 this a ;;;
  r <- invert (bn_n a) (red_m this) ;;
  Ok (BN.set_n a r).

Definition invert (this : Red) (a : BN) : result BN :=
  iinvert this (BN.clone a).

Definition ifermat (this : Red) (a : BN) : result BN :=
  verify1 this a ;;;
  r <- fermat (bn_n a) (red_m this) ;;
  Ok (BN.set_n a r).

Definition fermat (this : Red) (a : BN) : result BN :=
  ifermat this (BN.clone a).

Definition legendre (this : Red) (a : BN) : result Z :=
  verify1 this a ;;;
  legendre (bn_n a) (red_m this).

Definition jacobi (this : Red) (a : BN) : result Z :=
  verify1 this a ;;;
  jacobi (bn_n a) (red_m this).

Definition ipow (this : Red) (a num : BN) : result BN :=
  verify1 this a ;;;
  r <- powm (bn_n a) (bn_n num) (red_m this) ;;
  Ok (BN.set_n a r).

Definition pow (this : Red) (a num : BN) : result BN :=
  ipow this (BN.clone a) num.

Definition ipown (this : Red) (a : BN) (num : Z) : result BN :=
  verify1 this a ;;;
  r <- powm (bn_n a) num (red_m this) ;;
  Ok (BN.set_n a r).

Definition pown (this : Red) (a : BN) (num : Z) : result BN :=
  ipown this (BN.clone a) num.

Definition convertTo (this : Red) (num : BN) : result BN :=
  r <- mod' (bn_n num) (red_m this) ;;
  Ok {| bn_n := r; bn_red := Some this |}.

Definition convertFrom (this : Red) (num : BN) : result BN :=
  let res := BN.clone num in
  Ok {| bn_n := bn_n res; bn_red := None |}.

End Red.

(** *** class BN, continued: the methods of a number in a reduction context *)

Module BNRed.

(** [red(this.red, name)] followed by a call through [this.red]. *)
Definition the_red (this : BN) (name : string) : result Red :=
  match bn_red this with
  | Some ctx => Ok ctx
  | None => Throw (red_error name)
  end.

Definition toRed (this : BN) (ctx : Red) : result BN :=
  if is_tagged this then Throw (Error "Already in reduction context.")
  else
    r <- Red.convertTo ctx this ;;
    Ok (BN.forceRed_ r ctx).

Definition fromRed (this : BN) : result BN :=
  ctx <- the_red this "fromRed" ;;
  Red.convertFrom ctx this.

Definition forceRed (this : BN) (ctx : Red) : result BN :=
  if is_tagged this then Throw (Error "Already in reduction context.")
  else Ok (BN.forceRed_ this ctx).

Definition redIAdd (this num : BN) : result BN :=
  ctx <- the_red this "redIAdd" ;; Red.iadd ctx this num.

Definition redAdd (this num : BN) : result BN :=
  ctx <- the_red this "redAdd" ;; Red.add ctx this num.

Definition redISub (this num : BN) : result BN :=
  ctx <- the_red this "redISub" ;; Red.isub ctx this num.

Definition redSub (this num : BN) : result BN :=
  ctx <- the_red this "redSub" ;; Red.sub ctx this num.

Definition redIShln (this : BN) (num : Z) : result BN :=
  enforce (isInteger num) "num" "integer" ;;;
  ctx <- the_red this "redIShln" ;; Red.ishln ctx this num.

Definition redShln (this : BN) (num : Z) : result BN :=
  enforce (isInteger num) "num" "integer" ;;;
  ctx <- the_red this "redShln" ;; Red.shln ctx this num.

Definition redIMul (this num : BN) : result BN :=
  ctx <- the_red this "redIMul" ;; Red.imul ctx this num.

Definition redMul (this num : BN) : result BN :=
  ctx <- the_red this "redMul" ;; Red.mul ctx this num.

Definition redISqr (this : BN) : result BN :=
  ctx <- the_red this "redISqr" ;; Red.isqr ctx this.

Definition redSqr (this : BN) : result BN :=
  ctx <- the_red this "redSqr" ;; Red.sqr ctx this.

Definition redISqrt (fuel : nat) (this : BN) : result BN :=
  ctx <- the_red this "redISqrt" ;; Red.isqrt fuel ctx this.

Definition redSqrt (fuel : nat) (this : BN) : result BN :=
  ctx <- the_red this "redSqrt" ;; Red.sqrt fuel ctx this.

Definition redIInvert (this : BN) : result BN :=
  ctx <- the_red this "redIInvert" ;; Red.iinvert ctx this.

Definition redInvert (this : BN) : result BN :=
  ctx <- the_red this "redInvert" ;; Red.invert ctx this.

Definition redIFermat (this : BN) : result BN :=
  ctx <- the_red this "redIFermat" ;; Red.ifermat ctx this.

Definition redFermat (this : BN) : result BN :=
  ctx <- the_red this "redFermat" ;; Red.fermat ctx this.

Definition redINeg (this : BN) : result BN :=
  ctx <- the_red this "redINeg" ;; Red.ineg ctx this.

Definition redNeg (this : BN) : result BN :=
  ctx <- the_red this "redNeg" ;; Red.neg ctx this.

Definition redLegendre (this : BN) : result Z :=
  ctx <- the_red this "redLegendre" ;; Red.legendre ctx this.

Definition redJacobi (this : BN) : result Z :=
  ctx <- the_red this "redJacobi" ;; Red.jacobi ctx this.

Definition redIPow (this num : BN) : result BN :=
  ctx <- the_red this "redIPow" ;;
  nonred (negb (is_tagged num)) "redIPow" ;;;
  Red.ipow ctx this num.

Definition redPow (this num : BN) : result BN :=
  ctx <- the_red this "redPow" ;;
  nonred (negb (is_tagged num)) "redPow" ;;;
  Red.pow ctx this num.

Definition redIPown (this : BN) (num : Z) : result BN :=
  enforce (isSMI num) "num" "smi" ;;;
  ctx <- the_red this "redIPown" ;; Red.ipown ctx this num.

Definition redPown (this : BN) (num : Z) : result BN :=
  enforce (isSMI num) "num" "smi" ;;;
  ctx <- the_red this "redPown" ;; Red.pown ctx this num.

End BNRed.

(** ** Vocabulary of the statements *)

(** The sign an unsigned operation keeps: that of the receiver, zero
    counting as positive. *)
Definition sign_of (x : Z) : Z := if x <? 0 then -1 else 1.

(** A number tagged with the context [ctx] and holding the canonical
    residue of its class. *)
Definition canonical (ctx : Red) (a : BN) : Prop :=
  bn_red a = Some ctx /\ 0 <= bn_n a < red_m ctx.

(** ** Invariants of the loops *)

(** [egcd]: both remainders are combinations of the magnitudes of the
    arguments and keep their greatest common divisor. *)
Definition egcd_inv (a b : Z) (st : egcd_state) : Prop :=
  0 <= eg_r st /\ 0 <= eg_or st
  /\ eg_or st = eg_os st * Z.abs a + eg_ot st * Z.abs b
  /\ eg_r st = eg_s st * Z.abs a + eg_t st * Z.abs b
  /\ Z.gcd (eg_or st) (eg_r st) = Z.gcd a b.

(** [invert], for [0 <= x < y]: the remainders decrease, each is congruent
    to its coefficient times [x], the coefficients alternate in sign and
    grow in magnitude, and their cross product with the remainders is
    [y]. *)
Definition invert_inv (x y : Z) (st : inv_state) : Prop :=
  0 <= iv_nr st < iv_r st
  /\ (exists u, iv_r st = iv_t st * x + u * y)
  /\ (exists v, iv_nr st = iv_nt st * x + v * y)
  /\ Z.gcd (iv_r st) (iv_nr st) = Z.gcd x y
  /\ (exists s, (s = 1 \/ s = -1)
        /\ 0 <= - s * iv_t st <= s * iv_nt st
        /\ s * iv_nt st * iv_r st - s * iv_t st * iv_nr st = y).

(** [powm], on the state [(x, y, r)]: the product of [r] and the power
    still to be taken is the wanted residue [T]; [r] is reduced as soon as
    it has been multiplied once. *)
Definition powm_inv (m T : Z) (st : Z * Z * Z) : Prop :=
  let '(x, y, r) := st in
  0 <= x < m /\ 0 <= y /\ 0 <= r
  /\ (r < m \/ (r = 1 /\ 0 < y))
  /\ (r * x ^ y) mod m = T.

(** [zeroBits], on the state [(x, i)] of its loops: [i] factors of two
    have been taken out of the magnitude [X]. *)
Definition zeros_inv (X : Z) (s : Z * Z) : Prop :=
  0 < fst s /\ 0 <= snd s /\ X = 2 ^ snd s * fst s.

(** ** Bytes and byte orders *)

Definition is_byte (b : Z) : Prop := 0 <= b < 256.

(** The values the [endian] argument may take. *)
Definition endian_mode (endian : option string) : Prop :=
  endian = None \/ endian = Some "be"%string \/ endian = Some "le"%string.

Fixpoint all_hex (s : string) : Prop :=
  match s with
  | EmptyString => True
  | String c rest => (exists d, hex_value c = Some d /\ 0 <= d < 16) /\ all_hex rest
  end.

(** ** The Jacobi symbol algorithm *)

(** The sign changes of one round of [jacobi], which takes [2 ^ s] out
    of the numerator and swaps the rest, [c], with the denominator [b]. *)
Definition jacobi_flip (s b c j : Z) : Z :=
  let j :=
    if (s mod 2 =? 1) && ((b mod 8 =? 3) || (b mod 8 =? 5)) then - j else j in
  if (b mod 4 =? 3) && (c mod 4 =? 3) then - j else j.

(** ** The parameter search of the strong Lucas test *)

(** The round of the search at [P] goes on to [P + 1]: the symbol is 1,
    and the square test at [P = 40] does not end the search. *)
Definition search_passes (n P : Z) : Prop :=
  jacobi (P * P - 4) n = Ok 1 /\ (P = 40 -> isSquare n = Ok false).

(** The product of the [k] integers from [i] on, and the same modulo
    [q]. *)
Fixpoint zprod_from (i : Z) (k : nat) : Z :=
  match k with
  | O => 1
  | S k' => i * zprod_from (i + 1) k'
  end.

Fixpoint zprod_from_mod (q i : Z) (k : nat) : Z :=
  match k with
  | O => 1 mod q
  | S k' => (i * zprod_from_mod q (i + 1) k') mod q
  end.

(** An odd number on which the search passes every [P] up to 10000:
    one more than 8 times the factorial of 10002. *)
Definition lucas_witness : Z := 8 * zprod_from 1 (Z.to_nat 10002) + 1.

(** None of the [k] integers [r] from [r0] on has [r * r] congruent to
    [t] modulo [q]. *)
Fixpoint no_root_from (q t r0 : Z) (k : nat) : bool :=
  match k with
  | O => true
  | S k' => negb ((r0 * r0) mod q =? t) && no_root_from q t (r0 + 1) k'
  end.

(** ** The Jacobi symbol

    For an odd modulus [b = 2 h + 1], every [x] prime to [b] is
    congruent to exactly one of [1, ..., h] up to sign.  The symbol of
    [a] over [b] is the product of the signs of [a * 1, ..., a * h]
    (Gauss's lemma, taken as the definition), and 0 when [a] and [b]
    have a common factor. *)

Definition lprod (l : list Z) : Z := fold_right Z.mul 1 l.

Definition lsum (l : list Z) : Z := fold_right Z.add 0 l.

(** The list [1; 2; ...; h]. *)
Definition first_integers (h : nat) : list Z := map Z.of_nat (seq 1 h).

Definition half (b : Z) : Z := (b - 1) / 2.

Definition half_system (b : Z) : list Z := first_integers (Z.to_nat (half b)).

Definition abs_res (b x : Z) : Z :=
  let r := x mod b in if r <=? half b then r else b - r.

Definition sign_res (b x : Z) : Z :=
  let r := x mod b in if r <=? half b then 1 else -1.

Definition gauss_symbol (a b : Z) : Z :=
  lprod (map (fun k => sign_res b (a * k)) (half_system b)).

Definition jacobi_symbol (a b : Z) : Z :=
  if Z.gcd a b =? 1 then gauss_symbol a b else 0.

Definition parity_sign (n : Z) : Z := if n mod 2 =? 0 then 1 else -1.

(** The symbol of 2 over an odd [b], and the sign of the reciprocity
    law for odd [b] and [c]. *)
Definition two_symbol (b : Z) : Z :=
  if (b mod 8 =? 3) || (b mod 8 =? 5) then -1 else 1.

Definition reciprocity_sign (b c : Z) : Z :=
  if (b mod 4 =? 3) && (c mod 4 =? 3) then -1 else 1.

(** ** Polynomials modulo a prime

    A polynomial is the list of its coefficients, the constant one
    first.  [poly_quot r f] is the quotient of [f] by [x - r]. *)

Fixpoint poly_eval (f : list Z) (x : Z) : Z :=
  match f with
  | [] => 0
  | c :: f' => c + x * poly_eval f' x
  end.

Fixpoint poly_quot (r : Z) (f : list Z) : list Z :=
  match f with
  | [] => []
  | _ :: f' =>
      match f' with
      | [] => []
      | _ :: _ => poly_eval f' r :: poly_quot r f'
      end
  end.

(** [x ^ n - 1], for [0 < n]. *)
Definition power_minus_one (n : nat) : list Z :=
  -1 :: repeat 0 (Nat.pred n) ++ [1].

(** ** The Tonelli-Shanks loop of [sqrtm] *)

(** [a ^ (2 ^ i)] modulo [p]. *)
Definition pow2m (p a i : Z) : Z := a ^ (2 ^ i) mod p.

(** The invariant of the outer loop, for the square root of [x] modulo
    [p] with [p - 1 = 2 ^ e * s]: [y ^ 2 = x * b], the order of [b]
    divides [2 ^ (k - 1)], and the order of [g] is [2 ^ k]. *)
Definition tonelli_inv (p x e : Z) (st : ts_state) : Prop :=
  1 <= ts_k st <= e
  /\ 0 <= ts_y st < p /\ 0 <= ts_b st < p /\ 0 <= ts_g st < p
  /\ ts_y st ^ 2 mod p = (x * ts_b st) mod p
  /\ pow2m p (ts_b st) (ts_k st - 1) = 1
  /\ pow2m p (ts_g st) (ts_k st - 1) = p - 1.

(** ** Counting bits *)

(** The number of bits of [x >= 0]: 0 for 0, and [n] when
    [2 ^ (n - 1) <= x < 2 ^ n]. *)
Definition bit_count (x : Z) : Z := if x =? 0 then 0 else Z.log2 x + 1.

(** The invariant of the loops of [countWords] on [X]: the bits shifted
    out so far and the bits left add up to the bits of [X]. *)
Definition words_inv (X : Z) (s : Z * Z) : Prop :=
  0 <= fst s <= X /\ bit_count (fst s) + snd s = bit_count X.

(** ** Residues *)

(** The number [v] in the ring of the context [ctx]: its canonical
    residue, tagged with the context. *)
Definition residue (ctx : Red) (v : Z) : BN :=
  {| bn_n := v mod red_m ctx; bn_red := Some ctx |}.

(** ** Numbers as strings of bytes *)

(** The number that a list of bytes spells, most significant byte
    first. *)
Definition be_value (l : list Z) : Z :=
  fold_left (fun n b => n * 256 + b) l 0.

(** The [k] low bytes of [n], most significant byte first. *)
Fixpoint be_bytes (k : nat) (n : Z) : list Z :=
  match k with
  | O => []
  | S k' => (n / 256 ^ Z.of_nat k') mod 256 :: be_bytes k' n
  end.

(** The [k] low hexadecimal digits of [n], most significant digit
    first. *)
Fixpoint hex_string (k : nat) (n : Z) : string :=
  match k with
  | O => EmptyString
  | S k' => String (hex_char ((n / 16 ^ Z.of_nat k') mod 16)) (hex_string k' n)
  end.

(** The two readings in the byte order [endian]. *)
Definition bytes_in (endian : option string) (k : nat) (n : Z) : list Z :=
  if String.eqb (endian_or_be endian) "le" then rev (be_bytes k n)
  else be_bytes k n.

Definition value_in (endian : option string) (l : list Z) : Z :=
  if String.eqb (endian_or_be endian) "le" then be_value (rev l)
  else be_value l.

(** The [length] argument of [toBuffer] and [toArrayLike] leaves room for
    [n]: it is absent or zero, or a 32-bit count of bytes that holds the
    magnitude. *)
Definition fits (n : Z) (length : option Z) : Prop :=
  match length with
  | None => True
  | Some l => 0 <= l < 2 ^ 32 /\ (l = 0 \/ Z.abs n < 256 ^ l)
  end.

(** The size of the result: [length || Math.max(1, bytes)] for the
    least count [bytes] of bytes that hold the magnitude. *)
Definition byte_size (n : Z) (length : option Z) : Z :=
  match length with
  | Some l => if l =? 0 then Z.max 1 ((bit_count (Z.abs n) + 7) / 8) else l
  | None => Z.max 1 ((bit_count (Z.abs n) + 7) / 8)
  end.

(** A buffer whose view lies within its store, over a store of bytes. *)
Definition valid_buffer (data : Buffer) : Prop :=
  0 <= buf_offset data /\ 0 <= buf_length data
  /\ buf_offset data + buf_length data <= Z.of_nat (List.length (buf_store data))
  /\ Forall is_byte (buf_store data).

(** * Reasoning about loops *)

Lemma budget_spec (m : Z) : m < 2 ^ Z.of_nat (budget m).
Proof.
  unfold budget. rewrite Nat2Z.inj_succ, Z2Nat.id by apply Z.log2_nonneg.
  destruct (Z_lt_le_dec 0 m) as [Hm | Hm].
  - apply Z.log2_spec; exact Hm.
  - rewrite Z.log2_nonpos by exact Hm. simpl. lia.
Qed.

Section LoopFacts.

Context {St R : Type}.
Variable body : St -> St + R.
Variable Inv : St -> Prop.
Variable Post : R -> Prop.

(** An invariant kept by every round holds of whatever the loop answers. *)
Section Partial.

Hypothesis step_inv :
  forall s, Inv s ->
    match body s with inl s' => Inv s' | inr r => Post r end.

Lemma iter_inv (d : nat) :
  forall s, Inv s ->
    match iter body d s with inl s' => Inv s' | inr r => Post r end.
Proof.
  induction d as [| d IH]; intros s Hs; simpl.
  - apply step_inv; exact Hs.
  - pose proof (IH s Hs) as H1.
    destruct (iter body d s) as [s1 | r]; [apply IH; exact H1 | exact H1].
Qed.

Lemma iter_nat_inv (fuel : nat) :
  forall s r, Inv s -> iter_nat body fuel s = Some r -> Post r.
Proof.
  induction fuel as [| fuel IH]; intros s r Hs; simpl; [discriminate |].
  pose proof (step_inv s Hs) as H1.
  destruct (body s) as [s1 | r1].
  - apply IH; exact H1.
  - intros [= <-]; exact H1.
Qed.

End Partial.

(** With a measure that every round decreases, the loop ends within its
    budget. *)
Section Total.

Variable mu : St -> Z.

Hypothesis step_dec :
  forall s, Inv s ->
    match body s with
    | inl s' => Inv s' /\ 0 <= mu s' < mu s
    | inr r => Post r
    end.

Lemma iter_progress (d : nat) :
  forall s, Inv s ->
    match iter body d s with
    | inl s' => Inv s' /\ 0 <= mu s' /\ mu s' + 2 ^ Z.of_nat d <= mu s
    | inr r => Post r
    end.
Proof.
  induction d as [| d IH]; intros s Hs.
  - simpl. pose proof (step_dec s Hs) as H1.
    destruct (body s); [| exact H1]. repeat split; try apply H1. lia.
  - cbn [iter]. pose proof (IH s Hs) as H1.
    destruct (iter body d s) as [s1 | r]; [| exact H1].
    destruct H1 as (Hi1 & Hp1 & Hd1).
    pose proof (IH s1 Hi1) as H2.
    destruct (iter body d s1) as [s2 | r]; [| exact H2].
    destruct H2 as (Hi2 & Hp2 & Hd2).
    repeat split; try assumption.
    rewrite Nat2Z.inj_succ, Z.pow_succ_r by lia. lia.
Qed.

Lemma iter_done (d : nat) (s : St) :
  Inv s -> mu s < 2 ^ Z.of_nat d ->
  exists r, iter body d s = inr r /\ Post r.
Proof.
  intros Hs Hd. pose proof (iter_progress d s Hs) as H.
  destruct (iter body d s) as [s1 | r]; [lia | eauto].
Qed.

Lemma iter_nat_done (fuel : nat) :
  forall s, Inv s -> 0 <= mu s < Z.of_nat fuel ->
  exists r, iter_nat body fuel s = Some r /\ Post r.
Proof.
  induction fuel as [| fuel IH]; intros s Hs Hlt; [lia |].
  simpl. pose proof (step_dec s Hs) as H1.
  destruct (body s) as [s1 | r]; [| eauto].
  apply IH; [apply H1 |]. lia.
Qed.

End Total.

End LoopFacts.

(** The two corollaries in the shape the functions use them. *)

Lemma loop_total {St R : Type} (body : St -> St + result R)
  (Inv : St -> Prop) (Post : R -> Prop) (mu : St -> Z) (d : nat) (s : St) :
  (forall s, Inv s ->
     match body s with
     | inl s' => Inv s' /\ 0 <= mu s' < mu s
     | inr r => exists v, r = Ok v /\ Post v
     end) ->
  Inv s -> mu s < 2 ^ Z.of_nat d ->
  exists v, loop d body s = Ok v /\ Post v.
Proof.
  intros Hstep Hs Hd.
  destruct (iter_done body Inv (fun r => exists v, r = Ok v /\ Post v) mu
              Hstep d s Hs Hd) as (r & Hr & v & -> & Hv).
  exists v. unfold loop. rewrite Hr. auto.
Qed.

Lemma loop_nat_total {St R : Type} (body : St -> St + result R)
  (Inv : St -> Prop) (Post : R -> Prop) (mu : St -> Z) (fuel : nat) (s : St) :
  (forall s, Inv s ->
     match body s with
     | inl s' => Inv s' /\ 0 <= mu s' < mu s
     | inr r => exists v, r = Ok v /\ Post v
     end) ->
  Inv s -> 0 <= mu s < Z.of_nat fuel ->
  exists v, loop_nat fuel body s = Ok v /\ Post v.
Proof.
  intros Hstep Hs Hd.
  destruct (iter_nat_done body Inv (fun r => exists v, r = Ok v /\ Post v) mu
              Hstep fuel s Hs Hd) as (r & Hr & v & -> & Hv).
  exists v. unfold loop_nat. rewrite Hr. auto.
Qed.

Lemma loop_nat_partial {St R : Type} (body : St -> St + result R)
  (Inv : St -> Prop) (Post : R -> Prop) (fuel : nat) (s : St) (v : R) :
  (forall s, Inv s ->
     match body s with
     | inl s' => Inv s'
     | inr r => forall v, r = Ok v -> Post v
     end) ->
  Inv s -> loop_nat fuel body s = Ok v -> Post v.
Proof.
  intros Hstep Hs. unfold loop_nat.
  destruct (iter_nat body fuel s) as [r |] eqn:E; [| discriminate].
  intros ->.
  exact (iter_nat_inv body Inv (fun r => forall v, r = Ok v -> Post v)
           Hstep fuel s _ Hs E v eq_refl).
Qed.

(** ** Counted rounds against the doubling iterator *)

Section Counting.

Context {St R : Type}.
Variable body : St -> St + R.

Lemma iter_vs_iter_nat (d : nat) :
  forall s fuel r,
    iter_nat body fuel s = Some r ->
    match iter body d s with
    | inl s' => (2 ^ d < fuel)%nat /\ iter_nat body (fuel - 2 ^ d) s' = Some r
    | inr r' => r' = r
    end.
Proof.
  induction d as [| d IH]; intros s fuel r Hrun.
  - cbn [iter]. destruct fuel as [| fuel]; [discriminate |].
    cbn [iter_nat] in Hrun. destruct (body s) as [s' | r'].
    + destruct fuel as [| fuel]; [discriminate |].
      split; [cbn; lia |]. cbn [Nat.pow]. rewrite Nat.sub_1_r. exact Hrun.
    + congruence.
  - cbn [iter]. pose proof (IH s fuel r Hrun) as H1.
    destruct (iter body d s) as [s1 | r1]; [| exact H1].
    destruct H1 as (Hlt1 & Hrun1).
    pose proof (IH s1 _ r Hrun1) as H2.
    destruct (iter body d s1) as [s2 | r2]; [| exact H2].
    destruct H2 as (Hlt2 & Hrun2). cbn [Nat.pow].
    split; [lia |].
    replace (fuel - (2 * 2 ^ d))%nat with (fuel - 2 ^ d - 2 ^ d)%nat by lia.
    exact Hrun2.
Qed.

(** A run that ends within [fuel] rounds ends within any budget of at
    least [fuel] rounds, with the same answer. *)
Lemma iter_of_iter_nat (d fuel : nat) (s : St) (r : R) :
  iter_nat body fuel s = Some r -> (fuel <= 2 ^ d)%nat ->
  iter body d s = inr r.
Proof.
  intros Hrun Hle. pose proof (iter_vs_iter_nat d s fuel r Hrun) as H.
  destruct (iter body d s) as [s' | r']; [lia | congruence].
Qed.

End Counting.

Lemma loop_of_iter_nat {St R : Type} (body : St -> St + result R)
  (d fuel : nat) (s : St) (r : result R) :
  iter_nat body fuel s = Some r -> (fuel <= 2 ^ d)%nat -> loop d body s = r.
Proof.
  intros Hrun Hle. unfold loop.
  rewrite (iter_of_iter_nat body d fuel s r Hrun Hle). reflexivity.
Qed.

Lemma budget_rounds (m : Z) (fuel : nat) :
  Z.of_nat fuel <= m + 1 -> (fuel <= 2 ^ budget m)%nat.
Proof.
  intros H. pose proof (budget_spec m) as Hb.
  apply Nat2Z.inj_le. rewrite Nat2Z.inj_pow.
  change (Z.of_nat 2) with 2. lia.
Qed.

(** * Euclidean division and modulo *)

Lemma abs_spec (x : Z) : abs x = Z.abs x.
Proof. unfold abs. destruct (Z.ltb_spec x 0); lia. Qed.

(** [div] and [mod] agree with each other on every dividend, for every
    divisor but zero, and the remainder is below the divisor's magnitude. *)
Lemma div_mod_general (a b : Z) :
  b <> 0 ->
  exists q r, div a b = Ok q /\ mod' a b = Ok r
              /\ a = q * b + r /\ 0 <= r < Z.abs b.
Proof.
  intros Hb. unfold div, mod', assert, bind.
  destruct (Z.eqb_spec b 0) as [| _]; [contradiction |]. cbn [negb].
  pose proof (Z.quot_rem' a b) as Hqr.
  assert (Hrem : a - Z.quot a b * b = Z.rem a b) by lia.
  rewrite Hrem.
  destruct (Z_lt_le_dec a 0) as [Ha | Ha].
  - pose proof (Z.rem_nonpos a b ltac:(lia) ltac:(lia)) as Hnp.
    pose proof (Z.rem_bound_abs a b Hb) as Hba.
    destruct (Z.geb_spec a 0) as [| _]; [lia |].
    destruct (Z.ltb_spec (Z.rem a b) 0) as [Hr | Hr].
    + destruct (Z.ltb_spec b 0);
        eexists; eexists; repeat split; try reflexivity; lia.
    + eexists; eexists; repeat split; try reflexivity; lia.
  - pose proof (Z.rem_nonneg a b Hb Ha) as Hnn.
    pose proof (Z.rem_bound_abs a b Hb) as Hba.
    destruct (Z.geb_spec a 0) as [_ |]; [| lia].
    destruct (Z.ltb_spec (Z.rem a b) 0) as [Hr | Hr]; [lia |].
    eexists; eexists; repeat split; try reflexivity; lia.
Qed.

(** C2. For all non-negative integers a and b with b > 0, the Euclidean
    division and modulo satisfy a = (a div b) * b + (a mod b) and
    0 <= (a mod b) < b. *)
Theorem div_mod_euclidean_law (a b : Z) :
  0 <= a -> 0 < b ->
  exists q r, div a b = Ok q /\ mod' a b = Ok r
              /\ a = q * b + r /\ 0 <= r < b.
Proof.
  intros Ha Hb.
  destruct (div_mod_general a b ltac:(lia)) as (q & r & Hq & Hr & Heq & Hbd).
  exists q, r. repeat split; try assumption; lia.
Qed.

Lemma div_mod_euclidean_law_witness :
  exists q r, div 17 5 = Ok q /\ mod' 17 5 = Ok r
              /\ 17 = q * 5 + r /\ 0 <= r < 5.
Proof. apply (div_mod_euclidean_law 17 5); lia. Defined.

(** A clone holds what the receiver holds: in this embedding the pure
    form of a method and its in-place form answer the same value. *)
Lemma clone_same (this : BN) : BN.clone this = this.
Proof. destruct this; reflexivity. Qed.

(** The methods of the class give the same numbers. *)
Lemma BN_div_mod (this num : BN) :
  bn_n num <> 0 ->
  exists q r, BN.div this num = Ok q /\ BN.mod' this num = Ok r
              /\ bn_n this = bn_n q * bn_n num + bn_n r
              /\ 0 <= bn_n r < Z.abs (bn_n num).
Proof.
  intros Hb.
  destruct (div_mod_general (bn_n this) (bn_n num) Hb)
    as (q & r & Hq & Hr & Heq & Hbd).
  unfold BN.div, BN.mod', BN.idiv, BN.imod, nonzero, bind.
  destruct (Z.eqb_spec (bn_n num) 0) as [| _]; [contradiction |]. cbn [negb].
  cbn [BN.clone BN.inject bn_n]. rewrite Hq, Hr.
  eexists; eexists; repeat split; try reflexivity; cbn [BN.set_n bn_n]; lia.
Qed.

Lemma mod_range (x m : Z) :
  0 < m -> exists r, mod' x m = Ok r /\ 0 <= r < m /\ r = x mod m.
Proof.
  intros Hm.
  destruct (div_mod_general x m ltac:(lia)) as (q & r & _ & Hr & Heq & Hbd).
  exists r. repeat split; try assumption; try lia.
  apply (Z.mod_unique x m q r); lia.
Qed.

(** * Exponentiation *)

(** C4, as the code has it: no exponent is rejected; a negative exponent
    is replaced by its magnitude, in the in-place and in the pure form. *)
Theorem pow_takes_magnitude_of_exponent (this num : BN) :
  BN.ipow this num = Ok (BN.set_n this (bn_n this ^ Z.abs (bn_n num)))
  /\ BN.pow this num
     = Ok (BN.set_n (BN.clone this) (bn_n this ^ Z.abs (bn_n num))).
Proof.
  unfold BN.pow, BN.ipow, bigint_pow, bind. rewrite !abs_spec.
  cbn [BN.clone BN.inject bn_n].
  destruct (Z.ltb_spec (Z.abs (bn_n num)) 0); [lia |]. split; reflexivity.
Qed.

(** C4 fails on the code: 2 to the power -3 is answered, with 8. *)
Lemma pow_negative_exponent_not_rejected :
  BN.pow (new_BN 2) (new_BN (-3)) = Ok (new_BN 8)
  /\ BN.ipow (new_BN 2) (new_BN (-3)) = Ok (new_BN 8)
  /\ ~ is_throw (BN.pow (new_BN 2) (new_BN (-3)))
  /\ ~ is_throw (BN.ipow (new_BN 2) (new_BN (-3))).
Proof.
  repeat split; try reflexivity; intros [e He]; discriminate He.
Qed.

(** * Unsigned bitwise operations *)

Lemma uand_magnitude (x y : Z) :
  uand x y = sign_of x * Z.land (Z.abs x) (Z.abs y).
Proof. unfold uand, sign_of. rewrite !abs_spec. destruct (x <? 0); lia. Qed.

Lemma uor_magnitude (x y : Z) :
  uor x y = sign_of x * Z.lor (Z.abs x) (Z.abs y).
Proof. unfold uor, sign_of. rewrite !abs_spec. destruct (x <? 0); lia. Qed.

Lemma uxor_magnitude (x y : Z) :
  uxor x y = sign_of x * Z.lxor (Z.abs x) (Z.abs y).
Proof. unfold uxor, sign_of. rewrite !abs_spec. destruct (x <? 0); lia. Qed.

Lemma ushr_magnitude (x y : Z) :
  ushr x y = sign_of x * Z.shiftr (Z.abs x) y.
Proof.
  unfold ushr, sign_of. destruct (Z.ltb_spec x 0).
  - rewrite Z.abs_neq by lia. lia.
  - rewrite Z.abs_eq by lia. lia.
Qed.

(** Every unsigned method but the pure [uxor] works on magnitudes and
    keeps the receiver's sign. *)
Lemma unsigned_methods_magnitude (this num : BN) :
  let x := bn_n this in
  let y := bn_n num in
  BN.iuand this num = Ok (BN.set_n this (sign_of x * Z.land (Z.abs x) (Z.abs y)))
  /\ BN.uand this num
     = Ok (BN.set_n (BN.clone this) (sign_of x * Z.land (Z.abs x) (Z.abs y)))
  /\ BN.iuor this num = Ok (BN.set_n this (sign_of x * Z.lor (Z.abs x) (Z.abs y)))
  /\ BN.uor this num
     = Ok (BN.set_n (BN.clone this) (sign_of x * Z.lor (Z.abs x) (Z.abs y)))
  /\ BN.iuxor this num
     = Ok (BN.set_n this (sign_of x * Z.lxor (Z.abs x) (Z.abs y)))
  /\ (0 <= y ->
      BN.iushr this num
      = Ok (BN.set_n this (sign_of x * Z.shiftr (Z.abs x) (Z.abs y)))
      /\ BN.ushr this num
         = Ok (BN.set_n (BN.clone this)
                 (sign_of x * Z.shiftr (Z.abs x) (Z.abs y)))).
Proof.
  cbv zeta.
  unfold BN.uand, BN.uor, BN.ushr, BN.iuand, BN.iuor, BN.iuxor, BN.iushr.
  cbn [BN.clone BN.inject bn_n].
  rewrite uand_magnitude, uor_magnitude, uxor_magnitude, ushr_magnitude.
  repeat split; try reflexivity;
    unfold BN.negative, range, bind;
    destruct (Z.ltb_spec (bn_n num) 0); try lia;
    cbn; rewrite (Z.abs_eq (bn_n num)) by lia; reflexivity.
Qed.

(** C5 at the input (-5, 3): the pure [uxor] answers -8, the signed
    exclusive or, where the magnitudes give -(5 xor 3) = -6, which is
    what the in-place form answers. *)
Theorem uxor_pure_is_signed_xor :
  BN.uxor (new_BN (-5)) (new_BN 3) = Ok (new_BN (-8))
  /\ sign_of (-5) * Z.lxor (Z.abs (-5)) (Z.abs 3) = -6
  /\ BN.iuxor (new_BN (-5)) (new_BN 3) = Ok (new_BN (-6)).
Proof. repeat split; reflexivity. Qed.

(** * The extended Euclidean algorithm *)

Lemma quot_step (a b : Z) :
  0 <= a -> 0 < b ->
  a - Z.quot a b * b = Z.rem a b /\ 0 <= Z.rem a b < b /\ 0 <= Z.quot a b.
Proof.
  intros Ha Hb. pose proof (Z.quot_rem' a b).
  pose proof (Z.rem_bound_pos a b Ha Hb).
  pose proof (Z.quot_pos a b Ha Hb). lia.
Qed.

Lemma gcd_step (a b q : Z) : Z.gcd b (a - q * b) = Z.gcd a b.
Proof.
  replace (a - q * b) with (a + (- q) * b) by lia.
  rewrite Z.gcd_add_mult_diag_r. apply Z.gcd_comm.
Qed.

Lemma egcd_round_inv (a b : Z) (st : egcd_state) :
  egcd_inv a b st ->
  match egcd_round st with
  | inl st' => egcd_inv a b st' /\ 0 <= eg_r st' < eg_r st
  | inr r => exists v, r = Ok v /\ egcd_inv a b v /\ eg_r v = 0
  end.
Proof.
  intros (Hr & Hor & Eor & Er & Hg). unfold egcd_round.
  destruct (Z.eqb_spec (eg_r st) 0) as [Hz | Hnz]; cbn [negb].
  - exists st. repeat split; assumption.
  - destruct (quot_step (eg_or st) (eg_r st) Hor ltac:(lia)) as (Hq & Hb & _).
    unfold egcd_inv. cbn [eg_r eg_or eg_s eg_os eg_t eg_ot].
    repeat split; try lia.
    + rewrite gcd_step. exact Hg.
Qed.

(** [egcd] always returns, with Bezout coefficients of the greatest
    common divisor. *)
Lemma egcd_returns (a b : Z) :
  exists x y g,
    egcd a b = Ok (x, y, g) /\ a * x + b * y = g /\ g = Z.gcd a b.
Proof.
  unfold egcd. rewrite !abs_spec.
  set (st0 := {| eg_s := 0; eg_os := 1; eg_t := 1; eg_ot := 0;
                 eg_r := Z.abs b; eg_or := Z.abs a |}).
  destruct (loop_total egcd_round (egcd_inv a b)
              (fun v => egcd_inv a b v /\ eg_r v = 0) eg_r
              (budget (Z.abs b)) st0) as (st & -> & Hinv & Hz).
  - intros s Hs. apply egcd_round_inv; exact Hs.
  - unfold egcd_inv, st0; cbn [eg_r eg_or eg_s eg_os eg_t eg_ot].
    repeat split; try lia.
    rewrite Z.gcd_abs_l, Z.gcd_abs_r. reflexivity.
  - apply budget_spec.
  - cbn [bind]. destruct Hinv as (_ & Hor & Eor & _ & Hg).
    rewrite Hz, Z.gcd_0_r, Z.abs_eq in Hg by exact Hor.
    destruct (Z.ltb_spec (eg_or st) 0) as [| _]; [lia |].
    eexists; eexists; eexists. split; [reflexivity |].
    repeat split; try lia.
    destruct (Z.ltb_spec a 0), (Z.ltb_spec b 0); lia.
Qed.

(** C6. For all integers a and b, zero and negative values included,
    egcd(a, b) returns a triple (x, y, g) with a*x + b*y = g, where g is
    the non-negative greatest common divisor of |a| and |b|. *)
Theorem egcd_bezout (a b : Z) :
  exists x y g,
    egcd a b = Ok (x, y, g)
    /\ a * x + b * y = g
    /\ g = Z.gcd (Z.abs a) (Z.abs b)
    /\ 0 <= g.
Proof.
  destruct (egcd_returns a b) as (x & y & g & E & Hb & Hg).
  exists x, y, g. rewrite Z.gcd_abs_l, Z.gcd_abs_r.
  repeat split; try assumption.
  rewrite Hg. apply Z.gcd_nonneg.
Qed.

Lemma BN_egcd_returns (this p : BN) :
  exists x y g,
    BN.egcd this p = Ok (x, y, g)
    /\ bn_n this * bn_n x + bn_n p * bn_n y = bn_n g
    /\ bn_n g = Z.gcd (bn_n this) (bn_n p).
Proof.
  destruct (egcd_returns (bn_n this) (bn_n p)) as (x & y & g & E & Hb & Hg).
  unfold BN.egcd. rewrite E. cbn.
  exists (new_BN x), (new_BN y), (new_BN g). cbn. auto.
Qed.

(** [gcd] computes the greatest common divisor of the library. *)
Lemma gcd_spec (x y : Z) : gcd x y = Ok (Z.gcd x y).
Proof.
  unfold gcd. rewrite !abs_spec.
  destruct (loop_total gcd_round
              (fun s => 0 <= fst s /\ 0 <= snd s
                        /\ Z.gcd (fst s) (snd s) = Z.gcd x y)
              (fun v => v = Z.gcd x y) snd
              (budget (Z.abs y)) (Z.abs x, Z.abs y)) as (g & -> & ->).
  - intros [u v] (Hu & Hv & Hg). cbn [fst snd] in *. unfold gcd_round.
    destruct (Z.eqb_spec v 0) as [-> | Hnz]; cbn [negb].
    + exists u. split; [reflexivity |].
      rewrite Z.gcd_0_r, Z.abs_eq in Hg by exact Hu. exact Hg.
    + destruct (quot_step u v Hu ltac:(lia)) as (Hq & Hb & _).
      cbn [fst snd]. repeat split; try lia.
      rewrite <- Hq, gcd_step. exact Hg.
  - cbn [fst snd]. rewrite Z.gcd_abs_l, Z.gcd_abs_r. repeat split; lia.
  - apply budget_spec.
  - reflexivity.
Qed.

(** * The modular inverse *)

Lemma quot_ge_1 (a b : Z) : 0 < b -> b <= a -> 1 <= Z.quot a b.
Proof.
  intros Hb Hab. destruct (quot_step a b ltac:(lia) Hb) as (Hq & Hr & Hq0).
  nia.
Qed.

Lemma invert_round_inv (x y : Z) (st : inv_state) :
  invert_inv x y st ->
  match invert_round st with
  | inl st' => invert_inv x y st' /\ 0 <= iv_nr st' < iv_nr st
  | inr r => exists v, r = Ok v /\ invert_inv x y v /\ iv_nr v = 0
  end.
Proof.
  intros Hinv. pose proof Hinv as (Hr & (u & Eu) & (v & Ev) & Hg & s & Hs & Hsg & Hx).
  unfold invert_round.
  destruct (Z.eqb_spec (iv_nr st) 0) as [Hz | Hnz]; cbn [negb].
  - exists st. auto.
  - destruct (quot_step (iv_r st) (iv_nr st) ltac:(lia) ltac:(lia))
      as (Hq & Hb & _).
    pose proof (quot_ge_1 (iv_r st) (iv_nr st) ltac:(lia) ltac:(lia)) as Hq1.
    revert Hq Hb Hq1. generalize (Z.quot (iv_r st) (iv_nr st)). intros q Hq Hb Hq1.
    unfold invert_inv. cbn [iv_t iv_nt iv_r iv_nr].
    split; [| lia]. split; [lia |].
    split; [exists v; exact Ev |].
    split; [exists (u - q * v); rewrite Eu at 1; rewrite Ev at 1; ring |].
    split; [rewrite gcd_step; exact Hg |].
    exists (- s). split; [lia |]. split; [nia |].
    rewrite <- Hx. ring.
Qed.

Lemma invert_loop (x y : Z) :
  1 < y -> 0 <= x < y ->
  exists st,
    loop (budget x) invert_round
      {| iv_t := 0; iv_nt := 1; iv_r := y; iv_nr := x |} = Ok st
    /\ invert_inv x y st /\ iv_nr st = 0.
Proof.
  intros Hy Hx.
  apply (loop_total invert_round (invert_inv x y)
           (fun v => invert_inv x y v /\ iv_nr v = 0) iv_nr).
  - intros s Hs. apply invert_round_inv; exact Hs.
  - unfold invert_inv; cbn [iv_t iv_nt iv_r iv_nr].
    split; [lia |]. split; [exists 1; ring |]. split; [exists 0; ring |].
    split; [apply Z.gcd_comm |]. exists 1. lia.
  - cbn [iv_nr]. apply budget_spec.
Qed.

(** What [invert] does once its argument is reduced. *)
Lemma invert_reduced (x y : Z) :
  1 < y -> 0 <= x < y ->
  (Z.gcd x y <> 1 -> invert x y = Throw (RangeError "Not invertible."))
  /\ (Z.gcd x y = 1 ->
      exists t, invert x y = Ok t /\ 0 <= t < y /\ (x * t) mod y = 1).
Proof.
  intros Hy Hx.
  destruct (invert_loop x y Hy Hx) as (st & Eloop & Hinv & Hz).
  destruct Hinv as (Hr & (u & Eu) & _ & Hg & s & Hs & Hsg & Hc).
  rewrite Hz, Z.gcd_0_r, Z.abs_eq in Hg by lia.
  assert (Einv : invert x y
                 = if negb (iv_r st =? 1) then Throw (RangeError "Not invertible.")
                   else Ok (if iv_t st <? 0 then iv_t st + y else iv_t st)).
  { unfold invert, assert, bind.
    destruct (Z.gtb_spec y 0) as [_ |]; [| lia].
    destruct (Z.eqb_spec y 1) as [| _]; [lia |].
    destruct (Z.ltb_spec x 0) as [| _]; [lia |].
    destruct (Z.geb_spec x y) as [| _]; [lia |]. cbn [orb].
    rewrite Eloop.
    destruct (Z.ltb_spec (iv_r st) 0) as [| _]; [lia |]. reflexivity. }
  rewrite Einv. split; intros Hgcd.
  - destruct (Z.eqb_spec (iv_r st) 1) as [| _]; [lia | reflexivity].
  - destruct (Z.eqb_spec (iv_r st) 1) as [E1 |]; [| lia]. cbn [negb].
    eexists. split; [reflexivity |].
    rewrite Hz, E1 in Hc.
    assert (Hty : iv_t st <> y).
    { intros Ety. rewrite E1, Ety in Eu.
      assert (Hdiv : (y | 1)) by (exists (x + u); lia).
      apply Z.divide_1_r_nonneg in Hdiv; lia. }
    assert (Hbound : - y <= iv_t st < y) by nia.
    destruct (Z.ltb_spec (iv_t st) 0) as [Hneg | Hpos].
    + split; [lia |].
      replace (x * (iv_t st + y)) with (1 + (x - u) * y) by (rewrite E1 in Eu; lia).
      rewrite Z_mod_plus_full. apply Z.mod_small; lia.
    + split; [lia |].
      replace (x * iv_t st) with (1 + (- u) * y) by (rewrite E1 in Eu; lia).
      rewrite Z_mod_plus_full. apply Z.mod_small; lia.
Qed.

Lemma invert_reduces_first (a m : Z) :
  1 < m -> invert a m = invert (a mod m) m.
Proof.
  intros Hm. pose proof (Z.mod_pos_bound a m ltac:(lia)) as Hb.
  unfold invert, assert, bind.
  destruct (Z.gtb_spec m 0) as [_ |]; [| lia].
  destruct (Z.eqb_spec m 1) as [| _]; [lia |].
  destruct (Z.ltb_spec (a mod m) 0) as [| _]; [lia |].
  destruct (Z.geb_spec (a mod m) m) as [| _]; [lia |]. cbn [orb].
  destruct (mod_range a m ltac:(lia)) as (r & Er & _ & ->).
  destruct ((a <? 0) || (a >=? m)) eqn:E.
  - rewrite Er. reflexivity.
  - apply orb_false_elim in E. destruct E as [E1 E2].
    rewrite Z.mod_small by lia. reflexivity.
Qed.

(** The two outcomes of [invert]. *)
Lemma invert_raises (a m : Z) :
  1 <= m -> m = 1 \/ Z.gcd a m <> 1 ->
  invert a m = Throw (RangeError "Not invertible.").
Proof.
  intros Hm Hbad. destruct (Z.eq_dec m 1) as [-> | Hne]; [reflexivity |].
  assert (Hm1 : 1 < m) by lia.
  pose proof (Z.mod_pos_bound a m ltac:(lia)) as Hb.
  destruct (invert_reduced (a mod m) m Hm1 Hb) as (Hthrow & _).
  rewrite Z.gcd_mod, (Z.gcd_comm m a) in Hthrow by lia.
  rewrite invert_reduces_first by exact Hm1.
  apply Hthrow. destruct Hbad as [H1 | Hg]; [contradiction | exact Hg].
Qed.

Lemma invert_returns (a m : Z) :
  1 < m -> Z.gcd a m = 1 ->
  exists t, invert a m = Ok t /\ 0 <= t < m /\ (a * t) mod m = 1.
Proof.
  intros Hm1 Hg.
  pose proof (Z.mod_pos_bound a m ltac:(lia)) as Hb.
  destruct (invert_reduced (a mod m) m Hm1 Hb) as (_ & Hgood).
  rewrite Z.gcd_mod, (Z.gcd_comm m a) in Hgood by lia.
  rewrite invert_reduces_first by exact Hm1.
  destruct (Hgood Hg) as (t & Et & Ht & Hmod).
  exists t. repeat split; try assumption; try lia.
  rewrite <- Hmod. rewrite (Z.mul_mod_idemp_l a t m) by lia. reflexivity.
Qed.

(** C1. For every integer a and every modulus m >= 1: invert(a, m) raises
    the error 'Not invertible.' if and only if m = 1 or gcd(a, m) <> 1;
    otherwise it returns a value t with 0 <= t < m and (a * t) mod m = 1. *)
Theorem invert_spec (a m : Z) :
  1 <= m ->
  (invert a m = Throw (RangeError "Not invertible.")
   <-> (m = 1 \/ Z.gcd a m <> 1))
  /\ (~ (m = 1 \/ Z.gcd a m <> 1) ->
      exists t, invert a m = Ok t /\ 0 <= t < m /\ (a * t) mod m = 1).
Proof.
  intros Hm.
  assert (Hgood : ~ (m = 1 \/ Z.gcd a m <> 1) -> 1 < m /\ Z.gcd a m = 1).
  { intros Hn. split.
    - destruct (Z.eq_dec m 1) as [E | E]; [exfalso; apply Hn; left; exact E | lia].
    - destruct (Z.eq_dec (Z.gcd a m) 1) as [E | E]; [exact E |].
      exfalso. apply Hn. right. exact E. }
  split; [split |].
  - intros Ethrow.
    destruct (Z.eq_dec m 1) as [E1 | N1]; [left; exact E1 |].
    right. intros Hg.
    destruct (invert_returns a m ltac:(lia) Hg) as (t & Et & _).
    rewrite Et in Ethrow. discriminate.
  - apply invert_raises. exact Hm.
  - intros Hn. destruct (Hgood Hn) as (Hm1 & Hg).
    apply invert_returns; assumption.
Qed.

Lemma invert_spec_witness :
  (invert 3 7 = Throw (RangeError "Not invertible.")
   <-> (7 = 1 \/ Z.gcd 3 7 <> 1))
  /\ (~ (7 = 1 \/ Z.gcd 3 7 <> 1) ->
      exists t, invert 3 7 = Ok t /\ 0 <= t < 7 /\ (3 * t) mod 7 = 1).
Proof. apply (invert_spec 3 7). lia. Defined.

(** The methods [iinvert] and [invert] of the class add the range check
    on the modulus and store the inverse in the receiver. *)
Lemma BN_invert_outcomes (this num : BN) :
  1 <= bn_n num ->
  BN.invert this num = BN.iinvert this num
  /\ (bn_n num = 1 \/ Z.gcd (bn_n this) (bn_n num) <> 1 ->
      BN.iinvert this num = Throw (RangeError "Not invertible."))
  /\ (1 < bn_n num -> Z.gcd (bn_n this) (bn_n num) = 1 ->
      exists t, BN.iinvert this num = Ok (BN.set_n this t)
                /\ 0 <= t < bn_n num /\ (bn_n this * t) mod bn_n num = 1).
Proof.
  intros Hm.
  split; [unfold BN.invert; rewrite clone_same; reflexivity |].
  unfold BN.iinvert, range, bind.
  destruct (Z.geb_spec (bn_n num) 1) as [_ |]; [| lia].
  split.
  - intros Hbad. rewrite (invert_raises _ _ Hm Hbad). reflexivity.
  - intros Hm1 Hg.
    destruct (invert_returns _ _ Hm1 Hg) as (t & -> & Ht). exists t. auto.
Qed.

(** * Bit tests as arithmetic *)

Lemma land_1 (y : Z) : Z.land y 1 = y mod 2.
Proof. exact (Z.land_ones y 1 ltac:(lia)). Qed.

Lemma land_3 (y : Z) : Z.land y 3 = y mod 4.
Proof. exact (Z.land_ones y 2 ltac:(lia)). Qed.

Lemma land_7 (y : Z) : Z.land y 7 = y mod 8.
Proof. exact (Z.land_ones y 3 ltac:(lia)). Qed.

Lemma shiftr_1 (y : Z) : Z.shiftr y 1 = y / 2.
Proof. rewrite Z.shiftr_div_pow2 by lia. reflexivity. Qed.

Lemma rem_mod (a m : Z) : 0 <= a -> 0 < m -> Z.rem a m = a mod m.
Proof. intros; apply Z.rem_mod_nonneg; assumption. Qed.

(** * Modular exponentiation *)

Lemma powm_round_inv (m T : Z) (st : Z * Z * Z) :
  0 < m ->
  powm_inv m T st ->
  match powm_round m st with
  | inl st' => powm_inv m T st' /\ 0 <= snd (fst st') < snd (fst st)
  | inr r => exists v, r = Ok v /\ v = T
  end.
Proof.
  intros Hm. destruct st as [[x y] r]. unfold powm_inv, powm_round.
  cbn [fst snd]. intros (Hx & Hy & Hr & Hrm & HT).
  destruct (Z.gtb_spec y 0) as [Hpos | Hzero].
  - cbn [fst snd]. rewrite land_1, shiftr_1.
    assert (Hx2 : 0 <= x ^ 2) by (apply Z.pow_nonneg; lia).
    rewrite (rem_mod (x ^ 2) m Hx2 Hm).
    pose proof (Z.mod_pos_bound (x ^ 2) m Hm) as Hb2.
    pose proof (Z.div_mod y 2 ltac:(lia)) as Hdm.
    pose proof (Z.mod_pos_bound y 2 ltac:(lia)) as Hb.
    assert (Hy2 : 0 <= y / 2) by (apply Z.div_pos; lia).
    revert Hdm Hb Hy2. generalize (y / 2) (y mod 2). intros k b Hdm Hb Hk.
    assert (Hpow : (x ^ 2 mod m) ^ k mod m = (x ^ (2 * k)) mod m).
    { rewrite Z.mod_pow_l, <- Z.pow_mul_r by lia. reflexivity. }
    split; [| lia].
    destruct (Z.eqb_spec b 1) as [Hodd | Heven].
    + assert (Hrx : 0 <= r * x) by nia.
      rewrite (rem_mod (r * x) m Hrx Hm).
      pose proof (Z.mod_pos_bound (r * x) m Hm).
      repeat split; try lia.
      rewrite <- HT, Z.mul_mod, Hpow, Z.mod_mod, <- Z.mul_mod by lia.
      f_equal. subst y b. rewrite Z.pow_add_r, Z.pow_1_r by lia. ring.
    + assert (Hev : b = 0) by lia.
      repeat split; try lia.
      rewrite <- HT, Z.mul_mod, Hpow, <- Z.mul_mod by lia.
      f_equal. subst y b. rewrite Z.add_0_r. reflexivity.
  - assert (y = 0) by lia. subst y. exists r. split; [reflexivity |].
    rewrite Z.pow_0_r, Z.mul_1_r in HT. rewrite <- HT.
    symmetry. apply Z.mod_small. lia.
Qed.

Lemma powm_loop_spec (x y m : Z) :
  0 < m -> 0 <= x < m -> 0 <= y -> (1 < m \/ 0 < y) ->
  loop (budget y) (powm_round m) (x, y, 1) = Ok (x ^ y mod m).
Proof.
  intros Hm Hx Hy Hnd.
  destruct (loop_total (powm_round m) (powm_inv m (x ^ y mod m))
              (fun v => v = x ^ y mod m) (fun st => snd (fst st))
              (budget y) (x, y, 1)) as (v & -> & ->).
  - intros st Hst. apply powm_round_inv; assumption.
  - unfold powm_inv; cbn [fst snd]. repeat split; try lia.
    rewrite Z.mul_1_l. reflexivity.
  - cbn [fst snd]. apply budget_spec.
  - reflexivity.
Qed.

(** [powm] on an exponent that is not negative: the power modulo [m],
    but for [m = 1] with the exponent 0, where the answer is 1. *)
Lemma powm_nonneg (x y m : Z) :
  0 < m -> 0 <= y -> (1 < m \/ 0 < y) ->
  powm x y m = Ok (x ^ y mod m).
Proof.
  intros Hm Hy Hnd. unfold powm, assert, bind.
  destruct (Z.gtb_spec m 0) as [_ |]; [| lia].
  destruct (Z.ltb_spec y 0) as [| _]; [lia |].
  destruct (mod_range x m Hm) as (r & -> & Hr & ->).
  rewrite powm_loop_spec by (try assumption; lia).
  rewrite Z.mod_pow_l. reflexivity.
Qed.

Lemma powm_zero_one (x : Z) : powm x 0 1 = Ok 1.
Proof.
  unfold powm, assert. change (1 >? 0) with true. change (0 <? 0) with false.
  cbn [bind]. destruct (mod_range x 1 ltac:(lia)) as (r & -> & Hr & _).
  reflexivity.
Qed.

(** Whatever [invert] returns is a residue of the modulus. *)
Lemma invert_range (x y v : Z) : invert x y = Ok v -> 0 <= v < y.
Proof.
  intros E.
  assert (Hy : 1 <= y).
  { unfold invert, assert in E. destruct (Z.gtb_spec y 0); [lia | discriminate]. }
  destruct (Z.eq_dec y 1) as [E1 | N1].
  - rewrite (invert_raises x y Hy (or_introl E1)) in E. discriminate.
  - destruct (Z.eq_dec (Z.gcd x y) 1) as [Eg | Ng].
    + destruct (invert_returns x y ltac:(lia) Eg) as (t & Et & Ht & _).
      rewrite Et in E. injection E as <-. exact Ht.
    + rewrite (invert_raises x y Hy (or_intror Ng)) in E. discriminate.
Qed.

(** Whatever [powm] returns is not negative, and is below the modulus
    unless the modulus is 1 and the exponent 0. *)
Lemma powm_range (x y m v : Z) :
  powm x y m = Ok v -> 0 <= v /\ ((1 < m \/ y <> 0) -> v < m).
Proof.
  unfold powm, assert. destruct (Z.gtb_spec m 0) as [Hm |]; [| discriminate].
  cbn [bind]. destruct (Z.ltb_spec y 0) as [Hneg | Hpos].
  - destruct (invert x m) as [i | |] eqn:Ei; try discriminate. cbn [bind].
    assert (Hi : 0 <= i < m).
    { apply (invert_range x m). exact Ei. }
    rewrite powm_loop_spec by (try assumption; lia).
    intros [= <-].
    destruct (Z.mod_pos_bound (i ^ (- y)) m Hm) as [H1 H2].
    split; [exact H1 | intros _; exact H2].
  - destruct (mod_range x m Hm) as (r & -> & Hr & ->). cbn [bind].
    destruct (Z.eq_dec y 0) as [-> | Hy].
    + destruct (Z.eq_dec m 1) as [-> | Hm1].
      * cbn. intros [= <-]. split; [lia | intros [H | H]; lia].
      * rewrite powm_loop_spec; [| lia | exact Hr | lia | lia].
        intros [= <-].
        destruct (Z.mod_pos_bound ((x mod m) ^ 0) m Hm) as [H1 H2].
        split; [exact H1 | intros _; exact H2].
    + rewrite powm_loop_spec; [| lia | exact Hr | lia | lia].
      intros [= <-].
      destruct (Z.mod_pos_bound ((x mod m) ^ y) m Hm) as [H1 H2].
      split; [exact H1 | intros _; exact H2].
Qed.

(** * The reduction context *)

(** Splits on the outcome of the first call of a sequence. *)
Ltac step_bind E :=
  match goal with
  | |- context [bind ?c _] =>
      let v := fresh "v" in
      destruct c as [v | |] eqn:E; cbn [bind]; try discriminate
  end.

(** ** Ring discipline *)

Lemma verify2_distinct (this A B : Red) (u v : BN) :
  red_ref A <> red_ref B -> bn_red u = Some A -> bn_red v = Some B ->
  Red.verify2 this u v
  = Throw (if Z.lor (BN.negative u) (BN.negative v) =? 0
           then red_error "red"
           else RangeError (dquote ++ "red" ++ dquote
                            ++ " only works with positive numbers.")).
Proof.
  intros Hne Hu Hv. unfold Red.verify2, range, red, bind.
  rewrite Hu, Hv. unfold same_object.
  destruct (Nat.eqb_spec (red_ref A) (red_ref B)) as [| _]; [contradiction |].
  destruct (Z.lor (BN.negative u) (BN.negative v) =? 0); reflexivity.
Qed.

(** C7. For every two reduction contexts A and B that are distinct
    objects, even with equal moduli, and every u tagged to A and v tagged
    to B, the binary ring operations on u and v raise an error. *)
Theorem ring_ops_reject_distinct_contexts (A B : Red) (u v : BN) :
  red_ref A <> red_ref B ->
  bn_red u = Some A -> bn_red v = Some B ->
  is_throw (BNRed.redAdd u v) /\ is_throw (BNRed.redIAdd u v)
  /\ is_throw (BNRed.redSub u v) /\ is_throw (BNRed.redISub u v)
  /\ is_throw (BNRed.redMul u v) /\ is_throw (BNRed.redIMul u v).
Proof.
  intros Hne Hu Hv.
  pose proof (verify2_distinct A A B u v Hne Hu Hv) as Hver.
  unfold BNRed.redAdd, BNRed.redIAdd, BNRed.redSub, BNRed.redISub,
    BNRed.redMul, BNRed.redIMul, BNRed.the_red.
  rewrite Hu. cbn [bind].
  unfold Red.add, Red.sub, Red.mul, Red.iadd, Red.isub, Red.imul.
  rewrite clone_same, Hver. cbn [bind].
  repeat split; eexists; reflexivity.
Qed.

Lemma ring_ops_reject_distinct_contexts_witness :
  let A := {| red_ref := 0; red_m := 7 |} in
  let B := {| red_ref := 1; red_m := 7 |} in
  let u := {| bn_n := 3; bn_red := Some A |} in
  let v := {| bn_n := 4; bn_red := Some B |} in
  is_throw (BNRed.redAdd u v) /\ is_throw (BNRed.redIAdd u v)
  /\ is_throw (BNRed.redSub u v) /\ is_throw (BNRed.redISub u v)
  /\ is_throw (BNRed.redMul u v) /\ is_throw (BNRed.redIMul u v).
Proof.
  cbv zeta.
  apply (ring_ops_reject_distinct_contexts
           {| red_ref := 0; red_m := 7 |} {| red_ref := 1; red_m := 7 |});
    [ cbn; lia | reflexivity | reflexivity ].
Defined.

(** The same two numbers in one context are accepted. *)
Lemma redAdd_same_context (A : Red) (u v : BN) :
  canonical A u -> canonical A v ->
  exists r, BNRed.redAdd u v = Ok r /\ canonical A r
            /\ bn_n r = (bn_n u + bn_n v) mod red_m A.
Proof.
  intros (Hu & Hur) (Hv & Hvr).
  unfold BNRed.redAdd, BNRed.the_red. rewrite Hu. cbn [bind].
  unfold Red.add, Red.iadd, Red.verify2, range, red, BN.negative.
  rewrite clone_same, Hu, Hv. unfold same_object. rewrite Nat.eqb_refl.
  destruct (Z.ltb_spec (bn_n u) 0) as [| _]; [lia |].
  destruct (Z.ltb_spec (bn_n v) 0) as [| _]; [lia |]. cbn [Z.lor Z.eqb bind].
  eexists. split; [reflexivity |]. unfold canonical, BN.set_n. cbn [bn_n bn_red].
  destruct (Z.geb_spec (bn_n u + bn_n v) (red_m A)) as [Hge | Hlt].
  - repeat split; try assumption; try lia.
    apply (Z.mod_unique _ _ 1); lia.
  - repeat split; try assumption; try lia.
    symmetry. apply Z.mod_small. lia.
Qed.

(** ** Canonical residues *)

Lemma jacobi_modulus_1 (n : Z) : jacobi n 1 = Ok 1.
Proof.
  unfold jacobi. cbn [Z.eqb Z.land Pos.land orb Z.ltb Z.compare].
  destruct (n <? 0).
  - destruct (mod_range n 1 ltac:(lia)) as (r & -> & _). reflexivity.
  - reflexivity.
Qed.

Lemma nonresidue_loop_modulus_1 (fuel : nat) :
  forall n, loop_nat fuel (nonresidue_round 1) n = Timeout.
Proof.
  unfold loop_nat.
  induction fuel as [| fuel IH]; intros n; [reflexivity |].
  cbn [iter_nat]. unfold nonresidue_round at 1. rewrite jacobi_modulus_1.
  cbn [call Z.eqb negb]. apply IH.
Qed.

Lemma reduce_arg (x p : Z) :
  0 < p ->
  exists x', (if (x <? 0) || (x >=? p) then mod' x p else Ok x) = Ok x'
             /\ 0 <= x' < p /\ x' = x mod p.
Proof.
  intros Hp. destruct (Z.ltb_spec x 0) as [Hn | Hn]; cbn [orb].
  - destruct (mod_range x p Hp) as (r & Er & Hr & E). eauto.
  - destruct (Z.geb_spec x p) as [Hg | Hg].
    + destruct (mod_range x p Hp) as (r & Er & Hr & E). eauto.
    + exists x. repeat split; try lia. symmetry; apply Z.mod_small; lia.
Qed.

Lemma rem_range (a p : Z) : 0 <= a -> 0 < p -> 0 <= Z.rem a p < p.
Proof. intros Ha Hp. rewrite rem_mod by assumption. apply Z.mod_pos_bound, Hp. Qed.

(** Whatever [sqrtm] returns is a canonical residue of its modulus. *)
Lemma sqrtm_range (fuel : nat) (x p v : Z) :
  sqrtm fuel x p = Ok v -> 0 <= v < p.
Proof.
  unfold sqrtm, assert.
  destruct (Z.gtb_spec p 0) as [Hp |]; [| discriminate]. cbn [bind].
  step_bind Ej. rename v0 into j.
  destruct (j =? -1); [discriminate |].
  destruct (j =? 0); [intros [= <-]; lia |].
  destruct (reduce_arg x p Hp) as (x' & -> & Hx' & _). cbn [bind].
  destruct (Z.eqb_spec (Z.land p 3) 3) as [H3 | H3].
  { intros Hpow. apply powm_range in Hpow. rewrite land_3 in H3.
    pose proof (Z.mod_pos_bound p 4 ltac:(lia)).
    assert (1 < p) by (pose proof (Z.div_mod p 4 ltac:(lia)); lia).
    split; [apply Hpow | apply Hpow; left; assumption]. }
  destruct (Z.eqb_spec (Z.land p 7) 5) as [H5 | H5].
  { step_bind Ea. rename v0 into a. apply powm_range in Ea.
    step_bind Eb. rename v0 into b.
    destruct (mod_range (Z.rem (Z.rem (a ^ 2) p * Z.shiftl x' 1) p - 1) p Hp)
      as (b' & Eb' & Hb' & _).
    rewrite Eb' in Eb. injection Eb as <-.
    intros [= <-]. apply rem_range; [| exact Hp].
    apply Z.mul_nonneg_nonneg; [| lia].
    apply rem_range; [nia | exact Hp]. }
  step_bind Ee. rename v0 into e.
  step_bind En. rename v0 into n.
  assert (Hp1 : 1 < p).
  { destruct (Z.eq_dec p 1) as [-> | ]; [| lia].
    rewrite nonresidue_loop_modulus_1 in En. discriminate. }
  step_bind Ey. rename v0 into y. apply powm_range in Ey.
  step_bind Eb. rename v0 into b.
  step_bind Eg. rename v0 into g.
  apply (loop_nat_partial (tonelli_round fuel p)
           (fun st => 0 <= ts_y st < p) (fun v => 0 <= v < p)).
  - intros st Hst. unfold tonelli_round.
    destruct (loop_nat fuel (order_round p) (ts_b st, 0)) as [tm | |];
      cbn [call]; try (intros; discriminate).
    destruct (snd tm =? 0); [intros w [= <-]; exact Hst |].
    destruct (assert (negb (snd tm =? ts_k st))); cbn [call];
      try (intros; discriminate).
    destruct (powm (ts_g st) (Z.shiftl 1 (ts_k st - snd tm - 1)) p)
      as [t | |] eqn:Et; cbn [call]; try (intros; discriminate).
    apply powm_range in Et. cbn [ts_y].
    apply rem_range; [nia | exact Hp].
  - cbn [ts_y]. split; [apply Ey | apply Ey; left; exact Hp1].
Qed.

Lemma fermat_range (x y v : Z) : fermat x y = Ok v -> 0 <= v < y.
Proof.
  unfold fermat, assert.
  destruct (Z.gtb_spec y 0) as [Hy |]; [| discriminate]. cbn [bind].
  destruct (Z.eqb_spec y 1) as [| Hy1]; [discriminate |].
  step_bind Ei. apply powm_range in Ei.
  destruct (v0 =? 0); [discriminate |]. intros [= <-].
  split; [apply Ei | apply Ei; left; lia].
Qed.


Lemma verify1_canonical (ctx : Red) (a : BN) :
  canonical ctx a -> Red.verify1 ctx a = Ok tt.
Proof.
  intros (Ha & Hr). unfold Red.verify1, range, red, is_tagged, BN.negative.
  rewrite Ha. destruct (Z.ltb_spec (bn_n a) 0); [lia | reflexivity].
Qed.

Lemma verify2_canonical (ctx : Red) (a b : BN) :
  canonical ctx a -> canonical ctx b -> Red.verify2 ctx a b = Ok tt.
Proof.
  intros (Ha & Hr) (Hb & Hs). unfold Red.verify2, range, red, BN.negative.
  rewrite Ha, Hb. unfold same_object. rewrite Nat.eqb_refl.
  destruct (Z.ltb_spec (bn_n a) 0); [lia |].
  destruct (Z.ltb_spec (bn_n b) 0); [lia | reflexivity].
Qed.

Lemma canonical_set_n (ctx : Red) (a : BN) (v : Z) :
  canonical ctx a -> 0 <= v < red_m ctx -> canonical ctx (BN.set_n a v).
Proof. intros (Ha & _) Hv. split; [exact Ha | exact Hv]. Qed.

(** The operations that always answer, on canonical operands of one
    context: the answer is canonical. *)
Lemma total_ring_ops_canonical (ctx : Red) (a b : BN) :
  1 <= red_m ctx -> canonical ctx a -> canonical ctx b ->
  (forall x, bn_red x = None ->
     exists r, BNRed.toRed x ctx = Ok r /\ canonical ctx r)
  /\ (exists r, BNRed.redAdd a b = Ok r /\ canonical ctx r)
  /\ (exists r, BNRed.redSub a b = Ok r /\ canonical ctx r)
  /\ (exists r, BNRed.redNeg a = Ok r /\ canonical ctx r)
  /\ (forall k, isInteger k = true ->
        exists r, BNRed.redShln a k = Ok r /\ canonical ctx r)
  /\ (exists r, BNRed.redMul a b = Ok r /\ canonical ctx r)
  /\ (exists r, BNRed.redSqr a = Ok r /\ canonical ctx r).
Proof.
  intros Hm Ha Hb.
  pose proof (verify1_canonical ctx a Ha) as V1.
  pose proof (verify2_canonical ctx a b Ha Hb) as V2.
  pose proof Ha as (Ta & Ra). pose proof Hb as (Tb & Rb).
  assert (Hpos : 0 < red_m ctx) by lia.
  repeat split.
  - intros x Hx. unfold BNRed.toRed, is_tagged, Red.convertTo. rewrite Hx.
    destruct (mod_range (bn_n x) (red_m ctx) Hpos) as (r & -> & Hr & _).
    cbn [bind]. eexists. split; [reflexivity |]. split; [reflexivity | exact Hr].
  - destruct (redAdd_same_context ctx a b Ha Hb) as (r & E & Hc & _). eauto.
  - unfold BNRed.redSub, BNRed.the_red. rewrite Ta. cbn [bind].
    unfold Red.sub, Red.isub. rewrite clone_same, V2. cbn [bind].
    eexists. split; [reflexivity |]. apply canonical_set_n; [exact Ha |].
    destruct (Z.ltb_spec (bn_n a - bn_n b) 0); lia.
  - unfold BNRed.redNeg, BNRed.the_red. rewrite Ta. cbn [bind].
    unfold Red.neg, Red.ineg. rewrite clone_same, V1. cbn [bind].
    destruct (Z.eqb_spec (bn_n a) 0); cbn [negb].
    + eexists. split; [reflexivity | exact Ha].
    + eexists. split; [reflexivity |]. apply canonical_set_n; [exact Ha | lia].
  - intros k Hk. unfold BNRed.redShln, BNRed.the_red, enforce.
    rewrite Hk, Ta. cbn [bind].
    unfold Red.shln, Red.ishln. rewrite clone_same, V1. cbn [bind].
    eexists. split; [reflexivity |]. apply canonical_set_n; [exact Ha |].
    apply rem_range; [| exact Hpos]. apply Z.shiftl_nonneg. lia.
  - unfold BNRed.redMul, BNRed.the_red. rewrite Ta. cbn [bind].
    unfold Red.mul, Red.imul. rewrite clone_same, V2. cbn [bind].
    eexists. split; [reflexivity |]. apply canonical_set_n; [exact Ha |].
    apply rem_range; [nia | exact Hpos].
  - unfold BNRed.redSqr, BNRed.the_red. rewrite Ta. cbn [bind].
    unfold Red.sqr, Red.isqr. rewrite clone_same, V1. cbn [bind].
    eexists. split; [reflexivity |]. apply canonical_set_n; [exact Ha |].
    apply rem_range; [nia | exact Hpos].
Qed.

(** The operations that may raise or not return: what they answer is
    canonical, for [redPow] unless the modulus is 1 and the exponent 0. *)
Lemma partial_ring_ops_canonical (ctx : Red) (a : BN) :
  canonical ctx a ->
  (forall r, BNRed.redInvert a = Ok r -> canonical ctx r)
  /\ (forall r, BNRed.redFermat a = Ok r -> canonical ctx r)
  /\ (forall fuel r, BNRed.redSqrt fuel a = Ok r -> canonical ctx r)
  /\ (forall e r, BNRed.redPow a e = Ok r ->
        1 < red_m ctx \/ bn_n e <> 0 -> canonical ctx r).
Proof.
  intros Ha. pose proof (verify1_canonical ctx a Ha) as V1.
  pose proof Ha as (Ta & Ra).
  split; [| split; [| split]].
  - intros r. unfold BNRed.redInvert, BNRed.the_red. rewrite Ta. cbn [bind].
    unfold Red.invert, Red.iinvert. rewrite clone_same, V1. cbn [bind].
    step_bind E. intros [= <-]. apply invert_range in E.
    apply canonical_set_n; assumption.
  - intros r. unfold BNRed.redFermat, BNRed.the_red. rewrite Ta. cbn [bind].
    unfold Red.fermat, Red.ifermat. rewrite clone_same, V1. cbn [bind].
    step_bind E. intros [= <-]. apply fermat_range in E.
    apply canonical_set_n; assumption.
  - intros fuel r. unfold BNRed.redSqrt, BNRed.the_red. rewrite Ta.
    cbn [bind]. unfold Red.sqrt, Red.isqrt. rewrite clone_same, V1.
    cbn [bind]. step_bind E. intros [= <-]. apply sqrtm_range in E.
    apply canonical_set_n; assumption.
  - intros e r. unfold BNRed.redPow, BNRed.the_red. rewrite Ta. cbn [bind].
    destruct (nonred (negb (is_tagged e)) "redPow"); cbn [bind];
      try discriminate.
    unfold Red.pow, Red.ipow. rewrite clone_same, V1. cbn [bind].
    step_bind E. intros [= <-] Hnd. apply powm_range in E.
    apply canonical_set_n; [exact Ha |].
    split; [apply E | apply E; assumption].
Qed.

(** C8 at the context of modulus 1: the one canonical number, 0, raised
    to the power 0 by [redPow] gives 1, which is outside [0, 1). *)
Theorem redPow_leaves_canonical_range :
  let ctx := {| red_ref := 0; red_m := 1 |} in
  let a := {| bn_n := 0; bn_red := Some ctx |} in
  let r := {| bn_n := 1; bn_red := Some ctx |} in
  Red.create 0 (inr (new_BN 1)) = Ok ctx
  /\ BNRed.toRed (new_BN 0) ctx = Ok a
  /\ canonical ctx a
  /\ BNRed.redPow a (new_BN 0) = Ok r
  /\ BNRed.redIPow a (new_BN 0) = Ok r
  /\ ~ canonical ctx r.
Proof.
  cbv zeta. repeat split; try reflexivity; try (cbn; lia).
  intros (_ & H). cbn in H. lia.
Qed.

(** * Counting bits *)

Lemma budget_mono (a b : Z) : a <= b -> a < 2 ^ Z.of_nat (budget b).
Proof. intros H. pose proof (budget_spec b). lia. Qed.

Lemma shiftr_lt (x w : Z) : 0 < x -> 0 < w -> 0 <= Z.shiftr x w < x.
Proof.
  intros Hx Hw. rewrite Z.shiftr_div_pow2 by lia.
  assert (H2 : 2 <= 2 ^ w).
  { change 2 with (2 ^ 1) at 1. apply Z.pow_le_mono_r; lia. }
  split; [apply Z.div_pos; lia |].
  apply Z.div_lt; lia.
Qed.

(** ** [countWords] always answers *)

Lemma words_loop (X max w : Z) (s : Z * Z) :
  0 < max -> 0 < w -> 0 <= fst s <= X ->
  exists s', loop (budget X) (words_round max w) s = Ok s'
             /\ 0 <= fst s' <= X.
Proof.
  intros Hmax Hw Hs.
  apply (loop_total (words_round max w) (fun s => 0 <= fst s <= X)
           (fun s => 0 <= fst s <= X) fst).
  - intros [x i] Hx. cbn [fst] in Hx. unfold words_round.
    destruct (Z.geb_spec x max) as [Hge | Hlt].
    + cbn [fst]. pose proof (shiftr_lt x w ltac:(lia) Hw). lia.
    + exists (x, i). split; [reflexivity | exact Hx].
  - exact Hs.
  - apply budget_mono. lia.
Qed.

Lemma words_last_loop (X : Z) (s : Z * Z) :
  0 <= fst s <= X ->
  exists s', loop (budget X) words_last s = Ok s'.
Proof.
  intros Hs.
  destruct (loop_total words_last (fun s => 0 <= fst s <= X)
              (fun _ => True) fst (budget X) s) as (s' & E & _).
  - intros [x i] Hx. cbn [fst] in Hx. unfold words_last.
    destruct (Z.gtb_spec x 0) as [Hgt | Hle].
    + cbn [fst]. pose proof (shiftr_lt x 1 ltac:(lia) ltac:(lia)). lia.
    + exists (x, i). auto.
  - exact Hs.
  - apply budget_mono. lia.
  - eauto.
Qed.

Lemma countWords_total (x w : Z) : exists v, countWords x w = Ok v /\ 0 <= v.
Proof.
  unfold countWords. destruct (x =? 0); [exists 0; split; [reflexivity | lia] |].
  set (X := if x <? 0 then - x else x).
  assert (HX : 0 <= X) by (unfold X; destruct (Z.ltb_spec x 0); lia).
  destruct (words_loop X U256_MAX 256 (X, 0)) as (s1 & -> & H1);
    [reflexivity | lia | cbn [fst]; lia |]. cbn [bind].
  destruct (words_loop X U128_MAX 128 s1) as (s2 & -> & H2);
    [reflexivity | lia | exact H1 |]. cbn [bind].
  destruct (words_loop X U64_MAX 64 s2) as (s3 & -> & H3);
    [reflexivity | lia | exact H2 |]. cbn [bind].
  destruct (words_loop X U32_MAX 32 s3) as (s4 & -> & H4);
    [reflexivity | lia | exact H3 |]. cbn [bind].
  destruct (words_loop X U16_MAX 16 s4) as (s5 & -> & H5);
    [reflexivity | lia | exact H4 |]. cbn [bind].
  destruct (words_loop X U8_MAX 8 s5) as (s6 & -> & H6);
    [reflexivity | lia | exact H5 |]. cbn [bind].
  destruct (words_last_loop X s6 H6) as (s7 & ->). cbn [bind].
  eexists. split; [reflexivity |]. unfold to_uint32.
  apply Z.mod_pos_bound. lia.
Qed.

(** ** [zeroBits] counts the trailing zero bits *)

Lemma zeros_loop (X w : Z) (s : Z * Z) :
  0 < w -> zeros_inv X s ->
  exists s', loop (budget X) (zeros_round (Z.ones w) w) s = Ok s'
             /\ zeros_inv X s' /\ fst s' mod 2 ^ w <> 0.
Proof.
  intros Hw Hs.
  apply (loop_total (zeros_round (Z.ones w) w) (zeros_inv X)
           (fun s' => zeros_inv X s' /\ fst s' mod 2 ^ w <> 0) fst).
  - intros [x i] (Hx & Hi & HX). cbn [fst snd] in *. unfold zeros_round.
    rewrite Z.land_ones by lia.
    destruct (Z.eqb_spec (x mod 2 ^ w) 0) as [Hz | Hnz].
    + unfold zeros_inv. cbn [fst snd].
      pose proof (shiftr_lt x w Hx Hw) as Hlt.
      rewrite Z.shiftr_div_pow2 in * by lia.
      assert (Hpw : 0 < 2 ^ w) by (apply Z.pow_pos_nonneg; lia).
      pose proof (Z.div_mod x (2 ^ w) ltac:(lia)) as Hdm.
      rewrite Hz, Z.add_0_r in Hdm.
      assert (Hq : 0 < x / 2 ^ w) by nia.
      repeat split; try lia.
      rewrite Z.pow_add_r by lia. rewrite HX. rewrite Hdm at 1. ring.
    + exists (x, i). split; [reflexivity |]. split; [| exact Hnz].
      repeat split; assumption.
  - exact Hs.
  - destruct s as [x i]. destruct Hs as (Hx & Hi & HX). cbn [fst snd] in *.
    apply budget_mono. assert (1 <= 2 ^ i) by (apply Z.pow_le_mono_r with (b := 0); lia).
    nia.
Qed.

(** For a number that is not zero, [zeroBits] answers the exponent of
    the largest power of two that divides it. *)
Lemma zeroBits_spec (x : Z) :
  x <> 0 ->
  exists s c, zeroBits x = Ok s /\ 0 <= s /\ Z.abs x = 2 ^ s * c
              /\ c mod 2 = 1 /\ 0 < c.
Proof.
  intros Hx. unfold zeroBits.
  destruct (Z.eqb_spec x 0) as [| _]; [contradiction |].
  replace (if x <? 0 then - x else x) with (Z.abs x)
    by (destruct (Z.ltb_spec x 0); lia).
  set (X := Z.abs x). assert (HX : 0 < X) by (unfold X; lia).
  change U32_MAX with (Z.ones 32). change U16_MAX with (Z.ones 16).
  change U8_MAX with (Z.ones 8).
  change (zeros_round 1 1) with (zeros_round (Z.ones 1) 1).
  assert (H0 : zeros_inv X (X, 0)).
  { unfold zeros_inv; cbn [fst snd]. repeat split; lia. }
  destruct (zeros_loop X 32 (X, 0) ltac:(lia) H0) as (s1 & -> & H1 & _).
  cbn [bind].
  destruct (zeros_loop X 16 s1 ltac:(lia) H1) as (s2 & -> & H2 & _).
  cbn [bind].
  destruct (zeros_loop X 8 s2 ltac:(lia) H2) as (s3 & -> & H3 & _).
  cbn [bind].
  destruct (zeros_loop X 1 s3 ltac:(lia) H3) as (s4 & -> & H4 & Hodd).
  cbn [bind].
  destruct s4 as [c i]. destruct H4 as (Hc & Hi & E). cbn [fst snd] in *.
  exists i, c. split; [reflexivity |]. repeat split; try assumption.
  change (2 ^ 1) with 2 in Hodd.
  pose proof (Z.mod_pos_bound c 2 ltac:(lia)). lia.
Qed.

Lemma zeroBits_zero : zeroBits 0 = Ok 0.
Proof. reflexivity. Qed.

Lemma zeroBits_total (x : Z) : exists s, zeroBits x = Ok s /\ 0 <= s.
Proof.
  destruct (Z.eq_dec x 0) as [-> | Hx].
  - exists 0. split; [reflexivity | lia].
  - destruct (zeroBits_spec x Hx) as (s & c & E & Hs & _). eauto.
Qed.

(** * The integer square root *)

Lemma sqrt_total (x : Z) : 0 <= x -> exists r, sqrt x = Ok r.
Proof.
  intros Hx. unfold sqrt, assert.
  destruct (Z.geb_spec x 0) as [_ |]; [| lia]. cbn [bind].
  destruct (Z.leb_spec x 1) as [| H1]; [eauto |].
  destruct (countWords_total x 1) as (bl & Ebl & Hbl).
  unfold bitLength. rewrite Ebl. cbn [bind].
  set (r0 := Z.shiftl 1 (Z.shiftr bl 1 + 1)).
  assert (Hr0 : 1 <= r0).
  { unfold r0. rewrite Z.shiftl_1_l.
    assert (0 <= Z.shiftr bl 1) by (apply Z.shiftr_nonneg; lia).
    apply Z.pow_le_mono_r with (b := 0); lia. }
  destruct (loop_total (sqrt_round x) (fun r => 1 <= r) (fun _ => True)
              (fun r => r) (budget r0) r0) as (r & E & _).
  - intros r Hr. unfold sqrt_round. rewrite shiftr_1.
    assert (Hq : 0 <= Z.quot x r) by (apply Z.quot_pos; lia).
    destruct (Z.geb_spec ((Z.quot x r + r) / 2) r) as [Hge | Hlt].
    + exists r. auto.
    + assert (r <> 1).
      { intros ->. rewrite Z.quot_1_r in Hlt.
        assert (1 <= (x + 1) / 2) by (apply Z.div_le_lower_bound; lia). lia. }
      assert (1 <= (Z.quot x r + r) / 2)
        by (apply Z.div_le_lower_bound; lia).
      lia.
  - exact Hr0.
  - apply budget_spec.
  - eauto.
Qed.

Lemma isSquare_total (n : Z) : exists b, isSquare n = Ok b.
Proof.
  unfold isSquare. destruct (Z.ltb_spec n 0); [eauto |].
  destruct (sqrt_total n) as (r & ->); [lia |]. cbn [bind]. eauto.
Qed.

(** [isSquare] answers "yes" on squares only. *)
Lemma isSquare_true (n : Z) :
  isSquare n = Ok true -> exists r, r ^ 2 = n.
Proof.
  unfold isSquare. destruct (n <? 0); [discriminate |].
  destruct (sqrt n) as [r | |]; cbn [bind]; try discriminate.
  destruct (Z.eqb_spec (r ^ 2) n); [eauto | discriminate].
Qed.

(** * Conversion to and from bytes *)

(** ** Lists and buffers *)

Lemma contents_alloc (pool bytes : list Z) :
  contents (alloc_buffer pool bytes) = bytes.
Proof.
  unfold contents, alloc_buffer. cbn [buf_store buf_offset buf_length].
  rewrite !Nat2Z.id, skipn_app, skipn_all, Nat.sub_diag. cbn [skipn app].
  apply firstn_all.
Qed.

Lemma list_set_length (l : list Z) (i : nat) (v : Z) :
  List.length (list_set l i v) = List.length l.
Proof.
  revert i. induction l as [| hd tl IH]; intros [| i]; cbn; auto.
Qed.

Lemma array_set_length (l : list Z) (i v : Z) :
  List.length (array_set l i v) = List.length l.
Proof. unfold array_set. destruct (i <? 0); [| apply list_set_length]; auto. Qed.

Lemma fold_array_set_length (idx : list Z) (l : list Z) :
  List.length (fold_left (fun res i => array_set res i 0) idx l) = List.length l.
Proof.
  revert l. induction idx as [| i idx IH]; intros l; cbn [fold_left]; auto.
  rewrite IH. apply array_set_length.
Qed.

Lemma reverse_total (data : list Z) :
  exists r, reverse data = Ok r /\ List.length r = List.length data.
Proof.
  unfold reverse. set (len := Z.of_nat (List.length data)).
  apply (loop_total reverse_round
           (fun s => List.length (snd s) = List.length data)
           (fun r => List.length r = List.length data)
           (fun s => fst (fst s) - snd (fst s) + 1)).
  - intros [[i j] d] Hd. cbn [fst snd] in *. unfold reverse_round.
    destruct (Z.gtb_spec i j).
    + cbn [fst snd]. rewrite !array_set_length. split; [exact Hd | lia].
    + exists d. auto.
  - reflexivity.
  - cbn [fst snd]. apply budget_mono. lia.
Qed.

Lemma reverse_buffer_total (data : Buffer) :
  exists b, reverse_buffer data = Ok b /\ buf_length b = buf_length data.
Proof.
  unfold reverse_buffer.
  destruct (reverse_total (contents data)) as (r & -> & _). cbn [bind].
  eexists. split; reflexivity.
Qed.

Lemma contents_rebuilt (store r : list Z) (off len : nat) :
  (off + len <= List.length store)%nat -> List.length r = len ->
  contents {| buf_store := firstn off store ++ r ++ skipn (off + len) store;
              buf_offset := Z.of_nat off; buf_length := Z.of_nat len |} = r.
Proof.
  intros Hin Hr. unfold contents. cbn [buf_store buf_offset buf_length].
  rewrite !Nat2Z.id.
  assert (Hf : List.length (firstn off store) = off)
    by (rewrite length_firstn; lia).
  rewrite skipn_app, Hf, Nat.sub_diag, skipn_all2 by lia. cbn [skipn app].
  rewrite firstn_app, Hr, Nat.sub_diag, firstn_all2 by lia. cbn [firstn].
  apply app_nil_r.
Qed.

Lemma reverse_buffer_single (pool : list Z) (b : Z) :
  reverse_buffer (alloc_buffer pool [b]) = Ok (alloc_buffer pool [b]).
Proof.
  unfold reverse_buffer. rewrite contents_alloc.
  change (reverse [b]) with (Ok (A := list Z) [b]). cbn [bind].
  unfold alloc_buffer. cbn [buf_store buf_offset buf_length List.length].
  rewrite !Nat2Z.id. f_equal. f_equal.
  rewrite firstn_app, firstn_all, Nat.sub_diag. cbn [firstn].
  rewrite app_nil_r. f_equal.
  rewrite skipn_all2 by (rewrite length_app; cbn; lia). reflexivity.
Qed.

(** ** Hexadecimal digits *)

Lemma hex_value_char (d : Z) : 0 <= d < 16 -> hex_value (hex_char d) = Some d.
Proof.
  intros Hd.
  assert (H : d = 0 \/ d = 1 \/ d = 2 \/ d = 3 \/ d = 4 \/ d = 5 \/ d = 6
              \/ d = 7 \/ d = 8 \/ d = 9 \/ d = 10 \/ d = 11 \/ d = 12
              \/ d = 13 \/ d = 14 \/ d = 15) by lia.
  repeat (destruct H as [-> | H]; [reflexivity |]). subst d. reflexivity.
Qed.

Lemma hex_digits_all_hex (fuel : nat) :
  forall n acc, all_hex acc -> all_hex (hex_digits fuel n acc).
Proof.
  induction fuel as [| fuel IH]; intros n acc Hacc; cbn [hex_digits]; auto.
  assert (Hstep : all_hex (String (hex_char (n mod 16)) acc)).
  { split; [| exact Hacc]. exists (n mod 16).
    pose proof (Z.mod_pos_bound n 16 ltac:(lia)).
    split; [apply hex_value_char |]; lia. }
  destruct (n / 16 =? 0); [exact Hstep | apply IH; exact Hstep].
Qed.

Lemma hex_digits_nonempty (fuel : nat) :
  forall n acc, (1 + String.length acc <= String.length (hex_digits (S fuel) n acc))%nat.
Proof.
  induction fuel as [| fuel IH]; intros n acc.
  - cbn. destruct (n / 16 =? 0); cbn; lia.
  - change (hex_digits (S (S fuel)) n acc)
      with (let acc' := String (hex_char (n mod 16)) acc in
            if n / 16 =? 0 then acc' else hex_digits (S fuel) (n / 16) acc').
    cbv zeta. destruct (n / 16 =? 0); [cbn; lia |].
    specialize (IH (n / 16) (String (hex_char (n mod 16)) acc)).
    cbn [String.length] in IH. lia.
Qed.

Lemma toString16_shape (n : Z) :
  all_hex (toString16 n) /\ (1 <= String.length (toString16 n))%nat.
Proof.
  unfold toString16, budget. split.
  - apply hex_digits_all_hex. exact I.
  - pose proof (hex_digits_nonempty (Z.to_nat (Z.log2 n)) n EmptyString) as H.
    cbn [String.length] in H. lia.
Qed.

Lemma hex_decode_length (k : nat) :
  forall s, all_hex s -> String.length s = (2 * k)%nat ->
            List.length (hex_decode s) = k.
Proof.
  induction k as [| k IH]; intros s Hs Hlen.
  - destruct s; [reflexivity | discriminate].
  - destruct s as [| hi [| lo rest]]; try (cbn in Hlen; lia).
    destruct Hs as ((h & Eh & _) & (l & El & _) & Hrest).
    cbn [hex_decode]. rewrite Eh, El. cbn [List.length]. f_equal.
    apply IH; [exact Hrest |]. cbn [String.length] in Hlen. lia.
Qed.

(** ** [toBuffer] and [toArrayLike] without a length *)

Lemma endian_mode_valid (endian : option string) :
  endian_mode endian ->
  is_endian (endian_or_be endian) = true
  /\ (String.eqb (endian_or_be endian) "le" = true
      \/ String.eqb (endian_or_be endian) "be" = true).
Proof. intros [-> | [-> | ->]]; cbn; auto. Qed.

Lemma toBuffer_at_least_one_byte (pool : list Z) (n : Z)
  (endian : option string) :
  endian_mode endian ->
  exists b, toBuffer pool n endian None = Ok b
            /\ 1 <= buf_length b
            /\ Z.of_nat (List.length (contents b)) = buf_length b.
Proof.
  intros He. destruct (endian_mode_valid endian He) as (Hv & _).
  unfold toBuffer, enforce. rewrite Hv. cbn [bind].
  change (to_uint32 0 =? 0) with true. cbn [bind].
  destruct (toString16_shape (abs n)) as (Hhex & Hlen).
  set (str0 := toString16 (abs n)) in *.
  set (str := if negb (Z.land (Z.of_nat (String.length str0)) 1 =? 0)
              then String "0" str0 else str0).
  assert (Hstr : all_hex str /\ exists k, (1 <= k)%nat
                                      /\ String.length str = (2 * k)%nat).
  { unfold str. rewrite land_1.
    pose proof (Z.div_mod (Z.of_nat (String.length str0)) 2 ltac:(lia)) as Hdm.
    pose proof (Z.mod_pos_bound (Z.of_nat (String.length str0)) 2 ltac:(lia)).
    destruct (Z.eqb_spec (Z.of_nat (String.length str0) mod 2) 0) as [E | E];
      cbn [negb].
    - split; [exact Hhex |].
      exists (Z.to_nat (Z.of_nat (String.length str0) / 2)).
      revert Hdm H E Hlen. generalize (String.length str0).
      intros L Hdm H E Hlen. lia.
    - split.
      + split; [| exact Hhex]. exists 0. split; [reflexivity | lia].
      + exists (S (Z.to_nat (Z.of_nat (String.length str0) / 2))).
        cbn [String.length]. revert Hdm H E Hlen.
        generalize (String.length str0). intros L Hdm H E Hlen. lia. }
  destruct Hstr as (Hall & k & Hk & Ek).
  rewrite shiftr_1, Ek.
  replace (Z.of_nat (2 * k) / 2) with (Z.of_nat k)
    by (rewrite Nat2Z.inj_mul, Z.mul_comm, Z.div_mul; lia).
  change (0 =? 0) with true. cbn [negb].
  rewrite Z.max_r by lia.
  destruct (Z.gtb_spec (Z.of_nat k) (Z.of_nat k)) as [| _]; [lia |].
  assert (Epad : padStart str (Z.of_nat k * 2) "00" = str).
  { unfold padStart. rewrite Ek.
    destruct (Z.leb_spec (Z.of_nat k * 2) (Z.of_nat (2 * k))); [reflexivity | lia]. }
  rewrite Epad.
  pose proof (hex_decode_length k str Hall Ek) as Hdec.
  destruct (String.eqb (endian_or_be endian) "le").
  - destruct (reverse_buffer_total (alloc_buffer pool (hex_decode str)))
      as (b & Eb & Hb).
    exists b. split; [exact Eb |]. rewrite Hb. cbn [alloc_buffer buf_length].
    rewrite Hdec. split; [lia |].
    unfold reverse_buffer in Eb. rewrite contents_alloc in Eb.
    destruct (reverse_total (hex_decode str)) as (r & Er & Hr).
    rewrite Er in Eb. cbn [bind] in Eb. injection Eb as <-.
    cbn [alloc_buffer buf_store buf_offset buf_length].
    rewrite !Nat2Z.id, contents_rebuilt; [lia | rewrite length_app; lia | exact Hr].
  - eexists. split; [reflexivity |]. rewrite contents_alloc.
    cbn [alloc_buffer buf_length]. rewrite Hdec. lia.
Qed.

Lemma bytes_loop (dir : Z) (q i : Z) (res : list Z) :
  0 <= q ->
  exists i' res', loop (budget q) (bytes_round dir) (q, i, res) = Ok (i', res')
                  /\ List.length res' = List.length res.
Proof.
  intros Hq.
  destruct (loop_total (bytes_round dir)
              (fun s => 0 <= fst (fst s) /\ List.length (snd s) = List.length res)
              (fun r => List.length (snd r) = List.length res)
              (fun s => fst (fst s)) (budget q) (q, i, res))
    as ([i' res'] & E & H).
  - intros [[q1 i1] r1] (Hq1 & Hl). cbn [fst snd] in *. unfold bytes_round.
    destruct (Z.gtb_spec q1 0).
    + cbn [fst snd]. rewrite array_set_length.
      pose proof (shiftr_lt q1 8 ltac:(lia) ltac:(lia)). lia.
    + eexists. split; [reflexivity | exact Hl].
  - cbn [fst snd]. auto.
  - cbn [fst snd]. apply budget_spec.
  - exists i', res'. auto.
Qed.

Lemma toArrayLike_at_least_one_element (junk n : Z) (type : ArrayType)
  (endian : option string) :
  endian_mode endian ->
  exists res, toArrayLike junk n type endian None = Ok res
              /\ (1 <= List.length res)%nat.
Proof.
  intros He. destruct (endian_mode_valid endian He) as (Hv & _).
  unfold toArrayLike, enforce. rewrite Hv. cbn [bind].
  change (to_uint32 0 =? 0) with true. cbn [bind].
  destruct (countWords_total n 8) as (bytes & Eb & Hb).
  unfold byteLength. rewrite Eb. cbn [bind].
  change (0 =? 0) with true. cbn [negb].
  destruct (Z.gtb_spec bytes (Z.max 1 bytes)) as [| _]; [lia |].
  assert (Hq : 0 <= abs n) by (rewrite abs_spec; lia).
  assert (Hlen : (1 <= List.length (allocate junk type (Z.max 1 bytes)))%nat).
  { unfold allocate. rewrite repeat_length. lia. }
  destruct (String.eqb (endian_or_be endian) "be").
  - destruct (bytes_loop (-1) (abs n) (Z.max 1 bytes - 1)
                (allocate junk type (Z.max 1 bytes)) Hq)
      as (i & res & -> & Hres). cbn [bind].
    eexists. split; [reflexivity |]. rewrite fold_array_set_length. lia.
  - destruct (bytes_loop 1 (abs n) 0
                (allocate junk type (Z.max 1 bytes)) Hq)
      as (i & res & -> & Hres). cbn [bind].
    eexists. split; [reflexivity |]. rewrite fold_array_set_length. lia.
Qed.

(** ** Zero *)

Lemma toBuffer_zero (pool : list Z) (endian : option string) :
  endian_mode endian ->
  toBuffer pool 0 endian None = Ok (alloc_buffer pool [0]).
Proof.
  intros [-> | [-> | ->]]; unfold toBuffer; cbn -[alloc_buffer reverse_buffer];
    try reflexivity.
  apply reverse_buffer_single.
Qed.

Lemma toArrayLike_zero (junk : Z) (type : ArrayType) (endian : option string) :
  endian_mode endian ->
  toArrayLike junk 0 type endian None = Ok [0].
Proof. intros [-> | [-> | ->]]; reflexivity. Qed.

Lemma fromArrayLike_zero (endian : option string) :
  endian_mode endian -> fromArrayLike [0] endian = Ok 0.
Proof. intros [-> | [-> | ->]]; reflexivity. Qed.

(** ** Reading a buffer that holds the single byte 0 *)

Lemma lor_shiftl_byte (n b : Z) :
  0 <= n -> 0 <= b < 256 -> Z.lor (Z.shiftl n 8) b = n * 256 + b.
Proof.
  intros Hn Hb. rewrite Z.shiftl_mul_pow2 by lia. change (2 ^ 8) with 256.
  assert (Hland : Z.land (n * 256) b = 0); [| rewrite <- Z.lxor_lor by exact Hland;
    symmetry; apply Z.add_nocarry_lxor; exact Hland].
  apply Z.bits_inj'. intros k Hk. rewrite Z.land_spec, Z.bits_0.
  destruct (Z_lt_le_dec k 8) as [Hlt | Hge].
  - change 256 with (2 ^ 8). rewrite Z.mul_pow2_bits_low by lia. reflexivity.
  - rewrite (Z.bits_above_log2 b k); [apply andb_false_r | lia |].
    destruct (Z.eq_dec b 0) as [-> | Hb0]; [cbn; lia |].
    apply Z.lt_le_trans with (m := 8); [| exact Hge].
    apply Z.log2_lt_pow2; [lia |]. change (2 ^ 8) with 256. lia.
Qed.

(** Folding in-range bytes into a number that is not negative keeps the
    number in the high part and adds less than [256 ^ length]. *)
Lemma fold_bytes_bound {A : Type} (f : A -> Z) (l : list A) :
  forall n0, 0 <= n0 -> (forall x, In x l -> is_byte (f x)) ->
  exists v, fold_left (fun n x => Z.lor (Z.shiftl n 8) (f x)) l n0
            = n0 * 256 ^ Z.of_nat (List.length l) + v
            /\ 0 <= v < 256 ^ Z.of_nat (List.length l).
Proof.
  induction l as [| x l IH]; intros n0 Hn0 Hf.
  - exists 0. cbn. lia.
  - cbn [fold_left]. pose proof (Hf x (or_introl eq_refl)) as Hx.
    rewrite lor_shiftl_byte by assumption.
    destruct (IH (n0 * 256 + f x) ltac:(unfold is_byte in Hx; lia)
                (fun y Hy => Hf y (or_intror Hy))) as (v & -> & Hv).
    cbn [List.length]. rewrite Nat2Z.inj_succ, Z.pow_succ_r by lia.
    exists (f x * 256 ^ Z.of_nat (List.length l) + v). split; [ring |].
    unfold is_byte in Hx. nia.
Qed.

Lemma upto_snoc (u : Z) : 0 <= u -> upto 0 (u + 1) = upto 0 u ++ [u].
Proof.
  intros Hu. unfold upto.
  replace (Z.to_nat (u + 1 - 0)) with (S (Z.to_nat (u - 0))) by lia.
  rewrite seq_S, map_app. cbn [map Nat.add]. f_equal. f_equal. lia.
Qed.

Lemma in_upto (a b i : Z) : In i (upto a b) -> a <= i < b.
Proof.
  unfold upto. rewrite in_map_iff. intros (k & <- & Hk).
  apply in_seq in Hk. lia.
Qed.

Lemma land_shiftl_mask8 (m : Z) : Z.land (Z.shiftl m 8) (mask 8) = 0.
Proof.
  change (mask 8) with (Z.ones 8). rewrite Z.land_ones by lia.
  rewrite Z.shiftl_mul_pow2 by lia. apply Z.mod_mul. lia.
Qed.

Lemma read_words_zero (ENDIAN : string) (Q : list Z) :
  Forall is_byte Q -> read_words ENDIAN (alloc_buffer Q [0]) = 0.
Proof.
  intros HQ. unfold read_words. cbn [alloc_buffer buf_offset buf_store buf_length].
  set (L := Z.of_nat (List.length Q)).
  assert (Hu : 0 <= Z.land L 7 < 8 /\ Z.land L 7 <= L).
  { rewrite land_7. pose proof (Z.mod_pos_bound L 8 ltac:(lia)).
    pose proof (Z.mod_le L 8 ltac:(lia) ltac:(lia)). lia. }
  set (u := Z.land L 7) in *.
  change (Z.of_nat (List.length [0])) with 1.
  set (D := if negb (u =? 0)
            then {| buf_store := Q ++ [0]; buf_offset := L - u;
                    buf_length := u + 1 |}
            else alloc_buffer Q [0]).
  assert (HD : buf_store D = Q ++ [0] /\ buf_offset D = L - u
               /\ buf_length D = u + 1).
  { unfold D. destruct (Z.eqb_spec u 0) as [E | E]; cbn; repeat split; lia. }
  destruct HD as (Hst & Hoff & Hlen).
  assert (Hget_u : forall i, u <= i -> buf_get D i = 0).
  { intros i Hi. unfold buf_get. rewrite Hst, Hoff.
    destruct (Z.eq_dec i u) as [-> | Hne].
    - replace (Z.to_nat (L - u + u)) with (List.length Q + 0)%nat by lia.
      rewrite app_nth2_plus. reflexivity.
    - apply nth_overflow. rewrite length_app. cbn [List.length]. lia. }
  assert (Hget_lt : forall i, 0 <= i < u -> is_byte (buf_get D i)).
  { intros i Hi. unfold buf_get. rewrite Hst, Hoff.
    rewrite app_nth1 by lia.
    rewrite Forall_forall in HQ. apply HQ, nth_In. lia. }
  clearbody D. rewrite Hlen.
  replace (u + 1 - u) with 1 by lia. change (1 * 8) with 8.
  assert (Hcase : u = 7 \/ 0 <= u < 7) by lia.
  destruct Hcase as [E7 | Hlt7].
  - (* one 64-bit word holds the seven bytes before the view and the view *)
    rewrite E7 in *. change (Z.shiftr (7 + 1) 3) with 1.
    change (Z.land (7 + 1) 7) with 0. change (7 + 1 - 0) with 8.
    change (upto 8 (7 + 1)) with (@nil Z). change (upto 0 1) with [0].
    cbn [rev app fold_left]. change (7 =? 0) with false. cbn [negb].
    unfold uint64_at. destruct (String.eqb ENDIAN "be").
    + change (seq 0 8) with (seq 0 7 ++ [7%nat]).
      rewrite fold_left_app. cbn [fold_left].
      rewrite (Hget_u (8 * 0 + Z.of_nat 7)) by lia.
      rewrite Z.lor_0_r. change (Z.shiftl 0 64) with 0. rewrite Z.lor_0_l.
      apply land_shiftl_mask8.
    + change (rev (seq 0 8)) with (7%nat :: rev (seq 0 7)).
      cbn [fold_left]. rewrite (Hget_u (8 * 0 + Z.of_nat 7)) by lia.
      change (Z.lor (Z.shiftl 0 8) 0) with 0.
      destruct (fold_bytes_bound
                  (fun k => buf_get D (8 * 0 + Z.of_nat k)) (rev (seq 0 7)) 0
                  ltac:(lia)) as (v & Ev & Hv).
      { intros k Hk. apply Hget_lt. apply in_rev, in_seq in Hk. lia. }
      change (Z.shiftl 0 64) with 0. rewrite Z.lor_0_l, Ev.
      rewrite Z.shiftr_div_pow2 by lia. apply Z.div_small.
      change (Z.of_nat (List.length (rev (seq 0 7)))) with 7 in Hv.
      change (7 * 8) with 56. change (256 ^ 7) with (2 ^ 56) in Hv. lia.
  - (* the bytes are read one by one *)
    assert (E1 : Z.shiftr (u + 1) 3 = 0).
    { rewrite Z.shiftr_div_pow2 by lia. apply Z.div_small.
      change (2 ^ 3) with 8. lia. }
    assert (E2 : Z.land (u + 1) 7 = u + 1)
      by (rewrite land_7; apply Z.mod_small; lia).
    rewrite E1, E2. replace (u + 1 - (u + 1)) with 0 by lia.
    change (upto 0 0) with (@nil Z). cbn [rev fold_left].
    rewrite upto_snoc by lia. destruct (String.eqb ENDIAN "be").
    + rewrite fold_left_app. cbn [fold_left]. rewrite Hget_u by lia.
      rewrite Z.lor_0_r.
      destruct (Z.eqb_spec u 0) as [E0 | N0]; cbn [negb].
      * rewrite E0. reflexivity.
      * apply land_shiftl_mask8.
    + rewrite rev_app_distr. cbn [rev app fold_left].
      rewrite Hget_u by lia. change (Z.lor (Z.shiftl 0 8) 0) with 0.
      destruct (fold_bytes_bound (buf_get D) (rev (upto 0 u)) 0 ltac:(lia))
        as (v & Ev & Hv).
      { intros i Hi. apply Hget_lt. apply in_rev, in_upto in Hi. exact Hi. }
      rewrite Ev. rewrite length_rev in Hv. unfold upto in Hv.
      rewrite length_map, length_seq in Hv.
      replace (Z.of_nat (Z.to_nat (u - 0))) with u in Hv by lia.
      destruct (Z.eqb_spec u 0) as [E0 | N0]; cbn [negb].
      * rewrite E0 in Hv. change (256 ^ 0) with 1 in Hv. lia.
      * rewrite Z.shiftr_div_pow2 by lia. apply Z.div_small.
        replace (2 ^ (u * 8)) with (256 ^ u); [lia |].
        change 256 with (2 ^ 8). rewrite <- Z.pow_mul_r by lia.
        f_equal. lia.
Qed.

Lemma fromBuffer_zero (ENDIAN : string) (pool pool' : list Z)
  (endian : option string) :
  Forall is_byte pool -> Forall is_byte pool' -> endian_mode endian ->
  fromBuffer ENDIAN pool' (alloc_buffer pool [0]) endian = Ok 0.
Proof.
  intros Hp Hp' He. destruct (endian_mode_valid endian He) as (Hv & _).
  unfold fromBuffer, enforce. rewrite Hv. cbn [bind].
  rewrite contents_alloc, reverse_buffer_single.
  destruct (negb (String.eqb (endian_or_be endian) ENDIAN)); cbn [bind];
    rewrite read_words_zero by assumption; reflexivity.
Qed.

(** C10. Serialization to bytes with no explicit length always yields at
    least one byte; the integer zero serializes to the single byte 0x00,
    never to an empty buffer, in both byte orders, and deserializing that
    buffer yields zero again.  [pool] and [pool'] are the bytes that lie
    before the buffers in their stores and [ENDIAN] is the byte order of
    the machine. *)
Theorem zero_is_one_zero_byte (ENDIAN : string) (pool pool' : list Z)
  (n junk : Z) (type : ArrayType) (endian endian' : option string) :
  Forall is_byte pool -> Forall is_byte pool' ->
  endian_mode endian -> endian_mode endian' ->
  (exists b, toBuffer pool n endian None = Ok b
             /\ 1 <= buf_length b
             /\ Z.of_nat (List.length (contents b)) = buf_length b)
  /\ (exists res, toArrayLike junk n type endian None = Ok res
                  /\ (1 <= List.length res)%nat)
  /\ (exists b, toBuffer pool 0 endian None = Ok b
                /\ contents b = [0]
                /\ fromBuffer ENDIAN pool' b endian' = Ok 0)
  /\ toArrayLike junk 0 type endian None = Ok [0]
  /\ fromArrayLike [0] endian' = Ok 0.
Proof.
  intros Hp Hp' He He'.
  split; [apply toBuffer_at_least_one_byte; exact He |].
  split; [apply toArrayLike_at_least_one_element; exact He |].
  split.
  - exists (alloc_buffer pool [0]).
    split; [apply toBuffer_zero; exact He |].
    split; [apply contents_alloc |].
    apply fromBuffer_zero; assumption.
  - split; [apply toArrayLike_zero; exact He | apply fromArrayLike_zero; exact He'].
Qed.

Lemma zero_is_one_zero_byte_witness :
  (exists b, toBuffer [1; 2; 3] 258 (Some "le"%string) None = Ok b
             /\ 1 <= buf_length b
             /\ Z.of_nat (List.length (contents b)) = buf_length b)
  /\ (exists res, toArrayLike 9 258 OtherT (Some "le"%string) None = Ok res
                  /\ (1 <= List.length res)%nat)
  /\ (exists b, toBuffer [1; 2; 3] 0 (Some "le"%string) None = Ok b
                /\ contents b = [0]
                /\ fromBuffer "le" [] b None = Ok 0)
  /\ toArrayLike 9 0 OtherT (Some "le"%string) None = Ok [0]
  /\ fromArrayLike [0] None = Ok 0.
Proof.
  apply (zero_is_one_zero_byte "le" [1; 2; 3] [] 258 9 OtherT
           (Some "le"%string) None).
  - repeat constructor; unfold is_byte; lia.
  - constructor.
  - right; right; reflexivity.
  - left; reflexivity.
Defined.

(** The methods of the class, for every kind of array: zero goes out as
    the one element 0 and comes back as zero. *)
Lemma BN_zero_round_trip (ENDIAN : string) (pool pool' : list Z) (junk : Z)
  (this : BN) (type : ArrayType) (endian endian' : option string) :
  Forall is_byte pool -> Forall is_byte pool' ->
  endian_mode endian -> endian_mode endian' ->
  exists a, BN.toArrayLike pool junk (new_BN 0) type endian None = Ok a
            /\ BN.elements a = [0]
            /\ BN.fromArrayLike ENDIAN pool' this a endian'
               = Ok (BN.set_n this 0).
Proof.
  intros Hp Hp' He He'.
  pose proof (toBuffer_zero pool endian He) as Hb.
  pose proof (toArrayLike_zero junk type endian He) as Ha.
  pose proof (fromBuffer_zero ENDIAN pool pool' endian' Hp Hp' He') as Hfb.
  pose proof (fromArrayLike_zero endian' He') as Hfa.
  unfold BN.toArrayLike, BN.toArray, BN.toBuffer. cbn [new_BN bn_n].
  destruct type; rewrite ?Hb, ?Ha; cbn [bind];
    eexists; (split; [reflexivity |]);
    unfold BN.elements, BN.fromArrayLike, BN.fromBuffer, BN.fromArray;
    rewrite ?contents_alloc, ?Hfb, ?Hfa; cbn [bind map BN.to_int8 Z.geb Z.compare];
    split; reflexivity.
Qed.

(** * The rounds of [jacobi] *)

Lemma jacobi_round_exit_one (a j : Z) : jacobi_round (a, 1, j) = inr (Ok j).
Proof. reflexivity. Qed.

Lemma jacobi_round_exit_zero (a b j : Z) :
  0 <= a -> 1 < b -> a mod b = 0 -> jacobi_round (a, b, j) = inr (Ok 0).
Proof.
  intros Ha Hb Hz. unfold jacobi_round.
  destruct (Z.eqb_spec b 1) as [| _]; [lia |].
  destruct (a =? 0); [reflexivity |].
  rewrite rem_mod, Hz by lia. reflexivity.
Qed.

Lemma jacobi_round_step (a b j : Z) :
  0 <= a -> 1 < b -> a mod b <> 0 ->
  exists s c,
    0 <= s /\ 0 < c < b /\ c mod 2 = 1 /\ a mod b = 2 ^ s * c
    /\ jacobi_round (a, b, j) = inl (b, c, jacobi_flip s b c j).
Proof.
  intros Ha Hb Hnz. unfold jacobi_round.
  destruct (Z.eqb_spec b 1) as [| _]; [lia |].
  destruct (Z.eqb_spec a 0) as [-> | _]; [rewrite Z.mod_0_l in Hnz; lia |].
  rewrite rem_mod by lia.
  destruct (Z.eqb_spec (a mod b) 0) as [| _]; [contradiction |].
  pose proof (Z.mod_pos_bound a b ltac:(lia)) as Hr.
  destruct (zeroBits_spec (a mod b) Hnz) as (s & c & -> & Hs & E & Hodd & Hc).
  rewrite Z.abs_eq in E by lia. cbn [call].
  assert (Hp : 1 <= 2 ^ s) by (apply Z.pow_le_mono_r with (b := 0); lia).
  assert (Hshift : Z.shiftr (a mod b) s = c).
  { rewrite Z.shiftr_div_pow2 by lia. rewrite E, Z.mul_comm.
    apply Z.div_mul. lia. }
  exists s, c. repeat split; try assumption; try nia.
  rewrite Hshift. unfold jacobi_flip. rewrite land_1, land_7, !land_3.
  pose proof (Z.mod_pos_bound s 2 ltac:(lia)) as Hs2.
  replace (negb (s mod 2 =? 0)) with (s mod 2 =? 1)
    by (destruct (Z.eqb_spec (s mod 2) 0), (Z.eqb_spec (s mod 2) 1);
        try reflexivity; lia).
  destruct (s mod 2 =? 1); reflexivity.
Qed.

(** [jacobi] always answers, with -1, 0 or 1, when its second argument
    is odd. *)
Lemma jacobi_total (x y : Z) :
  y mod 2 = 1 ->
  exists j, jacobi x y = Ok j /\ (j = -1 \/ j = 0 \/ j = 1).
Proof.
  intros Hodd. unfold jacobi. rewrite land_1, Hodd.
  destruct (Z.eqb_spec y 0) as [-> | Hy]; [discriminate |]. cbn [orb Z.eqb].
  set (bj := if y <? 0 then (- y, if x <? 0 then -1 else 1) else (y, 1)).
  assert (Hbj : 1 <= fst bj /\ fst bj mod 2 = 1 /\ (snd bj = 1 \/ snd bj = -1)).
  { unfold bj. destruct (Z.ltb_spec y 0); cbn [fst snd].
    - repeat split; try lia.
      + rewrite Z.mod_opp_l_nz by lia. lia.
      + destruct (x <? 0); lia.
    - repeat split; lia. }
  destruct bj as [b j0]. cbn [fst snd] in Hbj. destruct Hbj as (Hb & Hbo & Hj0).
  assert (Ha : exists a, (if x <? 0 then mod' x b else Ok x) = Ok a /\ 0 <= a).
  { destruct (Z.ltb_spec x 0).
    - destruct (mod_range x b ltac:(lia)) as (r & -> & Hr & _).
      exists r. split; [reflexivity | lia].
    - exists x. split; [reflexivity | lia]. }
  destruct Ha as (a & -> & Ha). cbn [bind].
  apply (loop_total jacobi_round
           (fun st => let '(a, b, j) := st in
                      0 <= a /\ 1 <= b /\ b mod 2 = 1 /\ (j = 1 \/ j = -1))
           (fun v => v = -1 \/ v = 0 \/ v = 1)
           (fun st => snd (fst st))).
  - intros [[a1 b1] j1] (Ha1 & Hb1 & Hbo1 & Hj1). cbn [fst snd].
    destruct (Z.eq_dec b1 1) as [-> | Hne].
    + rewrite jacobi_round_exit_one. exists j1. split; [reflexivity | lia].
    + destruct (Z.eq_dec (a1 mod b1) 0) as [Hz | Hnz].
      * rewrite jacobi_round_exit_zero by lia. exists 0. split; [reflexivity | lia].
      * destruct (jacobi_round_step a1 b1 j1 Ha1 ltac:(lia) Hnz)
          as (s & c & Hs & Hc & Hco & _ & ->).
        cbn [fst snd]. repeat split; try lia.
        unfold jacobi_flip.
        destruct ((s mod 2 =? 1) && ((b1 mod 8 =? 3) || (b1 mod 8 =? 5)));
          destruct ((b1 mod 4 =? 3) && (c mod 4 =? 3)); lia.
  - repeat split; assumption || lia.
  - cbn [fst snd]. apply budget_spec.
Qed.

(** * The parameter search of the strong Lucas test *)

Section Search.

Variables n limit : Z.
Hypothesis n_big : 2 < n.
Hypothesis n_odd : n mod 2 = 1.

Lemma search_round_in_range (p : Z) :
  3 <= p <= 10000 -> limit <= 0 \/ p <= limit ->
  lucas_search_round n limit p = inl (p + 1)
  \/ exists v, lucas_search_round n limit p = inr (Ok v).
Proof.
  intros Hp Hl. unfold lucas_search_round.
  destruct (Z.gtb_spec p 10000) as [| _]; [lia |].
  assert (Hlim : (limit >? 0) && (p >? limit) = false).
  { destruct (Z.gtb_spec limit 0), (Z.gtb_spec p limit); try reflexivity; lia. }
  rewrite Hlim.
  destruct (jacobi_total (p * p - 4) n n_odd) as (j & -> & Hj). cbn [call].
  destruct (j =? -1); [right; eauto |].
  destruct (j =? 0); [right; eauto |].
  destruct (p =? 40).
  - destruct (isSquare_total n) as ([|] & ->); cbn [call]; [right; eauto | left; reflexivity].
  - cbn [call]. left; reflexivity.
Qed.

Lemma search_round_passes (p : Z) :
  3 <= p <= 10000 -> limit <= 0 \/ p <= limit -> search_passes n p ->
  lucas_search_round n limit p = inl (p + 1).
Proof.
  intros Hp Hl (Hj & Hsq). unfold lucas_search_round.
  destruct (Z.gtb_spec p 10000) as [| _]; [lia |].
  assert (Hlim : (limit >? 0) && (p >? limit) = false).
  { destruct (Z.gtb_spec limit 0), (Z.gtb_spec p limit); try reflexivity; lia. }
  rewrite Hlim, Hj. cbn [call Z.eqb].
  destruct (Z.eqb_spec p 40) as [E | _]; [rewrite (Hsq E) |]; reflexivity.
Qed.

Lemma search_round_over_limit (p : Z) :
  p <= 10000 -> 0 < limit < p ->
  lucas_search_round n limit p = inr (Ok (inr false)).
Proof.
  intros Hp Hl. unfold lucas_search_round.
  destruct (Z.gtb_spec p 10000) as [| _]; [lia |].
  destruct (Z.gtb_spec limit 0), (Z.gtb_spec p limit); try reflexivity; lia.
Qed.

(** For every limit, the search ends within 9999 rounds. *)
Lemma search_ends :
  exists r, iter_nat (lucas_search_round n limit) (Z.to_nat 9999) 3 = Some r.
Proof.
  destruct (iter_nat_done (lucas_search_round n limit)
              (fun p => 3 <= p <= 10001) (fun _ => True)
              (fun p => 10001 - p)) with (fuel := Z.to_nat 9999) (s := 3)
    as (r & Hr & _); [| lia | lia | eauto].
  intros p Hp. destruct (Z.eq_dec p 10001) as [-> | Hne]; [exact I |].
  destruct (Z_le_gt_dec limit 0) as [Hl | Hl].
  - destruct (search_round_in_range p ltac:(lia) (or_introl Hl))
      as [-> | (v & ->)]; [lia | exact I].
  - destruct (Z_le_gt_dec p limit) as [Hpl | Hpl].
    + destruct (search_round_in_range p ltac:(lia) (or_intror Hpl))
        as [-> | (v & ->)]; [lia | exact I].
    + rewrite search_round_over_limit by lia. exact I.
Qed.

(** With a limit of 10000 or more, the guard on [p > 10000] is reached
    first: a search that no P from 3 to 10000 ends raises. *)
Lemma search_passing_raises :
  10000 <= limit ->
  (forall P, 3 <= P <= 10000 -> search_passes n P) ->
  iter_nat (lucas_search_round n limit) (Z.to_nat 9999) 3
  = Some (Throw (Error ("Cannot find (D/n) = -1 for " ++ decimal n ++ "."))).
Proof.
  intros Hl Hpass.
  destruct (iter_nat_done (lucas_search_round n limit)
              (fun p => 3 <= p <= 10001)
              (fun r => r = Throw (Error ("Cannot find (D/n) = -1 for "
                                          ++ decimal n ++ ".")))
              (fun p => 10001 - p))
    with (fuel := Z.to_nat 9999) (s := 3)
    as (r & Hr & ->); [| lia | lia | exact Hr].
  intros p Hp. destruct (Z.eq_dec p 10001) as [-> | Hne].
  - reflexivity.
  - rewrite search_round_passes;
      [lia | lia | right; lia | apply Hpass; lia].
Qed.

Lemma isPrimeLucas_passing_raises :
  10000 <= limit < 2 ^ 32 ->
  (forall P, 3 <= P <= 10000 -> search_passes n P) ->
  isPrimeLucas n limit
  = Throw (Error ("Cannot find (D/n) = -1 for " ++ decimal n ++ ".")).
Proof.
  intros Hl Hpass. unfold isPrimeLucas, enforce, to_uint32.
  rewrite Z.mod_small by lia. rewrite Z.eqb_refl. cbn [bind].
  destruct (Z.leb_spec n 1) as [| _]; [lia |].
  rewrite land_1, n_odd. cbn [Z.eqb].
  rewrite (loop_of_iter_nat (lucas_search_round n limit) (budget 10000)
             (Z.to_nat 9999) 3 _ (search_passing_raises ltac:(lia) Hpass)).
  - reflexivity.
  - apply budget_rounds. lia.
Qed.

Hypothesis limit_small : 0 < limit < 10000.

(** Below 10000, the search ends within [limit] rounds and raises
    nothing. *)
Lemma search_ends_within_limit :
  exists v, iter_nat (lucas_search_round n limit) (Z.to_nat limit) 3
            = Some (Ok v).
Proof.
  destruct (iter_nat_done (lucas_search_round n limit)
              (fun p => 3 <= p <= Z.max 3 (limit + 1))
              (fun r => exists v, r = Ok v)
              (fun p => Z.max 3 (limit + 1) - p))
    with (fuel := Z.to_nat limit) (s := 3)
    as (r & Hr & v & ->); [| lia | lia | eauto].
  intros p Hp. destruct (Z_le_gt_dec p limit) as [Hpl | Hpl].
  - destruct (search_round_in_range p ltac:(lia) (or_intror Hpl))
      as [-> | (v & ->)]; [lia | eauto].
  - rewrite search_round_over_limit by lia. eauto.
Qed.

Lemma search_exceeding_limit :
  (forall P, 3 <= P <= limit -> search_passes n P) ->
  iter_nat (lucas_search_round n limit) (Z.to_nat limit) 3
  = Some (Ok (inr false)).
Proof.
  intros Hpass.
  destruct (iter_nat_done (lucas_search_round n limit)
              (fun p => 3 <= p <= Z.max 3 (limit + 1))
              (fun r => r = Ok (inr false))
              (fun p => Z.max 3 (limit + 1) - p))
    with (fuel := Z.to_nat limit) (s := 3)
    as (r & Hr & ->); [| lia | lia | exact Hr].
  intros p Hp. destruct (Z_le_gt_dec p limit) as [Hpl | Hpl].
  - rewrite search_round_passes; [lia | lia | right; exact Hpl |].
    apply Hpass. lia.
  - rewrite search_round_over_limit by lia. reflexivity.
Qed.

Lemma isPrimeLucas_exceeding_limit :
  (forall P, 3 <= P <= limit -> search_passes n P) ->
  isPrimeLucas n limit = Ok false.
Proof.
  intros Hpass. unfold isPrimeLucas, enforce, to_uint32.
  rewrite Z.mod_small by lia. rewrite Z.eqb_refl. cbn [bind].
  destruct (Z.leb_spec n 1) as [| _]; [lia |].
  rewrite land_1, n_odd. cbn [Z.eqb].
  rewrite (loop_of_iter_nat (lucas_search_round n limit) (budget 10000)
             (Z.to_nat limit) 3 _ (search_exceeding_limit Hpass)).
  - reflexivity.
  - apply budget_rounds. lia.
Qed.

End Search.

(** C9, as the code has it.  For every odd n > 2 and every limit > 0 the
    parameter search ends within 9999 rounds.  When the limit is below
    10000, the search ends within [limit] rounds without raising, and when
    it exceeds the limit, no P from 3 to the limit ending it,
    isPrimeLucas(n, limit) returns false.  When the limit is 10000 or
    more, the guard on P > 10000 is tested before the limit: a search
    that exceeds the limit, no P from 3 to 10000 ending it, raises, and
    so does isPrimeLucas(n, limit) instead of returning false. *)
Theorem lucas_search_is_bounded (n limit : Z) :
  2 < n -> n mod 2 = 1 -> 0 < limit ->
  (exists r, iter_nat (lucas_search_round n limit) (Z.to_nat 9999) 3 = Some r)
  /\ (limit < 10000 ->
      (exists v, iter_nat (lucas_search_round n limit) (Z.to_nat limit) 3
                 = Some (Ok v))
      /\ ((forall P, 3 <= P <= limit -> search_passes n P) ->
          isPrimeLucas n limit = Ok false))
  /\ (10000 <= limit ->
      (forall P, 3 <= P <= 10000 -> search_passes n P) ->
      iter_nat (lucas_search_round n limit) (Z.to_nat 9999) 3
      = Some (Throw (Error ("Cannot find (D/n) = -1 for "
                            ++ decimal n ++ ".")))
      /\ (limit < 2 ^ 32 ->
          isPrimeLucas n limit
          = Throw (Error ("Cannot find (D/n) = -1 for "
                          ++ decimal n ++ "."))
          /\ isPrimeLucas n limit <> Ok false)).
Proof.
  intros Hn Hodd Hl. split; [apply search_ends; assumption |]. split.
  - intros Hs. split.
    + apply search_ends_within_limit; (assumption || lia).
    + apply isPrimeLucas_exceeding_limit; (assumption || lia).
  - intros Hbig Hpass. split.
    + apply search_passing_raises; assumption.
    + intros H32.
      rewrite (isPrimeLucas_passing_raises n limit Hn Hodd ltac:(lia) Hpass).
      split; [reflexivity | discriminate].
Qed.

Lemma lucas_search_is_bounded_witness :
  (exists r, iter_nat (lucas_search_round 11 4) (Z.to_nat 9999) 3 = Some r)
  /\ (exists v, iter_nat (lucas_search_round 11 4) (Z.to_nat 4) 3 = Some (Ok v))
  /\ isPrimeLucas 11 4 = Ok false.
Proof.
  destruct (lucas_search_is_bounded 11 4) as (H1 & H2 & _);
    [lia | reflexivity | lia |].
  destruct H2 as (H2 & H3); [lia |].
  split; [exact H1 |]. split; [exact H2 |]. apply H3.
  intros P HP. assert (HP' : P = 3 \/ P = 4) by lia.
  destruct HP' as [-> | ->]; (split; [reflexivity | intros E; discriminate E]).
Defined.

(** ** A number on which the search passes every P up to 10000 *)

Lemma no_root_from_spec (q t : Z) :
  forall r0 k, no_root_from q t r0 k = true ->
  forall r, r0 <= r < r0 + Z.of_nat k -> (r * r) mod q <> t.
Proof.
  intros r0 k. revert r0. induction k as [| k IH]; intros r0 H r Hr; [lia |].
  cbn [no_root_from] in H. apply andb_prop in H. destruct H as (H0 & Hrest).
  destruct (Z.eq_dec r r0) as [-> | Hne].
  - destruct (Z.eqb_spec (r0 * r0 mod q) t); [discriminate | assumption].
  - apply (IH (r0 + 1) Hrest). lia.
Qed.

Section PassingNumber.

(** [n = 8 * K + 1], where [K] is a multiple of every [P * P - 4] in
    range; all that is used of the modulus: the symbol of a divisor of
    [K] over [n] is 1. *)
Variable K : Z.
Hypothesis K_pos : 0 < K.

Let n := 8 * K + 1.

Lemma passing_mod8 : n mod 8 = 1.
Proof.
  unfold n. rewrite Z.add_comm, Z.mul_comm, Z_mod_plus_full. reflexivity.
Qed.

Lemma passing_mod4 : n mod 4 = 1.
Proof.
  unfold n. replace (8 * K + 1) with (1 + (2 * K) * 4) by lia.
  rewrite Z_mod_plus_full. reflexivity.
Qed.

Lemma passing_mod2 : n mod 2 = 1.
Proof.
  unfold n. replace (8 * K + 1) with (1 + (4 * K) * 2) by lia.
  rewrite Z_mod_plus_full. reflexivity.
Qed.

Lemma passing_mod_divisor (c : Z) : 1 < c -> (c | K) -> n mod c = 1.
Proof.
  intros Hc (k & Ek). unfold n. rewrite Ek.
  replace (8 * (k * c) + 1) with (1 + (8 * k) * c) by lia.
  rewrite Z_mod_plus_full. apply Z.mod_small. lia.
Qed.

Lemma passing_flip (s c : Z) : c mod 4 <> 3 \/ True -> jacobi_flip s n c 1 = 1.
Proof.
  intros _. unfold jacobi_flip. rewrite passing_mod8, passing_mod4.
  cbn [Z.eqb Pos.eqb orb andb]. rewrite andb_false_r. reflexivity.
Qed.

Lemma jacobi_of_divisor (d : Z) : 0 < d -> (d | K) -> jacobi d n = Ok 1.
Proof.
  intros Hd Hdiv.
  assert (HdK : d <= K) by (apply Z.divide_pos_le; assumption).
  assert (Hn : d < n) by (unfold n; lia).
  unfold jacobi. rewrite land_1, passing_mod2.
  destruct (Z.eqb_spec n 0) as [| _]; [lia |]. cbn [orb Z.eqb].
  destruct (Z.ltb_spec n 0) as [| _]; [lia |].
  destruct (Z.ltb_spec d 0) as [| _]; [lia |]. cbn [bind].
  apply (loop_of_iter_nat jacobi_round (budget n) 3);
    [| apply budget_rounds; cbn; lia].
  (* first round: d is taken as it is, and swapped *)
  destruct (jacobi_round_step d n 1) as (s & c & Hs & Hc & Hco & E & R1);
    [lia | lia | rewrite Z.mod_small by lia; lia |].
  rewrite Z.mod_small in E by lia.
  rewrite passing_flip in R1 by auto.
  cbn [iter_nat]. rewrite R1.
  destruct (Z.eq_dec c 1) as [-> | Hc1]; [reflexivity |].
  (* second round: n is 1 modulo the odd part of d *)
  assert (Hcd : (c | K)).
  { apply Z.divide_trans with (m := d); [| exact Hdiv].
    exists (2 ^ s). exact E. }
  pose proof (passing_mod_divisor c ltac:(lia) Hcd) as Hmod.
  destruct (jacobi_round_step n c 1) as (s' & c' & Hs' & Hc' & Hco' & E' & R2);
    [lia | lia | lia |].
  rewrite Hmod in E'.
  assert (Hp : 1 <= 2 ^ s') by (apply Z.pow_le_mono_r with (b := 0); lia).
  assert (Ec' : c' = 1) by nia. subst c'.
  assert (Es' : 2 ^ s' = 1) by lia.
  assert (Hs0 : s' = 0).
  { destruct (Z.eq_dec s' 0) as [| Hne]; [assumption |].
    assert (2 ^ 1 <= 2 ^ s') by (apply Z.pow_le_mono_r; lia).
    change (2 ^ 1) with 2 in *. lia. }
  subst s'. rewrite R2.
  change (jacobi_flip 0 c 1 1) with (if (c mod 4 =? 3) && false then -1 else 1).
  rewrite andb_false_r. reflexivity.
Qed.

(** What makes [K] a multiple of every [P * P - 4]. *)
Hypothesis K_products : forall a b, 1 <= a < b -> b <= 10002 -> (a * b | K).

Lemma passing_symbol (P : Z) : 3 <= P <= 10000 -> jacobi (P * P - 4) n = Ok 1.
Proof.
  intros HP. apply jacobi_of_divisor; [nia |].
  replace (P * P - 4) with ((P - 2) * (P + 2)) by ring.
  apply K_products; lia.
Qed.

(** What keeps [n] from being a square. *)
Variables q t : Z.
Hypothesis q_pos : 0 < q.
Hypothesis n_mod_q : n mod q = t.
Hypothesis t_no_root : no_root_from q t 0 (Z.to_nat q) = true.

Lemma passing_not_square : isSquare n = Ok false.
Proof.
  destruct (isSquare_total n) as ([|] & E); [| exact E].
  exfalso. apply isSquare_true in E. destruct E as (r & Er).
  pose proof (Z.mod_pos_bound r q q_pos) as Hr.
  apply (no_root_from_spec q t 0 (Z.to_nat q) t_no_root (r mod q));
    [lia |].
  rewrite <- Z.mul_mod, <- n_mod_q, <- Er by lia. f_equal. ring.
Qed.

Lemma passing_every_round (P : Z) : 3 <= P <= 10000 -> search_passes n P.
Proof.
  intros HP. split; [apply passing_symbol; exact HP |].
  intros _. apply passing_not_square.
Qed.

Lemma passing_search_raises :
  isPrimeLucas n 10000
  = Throw (Error ("Cannot find (D/n) = -1 for " ++ decimal n ++ ".")).
Proof.
  unfold isPrimeLucas, enforce.
  change (to_uint32 10000 =? 10000) with true. cbn [bind].
  destruct (Z.leb_spec n 1) as [Hle | _]; [unfold n in Hle; lia |].
  rewrite land_1, passing_mod2. cbn [Z.eqb].
  set (err := Error ("Cannot find (D/n) = -1 for " ++ decimal n ++ ".")).
  destruct (iter_done (lucas_search_round n 10000)
              (fun p => 3 <= p <= 10001)
              (fun r => r = Throw err) (fun p => 10001 - p))
    with (d := budget 10000) (s := 3)
    as (r & Hr & ->).
  - intros p Hp. destruct (Z.eq_dec p 10001) as [-> | Hne].
    + reflexivity.
    + rewrite search_round_passes;
        [lia | lia | right; lia | apply passing_every_round; lia].
  - lia.
  - apply budget_mono. lia.
  - unfold loop. rewrite Hr. reflexivity.
Qed.

End PassingNumber.

(** ** The factorial of 10002 is such a [K] *)

Lemma zprod_from_pos (k : nat) : forall i, 0 < i -> 0 < zprod_from i k.
Proof.
  induction k as [| k IH]; intros i Hi; cbn [zprod_from]; [lia |].
  specialize (IH (i + 1) ltac:(lia)). nia.
Qed.

Lemma zprod_from_divisor (k : nat) :
  forall i a, i <= a < i + Z.of_nat k -> (a | zprod_from i k).
Proof.
  induction k as [| k IH]; intros i a Ha; [lia |].
  cbn [zprod_from]. destruct (Z.eq_dec a i) as [-> | Hne].
  - apply Z.divide_factor_l.
  - apply Z.divide_mul_r, IH. lia.
Qed.

Lemma zprod_from_products (k : nat) :
  forall i a b, i <= a < b -> b < i + Z.of_nat k -> (a * b | zprod_from i k).
Proof.
  induction k as [| k IH]; intros i a b Ha Hb; [lia |].
  cbn [zprod_from]. destruct (Z.eq_dec a i) as [-> | Hne].
  - apply Z.mul_divide_mono_l, zprod_from_divisor. lia.
  - apply Z.divide_mul_r, IH; lia.
Qed.

Lemma zprod_from_mod_spec (q : Z) (k : nat) :
  0 < q -> forall i, zprod_from_mod q i k = zprod_from i k mod q.
Proof.
  intros Hq. induction k as [| k IH]; intros i; [reflexivity |].
  cbn [zprod_from_mod zprod_from]. rewrite IH, Z.mul_mod_idemp_r by lia.
  reflexivity.
Qed.

Lemma factorial_10002_mod_10009 :
  zprod_from 1 (Z.to_nat 10002) mod 10009 = 9022.
Proof.
  rewrite <- zprod_from_mod_spec by reflexivity. vm_compute. reflexivity.
Qed.

Lemma no_root_10009 : no_root_from 10009 2114 0 (Z.to_nat 10009) = true.
Proof. vm_compute. reflexivity. Qed.

(** C9 fails on the code at the limit 10000: the search on this odd
    number passes every P from 3 to the limit, so it exceeds the limit,
    and isPrimeLucas raises instead of returning false. *)
Lemma lucas_search_raises_at_limit_10000 :
  2 < lucas_witness /\ lucas_witness mod 2 = 1
  /\ (forall P, 3 <= P <= 10000 -> search_passes lucas_witness P)
  /\ isPrimeLucas lucas_witness 10000
     = Throw (Error ("Cannot find (D/n) = -1 for "
                     ++ decimal lucas_witness ++ "."))
  /\ isPrimeLucas lucas_witness 10000 <> Ok false.
Proof.
  unfold lucas_witness.
  pose proof (zprod_from_pos (Z.to_nat 10002) 1 ltac:(lia)) as Hpos.
  assert (Hprod : forall a b, 1 <= a < b -> b <= 10002 ->
                              (a * b | zprod_from 1 (Z.to_nat 10002))).
  { intros a b Ha Hb. apply zprod_from_products; lia. }
  pose proof factorial_10002_mod_10009 as Hfact.
  revert Hpos Hprod Hfact. generalize (zprod_from 1 (Z.to_nat 10002)).
  intros K Hpos Hprod Hfact.
  assert (Hmod : (8 * K + 1) mod 10009 = 2114).
  { rewrite Z.add_mod, Z.mul_mod, Hfact by lia. reflexivity. }
  split; [lia |].
  split; [apply passing_mod2 |].
  split.
  - intros P HP.
    exact (passing_every_round K Hpos Hprod
             10009 2114 ltac:(lia) Hmod no_root_10009 P HP).
  - pose proof (passing_search_raises K Hpos Hprod
                  10009 2114 ltac:(lia) Hmod no_root_10009) as Hraise.
    split; [exact Hraise |]. rewrite Hraise. discriminate.
Qed.

(** * Half systems of residues and Gauss's lemma *)

(** ** Products and sums over lists *)

Lemma lprod_app (l1 l2 : list Z) : lprod (l1 ++ l2) = lprod l1 * lprod l2.
Proof.
  induction l1 as [| x l1 IH].
  - change (lprod l2 = 1 * lprod l2). lia.
  - change (x * lprod (l1 ++ l2) = x * lprod l1 * lprod l2). rewrite IH. ring.
Qed.

Lemma lprod_cons (x : Z) (l : list Z) : lprod (x :: l) = x * lprod l.
Proof. reflexivity. Qed.

Lemma lsum_cons (x : Z) (l : list Z) : lsum (x :: l) = x + lsum l.
Proof. reflexivity. Qed.

Lemma lprod_perm (l1 l2 : list Z) : Permutation l1 l2 -> lprod l1 = lprod l2.
Proof.
  induction 1 as [| x l1 l2 _ IH | x y l | l1 l2 l3 _ IH1 _ IH2];
    rewrite ?lprod_cons; try reflexivity; try congruence; ring.
Qed.

Lemma lsum_perm (l1 l2 : list Z) : Permutation l1 l2 -> lsum l1 = lsum l2.
Proof.
  induction 1 as [| x l1 l2 _ IH | x y l | l1 l2 l3 _ IH1 _ IH2];
    rewrite ?lsum_cons; try reflexivity; try congruence; ring.
Qed.

Lemma lprod_map_mul {A : Type} (f g : A -> Z) (l : list A) :
  lprod (map (fun k => f k * g k) l) = lprod (map f l) * lprod (map g l).
Proof.
  induction l as [| x l IH]; cbn [map]; rewrite ?lprod_cons; [reflexivity |].
  rewrite IH. ring.
Qed.

Lemma lsum_map_add {A : Type} (f g : A -> Z) (l : list A) :
  lsum (map (fun k => f k + g k) l) = lsum (map f l) + lsum (map g l).
Proof.
  induction l as [| x l IH]; cbn [map]; rewrite ?lsum_cons; [reflexivity |].
  rewrite IH. ring.
Qed.

Lemma lprod_map_scale (c : Z) (l : list Z) :
  lprod (map (fun k => c * k) l) = c ^ Z.of_nat (List.length l) * lprod l.
Proof.
  induction l as [| x l IH]; [reflexivity |].
  cbn [map List.length]. rewrite !lprod_cons, IH, Nat2Z.inj_succ, Z.pow_succ_r by lia.
  ring.
Qed.

(** Congruent factors give congruent products. *)
Lemma lprod_map_congr {A : Type} (b : Z) (f g : A -> Z) (l : list A) :
  (forall k, In k l -> (b | f k - g k)) ->
  (b | lprod (map f l) - lprod (map g l)).
Proof.
  induction l as [| x l IH]; intros H; cbn [map].
  - exists 0. reflexivity.
  - rewrite !lprod_cons.
    destruct (H x (or_introl eq_refl)) as (u & Hu).
    destruct (IH (fun k Hk => H k (or_intror Hk))) as (v & Hv).
    exists (u * lprod (map f l) + g x * v).
    replace (f x) with (g x + u * b) by lia.
    replace (lprod (map f l)) with (lprod (map g l) + v * b) at 1 by lia.
    replace (lprod (map f l)) with (lprod (map g l) + v * b) by lia. ring.
Qed.

(** ** The integers from 1 to h *)

Lemma first_integers_in (h : nat) (k : Z) :
  In k (first_integers h) <-> 1 <= k <= Z.of_nat h.
Proof.
  unfold first_integers. rewrite in_map_iff. split.
  - intros (i & <- & Hi). apply in_seq in Hi. lia.
  - intros Hk. exists (Z.to_nat k). split; [lia |]. apply in_seq. lia.
Qed.

Lemma first_integers_length (h : nat) : List.length (first_integers h) = h.
Proof. unfold first_integers. rewrite length_map, length_seq. reflexivity. Qed.

Lemma first_integers_NoDup (h : nat) : NoDup (first_integers h).
Proof.
  unfold first_integers. apply Finite.Injective_map_NoDup_in.
  - intros x y _ _ Hxy. lia.
  - apply seq_NoDup.
Qed.

Lemma first_integers_succ (h : nat) :
  first_integers (S h) = first_integers h ++ [Z.of_nat (S h)].
Proof.
  unfold first_integers. rewrite seq_S, map_app. reflexivity.
Qed.

(** ** Signed residues modulo an odd number *)

Lemma half_odd (h : Z) : half (2 * h + 1) = h.
Proof.
  unfold half. replace (2 * h + 1 - 1) with (h * 2) by ring.
  apply Z.div_mul. discriminate.
Qed.

Lemma odd_half (b : Z) : b mod 2 = 1 -> b = 2 * half b + 1.
Proof.
  intros Hb. unfold half.
  pose proof (Z.div_mod b 2 ltac:(lia)) as H.
  replace (b - 1) with (b / 2 * 2) by lia.
  rewrite Z.div_mul; lia.
Qed.

Lemma half_system_in (b k : Z) :
  0 <= half b -> (In k (half_system b) <-> 1 <= k <= half b).
Proof.
  intros Hh. unfold half_system. rewrite first_integers_in. lia.
Qed.

Lemma half_system_length (b : Z) :
  0 <= half b -> Z.of_nat (List.length (half_system b)) = half b.
Proof.
  intros Hh. unfold half_system. rewrite first_integers_length. lia.
Qed.

Lemma divide_small (b k : Z) : (b | k) -> - b < k < b -> k = 0.
Proof.
  intros (q & Hq) Hk. subst k.
  destruct (Z.lt_trichotomy q 0) as [Hq | [Hq | Hq]]; nia.
Qed.

Section HalfSystem.

Variables b h : Z.
Hypothesis h_nonneg : 0 <= h.
Hypothesis b_odd : b = 2 * h + 1.

Lemma half_b : half b = h.
Proof. rewrite b_odd. apply half_odd. Qed.

Lemma sign_res_cases (x : Z) : sign_res b x = 1 \/ sign_res b x = -1.
Proof. unfold sign_res. cbv zeta. destruct (_ <=? _); auto. Qed.

(** Every [x] is congruent to its signed residue. *)
Lemma signed_rep (x : Z) : (b | x - sign_res b x * abs_res b x).
Proof.
  unfold sign_res, abs_res. cbv zeta.
  pose proof (Z.div_mod x b ltac:(lia)) as Hx.
  destruct (x mod b <=? half b).
  - exists (x / b). lia.
  - exists (x / b + 1). lia.
Qed.

Lemma abs_res_bounds (x : Z) : 0 <= abs_res b x <= h.
Proof.
  unfold abs_res. cbv zeta. rewrite half_b.
  pose proof (Z.mod_pos_bound x b ltac:(lia)).
  destruct (Z.leb_spec (x mod b) h); lia.
Qed.

Lemma abs_res_zero (x : Z) : abs_res b x = 0 -> (b | x).
Proof.
  unfold abs_res. cbv zeta. rewrite half_b.
  pose proof (Z.mod_pos_bound x b ltac:(lia)) as Hm.
  destruct (Z.leb_spec (x mod b) h) as [Hle | Hle]; intros Hz; [| lia].
  apply Z.mod_divide; lia.
Qed.

(** The signed residue is the only representative of this shape. *)
Lemma signed_rep_unique (x e u : Z) :
  e = 1 \/ e = -1 -> 1 <= u <= h -> (b | x - e * u) ->
  sign_res b x = e /\ abs_res b x = u.
Proof.
  intros He Hu Hd.
  pose proof (signed_rep x) as Hs.
  pose proof (abs_res_bounds x) as Hr.
  assert (Hdiff : (b | sign_res b x * abs_res b x - e * u)).
  { replace (sign_res b x * abs_res b x - e * u)
      with ((x - e * u) - (x - sign_res b x * abs_res b x)) by ring.
    apply Z.divide_sub_r; assumption. }
  apply divide_small in Hdiff.
  - destruct (sign_res_cases x) as [Hs1 | Hs1], He as [-> | ->];
      rewrite Hs1 in *; split; lia.
  - destruct (sign_res_cases x) as [Hs1 | Hs1], He as [-> | ->];
      rewrite Hs1; lia.
Qed.

Variable a : Z.
Hypothesis a_coprime : Z.gcd a b = 1.

Lemma coprime_cancel (k : Z) : (b | a * k) -> (b | k).
Proof.
  intros H. apply Z.gauss with (m := a); [exact H |].
  rewrite Z.gcd_comm. exact a_coprime.
Qed.

Lemma abs_res_range (k : Z) : 1 <= k <= h -> 1 <= abs_res b (a * k) <= h.
Proof.
  intros Hk. pose proof (abs_res_bounds (a * k)) as Hr.
  destruct (Z.eq_dec (abs_res b (a * k)) 0) as [H0 | H0]; [| lia].
  apply abs_res_zero, coprime_cancel, divide_small in H0; lia.
Qed.

Lemma abs_res_inj (k k' : Z) :
  1 <= k <= h -> 1 <= k' <= h ->
  abs_res b (a * k) = abs_res b (a * k') -> k = k'.
Proof.
  intros Hk Hk' Heq.
  pose proof (signed_rep (a * k)) as H1.
  pose proof (signed_rep (a * k')) as H2.
  rewrite Heq in H1.
  destruct (sign_res_cases (a * k)) as [E1 | E1],
           (sign_res_cases (a * k')) as [E2 | E2]; rewrite E1 in H1; rewrite E2 in H2.
  - assert (Hd : (b | a * (k - k'))).
    { replace (a * (k - k')) with
        ((a * k - 1 * abs_res b (a * k')) - (a * k' - 1 * abs_res b (a * k'))) by ring.
      apply Z.divide_sub_r; assumption. }
    apply coprime_cancel, divide_small in Hd; lia.
  - assert (Hd : (b | a * (k + k'))).
    { replace (a * (k + k')) with
        ((a * k - 1 * abs_res b (a * k')) + (a * k' - -1 * abs_res b (a * k'))) by ring.
      apply Z.divide_add_r; assumption. }
    apply coprime_cancel, divide_small in Hd; lia.
  - assert (Hd : (b | a * (k + k'))).
    { replace (a * (k + k')) with
        ((a * k - -1 * abs_res b (a * k')) + (a * k' - 1 * abs_res b (a * k'))) by ring.
      apply Z.divide_add_r; assumption. }
    apply coprime_cancel, divide_small in Hd; lia.
  - assert (Hd : (b | a * (k - k'))).
    { replace (a * (k - k')) with
        ((a * k - -1 * abs_res b (a * k')) - (a * k' - -1 * abs_res b (a * k'))) by ring.
      apply Z.divide_sub_r; assumption. }
    apply coprime_cancel, divide_small in Hd; lia.
Qed.

(** Multiplication by [a] permutes the half system, up to signs. *)
Lemma abs_res_perm :
  Permutation (map (fun k => abs_res b (a * k)) (half_system b)) (half_system b).
Proof.
  pose proof half_b as Hh.
  apply Permutation_map_same_l.
  - apply Finite.Injective_map_NoDup_in; [| apply first_integers_NoDup].
    intros x y Hx Hy. apply half_system_in in Hx, Hy; try lia.
    apply abs_res_inj; lia.
  - intros u Hu. apply in_map_iff in Hu. destruct Hu as (k & <- & Hk).
    apply half_system_in in Hk; [| lia].
    apply half_system_in; [lia |]. rewrite Hh. apply abs_res_range. lia.
Qed.

End HalfSystem.

(** ** The symbol is multiplicative *)

Lemma lprod_signs {A : Type} (f : A -> Z) (l : list A) :
  (forall k, In k l -> f k = 1 \/ f k = -1) ->
  lprod (map f l) = 1 \/ lprod (map f l) = -1.
Proof.
  induction l as [| x l IH]; intros H; cbn [map].
  - left. reflexivity.
  - rewrite lprod_cons.
    destruct (H x (or_introl eq_refl)) as [-> | ->],
             (IH (fun k Hk => H k (or_intror Hk))) as [-> | ->]; auto.
Qed.

Lemma gauss_symbol_cases (a b : Z) :
  gauss_symbol a b = 1 \/ gauss_symbol a b = -1.
Proof.
  apply lprod_signs. intros k _. unfold sign_res. cbv zeta.
  destruct (_ <=? _); auto.
Qed.

Lemma gauss_symbol_1_r (a : Z) : gauss_symbol a 1 = 1.
Proof. reflexivity. Qed.

Lemma gauss_symbol_mod (a b : Z) :
  gauss_symbol (a mod b) b = gauss_symbol a b.
Proof.
  unfold gauss_symbol. f_equal. apply map_ext. intros k.
  unfold sign_res. cbv zeta.
  destruct (Z.eq_dec b 0) as [-> | Hb].
  - rewrite !Z.mod_0_r. reflexivity.
  - rewrite Z.mul_mod_idemp_l by exact Hb. reflexivity.
Qed.

Lemma gauss_symbol_mul (a a' b h : Z) :
  0 <= h -> b = 2 * h + 1 -> Z.gcd a b = 1 -> Z.gcd a' b = 1 ->
  gauss_symbol (a * a') b = gauss_symbol a b * gauss_symbol a' b.
Proof.
  intros Hh Hb Ha Ha'.
  pose proof (half_b b h Hb) as Hhalf.
  unfold gauss_symbol.
  rewrite (map_ext_in _
    (fun k => sign_res b (a' * k) * sign_res b (a * abs_res b (a' * k)))).
  - rewrite lprod_map_mul, Z.mul_comm. f_equal.
    rewrite <- (map_map (fun k => abs_res b (a' * k)) (fun u => sign_res b (a * u))).
    apply lprod_perm, Permutation_map, (abs_res_perm b h Hh Hb a' Ha').
  - intros k Hk. apply half_system_in in Hk; [| lia]. rewrite Hhalf in Hk.
    pose proof (abs_res_range b h Hh Hb a' Ha' k Hk) as Hu'.
    pose proof (abs_res_range b h Hh Hb a Ha _ Hu') as Hu.
    refine (proj1 (signed_rep_unique b h Hh Hb (a * a' * k) _ _ _ Hu _)).
    + destruct (sign_res_cases b (a' * k)) as [-> | ->],
               (sign_res_cases b (a * abs_res b (a' * k))) as [-> | ->]; auto.
    + destruct (signed_rep b h Hb (a' * k)) as (u & Hu1).
      destruct (signed_rep b h Hb (a * abs_res b (a' * k))) as (v & Hv1).
      exists (a * u + sign_res b (a' * k) * v).
      replace (a * a' * k -
               sign_res b (a' * k) * sign_res b (a * abs_res b (a' * k)) *
               abs_res b (a * abs_res b (a' * k)))
        with (a * (a' * k - sign_res b (a' * k) * abs_res b (a' * k)) +
              sign_res b (a' * k) *
              (a * abs_res b (a' * k) -
               sign_res b (a * abs_res b (a' * k)) *
               abs_res b (a * abs_res b (a' * k)))) by ring.
      rewrite Hu1, Hv1. ring.
Qed.

(** ** Gauss's lemma *)

Lemma gauss_product (a b h : Z) :
  0 <= h -> b = 2 * h + 1 -> Z.gcd a b = 1 ->
  (b | (a ^ h - gauss_symbol a b) * lprod (half_system b)).
Proof.
  intros Hh Hb Ha.
  pose proof (half_b b h Hb) as Hhalf.
  pose proof (lprod_map_congr b (fun k => a * k)
                (fun k => sign_res b (a * k) * abs_res b (a * k)) (half_system b)
                (fun k _ => signed_rep b h Hb (a * k))) as H.
  rewrite lprod_map_scale, lprod_map_mul, half_system_length in H by lia.
  rewrite (lprod_perm _ _ (abs_res_perm b h Hh Hb a Ha)), Hhalf in H.
  fold (gauss_symbol a b) in H.
  rewrite Z.mul_sub_distr_r. exact H.
Qed.

Lemma prime_coprime_lprod (p : Z) (l : list Z) :
  Z.prime p -> (forall k, In k l -> 1 <= k < p) -> Z.gcd p (lprod l) = 1.
Proof.
  intros Hp. induction l as [| x l IH]; intros H.
  - apply Z.gcd_1_r.
  - rewrite lprod_cons. apply Z.coprime_mul_r.
    + apply Z.coprime_prime_small; [exact Hp |]. apply H. left. reflexivity.
    + apply IH. intros k Hk. apply H. right. exact Hk.
Qed.

(** For an odd prime [p = 2 h + 1] and [a] not divisible by [p], the
    power [a ^ h] is congruent to the symbol of [a] over [p]. *)
Lemma gauss_lemma (a p h : Z) :
  Z.prime p -> p = 2 * h + 1 -> ~ (p | a) ->
  (p | a ^ h - gauss_symbol a p).
Proof.
  intros Hp Hb Ha.
  pose proof (Z.prime_ge_2 p Hp) as Hp2.
  assert (Hh : 0 <= h) by lia.
  assert (Hg : Z.gcd a p = 1).
  { rewrite Z.gcd_comm. apply Z.coprime_prime_l; assumption. }
  pose proof (gauss_product a p h Hh Hb Hg) as H.
  rewrite Z.mul_comm in H.
  apply Z.gauss in H; [exact H |].
  apply prime_coprime_lprod; [exact Hp |].
  intros k Hk. apply half_system_in in Hk; rewrite (half_b p h Hb) in *; lia.
Qed.

Lemma euler_power_residue (a p h : Z) :
  Z.prime p -> p = 2 * h + 1 -> ~ (p | a) -> gauss_symbol a p = 1 ->
  a ^ h mod p = 1.
Proof.
  intros Hp Hb Ha Hg.
  pose proof (Z.prime_ge_2 p Hp) as Hp2.
  destruct (gauss_lemma a p h Hp Hb Ha) as (q & Hq). rewrite Hg in Hq.
  replace (a ^ h) with (1 + q * p) by lia.
  rewrite Z.mod_add, Z.mod_small; lia.
Qed.

Lemma euler_power_nonresidue (a p h : Z) :
  Z.prime p -> p = 2 * h + 1 -> ~ (p | a) -> gauss_symbol a p = -1 ->
  a ^ h mod p = p - 1.
Proof.
  intros Hp Hb Ha Hg.
  pose proof (Z.prime_ge_2 p Hp) as Hp2.
  destruct (gauss_lemma a p h Hp Hb Ha) as (q & Hq). rewrite Hg in Hq.
  replace (a ^ h) with (p - 1 + (q - 1) * p) by lia.
  rewrite Z.mod_add, Z.mod_small; lia.
Qed.

(** * The supplement for 2 and the reciprocity law *)

Ltac div_lia := Z.div_mod_to_equations; lia.

Lemma parity_sign_add (x y : Z) :
  parity_sign (x + y) = parity_sign x * parity_sign y.
Proof.
  unfold parity_sign.
  destruct (Z.eqb_spec ((x + y) mod 2) 0), (Z.eqb_spec (x mod 2) 0),
           (Z.eqb_spec (y mod 2) 0); try reflexivity; exfalso; div_lia.
Qed.

Lemma parity_sign_double (x y : Z) : parity_sign (2 * x + y) = parity_sign y.
Proof.
  unfold parity_sign.
  destruct (Z.eqb_spec ((2 * x + y) mod 2) 0), (Z.eqb_spec (y mod 2) 0);
    try reflexivity; exfalso; div_lia.
Qed.

Lemma lprod_parity {A : Type} (f : A -> Z) (l : list A) :
  lprod (map (fun k => parity_sign (f k)) l) = parity_sign (lsum (map f l)).
Proof.
  induction l as [| x l IH]; cbn [map]; [reflexivity |].
  rewrite lprod_cons, lsum_cons, parity_sign_add, IH. reflexivity.
Qed.

Lemma lsum_app (l1 l2 : list Z) : lsum (l1 ++ l2) = lsum l1 + lsum l2.
Proof.
  induction l1 as [| x l1 IH]; [reflexivity |].
  change (x + lsum (l1 ++ l2) = x + lsum l1 + lsum l2). rewrite IH. ring.
Qed.

Lemma lsum_map_const {A : Type} (c : Z) (l : list A) :
  lsum (map (fun _ => c) l) = c * Z.of_nat (List.length l).
Proof.
  induction l as [| x l IH]; cbn [map List.length]; [cbn; lia |].
  rewrite lsum_cons, IH. lia.
Qed.

Lemma lsum_swap {A B : Type} (F : A -> B -> Z) (K : list A) (L : list B) :
  lsum (map (fun k => lsum (map (F k) L)) K) =
  lsum (map (fun l => lsum (map (fun k => F k l) K)) L).
Proof.
  induction K as [| k K IH]; cbn [map].
  - rewrite lsum_map_const. cbn. lia.
  - rewrite lsum_cons, IH.
    rewrite <- lsum_map_add. reflexivity.
Qed.

(** ** The symbol of 2 *)

Lemma count_signs (h : Z) (n : nat) :
  0 <= h ->
  lprod (map (fun k => if 2 * k <=? h then 1 else -1) (first_integers n)) =
  if Z.of_nat n <=? h / 2 then 1 else parity_sign (Z.of_nat n - h / 2).
Proof.
  intros Hh. induction n as [| n IH].
  - cbn [first_integers seq map lprod fold_right Z.of_nat].
    destruct (Z.leb_spec 0 (h / 2)) as [H | H]; [reflexivity | exfalso; div_lia].
  - rewrite first_integers_succ, map_app, lprod_app, IH.
    cbn [map]. rewrite lprod_cons. change (lprod []) with 1.
    unfold parity_sign.
    destruct (Z.leb_spec (Z.of_nat n) (h / 2)), (Z.leb_spec (Z.of_nat (S n)) (h / 2)),
             (Z.leb_spec (2 * Z.of_nat (S n)) h);
      repeat match goal with
             | |- context [Z.eqb ?x 0] => destruct (Z.eqb_spec x 0)
             end; try reflexivity; exfalso; div_lia.
Qed.

Lemma gauss_symbol_2 (b h : Z) :
  0 <= h -> b = 2 * h + 1 -> gauss_symbol 2 b = two_symbol b.
Proof.
  intros Hh Hb. pose proof (half_b b h Hb) as Hhalf.
  unfold gauss_symbol.
  rewrite (map_ext_in _ (fun k => if 2 * k <=? h then 1 else -1)).
  - unfold half_system. rewrite count_signs, Hhalf, Z2Nat.id by lia.
    unfold two_symbol, parity_sign.
    destruct (Z.leb_spec h (h / 2));
      destruct (Z.eqb_spec (b mod 8) 3), (Z.eqb_spec (b mod 8) 5); cbn [orb];
      repeat match goal with
             | |- context [Z.eqb ?x 0] => destruct (Z.eqb_spec x 0)
             end; try reflexivity; exfalso; div_lia.
  - intros k Hk. apply half_system_in in Hk; [| lia]. rewrite Hhalf in Hk.
    unfold sign_res. cbv zeta. rewrite Hhalf, Z.mod_small by lia. reflexivity.
Qed.

(** ** Eisenstein's lemma *)

Lemma sign_res_parity (a b g h k : Z) :
  a = 2 * g + 1 -> b = 2 * h + 1 -> 0 <= h ->
  sign_res b (a * k) = parity_sign (k + a * k / b + abs_res b (a * k)).
Proof.
  intros Ha Hb Hh. pose proof (half_b b h Hb) as Hhalf.
  unfold sign_res, abs_res, parity_sign. cbv zeta. rewrite Hhalf.
  pose proof (Z.div_mod (a * k) b ltac:(lia)) as Hd.
  pose proof (Z.mod_pos_bound (a * k) b ltac:(lia)) as Hr.
  set (q := a * k / b) in *. set (r := (a * k) mod b) in *.
  assert (Hpar : k - q - r = 2 * (h * q - g * k)).
  { subst a b. lia. }
  destruct (Z.leb_spec r h);
    match goal with
    | |- context [Z.eqb ?x 0] => destruct (Z.eqb_spec x 0)
    end; try reflexivity; exfalso.
  - generalize dependent (h * q - g * k). intros z Hz. div_lia.
  - generalize dependent (h * q - g * k). intros z Hz. subst b. div_lia.
Qed.

Lemma lsum_map_id (l : list Z) : lsum (map (fun k => k) l) = lsum l.
Proof. rewrite map_id. reflexivity. Qed.

(** For odd [a] prime to the odd [b = 2 h + 1], the symbol of [a] over
    [b] is the parity of the sum of the quotients [a k / b], [k <= h]. *)
Lemma eisenstein (a b g h : Z) :
  a = 2 * g + 1 -> 0 <= h -> b = 2 * h + 1 -> Z.gcd a b = 1 ->
  gauss_symbol a b =
  parity_sign (lsum (map (fun k => a * k / b) (half_system b))).
Proof.
  intros Ha Hh Hb Hg. unfold gauss_symbol.
  rewrite (map_ext _ (fun k => parity_sign (k + a * k / b + abs_res b (a * k)))).
  - rewrite lprod_parity, !lsum_map_add, lsum_map_id.
    rewrite (lsum_perm _ _ (abs_res_perm b h Hh Hb a Hg)).
    replace (lsum (half_system b) + lsum (map (fun k => a * k / b) (half_system b)) +
             lsum (half_system b))
      with (2 * lsum (half_system b) +
            lsum (map (fun k => a * k / b) (half_system b))) by ring.
    apply parity_sign_double.
  - intros k. apply (sign_res_parity a b g h k Ha Hb Hh).
Qed.

(** ** Counting lattice points *)

Lemma count_below (m : Z) (n : nat) :
  0 <= m ->
  lsum (map (fun l => if l <=? m then 1 else 0) (first_integers n)) =
  Z.min m (Z.of_nat n).
Proof.
  intros Hm. induction n as [| n IH].
  - cbn. lia.
  - rewrite first_integers_succ, map_app, lsum_app, IH.
    cbn [map]. rewrite lsum_cons. change (lsum []) with 0.
    destruct (Z.leb_spec (Z.of_nat (S n)) m); lia.
Qed.

Lemma quotient_counts (a b g h k : Z) :
  a = 2 * g + 1 -> 0 <= g -> b = 2 * h + 1 -> 0 <= h -> Z.gcd a b = 1 ->
  1 <= k <= h ->
  a * k / b =
  lsum (map (fun l => if b * l <? a * k then 1 else 0) (first_integers (Z.to_nat g))).
Proof.
  intros Ha Hg Hb Hh Hc Hk.
  pose proof (Z.div_mod (a * k) b ltac:(lia)) as Hd.
  pose proof (Z.mod_pos_bound (a * k) b ltac:(lia)) as Hr.
  assert (Hr0 : (a * k) mod b <> 0).
  { intros H0. apply Z.mod_divide in H0; [| lia].
    apply (coprime_cancel b a Hc), divide_small in H0; lia. }
  set (q := a * k / b) in *. set (r := (a * k) mod b) in *.
  assert (Hq : 0 <= q <= g).
  { split; [nia |].
    destruct (Z_le_gt_dec q g) as [Hle | Hgt]; [exact Hle | exfalso].
    assert (b * (g + 1) <= b * q) by nia.
    assert (a * k <= a * h) by nia. subst a b. nia. }
  rewrite (map_ext _ (fun l => if l <=? q then 1 else 0)).
  - rewrite count_below by lia. lia.
  - intros l. destruct (Z.ltb_spec (b * l) (a * k)), (Z.leb_spec l q);
      try reflexivity; exfalso; nia.
Qed.

Lemma lattice_count (a b g h : Z) :
  a = 2 * g + 1 -> 0 <= g -> b = 2 * h + 1 -> 0 <= h -> Z.gcd a b = 1 ->
  lsum (map (fun k => a * k / b) (half_system b)) +
  lsum (map (fun l => b * l / a) (half_system a)) = g * h.
Proof.
  intros Ha Hg Hb Hh Hc.
  pose proof (half_b a g Ha) as Hga. pose proof (half_b b h Hb) as Hhb.
  assert (Hc' : Z.gcd b a = 1) by (rewrite Z.gcd_comm; exact Hc).
  rewrite (map_ext_in (fun k => a * k / b)
             (fun k => lsum (map (fun l => if b * l <? a * k then 1 else 0)
                                 (half_system a)))).
  2:{ intros k Hk. apply half_system_in in Hk; [| lia]. rewrite Hhb in Hk.
      unfold half_system. rewrite Hga.
      apply (quotient_counts a b g h k); assumption. }
  rewrite (map_ext_in (fun l => b * l / a)
             (fun l => lsum (map (fun k => if a * k <? b * l then 1 else 0)
                                 (half_system b)))).
  2:{ intros l Hl. apply half_system_in in Hl; [| lia]. rewrite Hga in Hl.
      unfold half_system. rewrite Hhb.
      apply (quotient_counts b a h g l); assumption. }
  rewrite (lsum_swap (fun l k => if a * k <? b * l then 1 else 0)).
  rewrite <- lsum_map_add.
  rewrite (map_ext_in _ (fun _ => g)).
  - rewrite lsum_map_const, half_system_length; lia.
  - intros k Hk. apply half_system_in in Hk; [| lia]. rewrite Hhb in Hk.
    rewrite <- lsum_map_add.
    rewrite (map_ext_in _ (fun _ => 1)).
    + rewrite lsum_map_const, half_system_length; lia.
    + intros l Hl. apply half_system_in in Hl; [| lia]. rewrite Hga in Hl.
      assert (Hne : a * k <> b * l).
      { intros Heq.
        assert (Hd : (b | a * k)) by (exists l; lia).
        apply (coprime_cancel b a Hc), divide_small in Hd; lia. }
      destruct (Z.ltb_spec (b * l) (a * k)), (Z.ltb_spec (a * k) (b * l)); lia.
Qed.

(** ** The reciprocity law *)

Lemma parity_sign_product (g h a b : Z) :
  a = 2 * g + 1 -> b = 2 * h + 1 ->
  parity_sign (g * h) = reciprocity_sign a b.
Proof.
  intros Ha Hb. unfold parity_sign, reciprocity_sign.
  rewrite Z.mul_mod by lia.
  assert (Hg : g mod 2 = 0 \/ g mod 2 = 1) by div_lia.
  assert (Hh : h mod 2 = 0 \/ h mod 2 = 1) by div_lia.
  destruct (Z.eqb_spec (a mod 4) 3), (Z.eqb_spec (b mod 4) 3); cbn [andb];
    destruct Hg as [Hg | Hg], Hh as [Hh | Hh]; rewrite Hg, Hh;
    try reflexivity; exfalso; subst a b; div_lia.
Qed.

Lemma gauss_symbol_reciprocity (a b : Z) :
  0 < a -> a mod 2 = 1 -> 0 < b -> b mod 2 = 1 -> Z.gcd a b = 1 ->
  gauss_symbol a b = reciprocity_sign a b * gauss_symbol b a.
Proof.
  intros Ha Hao Hb Hbo Hc.
  pose proof (odd_half a Hao) as Ha2. pose proof (odd_half b Hbo) as Hb2.
  set (g := half a) in *. set (h := half b) in *.
  assert (Hg : 0 <= g) by lia. assert (Hh : 0 <= h) by lia.
  assert (Hc' : Z.gcd b a = 1) by (rewrite Z.gcd_comm; exact Hc).
  rewrite (eisenstein a b g h Ha2 Hh Hb2 Hc), (eisenstein b a h g Hb2 Hg Ha2 Hc').
  rewrite <- (parity_sign_product g h a b Ha2 Hb2).
  rewrite <- parity_sign_add.
  rewrite <- (lattice_count a b g h Ha2 Hg Hb2 Hh Hc).
  set (X := lsum (map (fun k => a * k / b) (half_system b))).
  set (Y := lsum (map (fun l => b * l / a) (half_system a))).
  replace (X + Y + Y) with (2 * Y + X) by ring.
  symmetry. apply parity_sign_double.
Qed.

(** * [jacobi] computes the Jacobi symbol *)

Lemma odd_coprime_2 (b : Z) : b mod 2 = 1 -> Z.gcd b 2 = 1.
Proof.
  intros Hb.
  pose proof (Z.gcd_nonneg b 2) as Hn.
  pose proof (Z.gcd_divide_r b 2) as H2.
  pose proof (Z.gcd_divide_l b 2) as H1.
  apply Z.divide_pos_le in H2; [| lia].
  assert (Hc : Z.gcd b 2 = 0 \/ Z.gcd b 2 = 1 \/ Z.gcd b 2 = 2) by lia.
  destruct Hc as [Hc | [Hc | Hc]]; [| exact Hc |].
  - apply Z.gcd_eq_0_r in Hc. discriminate.
  - rewrite Hc in H1. destruct H1 as (q & Hq). exfalso. div_lia.
Qed.

Lemma gcd_two_mul (x b : Z) : b mod 2 = 1 -> Z.gcd (2 * x) b = Z.gcd x b.
Proof.
  intros Hb. apply Z.gcd_unique.
  - apply Z.gcd_nonneg.
  - apply Z.divide_mul_r, Z.gcd_divide_l.
  - apply Z.gcd_divide_r.
  - intros q Hq1 Hq2. apply Z.gcd_greatest; [| exact Hq2].
    apply Z.gauss with (m := 2); [exact Hq1 |].
    destruct (Z.eq_dec (q mod 2) 1) as [Ho | He]; [apply odd_coprime_2; exact Ho |].
    exfalso. assert (He0 : q mod 2 = 0) by div_lia.
    apply Z.mod_divide in He0; [| lia]. destruct He0 as (q' & ->).
    destruct Hq2 as (t & Ht). subst b.
    rewrite Z.mul_assoc, Z.mod_mul in Hb; lia.
Qed.

Lemma gcd_pow2_mul (s x b : Z) :
  0 <= s -> b mod 2 = 1 -> Z.gcd (2 ^ s * x) b = Z.gcd x b.
Proof.
  intros Hs Hb. revert s Hs. apply natlike_ind.
  - rewrite Z.pow_0_r, Z.mul_1_l. reflexivity.
  - intros s Hs IH. rewrite Z.pow_succ_r, <- Z.mul_assoc, gcd_two_mul by assumption.
    exact IH.
Qed.

Lemma two_symbol_square (b : Z) : two_symbol b * two_symbol b = 1.
Proof. unfold two_symbol. destruct (_ || _); reflexivity. Qed.

Lemma gauss_symbol_pow2 (s c b h : Z) :
  0 <= s -> 0 <= h -> b = 2 * h + 1 -> Z.gcd c b = 1 ->
  gauss_symbol (2 ^ s * c) b =
  (if s mod 2 =? 1 then two_symbol b else 1) * gauss_symbol c b.
Proof.
  intros Hs Hh Hb Hc. revert s Hs. apply natlike_ind.
  - rewrite Z.pow_0_r, Z.mul_1_l. cbn. destruct (gauss_symbol c b); reflexivity.
  - intros s Hs IH.
    assert (Hbo : b mod 2 = 1) by (subst b; div_lia).
    rewrite Z.pow_succ_r, <- Z.mul_assoc by assumption.
    rewrite (gauss_symbol_mul 2 (2 ^ s * c) b h Hh Hb).
    + rewrite IH, (gauss_symbol_2 b h Hh Hb).
      pose proof (two_symbol_square b) as Hsq.
      destruct (Z.eqb_spec (s mod 2) 1), (Z.eqb_spec (Z.succ s mod 2) 1);
        try (exfalso; div_lia).
      * rewrite Z.mul_assoc, Hsq. reflexivity.
      * ring.
    + rewrite Z.gcd_comm. apply odd_coprime_2. exact Hbo.
    + rewrite gcd_pow2_mul; assumption.
Qed.

Lemma reciprocity_sign_comm (b c : Z) :
  reciprocity_sign b c = reciprocity_sign c b.
Proof. unfold reciprocity_sign. rewrite andb_comm. reflexivity. Qed.

Lemma jacobi_symbol_mod (a b : Z) :
  b <> 0 -> jacobi_symbol (a mod b) b = jacobi_symbol a b.
Proof.
  intros Hb. unfold jacobi_symbol.
  rewrite Z.gcd_mod, (Z.gcd_comm b a), gauss_symbol_mod by exact Hb.
  reflexivity.
Qed.

Lemma jacobi_symbol_1_r (a : Z) : jacobi_symbol a 1 = 1.
Proof. unfold jacobi_symbol. rewrite Z.gcd_1_r. reflexivity. Qed.

Lemma jacobi_symbol_divisible (a b : Z) :
  1 < b -> (b | a) -> jacobi_symbol a b = 0.
Proof.
  intros Hb Hd. unfold jacobi_symbol.
  rewrite Z.gcd_comm. apply Z.divide_gcd_iff in Hd; [| lia]. rewrite Hd.
  destruct (Z.eqb_spec b 1); [lia | reflexivity].
Qed.

Lemma jacobi_symbol_cases (a b : Z) :
  jacobi_symbol a b = -1 \/ jacobi_symbol a b = 0 \/ jacobi_symbol a b = 1.
Proof.
  unfold jacobi_symbol. destruct (_ =? _); [| auto].
  destruct (gauss_symbol_cases a b); auto.
Qed.

(** One round of the algorithm: the factor [2 ^ s] is taken out with the
    supplement for 2, and the odd rest is swapped with the denominator
    by the reciprocity law. *)
Lemma jacobi_symbol_step (s b c j : Z) :
  0 <= s -> 0 < b -> b mod 2 = 1 -> 0 < c -> c mod 2 = 1 ->
  j * jacobi_symbol (2 ^ s * c) b = jacobi_flip s b c j * jacobi_symbol b c.
Proof.
  intros Hs Hb Hbo Hc Hco. unfold jacobi_symbol.
  rewrite gcd_pow2_mul, (Z.gcd_comm b c) by assumption.
  destruct (Z.eqb_spec (Z.gcd c b) 1) as [Hg | Hg]; [| lia].
  pose proof (odd_half b Hbo) as Hb2.
  rewrite (gauss_symbol_pow2 s c b (half b)) by (assumption || lia).
  rewrite (gauss_symbol_reciprocity c b Hc Hco Hb Hbo Hg).
  rewrite reciprocity_sign_comm.
  unfold jacobi_flip, two_symbol, reciprocity_sign.
  destruct (s mod 2 =? 1), ((b mod 8 =? 3) || (b mod 8 =? 5)),
           ((b mod 4 =? 3) && (c mod 4 =? 3)); cbn [andb]; ring.
Qed.

Lemma jacobi_correct (x y : Z) :
  0 < y -> y mod 2 = 1 -> jacobi x y = Ok (jacobi_symbol x y).
Proof.
  intros Hy Hodd. unfold jacobi. rewrite land_1, Hodd.
  destruct (Z.eqb_spec y 0) as [| _]; [lia |]. cbn [orb Z.eqb].
  destruct (Z.ltb_spec y 0) as [| _]; [lia |].
  assert (Ha : exists a, (if x <? 0 then mod' x y else Ok x) = Ok a /\ 0 <= a
                         /\ jacobi_symbol a y = jacobi_symbol x y).
  { destruct (Z.ltb_spec x 0).
    - destruct (mod_range x y ltac:(lia)) as (r & -> & Hr & ->).
      exists (x mod y). repeat split; [lia |]. apply jacobi_symbol_mod. lia.
    - exists x. repeat split. lia. }
  destruct Ha as (a & -> & Ha & Hsym). cbn [bind].
  destruct (loop_total jacobi_round
           (fun st => let '(a, b, j) := st in
                      0 <= a /\ 1 <= b /\ b mod 2 = 1
                      /\ j * jacobi_symbol a b = jacobi_symbol x y)
           (fun v => v = jacobi_symbol x y)
           (fun st => snd (fst st)) (budget y) (a, y, 1)) as (v & -> & ->);
    [| | cbn [fst snd]; apply budget_spec | reflexivity].
  - intros [[a1 b1] j1] (Ha1 & Hb1 & Hbo1 & Hj1). cbn [fst snd].
    destruct (Z.eq_dec b1 1) as [-> | Hne].
    + rewrite jacobi_round_exit_one. exists j1. split; [reflexivity |].
      rewrite jacobi_symbol_1_r in Hj1. lia.
    + destruct (Z.eq_dec (a1 mod b1) 0) as [Hz | Hnz].
      * rewrite jacobi_round_exit_zero by lia. exists 0. split; [reflexivity |].
        rewrite jacobi_symbol_divisible in Hj1; [lia | lia |].
        apply Z.mod_divide; lia.
      * destruct (jacobi_round_step a1 b1 j1 Ha1 ltac:(lia) Hnz)
          as (s & c & Hs & Hc & Hco & E & ->).
        cbn [fst snd]. repeat split; try lia.
        rewrite <- Hj1, <- (jacobi_symbol_mod a1 b1), E by lia.
        symmetry. apply jacobi_symbol_step; lia.
  - repeat split; try lia.
Qed.

(** * A quadratic non-residue exists *)

(** ** Lagrange's bound on the roots of a polynomial modulo a prime *)

Lemma poly_quot_spec (r x : Z) (f : list Z) :
  poly_eval f x = poly_eval f r + (x - r) * poly_eval (poly_quot r f) x.
Proof.
  induction f as [| c f IH]; [cbn [poly_eval poly_quot]; ring |].
  cbn [poly_eval poly_quot]. destruct f as [| c' f].
  - cbn [poly_eval]. ring.
  - set (g := c' :: f) in *. cbn [poly_eval]. rewrite IH. ring.
Qed.

Lemma poly_quot_length (r : Z) (f : list Z) :
  List.length (poly_quot r f) = Nat.pred (List.length f).
Proof.
  induction f as [| c f IH]; [reflexivity |].
  cbn [poly_quot]. destruct f as [| c' f]; [reflexivity |].
  set (g := c' :: f) in *. cbn [List.length]. rewrite IH. reflexivity.
Qed.

Lemma poly_quot_last (r d : Z) (f : list Z) :
  (2 <= List.length f)%nat -> last (poly_quot r f) d = last f d.
Proof.
  induction f as [| c f IH]; intros Hlen; [cbn in Hlen; lia |].
  cbn [poly_quot]. destruct f as [| c' f]; [cbn in Hlen; lia |].
  destruct f as [| c'' f].
  - cbn. ring.
  - set (g := c'' :: f) in *.
    change (last (poly_eval (c' :: g) r :: poly_quot r (c' :: g)) d
            = last (c :: c' :: g) d).
    assert (Hq : poly_quot r (c' :: g) <> []).
    { intros Hq. apply (f_equal (@List.length Z)) in Hq.
      rewrite poly_quot_length in Hq. cbn in Hq. lia. }
    destruct (poly_quot r (c' :: g)) as [| q0 qs] eqn:E; [contradiction |].
    change (last (q0 :: qs) d = last (c' :: g) d).
    apply IH. cbn. lia.
Qed.

(** A polynomial of degree [n] whose leading coefficient is not
    divisible by the prime [p] has at most [n] roots modulo [p]. *)
Lemma lagrange_roots (p : Z) :
  Z.prime p ->
  forall (n : nat) (f : list Z) (rs : list Z),
    List.length f = S n -> ~ (p | last f 0) ->
    NoDup rs ->
    (forall r, In r rs -> 0 <= r < p /\ (p | poly_eval f r)) ->
    (List.length rs <= n)%nat.
Proof.
  intros Hp. induction n as [| n IH]; intros f rs Hlen Hlead Hnd Hroots.
  - destruct f as [| c [| c' f]]; try discriminate.
    destruct rs as [| r rs]; [cbn; lia | exfalso].
    destruct (Hroots r (or_introl eq_refl)) as (_ & Hr).
    cbn in Hr, Hlead. apply Hlead. replace c with (c + r * 0) by ring. exact Hr.
  - destruct rs as [| r rs]; [cbn; lia |].
    cbn [List.length]. apply le_n_S.
    inversion Hnd as [| r' rs' Hnotin Hnd']; subst.
    destruct (Hroots r (or_introl eq_refl)) as (Hr & Hfr).
    apply (IH (poly_quot r f) rs).
    + rewrite poly_quot_length, Hlen. reflexivity.
    + rewrite poly_quot_last by lia. exact Hlead.
    + exact Hnd'.
    + intros r1 Hr1. destruct (Hroots r1 (or_intror Hr1)) as (Hr1b & Hfr1).
      split; [exact Hr1b |].
      rewrite (poly_quot_spec r r1 f) in Hfr1.
      assert (Hprod : (p | (r1 - r) * poly_eval (poly_quot r f) r1)).
      { replace ((r1 - r) * poly_eval (poly_quot r f) r1)
          with ((poly_eval f r + (r1 - r) * poly_eval (poly_quot r f) r1)
                - poly_eval f r) by ring.
        apply Z.divide_sub_r; assumption. }
      apply Z.divide_prime_mul in Hprod; [| exact Hp].
      destruct Hprod as [Hd | Hd]; [| exact Hd].
      exfalso. apply divide_small in Hd; [| lia].
      assert (r1 = r) by lia. subst r1. contradiction.
Qed.

Lemma poly_eval_monomial (n : nat) (x : Z) :
  poly_eval (repeat 0 n ++ [1]) x = x ^ Z.of_nat n.
Proof.
  induction n as [| n IH].
  - cbn [repeat app poly_eval Z.of_nat]. rewrite Z.pow_0_r. ring.
  - cbn [repeat app poly_eval]. rewrite IH, Nat2Z.inj_succ, Z.pow_succ_r by lia.
    ring.
Qed.

Lemma power_minus_one_eval (n : nat) (x : Z) :
  (0 < n)%nat -> poly_eval (power_minus_one n) x = x ^ Z.of_nat n - 1.
Proof.
  intros Hn. unfold power_minus_one. cbn [poly_eval].
  rewrite poly_eval_monomial.
  replace (Z.of_nat n) with (Z.succ (Z.of_nat (Nat.pred n))) by lia.
  rewrite Z.pow_succ_r by lia. ring.
Qed.

Lemma power_minus_one_length (n : nat) :
  List.length (power_minus_one n) = S (S (Nat.pred n)).
Proof.
  unfold power_minus_one. cbn [List.length].
  rewrite length_app, repeat_length. cbn. lia.
Qed.

Lemma power_minus_one_last (n : nat) : last (power_minus_one n) 0 = 1.
Proof.
  unfold power_minus_one.
  change (-1 :: repeat 0 (Nat.pred n) ++ [1])
    with ((-1 :: repeat 0 (Nat.pred n)) ++ [1]).
  apply last_last.
Qed.

(** ** The least non-residue *)

(** Some [n] in [2, p) has the symbol -1 over the odd prime [p]. *)
Lemma nonresidue_exists (p : Z) :
  Z.prime p -> p mod 2 = 1 ->
  exists n, 2 <= n < p /\ jacobi_symbol n p = -1.
Proof.
  intros Hp Hodd.
  pose proof (Z.prime_ge_2 p Hp) as Hp2.
  pose proof (odd_half p Hodd) as Hh. set (h := half p) in *.
  assert (Hh1 : 1 <= h) by lia.
  destruct (Forall_Exists_dec (fun n => jacobi_symbol n p <> -1)
              (fun n => match Z.eq_dec (jacobi_symbol n p) (-1) with
                        | left e => right (fun H => H e)
                        | right ne => left ne
                        end)
              (first_integers (Z.to_nat (p - 1)))) as [Hall | Hex].
  - exfalso. rewrite Forall_forall in Hall.
    assert (Hle : (List.length (first_integers (Z.to_nat (p - 1)))
                   <= S (Nat.pred (Z.to_nat h)))%nat).
    { apply (lagrange_roots p Hp _ (power_minus_one (Z.to_nat h))).
      - apply power_minus_one_length.
      - rewrite power_minus_one_last. intros Hd.
        apply Z.divide_1_r_nonneg in Hd; lia.
      - apply first_integers_NoDup.
      - intros r Hr. pose proof (Hall r Hr) as Hne.
        apply first_integers_in in Hr. split; [lia |].
        rewrite power_minus_one_eval, Z2Nat.id by lia.
        assert (Hnd : ~ (p | r)).
        { intros Hd. apply Z.divide_pos_le in Hd; lia. }
        assert (Hg : Z.gcd r p = 1).
        { rewrite Z.gcd_comm. apply Z.coprime_prime_l; assumption. }
        unfold jacobi_symbol in Hne. rewrite Hg in Hne. cbn [Z.eqb Pos.eqb] in Hne.
        destruct (gauss_symbol_cases r p) as [H1 | H1]; [| contradiction].
        pose proof (gauss_lemma r p h Hp Hh Hnd) as Hgl.
        rewrite H1 in Hgl. exact Hgl. }
    rewrite first_integers_length in Hle. lia.
  - apply Exists_exists in Hex. destruct Hex as (n & Hn & Hsym).
    apply first_integers_in in Hn.
    assert (Hs : jacobi_symbol n p = -1).
    { destruct (Z.eq_dec (jacobi_symbol n p) (-1)); [assumption | contradiction]. }
    exists n. split; [| exact Hs].
    destruct (Z.eq_dec n 1) as [-> | Hn1]; [| lia].
    exfalso. unfold jacobi_symbol in Hs. rewrite Z.gcd_1_l in Hs.
    cbn [Z.eqb Pos.eqb] in Hs.
    pose proof (gauss_lemma 1 p h Hp Hh) as Hgl.
    rewrite Hs, Z.pow_1_l in Hgl by lia.
    assert (Hnd : ~ (p | 1)).
    { intros Hd. apply Z.divide_1_r_nonneg in Hd; lia. }
    apply Hgl in Hnd. apply Z.divide_pos_le in Hnd; lia.
Qed.

(** * Square roots modulo a prime *)

(** ** Repeated squaring *)

Lemma pow2m_0 (p a : Z) : pow2m p a 0 = a mod p.
Proof. unfold pow2m. rewrite Z.pow_0_r, Z.pow_1_r. reflexivity. Qed.

Lemma pow2m_range (p a i : Z) : 0 < p -> 0 <= pow2m p a i < p.
Proof. intros Hp. apply Z.mod_pos_bound. exact Hp. Qed.

Lemma pow2m_mod (p a i : Z) : pow2m p (a mod p) i = pow2m p a i.
Proof. apply Z.mod_pow_l. Qed.

Lemma pow2m_succ (p a i : Z) :
  0 <= i -> pow2m p a (i + 1) = pow2m p a i ^ 2 mod p.
Proof.
  intros Hi. unfold pow2m.
  rewrite Z.mod_pow_l, <- Z.pow_mul_r by (try apply Z.pow_nonneg; lia).
  rewrite Z.pow_add_r, Z.pow_1_r by lia. reflexivity.
Qed.

Lemma pow2m_mul (p a b i : Z) :
  0 < p -> pow2m p (a * b) i = (pow2m p a i * pow2m p b i) mod p.
Proof.
  intros Hp. unfold pow2m. rewrite Z.pow_mul_l. apply Z.mul_mod. lia.
Qed.

Lemma pow2m_pow (p a s i : Z) :
  0 <= s -> 0 <= i -> pow2m p (a ^ s) i = a ^ (s * 2 ^ i) mod p.
Proof.
  intros Hs Hi. unfold pow2m.
  rewrite <- Z.pow_mul_r by (try apply Z.pow_nonneg; lia). reflexivity.
Qed.

Lemma pow2m_pow2m (p a j i : Z) :
  0 <= j -> 0 <= i -> pow2m p (pow2m p a j) i = pow2m p a (j + i).
Proof.
  intros Hj Hi. unfold pow2m at 2. rewrite pow2m_mod.
  rewrite pow2m_pow by (try apply Z.pow_nonneg; lia).
  unfold pow2m. rewrite <- Z.pow_add_r by lia. reflexivity.
Qed.

(** Modulo a prime, the only square roots of 1 are 1 and -1. *)
Lemma sqrt_of_one (p u : Z) :
  Z.prime p -> 0 <= u < p -> u ^ 2 mod p = 1 -> u = 1 \/ u = p - 1.
Proof.
  intros Hp Hu Hsq.
  assert (Hd : (p | (u - 1) * (u + 1))).
  { replace ((u - 1) * (u + 1)) with (u ^ 2 - 1) by ring.
    pose proof (Z.div_mod (u ^ 2) p ltac:(lia)) as Hdm.
    exists (u ^ 2 / p). lia. }
  apply Z.divide_prime_mul in Hd; [| exact Hp].
  pose proof (Z.prime_ge_2 p Hp) as Hp2.
  destruct Hd as [Hd | Hd].
  - left. apply divide_small in Hd; lia.
  - right. assert (Hd' : (p | u + 1 - p)).
    { apply Z.divide_sub_r; [exact Hd | apply Z.divide_refl]. }
    apply divide_small in Hd'; lia.
Qed.

(** ** The order of [b]: the inner loop *)

Lemma order_loop (fuel : nat) (p b k : Z) :
  0 < p -> 0 <= b < p -> 1 <= k -> pow2m p b (k - 1) = 1 ->
  k <= Z.of_nat fuel ->
  exists t m,
    loop_nat fuel (order_round p) (b, 0) = Ok (t, m)
    /\ 0 <= m <= k - 1 /\ pow2m p b m = 1
    /\ (0 < m -> pow2m p b (m - 1) <> 1).
Proof.
  intros Hp Hb Hk Hone Hfuel.
  destruct (loop_nat_total (order_round p)
              (fun st => 0 <= snd st <= k - 1 /\ fst st = pow2m p b (snd st)
                         /\ (0 < snd st -> pow2m p b (snd st - 1) <> 1))
              (fun st => 0 <= snd st <= k - 1 /\ pow2m p b (snd st) = 1
                         /\ (0 < snd st -> pow2m p b (snd st - 1) <> 1))
              (fun st => k - 1 - snd st) fuel (b, 0)) as ([t m] & E & H).
  - intros [t m] (Hm & Ht & Hprev). cbn [fst snd] in *.
    unfold order_round. destruct (Z.eqb_spec t 1) as [E1 | N1]; cbn [negb].
    + exists (t, m). cbn [fst snd]. repeat split; try lia; congruence.
    + assert (Hlt : m < k - 1).
      { destruct (Z.eq_dec m (k - 1)) as [-> | ]; [congruence | lia]. }
      cbn [fst snd]. repeat split; try lia.
      * rewrite pow2m_succ by lia. rewrite <- Ht.
        apply rem_mod; [apply Z.pow_nonneg | exact Hp].
        pose proof (pow2m_range p b m Hp). lia.
      * intros _. replace (m + 1 - 1) with m by ring. congruence.
  - cbn [fst snd]. repeat split; try lia.
    rewrite pow2m_0. symmetry. apply Z.mod_small. exact Hb.
  - cbn [fst snd]. lia.
  - exists t, m. cbn [fst snd] in H. tauto.
Qed.

(** ** One round of the outer loop *)

Lemma square_of_minus_one (p : Z) : 1 < p -> ((p - 1) * (p - 1)) mod p = 1.
Proof.
  intros Hp. replace ((p - 1) * (p - 1)) with (1 + (p - 2) * p) by ring.
  rewrite Z.mod_add, Z.mod_small; lia.
Qed.

Lemma tonelli_round_inv (fuel : nat) (p x e : Z) (st : ts_state) :
  Z.prime p -> tonelli_inv p x e st -> e <= Z.of_nat fuel ->
  match tonelli_round fuel p st with
  | inl st' => tonelli_inv p x e st' /\ 0 <= ts_k st' < ts_k st
  | inr r => exists v, r = Ok v /\ 0 <= v < p /\ v ^ 2 mod p = x mod p
  end.
Proof.
  intros Hp Hinv Hfuel. pose proof (Z.prime_ge_2 p Hp) as Hp2.
  destruct st as [y b g k]. unfold tonelli_inv in Hinv. cbn [ts_y ts_b ts_g ts_k] in Hinv.
  destruct Hinv as (Hk & Hy & Hb & Hg & Hsq & Hbo & Hgo).
  destruct (order_loop fuel p b k ltac:(lia) Hb ltac:(lia) Hbo ltac:(lia))
    as (t & m & E & Hm & Hone & Hprev).
  unfold tonelli_round. cbn [ts_y ts_b ts_g ts_k]. rewrite E. cbn [call snd].
  destruct (Z.eqb_spec m 0) as [-> | Hm0].
  - exists y. split; [reflexivity |]. split; [exact Hy |].
    rewrite pow2m_0, Z.mod_small in Hone by exact Hb. subst b.
    rewrite Hsq, Z.mul_1_r. reflexivity.
  - destruct (Z.eqb_spec m k) as [| _]; [lia |]. cbn [negb assert call].
    rewrite Z.shiftl_1_l.
    rewrite powm_nonneg; [| lia | apply Z.pow_nonneg; lia | left; lia].
    cbn [call]. fold (pow2m p g (k - m - 1)).
    set (T := pow2m p g (k - m - 1)).
    pose proof (pow2m_range p g (k - m - 1) ltac:(lia)) as HT. fold T in HT.
    assert (Hg' : Z.rem (T ^ 2) p = pow2m p g (k - m)).
    { rewrite rem_mod by (try apply Z.pow_nonneg; lia).
      unfold T. rewrite <- pow2m_succ by lia. f_equal. ring. }
    rewrite Hg'. set (g' := pow2m p g (k - m)).
    pose proof (pow2m_range p g (k - m) ltac:(lia)) as Hg'r. fold g' in Hg'r.
    rewrite !rem_mod by nia.
    assert (Hbm : pow2m p b (m - 1) = p - 1).
    { pose proof (pow2m_range p b (m - 1) ltac:(lia)) as Hr.
      destruct (sqrt_of_one p (pow2m p b (m - 1)) Hp Hr) as [H1 | H1].
      - rewrite <- pow2m_succ by lia. replace (m - 1 + 1) with m by ring. exact Hone.
      - exfalso. apply Hprev; [lia | exact H1].
      - exact H1. }
    assert (Hgm : pow2m p g' (m - 1) = p - 1).
    { unfold g'. rewrite pow2m_pow2m by lia.
      replace (k - m + (m - 1)) with (k - 1) by ring. exact Hgo. }
    unfold tonelli_inv. cbn [ts_y ts_b ts_g ts_k].
    repeat split; try lia; try (apply Z.mod_pos_bound; lia).
    + rewrite Z.mod_pow_l, Z.pow_mul_l, Z.mul_mod, Hsq by lia.
      fold (pow2m p g (k - m - 1)) in Hg'.
      rewrite rem_mod in Hg' by (try apply Z.pow_nonneg; lia).
      fold T in Hg'. rewrite Hg'. fold g'.
      rewrite Z.mul_mod_idemp_l, Z.mul_mod_idemp_r by lia.
      f_equal. ring.
    + rewrite pow2m_mod, pow2m_mul, Hbm, Hgm by lia.
      apply square_of_minus_one. lia.
Qed.

(** ** The search for a non-residue *)

Lemma nonresidue_loop (fuel : nat) (p : Z) :
  Z.prime p -> p mod 2 = 1 -> p <= Z.of_nat fuel ->
  exists n, loop_nat fuel (nonresidue_round p) 2 = Ok n
            /\ 2 <= n < p /\ jacobi_symbol n p = -1.
Proof.
  intros Hp Hodd Hfuel. pose proof (Z.prime_ge_2 p Hp) as Hp2.
  destruct (nonresidue_exists p Hp Hodd) as (n0 & Hn0 & Hs0).
  apply (loop_nat_total (nonresidue_round p)
           (fun n => 2 <= n <= n0)
           (fun n => 2 <= n < p /\ jacobi_symbol n p = -1)
           (fun n => n0 - n)).
  - intros n Hn. unfold nonresidue_round.
    rewrite jacobi_correct by lia. cbn [call].
    destruct (Z.eqb_spec (jacobi_symbol n p) (-1)) as [E | N]; cbn [negb].
    + exists n. repeat split; lia.
    + assert (n <> n0) by congruence. lia.
  - lia.
  - lia.
Qed.

(** ** Euler's criterion for the symbol that [jacobi] computes *)

Lemma odd_prime (p : Z) : Z.prime p -> p <> 2 -> p mod 2 = 1.
Proof.
  intros Hp Hne. pose proof (Z.prime_ge_2 p Hp) as Hp2.
  destruct (Z.eq_dec (p mod 2) 1) as [H1 | H1]; [exact H1 | exfalso].
  destruct Hp as (_ & Hdiv). apply (Hdiv 2); [lia |].
  apply Z.mod_divide; [lia | div_lia].
Qed.

Lemma symbol_not_divisible (x p : Z) :
  1 < p -> jacobi_symbol x p <> 0 -> Z.gcd x p = 1 /\ ~ (p | x).
Proof.
  intros Hp Hs. unfold jacobi_symbol in Hs.
  destruct (Z.eqb_spec (Z.gcd x p) 1) as [Hg | Hg]; [| contradiction].
  split; [exact Hg |]. intros Hd.
  apply Z.divide_gcd_iff in Hd; [| lia]. rewrite Z.gcd_comm in Hd. lia.
Qed.

Lemma residue_power (x p : Z) :
  Z.prime p -> p mod 2 = 1 -> jacobi_symbol x p = 1 ->
  (x mod p) ^ half p mod p = 1.
Proof.
  intros Hp Hodd Hs. pose proof (Z.prime_ge_2 p Hp) as Hp2.
  destruct (symbol_not_divisible x p ltac:(lia) ltac:(lia)) as (Hg & Hnd).
  unfold jacobi_symbol in Hs. rewrite Hg in Hs. cbn [Z.eqb Pos.eqb] in Hs.
  rewrite Z.mod_pow_l.
  apply euler_power_residue; try assumption. apply odd_half. exact Hodd.
Qed.

Lemma nonresidue_power (n p : Z) :
  Z.prime p -> p mod 2 = 1 -> jacobi_symbol n p = -1 ->
  n ^ half p mod p = p - 1.
Proof.
  intros Hp Hodd Hs. pose proof (Z.prime_ge_2 p Hp) as Hp2.
  destruct (symbol_not_divisible n p ltac:(lia) ltac:(lia)) as (Hg & Hnd).
  unfold jacobi_symbol in Hs. rewrite Hg in Hs. cbn [Z.eqb Pos.eqb] in Hs.
  apply euler_power_nonresidue; try assumption. apply odd_half. exact Hodd.
Qed.

Lemma two_power (p : Z) :
  Z.prime p -> p mod 8 = 5 -> 2 ^ half p mod p = p - 1.
Proof.
  intros Hp H8. pose proof (Z.prime_ge_2 p Hp) as Hp2.
  assert (Hodd : p mod 2 = 1) by div_lia.
  pose proof (odd_half p Hodd) as Hh.
  apply euler_power_nonresidue; try assumption.
  - intros Hd. apply Z.divide_pos_le in Hd; [| lia].
    assert (p = 2) by lia. subst p. discriminate.
  - rewrite (gauss_symbol_2 p (half p)) by lia.
    unfold two_symbol. rewrite H8. reflexivity.
Qed.

(** ** The three paths of [sqrtm] *)

Lemma fast_root (p X : Z) :
  0 < p -> p mod 4 = 3 -> X ^ half p mod p = 1 ->
  (X ^ ((p + 1) / 4) mod p) ^ 2 mod p = X mod p.
Proof.
  intros Hp H4 Hx.
  assert (Hh : 0 <= half p) by (unfold half; div_lia).
  rewrite Z.mod_pow_l, <- Z.pow_mul_r by div_lia.
  replace ((p + 1) / 4 * 2) with (half p + 1) by (unfold half; div_lia).
  rewrite Z.pow_add_r, Z.pow_1_r by lia.
  rewrite <- Z.mul_mod_idemp_l, Hx, Z.mul_1_l by lia. reflexivity.
Qed.

Lemma eqm_strip (p u v : Z) : eqm p u v -> eqm p (u mod p) v.
Proof. unfold eqm. intros H. rewrite Zmod_mod. exact H. Qed.

Lemma atkin_root (p X : Z) :
  Z.prime p -> p mod 8 = 5 -> X ^ half p mod p = 1 ->
  let t := 2 * X in
  let a := t ^ (p / 8) mod p in
  let b := (a * a) mod p in
  let b := (b * t) mod p in
  let b := (b - 1) mod p in
  let b := (b * X) mod p in
  let b := (b * a) mod p in
  b ^ 2 mod p = X mod p.
Proof.
  intros Hp H8 Hx. pose proof (Z.prime_ge_2 p Hp) as Hp2. cbv zeta.
  set (A := (2 * X) ^ (p / 8)).
  assert (Hm : 0 <= p / 8) by div_lia.
  assert (Hh : half p = p / 8 * 4 + 2) by (unfold half; div_lia).
  assert (HD : (p | 4 * X ^ 2 * A ^ 4 + 1)).
  { apply Z.mod_divide; [lia |].
    replace (4 * X ^ 2 * A ^ 4) with (2 ^ half p * X ^ half p).
    - rewrite <- Z.add_mod_idemp_l, Z.mul_mod, Hx, two_power by (assumption || lia).
      rewrite Z.mul_1_r.
      rewrite (Z.mod_small (p - 1)) by lia.
      replace (p - 1 + 1) with (1 * p) by ring. apply Z.mod_mul. lia.
    - rewrite <- Z.pow_mul_l, Hh. unfold A.
      rewrite Z.pow_add_r, Z.pow_mul_r by lia.
      change 4 with (2 ^ 2) at 2. rewrite <- Z.pow_mul_l. ring. }
  rewrite Z.pow_2_r.
  transitivity (((A * A * (2 * X) - 1) * X * A * ((A * A * (2 * X) - 1) * X * A)) mod p).
  - change (eqm p
              ((((((A mod p * (A mod p)) mod p * (2 * X)) mod p - 1) mod p * X) mod p
                * (A mod p)) mod p
               * ((((((A mod p * (A mod p)) mod p * (2 * X)) mod p - 1) mod p * X) mod p
                   * (A mod p)) mod p))
              ((A * A * (2 * X) - 1) * X * A * ((A * A * (2 * X) - 1) * X * A))).
    repeat first [ apply eqm_strip | apply Zmult_eqm | apply Zminus_eqm
                 | apply eqm_refl ].
  - destruct HD as (q & Hq).
    replace ((A * A * (2 * X) - 1) * X * A * ((A * A * (2 * X) - 1) * X * A))
      with (X + (4 * X ^ 2 * A ^ 4 + 1) * (X ^ 2 * A ^ 2 - X)) by ring.
    rewrite Hq.
    replace (X + q * p * (X ^ 2 * A ^ 2 - X))
      with (X + q * (X ^ 2 * A ^ 2 - X) * p) by ring.
    apply Z.mod_add. lia.
Qed.

(** ** [sqrtm] *)

Lemma sqrtm_nonresidue (fuel : nat) (x p : Z) :
  0 < p -> jacobi x p = Ok (-1) ->
  sqrtm fuel x p = Throw (Error "X is not a square mod P.").
Proof.
  intros Hp Hj. unfold sqrtm, assert.
  destruct (Z.gtb_spec p 0) as [_ |]; [| lia].
  cbn [bind]. rewrite Hj. reflexivity.
Qed.

Lemma sqrtm_zero (fuel : nat) (x p : Z) :
  0 < p -> jacobi x p = Ok 0 -> sqrtm fuel x p = Ok 0.
Proof.
  intros Hp Hj. unfold sqrtm, assert.
  destruct (Z.gtb_spec p 0) as [_ |]; [| lia].
  cbn [bind]. rewrite Hj. reflexivity.
Qed.

Lemma tonelli_start (p X n e s : Z) :
  Z.prime p -> p mod 2 = 1 -> 0 <= e -> p - 1 = 2 ^ e * s -> s mod 2 = 1 -> 0 < s ->
  X ^ half p mod p = 1 -> n ^ half p mod p = p - 1 ->
  tonelli_inv p X e
    {| ts_y := X ^ ((s + 1) / 2) mod p; ts_b := X ^ s mod p;
       ts_g := n ^ s mod p; ts_k := e |}.
Proof.
  intros Hp Hodd He Hfac Hs Hspos HX Hn.
  pose proof (Z.prime_ge_2 p Hp) as Hp2.
  assert (He1 : 1 <= e).
  { destruct (Z.eq_dec e 0) as [-> | ]; [| lia].
    rewrite Z.pow_0_r in Hfac. exfalso. div_lia. }
  assert (Hh : s * 2 ^ (e - 1) = half p).
  { unfold half. replace (p - 1) with (s * 2 ^ (e - 1) * 2).
    - rewrite Z.div_mul; lia.
    - rewrite Hfac. replace e with (e - 1 + 1) at 2 by ring.
      rewrite Z.pow_add_r, Z.pow_1_r by lia. ring. }
  unfold tonelli_inv. cbn [ts_y ts_b ts_g ts_k].
  repeat split; try lia; try (apply Z.mod_pos_bound; lia).
  - rewrite Z.mod_pow_l, <- Z.pow_mul_r by div_lia.
    replace ((s + 1) / 2 * 2) with (1 + s) by div_lia.
    rewrite Z.pow_add_r, Z.pow_1_r, Z.mul_mod_idemp_r by lia. reflexivity.
  - rewrite pow2m_mod, pow2m_pow, Hh by lia. exact HX.
  - rewrite pow2m_mod, pow2m_pow, Hh by lia. exact Hn.
Qed.

Lemma sqrtm_residue (fuel : nat) (x p : Z) :
  Z.prime p -> p mod 2 = 1 -> jacobi x p = Ok 1 -> p <= Z.of_nat fuel ->
  exists r, sqrtm fuel x p = Ok r /\ 0 <= r < p /\ r ^ 2 mod p = x mod p.
Proof.
  intros Hp Hodd Hj Hfuel. pose proof (Z.prime_ge_2 p Hp) as Hp2.
  assert (Hs : jacobi_symbol x p = 1).
  { rewrite jacobi_correct in Hj by lia. congruence. }
  pose proof (residue_power x p Hp Hodd Hs) as HX.
  unfold sqrtm, assert.
  destruct (Z.gtb_spec p 0) as [_ |]; [| lia].
  cbn [bind]. rewrite Hj. cbn [bind Z.eqb].
  destruct (reduce_arg x p ltac:(lia)) as (X & -> & HXr & EX). cbn [bind].
  rewrite <- EX in HX.
  replace (x mod p) with (X mod p) by (rewrite EX; apply Z.mod_mod; lia).
  rewrite land_3, land_7.
  destruct (Z.eqb_spec (p mod 4) 3) as [H4 | H4].
  { rewrite Z.shiftr_div_pow2 by lia. change (2 ^ 2) with 4.
    rewrite powm_nonneg; [| lia | div_lia | left; lia].
    eexists. split; [reflexivity |]. split; [apply Z.mod_pos_bound; lia |].
    apply fast_root; assumption || lia. }
  destruct (Z.eqb_spec (p mod 8) 5) as [H8 | H8].
  { rewrite Z.shiftr_div_pow2, Z.shiftl_mul_pow2 by lia.
    change (2 ^ 3) with 8. change (2 ^ 1) with 2.
    rewrite powm_nonneg; [| lia | div_lia | left; lia]. cbn [bind].
    set (a := (X * 2) ^ (p / 8) mod p).
    assert (Ha : 0 <= a < p) by (apply Z.mod_pos_bound; lia).
    rewrite (rem_mod (a ^ 2)) by (try apply Z.pow_nonneg; lia).
    set (b1 := a ^ 2 mod p).
    assert (Hb1 : 0 <= b1 < p) by (apply Z.mod_pos_bound; lia).
    rewrite (rem_mod (b1 * (X * 2))) by nia.
    set (b2 := (b1 * (X * 2)) mod p).
    destruct (mod_range (b2 - 1) p ltac:(lia)) as (b3 & -> & Hb3 & E3). cbn [bind].
    rewrite (rem_mod (b3 * X)) by nia.
    set (b4 := (b3 * X) mod p).
    assert (Hb4 : 0 <= b4 < p) by (apply Z.mod_pos_bound; lia).
    rewrite (rem_mod (b4 * a)) by nia.
    eexists. split; [reflexivity |]. split; [apply Z.mod_pos_bound; lia |].
    pose proof (atkin_root p X Hp H8 HX) as Hroot. cbv zeta in Hroot.
    unfold b4. rewrite E3. unfold b2, b1, a.
    rewrite (Z.pow_2_r ((X * 2) ^ (p / 8) mod p)), (Z.mul_comm X 2).
    exact Hroot. }
  destruct (zeroBits_spec (p - 1) ltac:(lia)) as (e & s & -> & He & Hfac & Hso & Hspos).
  rewrite Z.abs_eq in Hfac by lia. cbn [bind].
  assert (Hshift : Z.shiftr (p - 1) e = s).
  { rewrite Z.shiftr_div_pow2, Hfac, Z.mul_comm by lia.
    apply Z.div_mul. apply Z.pow_nonzero; lia. }
  rewrite Hshift.
  destruct (nonresidue_loop fuel p Hp Hodd Hfuel) as (n & -> & Hn & Hns).
  cbn [bind]. rewrite shiftr_1.
  rewrite !powm_nonneg; try lia; try (left; lia); try div_lia.
  cbn [bind].
  assert (Hepow : e < 2 ^ e) by (apply Z.pow_gt_lin_r; lia).
  assert (Hpow : 2 ^ e <= p - 1).
  { rewrite Hfac. assert (0 < 2 ^ e) by (apply Z.pow_pos_nonneg; lia). nia. }
  apply (loop_nat_total (tonelli_round fuel p) (tonelli_inv p X e)
           (fun v => 0 <= v < p /\ v ^ 2 mod p = X mod p) ts_k).
  - intros st Hst. apply tonelli_round_inv; [exact Hp | exact Hst | lia].
  - apply tonelli_start; try assumption.
    apply nonresidue_power; assumption.
  - cbn [ts_k]. lia.
Qed.

(** On the first two paths no loop of [sqrtm] itself is entered, and
    the root is a closed formula. *)
Lemma sqrtm_fast_path (fuel : nat) (x p : Z) :
  0 < p -> p mod 4 = 3 -> jacobi x p = Ok 1 ->
  sqrtm fuel x p = Ok ((x mod p) ^ ((p + 1) / 4) mod p).
Proof.
  intros Hp H4 Hj. unfold sqrtm, assert.
  destruct (Z.gtb_spec p 0) as [_ |]; [| lia].
  cbn [bind]. rewrite Hj. cbn [bind Z.eqb].
  destruct (reduce_arg x p ltac:(lia)) as (X & -> & HXr & <-). cbn [bind].
  rewrite land_3, H4. cbn [Z.eqb Pos.eqb].
  rewrite Z.shiftr_div_pow2 by lia. change (2 ^ 2) with 4.
  apply powm_nonneg; [lia | div_lia | left; div_lia].
Qed.

Lemma prime_17 : Z.prime 17.
Proof.
  split; [lia |]. intros n Hn Hd.
  apply Z.mod_divide in Hd; [| lia].
  assert (Hc : In n (first_integers 16)) by (apply first_integers_in; lia).
  cbv [first_integers seq map Z.of_nat Pos.of_succ_nat Pos.succ] in Hc.
  repeat (destruct Hc as [<- | Hc]; [first [discriminate Hd | lia] |]).
  contradiction.
Qed.

(** C3: for an odd prime [p] and any [x], [jacobi x p] answers -1, 0 or
    1.  [sqrtm x p] raises the error "X is not a square mod P." when the
    answer is -1 and returns 0 when it is 0; when it is 1, [sqrtm]
    returns, as soon as each of its loops is allowed [p] rounds, a value
    [r] in [0, p) with [r ^ 2 mod p = x mod p]. *)
Theorem sqrtm_square_root (x p : Z) :
  Z.prime p -> p <> 2 ->
  (exists j, jacobi x p = Ok j /\ (j = -1 \/ j = 0 \/ j = 1))
  /\ (jacobi x p = Ok (-1) ->
      forall fuel, sqrtm fuel x p = Throw (Error "X is not a square mod P."))
  /\ (jacobi x p = Ok 0 -> forall fuel, sqrtm fuel x p = Ok 0)
  /\ (jacobi x p = Ok 1 ->
      forall fuel, p <= Z.of_nat fuel ->
        exists r, sqrtm fuel x p = Ok r /\ 0 <= r < p /\ r ^ 2 mod p = x mod p).
Proof.
  intros Hp Hne. pose proof (Z.prime_ge_2 p Hp) as Hp2.
  pose proof (odd_prime p Hp Hne) as Hodd.
  split; [| split; [| split]].
  - exists (jacobi_symbol x p). split; [apply jacobi_correct; lia |].
    apply jacobi_symbol_cases.
  - intros Hj fuel. apply sqrtm_nonresidue; [lia | exact Hj].
  - intros Hj fuel. apply sqrtm_zero; [lia | exact Hj].
  - intros Hj fuel Hfuel. apply sqrtm_residue; assumption.
Qed.

Lemma sqrtm_square_root_witness :
  (exists j, jacobi 2 17 = Ok j /\ (j = -1 \/ j = 0 \/ j = 1))
  /\ (jacobi 2 17 = Ok (-1) ->
      forall fuel, sqrtm fuel 2 17 = Throw (Error "X is not a square mod P."))
  /\ (jacobi 2 17 = Ok 0 -> forall fuel, sqrtm fuel 2 17 = Ok 0)
  /\ (jacobi 2 17 = Ok 1 ->
      forall fuel, 17 <= Z.of_nat fuel ->
        exists r, sqrtm fuel 2 17 = Ok r /\ 0 <= r < 17 /\ r ^ 2 mod 17 = 2 mod 17).
Proof. apply (sqrtm_square_root 2 17); [exact prime_17 | lia]. Defined.

(** * Bit lengths, square roots, bit operations *)

(** ** [countWords], [bitLength], [byteLength] *)

Lemma bit_count_nonneg (x : Z) : 0 <= bit_count x.
Proof.
  unfold bit_count. destruct (x =? 0); [lia |].
  pose proof (Z.log2_nonneg x). lia.
Qed.

Lemma bit_count_bounds (x : Z) :
  0 < x -> 2 ^ (bit_count x - 1) <= x < 2 ^ bit_count x.
Proof.
  intros Hx. unfold bit_count. destruct (Z.eqb_spec x 0); [lia |].
  replace (Z.log2 x + 1 - 1) with (Z.log2 x) by ring.
  rewrite Z.add_1_r. apply Z.log2_spec. exact Hx.
Qed.

Lemma bit_count_shiftr (x w : Z) :
  0 < w -> 2 ^ w - 1 <= x ->
  bit_count (Z.shiftr x w) + w = bit_count x.
Proof.
  intros Hw Hx.
  assert (Hpw : 2 <= 2 ^ w).
  { change 2 with (2 ^ 1) at 1. apply Z.pow_le_mono_r; lia. }
  unfold bit_count.
  destruct (Z.eqb_spec x 0) as [| _]; [lia |].
  destruct (Z.eq_dec x (2 ^ w - 1)) as [-> | Hne].
  - rewrite Z.shiftr_div_pow2, Z.div_small by lia. cbn [Z.eqb].
    change (2 ^ w - 1) with (Z.pred (2 ^ w)).
    rewrite Z.log2_pred_pow2 by lia. lia.
  - assert (Hge : 2 ^ w <= x) by lia.
    assert (Hl : w <= Z.log2 x) by (apply Z.log2_le_pow2; lia).
    assert (Hs : 0 < Z.shiftr x w).
    { rewrite Z.shiftr_div_pow2 by lia. apply Z.div_str_pos. lia. }
    destruct (Z.eqb_spec (Z.shiftr x w) 0) as [| _]; [lia |].
    rewrite Z.log2_shiftr by lia. lia.
Qed.

Lemma words_loop_count (X w : Z) (s : Z * Z) :
  0 < w -> words_inv X s ->
  exists s', loop (budget X) (words_round (Z.shiftl 1 w - 1) w) s = Ok s'
             /\ words_inv X s'.
Proof.
  intros Hw Hs. rewrite Z.shiftl_1_l.
  apply (loop_total (words_round (2 ^ w - 1) w) (words_inv X) (words_inv X) fst).
  - intros [x i] (Hx & Hb). cbn [fst snd] in *. unfold words_round.
    assert (Hpw : 2 <= 2 ^ w).
    { change 2 with (2 ^ 1) at 1. apply Z.pow_le_mono_r; lia. }
    destruct (Z.geb_spec x (2 ^ w - 1)) as [Hge | Hlt].
    + pose proof (shiftr_lt x w ltac:(lia) Hw) as Hsh.
      pose proof (bit_count_shiftr x w Hw Hge) as Hc.
      unfold words_inv. cbn [fst snd]. repeat split; lia.
    + exists (x, i). split; [reflexivity |]. split; assumption.
  - exact Hs.
  - apply budget_mono. destruct Hs as (Hx & _). lia.
Qed.

Lemma words_last_count (X : Z) (s : Z * Z) :
  words_inv X s ->
  exists s', loop (budget X) words_last s = Ok s' /\ snd s' = bit_count X.
Proof.
  intros Hs.
  apply (loop_total words_last (words_inv X) (fun s' => snd s' = bit_count X) fst).
  - intros [x i] (Hx & Hb). cbn [fst snd] in *. unfold words_last.
    destruct (Z.gtb_spec x 0) as [Hgt | Hle].
    + pose proof (shiftr_lt x 1 ltac:(lia) ltac:(lia)) as Hsh.
      unfold words_inv. cbn [fst snd]. split; [split |]; [lia | | lia].
      pose proof (bit_count_shiftr x 1 ltac:(lia)) as Hc.
      change (2 ^ 1 - 1) with 1 in Hc. specialize (Hc ltac:(lia)). lia.
    + exists (x, i). split; [reflexivity |]. cbn [snd].
      assert (x = 0) by lia. subst x. change (bit_count 0) with 0 in Hb. lia.
  - exact Hs.
  - apply budget_mono. destruct Hs as (Hx & _). lia.
Qed.

Lemma countWords_spec (x w : Z) :
  0 < w ->
  countWords x w = Ok (to_uint32 ((bit_count (Z.abs x) + (w - 1)) / w)).
Proof.
  intros Hw. unfold countWords.
  destruct (Z.eqb_spec x 0) as [-> | Hx].
  - cbn [Z.abs bit_count Z.eqb]. rewrite Z.add_0_l, Z.div_small by lia. reflexivity.
  - replace (if x <? 0 then - x else x) with (Z.abs x)
      by (destruct (Z.ltb_spec x 0); lia).
    set (X := Z.abs x). assert (HX : 0 < X) by (unfold X; lia).
    assert (H0 : words_inv X (X, 0)).
    { unfold words_inv. cbn [fst snd]. lia. }
    destruct (words_loop_count X 256 (X, 0) ltac:(lia) H0) as (s1 & E1 & H1).
    change (Z.shiftl 1 256 - 1) with U256_MAX in E1. rewrite E1. cbn [bind].
    destruct (words_loop_count X 128 s1 ltac:(lia) H1) as (s2 & E2 & H2).
    change (Z.shiftl 1 128 - 1) with U128_MAX in E2. rewrite E2. cbn [bind].
    destruct (words_loop_count X 64 s2 ltac:(lia) H2) as (s3 & E3 & H3).
    change (Z.shiftl 1 64 - 1) with U64_MAX in E3. rewrite E3. cbn [bind].
    destruct (words_loop_count X 32 s3 ltac:(lia) H3) as (s4 & E4 & H4).
    change (Z.shiftl 1 32 - 1) with U32_MAX in E4. rewrite E4. cbn [bind].
    destruct (words_loop_count X 16 s4 ltac:(lia) H4) as (s5 & E5 & H5).
    change (Z.shiftl 1 16 - 1) with U16_MAX in E5. rewrite E5. cbn [bind].
    destruct (words_loop_count X 8 s5 ltac:(lia) H5) as (s6 & E6 & H6).
    change (Z.shiftl 1 8 - 1) with U8_MAX in E6. rewrite E6. cbn [bind].
    destruct (words_last_count X s6 H6) as (s7 & -> & E7). cbn [bind].
    rewrite E7. reflexivity.
Qed.

Lemma bitLength_value (x : Z) :
  bit_count (Z.abs x) < 2 ^ 32 -> bitLength x = Ok (bit_count (Z.abs x)).
Proof.
  intros Hfit. pose proof (bit_count_nonneg (Z.abs x)) as Hn.
  unfold bitLength. rewrite countWords_spec by lia. unfold to_uint32.
  rewrite Z.add_0_r, Z.div_1_r, Z.mod_small by lia. reflexivity.
Qed.

Lemma byteLength_value (x : Z) :
  bit_count (Z.abs x) < 2 ^ 32 ->
  byteLength x = Ok ((bit_count (Z.abs x) + 7) / 8).
Proof.
  intros Hfit. pose proof (bit_count_nonneg (Z.abs x)) as Hn.
  unfold byteLength. rewrite countWords_spec by lia. unfold to_uint32.
  rewrite Z.mod_small; [reflexivity |]. change (8 - 1) with 7. div_lia.
Qed.

(** X1. Whenever the bit count of [x] fits an unsigned 32-bit number,
    [bitLength x] is the number [n] of bits of the magnitude of [x] (0
    for 0, and [2 ^ (n - 1) <= |x| < 2 ^ n] otherwise), whatever the
    sign of [x], and [byteLength x] is [n] rounded up to whole bytes. *)
Theorem bitLength_counts_bits (x : Z) :
  bit_count (Z.abs x) < 2 ^ 32 ->
  bitLength x = Ok (bit_count (Z.abs x))
  /\ byteLength x = Ok ((bit_count (Z.abs x) + 7) / 8)
  /\ (x <> 0 ->
      2 ^ (bit_count (Z.abs x) - 1) <= Z.abs x < 2 ^ bit_count (Z.abs x)).
Proof.
  intros Hfit. split; [apply bitLength_value; exact Hfit |].
  split; [apply byteLength_value; exact Hfit |].
  intros Hx. apply bit_count_bounds. lia.
Qed.

Lemma bitLength_counts_bits_witness :
  bitLength (-1000) = Ok (bit_count (Z.abs (-1000)))
  /\ byteLength (-1000) = Ok ((bit_count (Z.abs (-1000)) + 7) / 8)
  /\ (-1000 <> 0 ->
      2 ^ (bit_count (Z.abs (-1000)) - 1) <= Z.abs (-1000)
      < 2 ^ bit_count (Z.abs (-1000))).
Proof. apply (bitLength_counts_bits (-1000)). reflexivity. Defined.

(** ** The integer square root *)

Lemma newton_step (x r : Z) :
  0 < r -> 0 <= x -> x < (r + 1) * (r + 1) ->
  let z := (x / r + r) / 2 in
  x < (z + 1) * (z + 1) /\ (r <= z -> r * r <= x) /\ (2 <= r -> 1 <= z).
Proof.
  intros Hr Hx Hinv. cbv zeta.
  pose proof (Z.div_mod x r ltac:(lia)) as Hq.
  pose proof (Z.mod_pos_bound x r Hr) as Hm.
  set (q := x / r) in *.
  assert (Hq0 : 0 <= q) by (apply Z.div_pos; lia).
  pose proof (Z.div_mod (q + r) 2 ltac:(lia)) as Hz.
  pose proof (Z.mod_pos_bound (q + r) 2 ltac:(lia)) as Hzm.
  set (z := (q + r) / 2) in *.
  repeat split.
  - assert (H1 : q + r + 1 <= 2 * (z + 1)) by lia.
    assert (H2 : 4 * ((q + 1) * r) <= (q + r + 1) * (q + r + 1)).
    { pose proof (Z.square_nonneg (q + 1 - r)) as Hsq.
      replace ((q + r + 1) * (q + r + 1))
        with ((q + 1 - r) * (q + 1 - r) + 4 * ((q + 1) * r)) by ring.
      lia. }
    assert (H3 : (q + r + 1) * (q + r + 1) <= (2 * (z + 1)) * (2 * (z + 1)))
      by (apply Z.mul_le_mono_nonneg; lia).
    assert (H4 : x < (q + 1) * r) by lia.
    replace ((2 * (z + 1)) * (2 * (z + 1))) with (4 * ((z + 1) * (z + 1))) in H3 by ring.
    lia.
  - intros Hle. assert (r <= q) by lia. nia.
  - intros H2. lia.
Qed.

Lemma sqrt_small (x : Z) : 0 <= x <= 1 -> sqrt x = Ok x.
Proof.
  intros Hx. unfold sqrt, assert.
  destruct (Z.geb_spec x 0) as [_ |]; [| lia]. cbn [bind].
  destruct (Z.leb_spec x 1) as [_ |]; [reflexivity | lia].
Qed.

Lemma sqrt_spec (x : Z) :
  0 <= x -> bit_count x < 2 ^ 32 ->
  exists r, sqrt x = Ok r /\ 0 <= r /\ r * r <= x < (r + 1) * (r + 1).
Proof.
  intros Hx Hfit.
  destruct (Z_le_gt_dec x 1) as [Hle | Hgt].
  { exists x. rewrite sqrt_small by lia. split; [reflexivity |]. nia. }
  unfold sqrt, assert.
  destruct (Z.geb_spec x 0) as [_ |]; [| lia]. cbn [bind].
  destruct (Z.leb_spec x 1) as [| _]; [lia |].
  pose proof (bitLength_value x) as Ebl.
  rewrite Z.abs_eq in Ebl by lia. rewrite (Ebl Hfit). cbn [bind].
  pose proof (bit_count_bounds x ltac:(lia)) as Hb. set (n := bit_count x) in *.
  assert (Hn : 2 <= n).
  { destruct (Z_le_gt_dec 2 n) as [H | H]; [exact H | exfalso].
    assert (Hp : 2 ^ n <= 2 ^ 1) by (apply Z.pow_le_mono_r; lia).
    change (2 ^ 1) with 2 in Hp. lia. }
  rewrite shiftr_1, Z.shiftl_1_l.
  set (r0 := 2 ^ (n / 2 + 1)).
  assert (Hr0 : 0 < r0) by (apply Z.pow_pos_nonneg; div_lia).
  assert (Hr0x : x < r0 * r0).
  { unfold r0. rewrite <- Z.pow_add_r by div_lia.
    assert (Hp : 2 ^ n <= 2 ^ (n / 2 + 1 + (n / 2 + 1)))
      by (apply Z.pow_le_mono_r; div_lia).
    lia. }
  apply (loop_total (sqrt_round x)
           (fun r => 0 < r /\ x < (r + 1) * (r + 1))
           (fun r => 0 <= r /\ r * r <= x < (r + 1) * (r + 1))
           (fun r => r)).
  - intros r (Hr & Hinv). unfold sqrt_round.
    rewrite Z.quot_div_nonneg, shiftr_1 by lia.
    destruct (newton_step x r Hr Hx Hinv) as (H1 & H2 & H3).
    destruct (Z.geb_spec ((x / r + r) / 2) r) as [Hge | Hlt].
    + exists r. split; [reflexivity |]. split; [lia |]. split; [apply H2; lia | exact Hinv].
    + assert (Hr2 : 2 <= r).
      { destruct (Z.eq_dec r 1) as [-> | ]; [| lia].
        rewrite Z.div_1_r in Hlt. exfalso. div_lia. }
      specialize (H3 Hr2). repeat split; lia.
  - split; [exact Hr0 | nia].
  - apply budget_spec.
Qed.

(** X2. [sqrt x] fails its assertion on a negative number; on [x >= 0]
    (whose bit count fits an unsigned 32-bit number) it returns the
    integer square root, the [r >= 0] with [r * r <= x < (r + 1) * (r + 1)]. *)
Theorem sqrt_is_floor_root (x : Z) :
  bit_count x < 2 ^ 32 ->
  (x < 0 -> sqrt x = Throw (Error "Assertion failed."))
  /\ (0 <= x ->
      exists r, sqrt x = Ok r /\ 0 <= r /\ r * r <= x < (r + 1) * (r + 1)).
Proof.
  intros Hfit. split.
  - intros Hneg. unfold sqrt, assert.
    destruct (Z.geb_spec x 0) as [| _]; [lia | reflexivity].
  - intros Hx. apply sqrt_spec; assumption.
Qed.

Lemma sqrt_is_floor_root_witness :
  (99 < 0 -> sqrt 99 = Throw (Error "Assertion failed."))
  /\ (0 <= 99 ->
      exists r, sqrt 99 = Ok r /\ 0 <= r /\ r * r <= 99 < (r + 1) * (r + 1)).
Proof. apply (sqrt_is_floor_root 99). reflexivity. Defined.

(** X3. [isSquare n] always answers, and answers [true] exactly when [n]
    is the square of an integer (for [n] whose bit count fits an
    unsigned 32-bit number); a negative [n] is never a square. *)
Theorem isSquare_iff_square (n : Z) :
  bit_count n < 2 ^ 32 ->
  exists b, isSquare n = Ok b /\ (b = true <-> exists k, n = k * k).
Proof.
  intros Hfit. unfold isSquare.
  destruct (Z.ltb_spec n 0) as [Hneg | Hpos].
  - exists false. split; [reflexivity |]. split; [discriminate |].
    intros (k & Hk). exfalso. nia.
  - destruct (sqrt_spec n Hpos Hfit) as (r & -> & Hr & Hlo & Hhi). cbn [bind].
    eexists. split; [reflexivity |]. rewrite Z.pow_2_r. split.
    + intros E. apply Z.eqb_eq in E. exists r. lia.
    + intros (k & Hk). apply Z.eqb_eq.
      assert (Hk' : n = Z.abs k * Z.abs k) by nia.
      assert (Z.abs k = r) by nia. nia.
Qed.

Lemma isSquare_iff_square_witness :
  exists b, isSquare 144 = Ok b /\ (b = true <-> exists k, 144 = k * k).
Proof. apply (isSquare_iff_square 144). reflexivity. Defined.

(** ** Trailing zero bits *)

(** X4. For [x <> 0], [zeroBits x] is the position of the lowest set bit
    of the magnitude of [x]: that bit is set and every bit below it is
    clear. *)
Theorem zeroBits_lowest_set_bit (x : Z) :
  x <> 0 ->
  exists s, zeroBits x = Ok s /\ 0 <= s
            /\ Z.testbit (Z.abs x) s = true
            /\ (forall i, i < s -> Z.testbit (Z.abs x) i = false).
Proof.
  intros Hx. destruct (zeroBits_spec x Hx) as (s & c & E & Hs & Habs & Hodd & Hc).
  exists s. split; [exact E |]. split; [exact Hs |].
  rewrite Habs, Z.mul_comm, <- Z.shiftl_mul_pow2 by exact Hs.
  split.
  - rewrite Z.shiftl_spec, Z.sub_diag, Z.bit0_odd by lia.
    rewrite Zodd_mod, Hodd. reflexivity.
  - intros i Hi. destruct (Z_lt_le_dec i 0) as [Hneg | Hpos].
    + apply Z.testbit_neg_r. exact Hneg.
    + rewrite Z.shiftl_spec by exact Hpos. apply Z.testbit_neg_r. lia.
Qed.

Lemma zeroBits_lowest_set_bit_witness :
  exists s, zeroBits (-48) = Ok s /\ 0 <= s
            /\ Z.testbit (Z.abs (-48)) s = true
            /\ (forall i, i < s -> Z.testbit (Z.abs (-48)) i = false).
Proof. apply (zeroBits_lowest_set_bit (-48)). discriminate. Defined.

(** ** Single bits and two's complement *)

Lemma land_pow2 (x b : Z) :
  0 <= b -> Z.land x (2 ^ b) = if Z.testbit x b then 2 ^ b else 0.
Proof.
  intros Hb. apply Z.bits_inj'. intros i Hi.
  rewrite Z.land_spec, Z.pow2_bits_eqb by exact Hb.
  destruct (Z.eqb_spec b i) as [-> | Hne].
  - destruct (Z.testbit x i) eqn:E.
    + rewrite Z.pow2_bits_true by exact Hi. reflexivity.
    + rewrite Z.bits_0. reflexivity.
  - rewrite andb_false_r. destruct (Z.testbit x b).
    + rewrite Z.pow2_bits_false by lia. reflexivity.
    + rewrite Z.bits_0. reflexivity.
Qed.

Lemma testn_testbit (x b : Z) : 0 <= b -> testn x b = Z.testbit x b.
Proof.
  intros Hb. unfold testn. rewrite Z.shiftl_1_l, land_pow2 by exact Hb.
  assert (Hp : 0 < 2 ^ b) by (apply Z.pow_pos_nonneg; lia).
  destruct (Z.testbit x b).
  - destruct (Z.eqb_spec (2 ^ b) 0); [lia | reflexivity].
  - reflexivity.
Qed.

(** X5. [setn] writes one bit and [testn] reads it back: after
    [setn x bit val], bit [bit] holds [val] and every other bit of [x]
    is as before (negative [x] in two's complement included). *)
Theorem testn_after_setn (x bit bit' : Z) (val : bool) :
  0 <= bit -> 0 <= bit' ->
  testn (setn x bit val) bit' = if bit' =? bit then val else testn x bit'.
Proof.
  intros Hb Hb'. rewrite !testn_testbit by assumption.
  unfold setn. rewrite Z.shiftl_1_l. destruct val.
  - rewrite Z.lor_spec, Z.pow2_bits_eqb by exact Hb.
    destruct (Z.eqb_spec bit' bit) as [-> | Hne].
    + rewrite Z.eqb_refl. apply orb_true_r.
    + destruct (Z.eqb_spec bit bit'); [lia |]. apply orb_false_r.
  - rewrite Z.land_spec, Z.lnot_spec, Z.pow2_bits_eqb by assumption.
    destruct (Z.eqb_spec bit' bit) as [-> | Hne].
    + rewrite Z.eqb_refl. apply andb_false_r.
    + destruct (Z.eqb_spec bit bit'); [lia |]. apply andb_true_r.
Qed.

Lemma testn_after_setn_witness :
  testn (setn (-6) 3 false) 3 = (if 3 =? 3 then false else testn (-6) 3).
Proof. apply (testn_after_setn (-6) 3 3 false); lia. Defined.

Lemma lxor_ones_low (a w : Z) :
  0 <= w -> 0 <= a < 2 ^ w -> Z.lxor a (Z.ones w) = Z.ones w - a.
Proof.
  intros Hw Ha.
  assert (Hdis : Z.land (Z.lxor a (Z.ones w)) a = 0).
  { apply Z.bits_inj'. intros i Hi.
    rewrite Z.land_spec, Z.lxor_spec, Z.bits_0.
    destruct (Z_lt_le_dec i w) as [Hlt | Hge].
    - rewrite Z.ones_spec_low by lia. destruct (Z.testbit a i); reflexivity.
    - assert (Hai : Z.testbit a i = false).
      { destruct (Z.eq_dec a 0) as [-> | Hnz]; [apply Z.bits_0 |].
        apply Z.bits_above_log2; [lia |].
        apply Z.log2_lt_pow2; [lia |].
        apply Z.lt_le_trans with (2 ^ w); [lia |].
        apply Z.pow_le_mono_r; lia. }
      rewrite Hai. apply andb_false_r. }
  pose proof (Z.add_nocarry_lxor _ _ Hdis) as Hadd.
  rewrite Z.lxor_assoc, (Z.lxor_comm (Z.ones w) a), <- Z.lxor_assoc in Hadd.
  rewrite Z.lxor_nilpotent, Z.lxor_0_l in Hadd. lia.
Qed.

Lemma notn_low (a w : Z) :
  0 <= w -> 0 <= a < 2 ^ w -> notn a w = 2 ^ w - 1 - a.
Proof.
  intros Hw Ha. unfold notn, mask.
  destruct (Z.ltb_spec a 0) as [| _]; [lia |].
  rewrite Z.shiftl_1_l.
  replace (2 ^ w - 1) with (Z.ones w) by (rewrite Z.ones_equiv; lia).
  apply lxor_ones_low; assumption.
Qed.

Lemma testbit_top (t w : Z) :
  0 < w -> 0 <= t < 2 ^ w ->
  Z.testbit t (w - 1) = (2 ^ (w - 1) <=? t).
Proof.
  intros Hw Ht.
  assert (Hp : 2 ^ w = 2 * 2 ^ (w - 1)).
  { replace w with (Z.succ (w - 1)) at 1 by lia. apply Z.pow_succ_r. lia. }
  assert (Hp1 : 0 < 2 ^ (w - 1)) by (apply Z.pow_pos_nonneg; lia).
  rewrite Z.testbit_eqb by lia.
  destruct (Z.leb_spec (2 ^ (w - 1)) t) as [Hge | Hlt].
  - replace (t / 2 ^ (w - 1)) with 1; [reflexivity |].
    apply Z.div_unique with (r := t - 2 ^ (w - 1)); lia.
  - rewrite Z.div_small by lia. reflexivity.
Qed.

(** X6. Two's complement round trip: for [width > 0] and
    [- 2 ^ (width - 1) <= x < 2 ^ (width - 1)], [toTwos x width] is the
    unsigned [width]-bit pattern of [x] (it lies in [0, 2 ^ width) and is
    congruent to [x] modulo [2 ^ width]), and [fromTwos] reads [x] back. *)
Theorem twos_round_trip (x width : Z) :
  0 < width -> - 2 ^ (width - 1) <= x < 2 ^ (width - 1) ->
  toTwos x width = x mod 2 ^ width
  /\ fromTwos (toTwos x width) width = x.
Proof.
  intros Hw Hx.
  assert (Hp : 2 ^ width = 2 * 2 ^ (width - 1)).
  { replace width with (Z.succ (width - 1)) at 1 by lia. apply Z.pow_succ_r. lia. }
  assert (Hp1 : 0 < 2 ^ (width - 1)) by (apply Z.pow_pos_nonneg; lia).
  unfold toTwos, fromTwos.
  destruct (Z.ltb_spec x 0) as [Hneg | Hpos].
  - rewrite notn_low by lia.
    replace (2 ^ width - 1 - - x + 1) with (x + 2 ^ width) by ring.
    assert (Ht : 2 ^ (width - 1) <= x + 2 ^ width < 2 ^ width) by lia.
    split.
    + apply Z.mod_unique with (q := -1); lia.
    + rewrite testn_testbit, testbit_top by lia.
      destruct (Z.leb_spec (2 ^ (width - 1)) (x + 2 ^ width)); [| lia].
      rewrite notn_low by lia. ring.
  - split.
    + symmetry. apply Z.mod_small. lia.
    + rewrite testn_testbit, testbit_top by lia.
      destruct (Z.leb_spec (2 ^ (width - 1)) x); [lia | reflexivity].
Qed.

Lemma twos_round_trip_witness :
  toTwos (-3) 8 = (-3) mod 2 ^ 8 /\ fromTwos (toTwos (-3) 8) 8 = -3.
Proof. apply (twos_round_trip (-3) 8); [lia | split; [discriminate | reflexivity]]. Defined.

(** * Division, greatest common divisor, least common multiple *)

(** X7. With a divisor of any sign that is not zero, [divmod] returns
    the pair made of what [div] and [mod] return: the Euclidean
    quotient and the remainder in [0, |y|), for a dividend of any sign.
    With the divisor zero all three fail their assertion. *)
Theorem divmod_is_div_and_mod (x y : Z) :
  (y = 0 ->
   divmod x y = Throw (Error "Assertion failed.")
   /\ div x y = Throw (Error "Assertion failed.")
   /\ mod' x y = Throw (Error "Assertion failed."))
  /\ (y <> 0 ->
      exists q r, divmod x y = Ok (q, r) /\ div x y = Ok q /\ mod' x y = Ok r
                  /\ x = q * y + r /\ 0 <= r < Z.abs y).
Proof.
  split.
  - intros ->. repeat split.
  - intros Hy. destruct (div_mod_general x y Hy) as (q & r & Ed & Em & Hx & Hr).
    exists q, r. repeat split; try assumption; try lia.
    unfold divmod, div, mod', assert, bind in *.
    destruct (Z.eqb_spec y 0) as [| _]; [contradiction |]. cbn [negb] in *.
    pose proof (Z.quot_rem' x y) as Hqr.
    assert (Hrem : x - Z.quot x y * y = Z.rem x y) by lia.
    rewrite Hrem in *.
    destruct (Z.geb_spec x 0) as [Hx0 | Hx0].
    + pose proof (Z.rem_nonneg x y Hy Hx0) as Hnn.
      destruct (Z.ltb_spec (Z.rem x y) 0) as [| _]; [lia |].
      congruence.
    + destruct (Z.ltb_spec (Z.rem x y) 0) as [Hr0 | Hr0].
      * destruct (Z.ltb_spec y 0); congruence.
      * congruence.
Qed.

Lemma divmod_is_div_and_mod_witness :
  (-3 = 0 ->
   divmod (-7) (-3) = Throw (Error "Assertion failed.")
   /\ div (-7) (-3) = Throw (Error "Assertion failed.")
   /\ mod' (-7) (-3) = Throw (Error "Assertion failed."))
  /\ (-3 <> 0 ->
      exists q r, divmod (-7) (-3) = Ok (q, r) /\ div (-7) (-3) = Ok q
                  /\ mod' (-7) (-3) = Ok r
                  /\ -7 = q * -3 + r /\ 0 <= r < Z.abs (-3)).
Proof. apply (divmod_is_div_and_mod (-7) (-3)). Defined.

(** X8. [divRound x y] rounds the quotient to the nearest integer, for
    all signs: the result [q] has [2 * |x - q * y| <= |y|]; a zero
    divisor fails the assertion. *)
Theorem divRound_rounds_to_nearest (x y : Z) :
  (y = 0 -> divRound x y = Throw (Error "Assertion failed."))
  /\ (y <> 0 ->
      exists q, divRound x y = Ok q /\ 2 * Z.abs (x - q * y) <= Z.abs y).
Proof.
  split; [intros ->; reflexivity |].
  intros Hy. unfold divRound, assert, bind.
  destruct (Z.eqb_spec y 0) as [| _]; [contradiction |]. cbn [negb].
  rewrite !shiftr_1.
  destruct (Z.ltb_spec y 0) as [Hyn | Hyp], (Z.ltb_spec x 0) as [Hxn | Hxp];
    cbn [xorb]; eexists; (split; [reflexivity |]).
  - set (A := x + - (- y / 2)).
    pose proof (Z.quot_rem' A y) as Hqr.
    pose proof (Z.rem_bound_abs A y Hy) as Hb.
    pose proof (Z.rem_nonpos A y Hy) as Hs.
    assert (HA : A <= 0) by (unfold A; div_lia).
    specialize (Hs HA). unfold A in *. div_lia.
  - set (A := x - - (- y / 2)).
    pose proof (Z.quot_rem' A y) as Hqr.
    pose proof (Z.rem_bound_abs A y Hy) as Hb.
    pose proof (Z.rem_nonneg A y Hy) as Hs.
    assert (HA : 0 <= A) by (unfold A; div_lia).
    specialize (Hs HA). unfold A in *. div_lia.
  - set (A := x - y / 2).
    pose proof (Z.quot_rem' A y) as Hqr.
    pose proof (Z.rem_bound_abs A y Hy) as Hb.
    pose proof (Z.rem_nonpos A y Hy) as Hs.
    assert (HA : A <= 0) by (unfold A; div_lia).
    specialize (Hs HA). unfold A in *. div_lia.
  - set (A := x + y / 2).
    pose proof (Z.quot_rem' A y) as Hqr.
    pose proof (Z.rem_bound_abs A y Hy) as Hb.
    pose proof (Z.rem_nonneg A y Hy) as Hs.
    assert (HA : 0 <= A) by (unfold A; div_lia).
    specialize (Hs HA). unfold A in *. div_lia.
Qed.

Lemma divRound_rounds_to_nearest_witness :
  (4 = 0 -> divRound (-7) 4 = Throw (Error "Assertion failed."))
  /\ (4 <> 0 ->
      exists q, divRound (-7) 4 = Ok q /\ 2 * Z.abs (-7 - q * 4) <= Z.abs 4).
Proof. apply (divRound_rounds_to_nearest (-7) 4). Defined.

Lemma lcm_product (g a b : Z) :
  0 <= g -> g <> 0 ->
  g * Z.abs (a * g * (b * g / g)) = Z.abs (a * g * (b * g)).
Proof.
  intros Hn Hg. rewrite Z.div_mul by exact Hg.
  rewrite <- (Z.abs_eq g) at 1 by exact Hn.
  rewrite <- Z.abs_mul. f_equal. ring.
Qed.

(** X9. For all signs, zero included, [gcd x y] is the non-negative
    greatest common divisor and [lcm x y] the non-negative least common
    multiple, so that [gcd * lcm = |x * y|]. *)
Theorem gcd_and_lcm (x y : Z) :
  exists g l,
    gcd x y = Ok g /\ lcm x y = Ok l
    /\ g = Z.gcd x y /\ l = Z.lcm x y /\ g * l = Z.abs (x * y).
Proof.
  exists (Z.gcd x y), (Z.lcm x y).
  split; [apply gcd_spec |]. split; [| split; [reflexivity | split; [reflexivity |]]].
  - unfold lcm. rewrite gcd_spec. cbn [bind].
    destruct (Z.eqb_spec x 0) as [-> | Hx]; cbn [orb].
    { rewrite Z.lcm_0_l. reflexivity. }
    destruct (Z.eqb_spec y 0) as [-> | Hy].
    { rewrite Z.lcm_0_r. reflexivity. }
    unfold abs, Z.lcm. f_equal.
    replace (if Z.quot x (Z.gcd x y) * y <? 0
             then - (Z.quot x (Z.gcd x y) * y) else Z.quot x (Z.gcd x y) * y)
      with (Z.abs (Z.quot x (Z.gcd x y) * y))
      by (destruct (Z.ltb_spec (Z.quot x (Z.gcd x y) * y) 0); lia).
    f_equal.
    assert (Hg : Z.gcd x y <> 0).
    { intros H0. apply Z.gcd_eq_0_l in H0. contradiction. }
    destruct (Z.gcd_divide_l x y) as (a & Ha).
    destruct (Z.gcd_divide_r x y) as (b & Hb).
    rewrite Ha at 1. rewrite Z.quot_mul by exact Hg.
    rewrite Hb at 2. rewrite Z.div_mul by exact Hg.
    rewrite Hb at 1. rewrite Ha at 2. ring.
  - pose proof (Z.gcd_nonneg x y) as Hn.
    destruct (Z.eq_dec (Z.gcd x y) 0) as [H0 | Hg].
    + rewrite H0. apply Z.gcd_eq_0_l in H0. subst x. reflexivity.
    + unfold Z.lcm.
      destruct (Z.gcd_divide_l x y) as (a & Ha).
      destruct (Z.gcd_divide_r x y) as (b & Hb).
      pose proof (lcm_product (Z.gcd x y) a b Hn Hg) as H.
      rewrite <- Ha, <- Hb in H. exact H.
Qed.

(** * Modular powers, inverses and symbols *)

Lemma divide_or_not (p x : Z) : 0 < p -> (p | x) \/ ~ (p | x).
Proof.
  intros Hp. destruct (Z.eq_dec (x mod p) 0) as [Hz | Hz].
  - left. apply Z.mod_divide; lia.
  - right. intros Hd. apply Hz. apply Z.mod_divide; [lia | exact Hd].
Qed.

(** ** [powm] *)

(** X10. [powm x y m] fails its assertion unless [m > 0]; for [m > 0]
    and an exponent [y >= 0] it returns [x ^ y mod m], for a base of any
    sign (the one exception is [m = 1] with [y = 0]). *)
Theorem powm_is_modular_power (x y m : Z) :
  (m <= 0 -> powm x y m = Throw (Error "Assertion failed."))
  /\ (0 < m -> 0 <= y -> 1 < m \/ 0 < y ->
      powm x y m = Ok (x ^ y mod m) /\ 0 <= x ^ y mod m < m).
Proof.
  split.
  - intros Hm. unfold powm, assert.
    destruct (Z.gtb_spec m 0) as [| _]; [lia | reflexivity].
  - intros Hm Hy Hnd. split; [apply powm_nonneg; assumption |].
    apply Z.mod_pos_bound. exact Hm.
Qed.

Lemma powm_is_modular_power_witness :
  (7 <= 0 -> powm (-3) 5 7 = Throw (Error "Assertion failed."))
  /\ (0 < 7 -> 0 <= 5 -> 1 < 7 \/ 0 < 5 ->
      powm (-3) 5 7 = Ok ((-3) ^ 5 mod 7) /\ 0 <= (-3) ^ 5 mod 7 < 7).
Proof. apply (powm_is_modular_power (-3) 5 7). Defined.

Lemma power_of_inverse (x t k m : Z) :
  0 < m -> 0 <= k -> (x * t) mod m = 1 mod m ->
  (t ^ k mod m * x ^ k) mod m = 1 mod m.
Proof.
  intros Hm Hk Hinv.
  rewrite Z.mul_mod_idemp_l, <- Z.pow_mul_l, (Z.mul_comm t x) by lia.
  rewrite <- Z.mod_pow_l, Hinv, Z.mod_pow_l, Z.pow_1_l by lia. reflexivity.
Qed.

(** X11. With a negative exponent [powm] inverts the base first: for
    [m > 0] and [y < 0] it raises "Not invertible." when [m = 1] or
    [gcd (x, m) <> 1], and otherwise returns the [r] in [0, m) with
    [r * x ^ (- y) mod m = 1]. *)
Theorem powm_negative_exponent (x y m : Z) :
  0 < m -> y < 0 ->
  (m = 1 \/ Z.gcd x m <> 1 ->
   powm x y m = Throw (RangeError "Not invertible."))
  /\ (1 < m -> Z.gcd x m = 1 ->
      exists r, powm x y m = Ok r /\ 0 <= r < m
                /\ (r * x ^ (- y)) mod m = 1).
Proof.
  intros Hm Hy. unfold powm, assert.
  destruct (Z.gtb_spec m 0) as [_ |]; [| lia]. cbn [bind].
  destruct (Z.ltb_spec y 0) as [_ |]; [| lia]. split.
  - intros Hbad. rewrite (invert_raises x m ltac:(lia) Hbad). reflexivity.
  - intros Hm1 Hg. destruct (invert_returns x m Hm1 Hg) as (t & -> & Ht & Hinv).
    cbn [bind]. rewrite powm_loop_spec by lia.
    eexists. split; [reflexivity |]. split; [apply Z.mod_pos_bound; lia |].
    transitivity (1 mod m); [| apply Z.mod_small; lia].
    apply power_of_inverse; try lia.
    rewrite Hinv, Z.mod_small; lia.
Qed.

Lemma powm_negative_exponent_witness :
  (7 = 1 \/ Z.gcd 3 7 <> 1 ->
   powm 3 (-2) 7 = Throw (RangeError "Not invertible."))
  /\ (1 < 7 -> Z.gcd 3 7 = 1 ->
      exists r, powm 3 (-2) 7 = Ok r /\ 0 <= r < 7
                /\ (r * 3 ^ (- -2)) mod 7 = 1).
Proof. apply (powm_negative_exponent 3 (-2) 7); lia. Defined.

(** ** Fermat's little theorem and [fermat] *)

Lemma fermat_little (x p : Z) :
  Z.prime p -> p <> 2 -> ~ (p | x) -> x ^ (p - 1) mod p = 1.
Proof.
  intros Hp Hne Hnd. pose proof (Z.prime_ge_2 p Hp) as Hp2.
  pose proof (odd_prime p Hp Hne) as Hodd.
  pose proof (odd_half p Hodd) as Hh. set (h := half p) in *.
  destruct (gauss_lemma x p h Hp Hh Hnd) as (q & Hq).
  replace (p - 1) with (h * 2) by lia.
  rewrite Z.pow_mul_r, Z.pow_2_r by lia.
  replace (x ^ h) with (gauss_symbol x p + q * p) by lia.
  replace ((gauss_symbol x p + q * p) * (gauss_symbol x p + q * p))
    with (gauss_symbol x p * gauss_symbol x p
          + (2 * gauss_symbol x p * q + q * q * p) * p) by ring.
  rewrite Z.mod_add by lia.
  destruct (gauss_symbol_cases x p) as [-> | ->]; apply Z.mod_small; lia.
Qed.

(** X12. Modulo an odd prime [p], the inverse by Fermat's little
    theorem is the inverse by the extended Euclidean algorithm:
    [fermat x p] and [invert x p] return the same value, or raise the
    same error when [p] divides [x]. *)
Theorem fermat_agrees_with_invert (x p : Z) :
  Z.prime p -> p <> 2 -> fermat x p = invert x p.
Proof.
  intros Hp Hne. pose proof (Z.prime_ge_2 p Hp) as Hp2.
  unfold fermat, assert.
  destruct (Z.gtb_spec p 0) as [_ |]; [| lia]. cbn [bind].
  destruct (Z.eqb_spec p 1) as [| _]; [lia |].
  rewrite powm_nonneg by lia. cbn [bind].
  destruct (divide_or_not p x ltac:(lia)) as [Hd | Hnd].
  - assert (Hz : x ^ (p - 2) mod p = 0).
    { apply Z.mod_divide; [lia |].
      replace (p - 2) with (Z.succ (p - 3)) by lia.
      rewrite Z.pow_succ_r by lia. apply Z.divide_mul_l. exact Hd. }
    rewrite Hz. cbn [Z.eqb]. symmetry. apply invert_raises; [lia |].
    right. apply Z.divide_gcd_iff in Hd; [| lia].
    rewrite Z.gcd_comm, Hd. lia.
  - assert (Hg : Z.gcd x p = 1).
    { rewrite Z.gcd_comm. apply Z.coprime_prime_l; assumption. }
    destruct (invert_returns x p ltac:(lia) Hg) as (t & -> & Ht & Hinv).
    pose proof (fermat_little x p Hp Hne Hnd) as Hfl.
    pose proof (Z.mod_pos_bound (x ^ (p - 2)) p ltac:(lia)) as Hr.
    set (r := x ^ (p - 2) mod p) in *.
    assert (Hxr : (x * r) mod p = 1).
    { unfold r. rewrite Z.mul_mod_idemp_r by lia.
      rewrite <- Z.pow_succ_r by lia.
      replace (Z.succ (p - 2)) with (p - 1) by lia. exact Hfl. }
    assert (Heq : r = t).
    { assert (Hdiv : (p | x * (r - t))).
      { apply Z.mod_divide; [lia |].
        rewrite Z.mul_sub_distr_l, Zminus_mod, Hxr, Hinv. reflexivity. }
      apply Z.divide_prime_mul in Hdiv; [| exact Hp].
      destruct Hdiv as [Hdiv | Hdiv]; [contradiction |].
      apply divide_small in Hdiv; lia. }
    destruct (Z.eqb_spec r 0) as [H0 | _].
    + rewrite H0, Z.mul_0_r, Z.mod_0_l in Hxr by lia. discriminate.
    + rewrite Heq. reflexivity.
Qed.

Lemma prime_7 : Z.prime 7.
Proof.
  split; [lia |]. intros n Hn Hd.
  apply Z.mod_divide in Hd; [| lia].
  assert (Hc : In n (first_integers 6)) by (apply first_integers_in; lia).
  cbv [first_integers seq map Z.of_nat Pos.of_succ_nat Pos.succ] in Hc.
  repeat (destruct Hc as [<- | Hc]; [first [discriminate Hd | lia] |]).
  contradiction.
Qed.

Lemma fermat_agrees_with_invert_witness : fermat 3 7 = invert 3 7.
Proof. apply (fermat_agrees_with_invert 3 7); [exact prime_7 | lia]. Defined.

(** ** [legendre] *)

(** X13. On an odd prime [p] the symbol by Euler's criterion and the
    symbol by the reciprocity law are the same: [legendre x p] returns
    what [jacobi x p] returns, and never raises "Invalid prime.". *)
Theorem legendre_agrees_with_jacobi (x p : Z) :
  Z.prime p -> p <> 2 -> legendre x p = jacobi x p.
Proof.
  intros Hp Hne. pose proof (Z.prime_ge_2 p Hp) as Hp2.
  pose proof (odd_prime p Hp Hne) as Hodd.
  pose proof (odd_half p Hodd) as Hh.
  rewrite jacobi_correct by lia.
  unfold legendre, range.
  destruct (Z.gtb_spec p 0) as [_ |]; [| lia]. cbn [bind].
  rewrite land_1, Hodd. cbn [Z.eqb].
  rewrite shiftr_1. fold (half p).
  rewrite powm_nonneg by lia. cbn [bind].
  destruct (divide_or_not p x ltac:(lia)) as [Hd | Hnd].
  - rewrite jacobi_symbol_divisible by (lia || assumption).
    assert (Hz : x ^ half p mod p = 0).
    { apply Z.mod_divide; [lia |].
      replace (half p) with (Z.succ (half p - 1)) by lia.
      rewrite Z.pow_succ_r by lia. apply Z.divide_mul_l. exact Hd. }
    rewrite Hz. reflexivity.
  - assert (Hg : Z.gcd x p = 1).
    { rewrite Z.gcd_comm. apply Z.coprime_prime_l; assumption. }
    unfold jacobi_symbol. rewrite Hg. cbn [Z.eqb Pos.eqb].
    destruct (gauss_symbol_cases x p) as [E | E]; rewrite E.
    + rewrite (euler_power_residue x p (half p)) by assumption. reflexivity.
    + rewrite (euler_power_nonresidue x p (half p)) by assumption.
      destruct (Z.eqb_spec (p - 1) 0) as [| _]; [lia |].
      destruct (Z.eqb_spec (p - 1) 1) as [| _]; [lia |].
      rewrite Z.eqb_refl. reflexivity.
Qed.

Lemma legendre_agrees_with_jacobi_witness : legendre 5 7 = jacobi 5 7.
Proof. apply (legendre_agrees_with_jacobi 5 7); [exact prime_7 | lia]. Defined.

(** ** [jacobi] *)

Lemma jacobi_loop (a b j : Z) :
  0 <= a -> 0 < b -> b mod 2 = 1 ->
  loop (budget b) jacobi_round (a, b, j) = Ok (j * jacobi_symbol a b).
Proof.
  intros Ha Hb Hbo.
  destruct (loop_total jacobi_round
           (fun st => let '(a1, b1, j1) := st in
                      0 <= a1 /\ 1 <= b1 /\ b1 mod 2 = 1
                      /\ j1 * jacobi_symbol a1 b1 = j * jacobi_symbol a b)
           (fun v => v = j * jacobi_symbol a b)
           (fun st => snd (fst st)) (budget b) (a, b, j)) as (v & -> & ->);
    [| | cbn [fst snd]; apply budget_spec | reflexivity].
  - intros [[a1 b1] j1] (Ha1 & Hb1 & Hbo1 & Hj1). cbn [fst snd].
    destruct (Z.eq_dec b1 1) as [-> | Hne].
    + rewrite jacobi_round_exit_one. exists j1. split; [reflexivity |].
      rewrite jacobi_symbol_1_r in Hj1. lia.
    + destruct (Z.eq_dec (a1 mod b1) 0) as [Hz | Hnz].
      * rewrite jacobi_round_exit_zero by lia. exists 0. split; [reflexivity |].
        rewrite jacobi_symbol_divisible in Hj1; [lia | lia |].
        apply Z.mod_divide; lia.
      * destruct (jacobi_round_step a1 b1 j1 Ha1 ltac:(lia) Hnz)
          as (s & c & Hs & Hc & Hco & E & ->).
        cbn [fst snd]. repeat split; try lia.
        rewrite <- Hj1, <- (jacobi_symbol_mod a1 b1), E by lia.
        symmetry. apply jacobi_symbol_step; lia.
  - repeat split; lia.
Qed.

Lemma jacobi_negative_denominator (x y : Z) :
  y < 0 -> y mod 2 = 1 ->
  jacobi x y = Ok ((if x <? 0 then -1 else 1) * jacobi_symbol x (- y)).
Proof.
  intros Hy Hodd. unfold jacobi. rewrite land_1, Hodd.
  destruct (Z.eqb_spec y 0) as [| _]; [lia |]. cbn [orb Z.eqb].
  destruct (Z.ltb_spec y 0) as [_ |]; [| lia].
  assert (Hbo : (- y) mod 2 = 1) by div_lia.
  destruct (Z.ltb_spec x 0) as [Hx | Hx].
  - destruct (mod_range x (- y) ltac:(lia)) as (r & -> & Hr & ->). cbn [bind].
    rewrite jacobi_loop by lia. rewrite jacobi_symbol_mod by lia. reflexivity.
  - cbn [bind]. rewrite jacobi_loop by lia. reflexivity.
Qed.

(** X14. [jacobi x y] raises "jacobi: `num` must be odd." when [y] is
    zero or even.  For an odd [y] of either sign it returns -1, 0 or 1;
    a negative [y] gives the symbol over [- y], negated when [x] is
    negative too. *)
Theorem jacobi_domain (x y : Z) :
  (y mod 2 = 0 -> jacobi x y = Throw (Error "jacobi: `num` must be odd."))
  /\ (y mod 2 = 1 ->
      exists j, jacobi x y = Ok j /\ (j = -1 \/ j = 0 \/ j = 1))
  /\ (y mod 2 = 1 -> y < 0 ->
      exists j, jacobi x (- y) = Ok j
                /\ jacobi x y = Ok (if x <? 0 then - j else j)).
Proof.
  split; [| split].
  - intros Hev. unfold jacobi. rewrite land_1, Hev. cbn [Z.eqb].
    rewrite orb_true_r. reflexivity.
  - apply jacobi_total.
  - intros Hodd Hy. exists (jacobi_symbol x (- y)).
    split; [apply jacobi_correct; div_lia |].
    rewrite jacobi_negative_denominator by assumption.
    destruct (x <? 0); f_equal; ring.
Qed.

Lemma jacobi_domain_witness :
  ((-15) mod 2 = 0 ->
   jacobi (-7) (-15) = Throw (Error "jacobi: `num` must be odd."))
  /\ ((-15) mod 2 = 1 ->
      exists j, jacobi (-7) (-15) = Ok j /\ (j = -1 \/ j = 0 \/ j = 1))
  /\ ((-15) mod 2 = 1 -> -15 < 0 ->
      exists j, jacobi (-7) (- -15) = Ok j
                /\ jacobi (-7) (-15) = Ok (if -7 <? 0 then - j else j)).
Proof. apply (jacobi_domain (-7) (-15)). Defined.

Lemma coprime_mul_iff (a b y : Z) :
  Z.gcd (a * b) y = 1 <-> Z.gcd a y = 1 /\ Z.gcd b y = 1.
Proof.
  split.
  - intros H. split.
    + assert (Hd : (Z.gcd a y | Z.gcd (a * b) y)).
      { apply Z.gcd_greatest; [| apply Z.gcd_divide_r].
        apply Z.divide_mul_l, Z.gcd_divide_l. }
      rewrite H in Hd. apply Z.divide_1_r_nonneg in Hd; [exact Hd |].
      apply Z.gcd_nonneg.
    + assert (Hd : (Z.gcd b y | Z.gcd (a * b) y)).
      { apply Z.gcd_greatest; [| apply Z.gcd_divide_r].
        apply Z.divide_mul_r, Z.gcd_divide_l. }
      rewrite H in Hd. apply Z.divide_1_r_nonneg in Hd; [exact Hd |].
      apply Z.gcd_nonneg.
  - intros (Ha & Hb). apply Z.coprime_mul_l; assumption.
Qed.

Lemma jacobi_symbol_mul (a b y : Z) :
  0 < y -> y mod 2 = 1 ->
  jacobi_symbol (a * b) y = jacobi_symbol a y * jacobi_symbol b y.
Proof.
  intros Hy Hodd. pose proof (odd_half y Hodd) as Hh.
  unfold jacobi_symbol.
  destruct (Z.eqb_spec (Z.gcd (a * b) y) 1) as [Hab | Hab].
  - apply coprime_mul_iff in Hab. destruct Hab as (Ha & Hb).
    rewrite Ha, Hb. cbn [Z.eqb Pos.eqb].
    apply (gauss_symbol_mul a b y (half y)); (assumption || lia).
  - destruct (Z.eqb_spec (Z.gcd a y) 1) as [Ha | Ha];
      destruct (Z.eqb_spec (Z.gcd b y) 1) as [Hb | Hb]; try ring.
    exfalso. apply Hab. apply coprime_mul_iff. split; assumption.
Qed.

(** X15. For an odd [y > 0], the value of [jacobi] is completely
    multiplicative in its first argument, depends on that argument
    modulo [y] only, and is 0 exactly when the two arguments have a
    common factor. *)
Theorem jacobi_multiplicative (a b y : Z) :
  0 < y -> y mod 2 = 1 ->
  exists ja jb,
    jacobi a y = Ok ja /\ jacobi b y = Ok jb
    /\ jacobi (a * b) y = Ok (ja * jb)
    /\ jacobi (a + b * y) y = Ok ja
    /\ (ja = 0 <-> Z.gcd a y <> 1).
Proof.
  intros Hy Hodd. exists (jacobi_symbol a y), (jacobi_symbol b y).
  rewrite !jacobi_correct by assumption.
  repeat split.
  - rewrite jacobi_symbol_mul by assumption. reflexivity.
  - rewrite <- (jacobi_symbol_mod (a + b * y)), Z.mod_add, jacobi_symbol_mod by lia.
    reflexivity.
  - unfold jacobi_symbol.
    destruct (Z.eqb_spec (Z.gcd a y) 1) as [Hg | Hg]; [| intros _; exact Hg].
    destruct (gauss_symbol_cases a y); lia.
  - unfold jacobi_symbol.
    destruct (Z.eqb_spec (Z.gcd a y) 1) as [Hg | Hg]; [contradiction | reflexivity].
Qed.

Lemma jacobi_multiplicative_witness :
  exists ja jb,
    jacobi 2 15 = Ok ja /\ jacobi 7 15 = Ok jb
    /\ jacobi (2 * 7) 15 = Ok (ja * jb)
    /\ jacobi (2 + 7 * 15) 15 = Ok ja
    /\ (ja = 0 <-> Z.gcd 2 15 <> 1).
Proof. apply (jacobi_multiplicative 2 7 15); [lia | reflexivity]. Defined.

Lemma square_is_residue (x r p : Z) :
  Z.prime p -> p <> 2 -> ~ (p | x) -> r ^ 2 mod p = x mod p ->
  jacobi_symbol x p = 1.
Proof.
  intros Hp Hne Hnd Hr. pose proof (Z.prime_ge_2 p Hp) as Hp2.
  pose proof (odd_prime p Hp Hne) as Hodd.
  pose proof (odd_half p Hodd) as Hh.
  assert (Hg : Z.gcd x p = 1).
  { rewrite Z.gcd_comm. apply Z.coprime_prime_l; assumption. }
  unfold jacobi_symbol. rewrite Hg. cbn [Z.eqb Pos.eqb].
  destruct (gauss_symbol_cases x p) as [E | E]; [exact E | exfalso].
  pose proof (euler_power_nonresidue x p (half p) Hp Hh Hnd E) as Hx.
  assert (Hrnd : ~ (p | r)).
  { intros Hd. apply Hnd. apply Z.mod_divide; [lia |].
    rewrite <- Hr. apply Z.mod_divide; [lia |].
    rewrite Z.pow_2_r. apply Z.divide_mul_l. exact Hd. }
  pose proof (fermat_little r p Hp Hne Hrnd) as Hfl.
  rewrite <- Z.mod_pow_l, <- Hr, Z.mod_pow_l, <- Z.pow_mul_r in Hx by lia.
  replace (2 * half p) with (p - 1) in Hx by lia. lia.
Qed.

(** X16. On an odd prime [p], [jacobi x p] decides quadratic
    residuosity: it returns 0 exactly when [p] divides [x], 1 exactly
    when [x] is a square modulo [p] that [p] does not divide, and -1
    otherwise; in each case it is congruent to [x ^ ((p - 1) / 2)]
    modulo [p] (Euler's criterion). *)
Theorem jacobi_decides_residues (x p : Z) :
  Z.prime p -> p <> 2 ->
  exists j,
    jacobi x p = Ok j /\ (j = -1 \/ j = 0 \/ j = 1)
    /\ (j = 0 <-> (p | x))
    /\ (j = 1 <-> ~ (p | x) /\ exists r, r ^ 2 mod p = x mod p)
    /\ (p | x ^ ((p - 1) / 2) - j).
Proof.
  intros Hp Hne. pose proof (Z.prime_ge_2 p Hp) as Hp2.
  pose proof (odd_prime p Hp Hne) as Hodd.
  pose proof (odd_half p Hodd) as Hh.
  exists (jacobi_symbol x p).
  split; [apply jacobi_correct; lia |].
  split; [apply jacobi_symbol_cases |].
  fold (half p).
  destruct (divide_or_not p x ltac:(lia)) as [Hd | Hnd].
  - rewrite jacobi_symbol_divisible by (lia || assumption).
    split; [tauto |].
    split; [split; [discriminate | intros [H _]; contradiction] |].
    rewrite Z.sub_0_r.
    replace (half p) with (Z.succ (half p - 1)) by lia.
    rewrite Z.pow_succ_r by lia. apply Z.divide_mul_l. exact Hd.
  - assert (Hg : Z.gcd x p = 1).
    { rewrite Z.gcd_comm. apply Z.coprime_prime_l; assumption. }
    assert (Hs : jacobi_symbol x p = gauss_symbol x p).
    { unfold jacobi_symbol. rewrite Hg. reflexivity. }
    split; [| split].
    + rewrite Hs. destruct (gauss_symbol_cases x p); split; try lia; contradiction.
    + split.
      * intros H1. split; [exact Hnd |].
        destruct (sqrtm_residue (Z.to_nat p) x p Hp Hodd) as (r & _ & _ & Hr).
        { rewrite jacobi_correct by lia. f_equal. exact H1. }
        { lia. }
        exists r. exact Hr.
      * intros (_ & r & Hr). apply (square_is_residue x r p); assumption.
    + rewrite Hs. apply gauss_lemma; assumption.
Qed.

Lemma jacobi_decides_residues_witness :
  exists j,
    jacobi 2 7 = Ok j /\ (j = -1 \/ j = 0 \/ j = 1)
    /\ (j = 0 <-> (7 | 2))
    /\ (j = 1 <-> ~ (7 | 2) /\ exists r, r ^ 2 mod 7 = 2 mod 7)
    /\ (7 | 2 ^ ((7 - 1) / 2) - j).
Proof. apply (jacobi_decides_residues 2 7); [exact prime_7 | lia]. Defined.

Lemma gauss_symbol_minus_one (b : Z) :
  0 < b -> b mod 2 = 1 -> gauss_symbol (-1) b = parity_sign (half b).
Proof.
  intros Hb Hodd. pose proof (odd_half b Hodd) as Hh.
  assert (Hh0 : 0 <= half b) by lia.
  unfold gauss_symbol.
  rewrite (map_ext_in _ (fun _ => parity_sign 1)).
  - rewrite (lprod_parity (fun _ => 1)), lsum_map_const, half_system_length by lia.
    rewrite Z.mul_1_l. reflexivity.
  - intros k Hk. apply half_system_in in Hk; [| lia].
    unfold sign_res. cbv zeta.
    replace ((-1 * k) mod b) with (b - k).
    + destruct (Z.leb_spec (b - k) (half b)); [lia | reflexivity].
    + apply Z.mod_unique with (q := -1); lia.
Qed.

(** X17. The value of [jacobi] obeys the law of quadratic reciprocity
    and its two supplements: for odd [a, b > 0] without a common
    factor, [jacobi a b * jacobi b a] is -1 when both are 3 modulo 4 and
    1 otherwise; [jacobi (-1) b] is 1 exactly when [b] is 1 modulo 4;
    [jacobi 2 b] is 1 exactly when [b] is 1 or 7 modulo 8. *)
Theorem jacobi_reciprocity (a b : Z) :
  0 < a -> a mod 2 = 1 -> 0 < b -> b mod 2 = 1 -> Z.gcd a b = 1 ->
  exists jab jba,
    jacobi a b = Ok jab /\ jacobi b a = Ok jba
    /\ jab * jba = (if (a mod 4 =? 3) && (b mod 4 =? 3) then -1 else 1)
    /\ jacobi (-1) b = Ok (if b mod 4 =? 1 then 1 else -1)
    /\ jacobi 2 b = Ok (if (b mod 8 =? 1) || (b mod 8 =? 7) then 1 else -1).
Proof.
  intros Ha Hao Hb Hbo Hg.
  pose proof (odd_half b Hbo) as Hh.
  exists (jacobi_symbol a b), (jacobi_symbol b a).
  rewrite !jacobi_correct by assumption.
  split; [reflexivity |]. split; [reflexivity |].
  split; [| split].
  - unfold jacobi_symbol. rewrite (Z.gcd_comm b a), Hg. cbn [Z.eqb Pos.eqb].
    rewrite (gauss_symbol_reciprocity a b) by assumption.
    fold (reciprocity_sign a b).
    destruct (gauss_symbol_cases b a) as [-> | ->];
      unfold reciprocity_sign; destruct (_ && _); reflexivity.
  - f_equal. unfold jacobi_symbol.
    assert (Hg1 : Z.gcd (-1) b = 1).
    { rewrite <- Z.gcd_opp_l. apply Z.gcd_1_l. }
    rewrite Hg1. cbn [Z.eqb Pos.eqb].
    rewrite gauss_symbol_minus_one by assumption.
    unfold parity_sign.
    destruct (Z.eqb_spec (half b mod 2) 0), (Z.eqb_spec (b mod 4) 1);
      try reflexivity; exfalso; div_lia.
  - f_equal. unfold jacobi_symbol.
    rewrite Z.gcd_comm, odd_coprime_2 by exact Hbo. cbn [Z.eqb Pos.eqb].
    rewrite (gauss_symbol_2 b (half b)) by lia.
    unfold two_symbol.
    destruct (Z.eqb_spec (b mod 8) 3), (Z.eqb_spec (b mod 8) 5),
             (Z.eqb_spec (b mod 8) 1), (Z.eqb_spec (b mod 8) 7);
      cbn [orb]; try reflexivity; exfalso; div_lia.
Qed.

Lemma jacobi_reciprocity_witness :
  exists jab jba,
    jacobi 7 15 = Ok jab /\ jacobi 15 7 = Ok jba
    /\ jab * jba = (if (7 mod 4 =? 3) && (15 mod 4 =? 3) then -1 else 1)
    /\ jacobi (-1) 15 = Ok (if 15 mod 4 =? 1 then 1 else -1)
    /\ jacobi 2 15 = Ok (if (15 mod 8 =? 1) || (15 mod 8 =? 7) then 1 else -1).
Proof.
  apply (jacobi_reciprocity 7 15);
    [lia | reflexivity | lia | reflexivity | reflexivity].
Defined.

(** ** [sqrtpq] *)

Lemma congruent_divide (a b m : Z) : 0 < m -> a mod m = b mod m -> (m | a - b).
Proof.
  intros Hm H. apply Z.mod_divide; [lia |].
  rewrite Zminus_mod, H, Z.sub_diag. apply Z.mod_0_l. lia.
Qed.

Lemma divide_congruent (a b m : Z) : 0 < m -> (m | a - b) -> a mod m = b mod m.
Proof.
  intros Hm (k & Hk). replace a with (b + k * m) by lia.
  apply Z.mod_add. lia.
Qed.

Lemma coprime_divide_mul (p q n : Z) :
  Z.gcd p q = 1 -> (p | n) -> (q | n) -> (p * q | n).
Proof.
  intros Hg (k & Hk) Hq. subst n.
  rewrite Z.mul_comm in Hq. apply Z.gauss in Hq; [| rewrite Z.gcd_comm; exact Hg].
  destruct Hq as (k' & ->). exists k'. ring.
Qed.

Lemma square_congruent (r s x p t : Z) :
  r = s + p * t -> (p | s ^ 2 - x) -> (p | r ^ 2 - x).
Proof.
  intros -> (k & Hk). exists (k + 2 * s * t + p * t * t).
  rewrite Z.pow_2_r in *. replace ((s + p * t) * (s + p * t) - x)
    with ((s * s - x) + (2 * s * t + p * t * t) * p) by ring.
  rewrite Hk. ring.
Qed.

(** X18. For two distinct odd primes [p] and [q] and an [x] that is a
    non-zero square modulo both ([jacobi] answers 1 for each),
    [sqrtpq x p q] returns a square root of [x] modulo [p * q]: an [r]
    in [0, p * q) with [r ^ 2 mod (p * q) = x mod (p * q)]. *)
Theorem sqrtpq_square_root (fuel : nat) (x p q : Z) :
  Z.prime p -> Z.prime q -> p <> 2 -> q <> 2 -> p <> q ->
  jacobi x p = Ok 1 -> jacobi x q = Ok 1 ->
  p <= Z.of_nat fuel -> q <= Z.of_nat fuel ->
  exists r, sqrtpq fuel x p q = Ok r /\ 0 <= r < p * q
            /\ r ^ 2 mod (p * q) = x mod (p * q).
Proof.
  intros Hp Hq Hp2 Hq2 Hpq Hjp Hjq Hfp Hfq.
  pose proof (Z.prime_ge_2 p Hp) as Hpge. pose proof (Z.prime_ge_2 q Hq) as Hqge.
  destruct (sqrtm_residue fuel x p Hp (odd_prime p Hp Hp2) Hjp Hfp)
    as (sp & Esp & Hsp & Hsp2).
  destruct (sqrtm_residue fuel x q Hq (odd_prime q Hq Hq2) Hjq Hfq)
    as (sq & Esq & Hsq & Hsq2).
  destruct (egcd_returns p q) as (a & b & g & Eg & Hbez & Hg).
  assert (Hcop : Z.gcd p q = 1).
  { apply Z.coprime_prime_l; [exact Hp |]. intros Hd.
    apply Hpq. apply Z.divide_prime_prime; assumption. }
  assert (Hpos : 0 < p * q) by nia.
  unfold sqrtpq, assert.
  destruct (Z.gtb_spec p 0) as [_ |]; [| lia].
  destruct (Z.gtb_spec q 0) as [_ |]; [| lia]. cbn [bind].
  rewrite Esp, Esq, Eg. cbn [bind].
  destruct (mod_range (sq * a * p + sp * b * q) (p * q) Hpos) as (r & -> & Hr & Er).
  exists r. split; [reflexivity |]. split; [exact Hr |].
  apply divide_congruent; [exact Hpos |].
  pose proof (Z.div_mod (sq * a * p + sp * b * q) (p * q) ltac:(lia)) as Hdm.
  rewrite <- Er in Hdm. set (k := (sq * a * p + sp * b * q) / (p * q)) in *.
  apply coprime_divide_mul; [exact Hcop | |].
  - apply (square_congruent r sp x p (sq * a - sp * a - k * q)).
    + replace (p * (sq * a - sp * a - k * q))
        with (sq * a * p + sp * (- (p * a)) - p * q * k) by ring.
      replace (- (p * a)) with (q * b - 1) by lia. lia.
    + apply congruent_divide; [lia | exact Hsp2].
  - apply (square_congruent r sq x q (sp * b - sq * b - k * p)).
    + replace (q * (sp * b - sq * b - k * p))
        with (sp * b * q + sq * (- (q * b)) - p * q * k) by ring.
      replace (- (q * b)) with (p * a - 1) by lia. lia.
    + apply congruent_divide; [lia | exact Hsq2].
Qed.

Lemma sqrtpq_square_root_witness :
  exists r, sqrtpq 17 2 7 17 = Ok r /\ 0 <= r < 7 * 17
            /\ r ^ 2 mod (7 * 17) = 2 mod (7 * 17).
Proof.
  apply (sqrtpq_square_root 17 2 7 17);
    [exact prime_7 | exact prime_17 | lia | lia | lia
    | reflexivity | reflexivity | cbn; lia | cbn; lia].
Defined.

(** * The reduction context as the ring of residues *)

Lemma residue_canonical (ctx : Red) (v : Z) :
  1 <= red_m ctx -> canonical ctx (residue ctx v).
Proof.
  intros Hm. split; [reflexivity |]. cbn [residue bn_n].
  apply Z.mod_pos_bound. lia.
Qed.

Lemma canonical_residue (ctx : Red) (a : BN) :
  canonical ctx a -> a = residue ctx (bn_n a).
Proof.
  intros (Ha & Hr). destruct a as [n r]. cbn [bn_n bn_red] in *. subst r.
  unfold residue. cbn [bn_n]. rewrite Z.mod_small by exact Hr. reflexivity.
Qed.

Lemma residue_ext (ctx : Red) (u v : Z) :
  u = v mod red_m ctx -> {| bn_n := u; bn_red := Some ctx |} = residue ctx v.
Proof. intros ->. reflexivity. Qed.

(** X19. Entering and leaving a reduction context: [toRed] on a number
    that carries no context (of any sign) gives its canonical residue,
    tagged with the context, and [fromRed] gives the residue back
    untagged.  [toRed] on a number that is already in a context, and
    [fromRed] on one that is in none, raise. *)
Theorem toRed_fromRed_round_trip (ctx : Red) (x : BN) :
  1 <= red_m ctx -> bn_red x = None ->
  BNRed.toRed x ctx = Ok (residue ctx (bn_n x))
  /\ BNRed.fromRed (residue ctx (bn_n x)) = Ok (new_BN (bn_n x mod red_m ctx))
  /\ BNRed.toRed (residue ctx (bn_n x)) ctx
     = Throw (Error "Already in reduction context.")
  /\ BNRed.fromRed x = Throw (red_error "fromRed").
Proof.
  intros Hm Hx. repeat split.
  - unfold BNRed.toRed, is_tagged, Red.convertTo. rewrite Hx.
    destruct (mod_range (bn_n x) (red_m ctx) ltac:(lia)) as (r & -> & Hr & ->).
    reflexivity.
  - unfold BNRed.fromRed, BNRed.the_red. rewrite Hx. reflexivity.
Qed.

Lemma toRed_fromRed_round_trip_witness :
  let ctx := {| red_ref := 0; red_m := 7 |} in
  BNRed.toRed (new_BN (-3)) ctx = Ok (residue ctx (bn_n (new_BN (-3))))
  /\ BNRed.fromRed (residue ctx (bn_n (new_BN (-3))))
     = Ok (new_BN (bn_n (new_BN (-3)) mod red_m ctx))
  /\ BNRed.toRed (residue ctx (bn_n (new_BN (-3)))) ctx
     = Throw (Error "Already in reduction context.")
  /\ BNRed.fromRed (new_BN (-3)) = Throw (red_error "fromRed").
Proof.
  cbv zeta.
  apply (toRed_fromRed_round_trip {| red_ref := 0; red_m := 7 |} (new_BN (-3)));
    [cbn; lia | reflexivity].
Defined.

Lemma redMul_residue (ctx : Red) (u v : Z) :
  1 <= red_m ctx ->
  BNRed.redMul (residue ctx u) (residue ctx v) = Ok (residue ctx (u * v)).
Proof.
  intros Hm. set (m := red_m ctx) in *.
  pose proof (residue_canonical ctx u Hm) as Ha.
  pose proof (residue_canonical ctx v Hm) as Hb.
  pose proof (verify2_canonical ctx _ _ Ha Hb) as V2.
  pose proof (Z.mod_pos_bound u m ltac:(lia)) as Hu.
  pose proof (Z.mod_pos_bound v m ltac:(lia)) as Hv.
  unfold BNRed.redMul, BNRed.the_red. cbn [residue bn_red bind].
  unfold Red.mul, Red.imul. rewrite clone_same. fold (residue ctx u) (residue ctx v).
  rewrite V2. cbn [bind residue bn_n BN.set_n bn_red]. f_equal.
  apply residue_ext. fold m.
  rewrite rem_mod by nia. symmetry. apply Z.mul_mod. lia.
Qed.

Lemma redSqr_residue (ctx : Red) (u : Z) :
  1 <= red_m ctx ->
  BNRed.redSqr (residue ctx u) = Ok (residue ctx (u * u)).
Proof.
  intros Hm. set (m := red_m ctx) in *.
  pose proof (residue_canonical ctx u Hm) as Ha.
  pose proof (verify1_canonical ctx _ Ha) as V1.
  pose proof (Z.mod_pos_bound u m ltac:(lia)) as Hu.
  unfold BNRed.redSqr, BNRed.the_red. cbn [residue bn_red bind].
  unfold Red.sqr, Red.isqr. rewrite clone_same. fold (residue ctx u).
  rewrite V1. cbn [bind residue bn_n BN.set_n bn_red]. f_equal.
  apply residue_ext. fold m.
  rewrite Z.pow_2_r, rem_mod by nia. symmetry. apply Z.mul_mod. lia.
Qed.

(** X20. On residues of one context the ring methods are the arithmetic
    of the integers modulo [m]: the sum, difference, product, square,
    negation and left shift of residues are the residues of the sum,
    difference, product, square, negation and product by a power of
    two. *)
Theorem red_ops_are_modular_arithmetic (ctx : Red) (u v k : Z) :
  1 <= red_m ctx -> 0 <= k -> isInteger k = true ->
  BNRed.redAdd (residue ctx u) (residue ctx v) = Ok (residue ctx (u + v))
  /\ BNRed.redSub (residue ctx u) (residue ctx v) = Ok (residue ctx (u - v))
  /\ BNRed.redMul (residue ctx u) (residue ctx v) = Ok (residue ctx (u * v))
  /\ BNRed.redSqr (residue ctx u) = Ok (residue ctx (u * u))
  /\ BNRed.redNeg (residue ctx u) = Ok (residue ctx (- u))
  /\ BNRed.redShln (residue ctx u) k = Ok (residue ctx (u * 2 ^ k)).
Proof.
  intros Hm Hk Hki. set (m := red_m ctx) in *.
  assert (Hpos : 0 < m) by lia.
  pose proof (residue_canonical ctx u Hm) as Ha.
  pose proof (residue_canonical ctx v Hm) as Hb.
  pose proof (verify1_canonical ctx _ Ha) as V1.
  pose proof (verify2_canonical ctx _ _ Ha Hb) as V2.
  pose proof (Z.mod_pos_bound u m Hpos) as Hu.
  pose proof (Z.mod_pos_bound v m Hpos) as Hv.
  repeat split.
  - unfold BNRed.redAdd, BNRed.the_red. cbn [residue bn_red bind].
    unfold Red.add, Red.iadd. rewrite clone_same. fold (residue ctx u) (residue ctx v).
    rewrite V2. cbn [bind residue bn_n BN.set_n bn_red]. f_equal.
    apply residue_ext. fold m.
    rewrite (Z.add_mod u v) by lia.
    destruct (Z.geb_spec (u mod m + v mod m) m).
    + apply (Z.mod_unique _ _ 1); lia.
    + symmetry. apply Z.mod_small. lia.
  - unfold BNRed.redSub, BNRed.the_red. cbn [residue bn_red bind].
    unfold Red.sub, Red.isub. rewrite clone_same. fold (residue ctx u) (residue ctx v).
    rewrite V2. cbn [bind residue bn_n BN.set_n bn_red]. f_equal.
    apply residue_ext. fold m.
    rewrite (Zminus_mod u v).
    destruct (Z.ltb_spec (u mod m - v mod m) 0).
    + apply (Z.mod_unique _ _ (-1)); lia.
    + symmetry. apply Z.mod_small. lia.
  - apply redMul_residue. exact Hm.
  - apply redSqr_residue. exact Hm.
  - unfold BNRed.redNeg, BNRed.the_red. cbn [residue bn_red bind].
    unfold Red.neg, Red.ineg. rewrite clone_same. fold (residue ctx u).
    rewrite V1. cbn [bind residue bn_n]. fold m.
    destruct (Z.eqb_spec (u mod m) 0) as [Hz | Hnz]; cbn [negb].
    + f_equal. unfold residue. fold m. rewrite Z.mod_opp_l_z, Hz by lia. reflexivity.
    + f_equal. cbn [BN.set_n bn_red]. apply residue_ext. fold m.
      rewrite Z.mod_opp_l_nz by lia. reflexivity.
  - unfold BNRed.redShln, BNRed.the_red, enforce. rewrite Hki.
    cbn [residue bn_red bind].
    unfold Red.shln, Red.ishln. rewrite clone_same. fold (residue ctx u).
    rewrite V1. cbn [bind residue bn_n BN.set_n bn_red]. f_equal.
    apply residue_ext. fold m.
    assert (Hp : 0 < 2 ^ k) by (apply Z.pow_pos_nonneg; lia).
    rewrite Z.shiftl_mul_pow2, rem_mod by nia.
    apply Z.mul_mod_idemp_l. lia.
Qed.

Lemma red_ops_are_modular_arithmetic_witness :
  let ctx := {| red_ref := 0; red_m := 7 |} in
  BNRed.redAdd (residue ctx 5) (residue ctx (-9)) = Ok (residue ctx (5 + -9))
  /\ BNRed.redSub (residue ctx 5) (residue ctx (-9)) = Ok (residue ctx (5 - -9))
  /\ BNRed.redMul (residue ctx 5) (residue ctx (-9)) = Ok (residue ctx (5 * -9))
  /\ BNRed.redSqr (residue ctx 5) = Ok (residue ctx (5 * 5))
  /\ BNRed.redNeg (residue ctx 5) = Ok (residue ctx (- 5))
  /\ BNRed.redShln (residue ctx 5) 3 = Ok (residue ctx (5 * 2 ^ 3)).
Proof.
  cbv zeta.
  apply (red_ops_are_modular_arithmetic {| red_ref := 0; red_m := 7 |} 5 (-9) 3);
    [cbn; lia | lia | reflexivity].
Defined.

(** X21. [redInvert] gives the inverse in the ring: for a residue prime
    to a modulus [m > 1] it returns the residue whose product with the
    argument, by [redMul], is the residue 1; when [m = 1] or the residue
    has a common factor with [m], it raises "Not invertible.". *)
Theorem redInvert_is_inverse (ctx : Red) (u : Z) :
  1 <= red_m ctx ->
  (red_m ctx = 1 \/ Z.gcd u (red_m ctx) <> 1 ->
   BNRed.redInvert (residue ctx u) = Throw (RangeError "Not invertible."))
  /\ (1 < red_m ctx -> Z.gcd u (red_m ctx) = 1 ->
      exists t, BNRed.redInvert (residue ctx u) = Ok (residue ctx t)
                /\ BNRed.redMul (residue ctx u) (residue ctx t)
                   = Ok (residue ctx 1)).
Proof.
  intros Hm. set (m := red_m ctx) in *.
  pose proof (residue_canonical ctx u Hm) as Ha.
  pose proof (verify1_canonical ctx _ Ha) as V1.
  assert (Hg : Z.gcd (u mod m) m = Z.gcd u m).
  { rewrite Z.gcd_mod, Z.gcd_comm by lia. reflexivity. }
  assert (Hrun : BNRed.redInvert (residue ctx u)
                 = (r <- invert (u mod m) m ;;
                    Ok {| bn_n := r; bn_red := Some ctx |})).
  { unfold BNRed.redInvert, BNRed.the_red. cbn [residue bn_red bind].
    unfold Red.invert, Red.iinvert. rewrite clone_same. fold (residue ctx u).
    rewrite V1. reflexivity. }
  rewrite Hrun. split.
  - intros Hbad. rewrite invert_raises; [reflexivity | lia |].
    rewrite Hg. exact Hbad.
  - intros Hm1 Hcop.
    destruct (invert_returns (u mod m) m Hm1) as (t & -> & Ht & Hinv).
    { rewrite Hg. exact Hcop. }
    cbn [bind]. exists t. split.
    + f_equal. apply residue_ext. fold m. symmetry. apply Z.mod_small. exact Ht.
    + rewrite redMul_residue by exact Hm. f_equal.
      unfold residue. fold m. f_equal.
      rewrite Z.mul_mod_idemp_l in Hinv by lia.
      rewrite Hinv. symmetry. apply Z.mod_small. lia.
Qed.

Lemma redInvert_is_inverse_witness :
  let ctx := {| red_ref := 0; red_m := 10 |} in
  (red_m ctx = 1 \/ Z.gcd 3 (red_m ctx) <> 1 ->
   BNRed.redInvert (residue ctx 3) = Throw (RangeError "Not invertible."))
  /\ (1 < red_m ctx -> Z.gcd 3 (red_m ctx) = 1 ->
      exists t, BNRed.redInvert (residue ctx 3) = Ok (residue ctx t)
                /\ BNRed.redMul (residue ctx 3) (residue ctx t)
                   = Ok (residue ctx 1)).
Proof.
  cbv zeta.
  apply (redInvert_is_inverse {| red_ref := 0; red_m := 10 |} 3). cbn. lia.
Defined.

(** X22. [redPow] raises a residue to an ordinary, non-negative
    exponent: the result is the residue of the power.  An exponent that
    is itself in a reduction context is refused. *)
Theorem redPow_is_power (ctx : Red) (u : Z) (e : BN) :
  1 <= red_m ctx -> 0 <= bn_n e -> 1 < red_m ctx \/ 0 < bn_n e ->
  (bn_red e = None ->
   BNRed.redPow (residue ctx u) e = Ok (residue ctx (u ^ bn_n e)))
  /\ (bn_red e <> None ->
      BNRed.redPow (residue ctx u) e
      = Throw (TypeError (dquote ++ "redPow" ++ dquote
                          ++ " only works with normal numbers."))).
Proof.
  intros Hm He Hnd. set (m := red_m ctx) in *.
  pose proof (residue_canonical ctx u Hm) as Ha.
  pose proof (verify1_canonical ctx _ Ha) as V1.
  unfold BNRed.redPow, BNRed.the_red, nonred, is_tagged.
  cbn [residue bn_red bind]. split.
  - intros ->. cbn [negb bind].
    unfold Red.pow, Red.ipow. rewrite clone_same. fold (residue ctx u).
    rewrite V1. cbn [bind residue bn_n]. fold m.
    rewrite powm_nonneg by (assumption || lia). cbn [bind BN.set_n bn_red].
    f_equal. apply residue_ext. fold m. apply Z.mod_pow_l.
  - intros Hne. destruct (bn_red e); [reflexivity | contradiction].
Qed.

Lemma redPow_is_power_witness :
  let ctx := {| red_ref := 0; red_m := 7 |} in
  (bn_red (new_BN 5) = None ->
   BNRed.redPow (residue ctx 3) (new_BN 5)
   = Ok (residue ctx (3 ^ bn_n (new_BN 5))))
  /\ (bn_red (new_BN 5) <> None ->
      BNRed.redPow (residue ctx 3) (new_BN 5)
      = Throw (TypeError (dquote ++ "redPow" ++ dquote
                          ++ " only works with normal numbers."))).
Proof.
  cbv zeta.
  apply (redPow_is_power {| red_ref := 0; red_m := 7 |} 3 (new_BN 5));
    cbn; lia.
Defined.

(** X23. In a context whose modulus is an odd prime, [redSqrt] and
    [redSqr] are inverse to each other on the squares: for a residue on
    which [redJacobi] answers 1, [redSqrt] returns a residue whose
    [redSqr] is the argument. *)
Theorem redSqrt_then_redSqr (fuel : nat) (ctx : Red) (u : Z) :
  Z.prime (red_m ctx) -> red_m ctx <> 2 ->
  BNRed.redJacobi (residue ctx u) = Ok 1 ->
  red_m ctx <= Z.of_nat fuel ->
  exists r, BNRed.redSqrt fuel (residue ctx u) = Ok (residue ctx r)
            /\ BNRed.redSqr (residue ctx r) = Ok (residue ctx u).
Proof.
  intros Hp Hne Hj Hfuel. set (m := red_m ctx) in *.
  pose proof (Z.prime_ge_2 m Hp) as Hm2.
  assert (Hm : 1 <= m) by lia.
  pose proof (residue_canonical ctx u Hm) as Ha.
  pose proof (verify1_canonical ctx _ Ha) as V1.
  assert (Hj' : jacobi (u mod m) m = Ok 1).
  { unfold BNRed.redJacobi, BNRed.the_red in Hj. cbn [residue bn_red bind] in Hj.
    unfold Red.jacobi in Hj. fold (residue ctx u) in Hj. rewrite V1 in Hj.
    exact Hj. }
  destruct (sqrtm_residue fuel (u mod m) m Hp (odd_prime m Hp Hne) Hj' Hfuel)
    as (r & Er & Hr & Hr2).
  exists r. split.
  - unfold BNRed.redSqrt, BNRed.the_red. cbn [residue bn_red bind].
    unfold Red.sqrt, Red.isqrt. rewrite clone_same. fold (residue ctx u).
    rewrite V1. cbn [bind residue bn_n]. fold m. rewrite Er. cbn [bind].
    f_equal. apply residue_ext. fold m. symmetry. apply Z.mod_small. exact Hr.
  - rewrite redSqr_residue by exact Hm. f_equal. unfold residue. fold m. f_equal.
    rewrite <- Z.pow_2_r, Hr2. apply Z.mod_mod. lia.
Qed.

Lemma redSqrt_then_redSqr_witness :
  let ctx := {| red_ref := 0; red_m := 17 |} in
  exists r, BNRed.redSqrt 17 (residue ctx 2) = Ok (residue ctx r)
            /\ BNRed.redSqr (residue ctx r) = Ok (residue ctx 2).
Proof.
  cbv zeta.
  apply (redSqrt_then_redSqr 17 {| red_ref := 0; red_m := 17 |} 2);
    [exact prime_17 | cbn; lia | reflexivity | cbn; lia].
Defined.

(** * Conversion to and from bytes *)

(** ** Positional values *)

Lemma be_value_fold (l : list Z) :
  forall n0, fold_left (fun n b => n * 256 + b) l n0
             = n0 * 256 ^ Z.of_nat (List.length l) + be_value l.
Proof.
  unfold be_value. induction l as [| b l IH]; intros n0.
  - cbn. lia.
  - cbn [fold_left List.length]. rewrite IH, (IH (0 * 256 + b)).
    rewrite Nat2Z.inj_succ, Z.pow_succ_r by lia. ring.
Qed.

Lemma be_value_cons (b : Z) (l : list Z) :
  be_value (b :: l) = b * 256 ^ Z.of_nat (List.length l) + be_value l.
Proof.
  unfold be_value at 1. cbn [fold_left]. rewrite be_value_fold. ring.
Qed.

Lemma be_value_app (l1 l2 : list Z) :
  be_value (l1 ++ l2)
  = be_value l1 * 256 ^ Z.of_nat (List.length l2) + be_value l2.
Proof.
  unfold be_value at 1. rewrite fold_left_app.
  fold (be_value l1). apply be_value_fold.
Qed.

Lemma be_value_bound (l : list Z) :
  Forall is_byte l -> 0 <= be_value l < 256 ^ Z.of_nat (List.length l).
Proof.
  induction 1 as [| b l Hb Hl IH].
  - cbn. lia.
  - rewrite be_value_cons. cbn [List.length].
    rewrite Nat2Z.inj_succ, Z.pow_succ_r by lia. unfold is_byte in Hb. nia.
Qed.

Lemma be_bytes_length (k : nat) (n : Z) : List.length (be_bytes k n) = k.
Proof. induction k as [| k IH]; cbn [be_bytes List.length]; congruence. Qed.

Lemma be_bytes_is_byte (k : nat) (n : Z) : Forall is_byte (be_bytes k n).
Proof.
  induction k as [| k IH]; cbn [be_bytes]; constructor; [| exact IH].
  apply Z.mod_pos_bound. lia.
Qed.

Lemma be_value_be_bytes (k : nat) (n : Z) :
  be_value (be_bytes k n) = n mod 256 ^ Z.of_nat k.
Proof.
  induction k as [| k IH].
  - cbn. rewrite Z.mod_1_r. reflexivity.
  - cbn [be_bytes]. rewrite be_value_cons, be_bytes_length, IH.
    rewrite Nat2Z.inj_succ, Z.pow_succ_r by lia.
    rewrite (Z.mul_comm 256), Z.rem_mul_r by lia. ring.
Qed.

Lemma be_bytes_small (k : nat) (n : Z) :
  0 <= n < 256 ^ Z.of_nat k -> be_value (be_bytes k n) = n.
Proof. intros H. rewrite be_value_be_bytes. apply Z.mod_small, H. Qed.

(** Bytes above the number are zero. *)
Lemma be_bytes_pad (j k : nat) (n : Z) :
  0 <= n < 256 ^ Z.of_nat k ->
  be_bytes (j + k) n = repeat 0 j ++ be_bytes k n.
Proof.
  intros Hn. induction j as [| j IH]; [reflexivity |].
  cbn [Nat.add be_bytes repeat app]. rewrite IH. f_equal.
  rewrite Z.div_small; [reflexivity |].
  split; [lia |]. eapply Z.lt_le_trans; [apply Hn |].
  apply Z.pow_le_mono_r; lia.
Qed.

Lemma fold_lor_be_value {A : Type} (f : A -> Z) (l : list A) :
  forall n0, 0 <= n0 -> (forall x, In x l -> is_byte (f x)) ->
  fold_left (fun n x => Z.lor (Z.shiftl n 8) (f x)) l n0
  = n0 * 256 ^ Z.of_nat (List.length l) + be_value (map f l).
Proof.
  induction l as [| a l IH]; intros n0 Hn0 Hl.
  - cbn. lia.
  - cbn [fold_left map List.length].
    assert (Ha : is_byte (f a)) by (apply Hl; left; reflexivity).
    rewrite lor_shiftl_byte by (exact Hn0 || exact Ha).
    rewrite IH; [| unfold is_byte in Ha; lia | intros x Hx; apply Hl; right; exact Hx].
    rewrite be_value_cons, length_map, Nat2Z.inj_succ, Z.pow_succ_r by lia.
    ring.
Qed.

(** ** Reading an array-like value *)

Lemma upto_nil (a : Z) : upto a a = [].
Proof. unfold upto. rewrite Z.sub_diag. reflexivity. Qed.

Lemma upto_cons (a b : Z) : a < b -> upto a b = a :: upto (a + 1) b.
Proof.
  intros H. unfold upto.
  replace (Z.to_nat (b - a)) with (S (Z.to_nat (b - (a + 1)))) by lia.
  cbn [seq map]. f_equal; [lia |].
  rewrite <- seq_shift, map_map. apply map_ext. intros k. lia.
Qed.

Lemma upto_app (a b c : Z) :
  a <= b -> b <= c -> upto a c = upto a b ++ upto b c.
Proof.
  intros Hab Hbc. unfold upto.
  replace (Z.to_nat (c - a)) with (Z.to_nat (b - a) + Z.to_nat (c - b))%nat by lia.
  rewrite seq_app, map_app. f_equal. cbn [Nat.add].
  set (k := Z.to_nat (b - a)).
  assert (E : forall n s, map (fun i => a + Z.of_nat i) (seq (k + s) n)
                          = map (fun i => b + Z.of_nat i) (seq s n)).
  { induction n as [| n IH]; intros s; [reflexivity |].
    cbn [seq map]. f_equal; [lia |].
    replace (S (k + s)) with (k + S s)%nat by lia. apply IH. }
  rewrite <- (Nat.add_0_r k). apply E.
Qed.

Lemma upto_length (a b : Z) : List.length (upto a b) = Z.to_nat (b - a).
Proof. unfold upto. rewrite length_map, length_seq. reflexivity. Qed.

Lemma map_nth_upto (l : list Z) :
  map (fun i => nth (Z.to_nat i) l 0) (upto 0 (Z.of_nat (List.length l))) = l.
Proof.
  unfold upto. rewrite Z.sub_0_r, Nat2Z.id, map_map.
  erewrite map_ext; [| intros k; rewrite Z.add_0_l, Nat2Z.id; reflexivity].
  induction l as [| x l IH]; [reflexivity |].
  cbn [List.length seq map nth]. f_equal.
  rewrite <- seq_shift, map_map. exact IH.
Qed.

Lemma map_array_get (data : list Z) :
  map (array_get data) (upto 0 (Z.of_nat (List.length data))) = data.
Proof.
  rewrite <- (map_nth_upto data) at 3. apply map_ext_in.
  intros i Hi. apply in_upto in Hi. unfold array_get.
  destruct (Z.ltb_spec i 0); [lia | reflexivity].
Qed.

Lemma endian_cases (endian : option string) :
  endian_mode endian ->
  (endian_or_be endian = "be"%string \/ endian_or_be endian = "le"%string).
Proof. intros [-> | [-> | ->]]; cbn; auto. Qed.

Lemma fromArrayLike_value (data : list Z) (endian : option string) :
  Forall is_byte data -> endian_mode endian ->
  fromArrayLike data endian = Ok (value_in endian data).
Proof.
  intros Hb He. unfold fromArrayLike, value_in.
  destruct (endian_cases endian He) as [-> | ->]; cbn [is_endian String.eqb Ascii.eqb Bool.eqb orb enforce bind].
  - change (("be" =? "le")%string) with false. change (("be" =? "be")%string) with true.
    cbn [enforce bind is_endian orb].
    destruct (Z.leb_spec (Z.of_nat (List.length data)) 0) as [Hl | Hl].
    + destruct data; [reflexivity | cbn [List.length] in Hl; lia].
    + rewrite fold_lor_be_value; [| lia |].
      * rewrite map_array_get. f_equal.
      * intros i Hi. apply in_upto in Hi. unfold array_get.
        destruct (Z.ltb_spec i 0); [lia |]. rewrite Forall_forall in Hb.
        apply Hb, nth_In. lia.
  - change (("le" =? "le")%string) with true. change (("le" =? "be")%string) with false.
    cbn [enforce bind is_endian orb].
    destruct (Z.leb_spec (Z.of_nat (List.length data)) 0) as [Hl | Hl].
    + destruct data; [reflexivity | cbn [List.length] in Hl; lia].
    + rewrite fold_lor_be_value; [| lia |].
      * rewrite map_rev, map_array_get. f_equal.
      * intros i Hi. apply in_rev, in_upto in Hi. unfold array_get.
        destruct (Z.ltb_spec i 0); [lia |]. rewrite Forall_forall in Hb.
        apply Hb, nth_In. lia.
Qed.

(** ** Writing an array-like value *)

Lemma list_set_mid (pre suf : list Z) (x v : Z) :
  list_set (pre ++ x :: suf) (List.length pre) v = pre ++ v :: suf.
Proof. induction pre as [| a pre IH]; cbn; [reflexivity | now rewrite IH]. Qed.

Lemma array_set_mid (pre suf : list Z) (x v i : Z) :
  i = Z.of_nat (List.length pre) ->
  array_set (pre ++ x :: suf) i v = pre ++ v :: suf.
Proof.
  intros ->. unfold array_set. destruct (Z.ltb_spec (Z.of_nat (List.length pre)) 0); [lia |].
  rewrite Nat2Z.id. apply list_set_mid.
Qed.

Lemma firstn_snoc (l : list Z) (k : nat) :
  (k < List.length l)%nat -> firstn (S k) l = firstn k l ++ [nth k l 0].
Proof.
  revert k. induction l as [| a l IH]; intros k Hk; [cbn in Hk; lia |].
  destruct k as [| k]; [reflexivity |].
  cbn [firstn nth app]. f_equal. apply IH. cbn in Hk. lia.
Qed.

Lemma skipn_cons_nth (l : list Z) (k : nat) :
  (k < List.length l)%nat -> skipn k l = nth k l 0 :: skipn (S k) l.
Proof.
  revert k. induction l as [| a l IH]; intros k Hk; [cbn in Hk; lia |].
  destruct k as [| k]; [reflexivity |].
  cbn [skipn nth]. apply IH. cbn in Hk. lia.
Qed.

Lemma shiftr_8_div (N : Z) (t : nat) :
  Z.shiftr (N / 256 ^ Z.of_nat t) 8 = N / 256 ^ Z.of_nat (S t).
Proof.
  rewrite Z.shiftr_div_pow2 by lia. change (2 ^ 8) with 256.
  rewrite Z.div_div by lia.
  rewrite Nat2Z.inj_succ, Z.pow_succ_r by lia. f_equal. ring.
Qed.

Lemma land_255 (q : Z) : Z.land q 255 = q mod 256.
Proof. exact (Z.land_ones q 8 ltac:(lia)). Qed.

(** The loop of the big-endian branch leaves the [t] low bytes of [N] at
    the end of the array and has shifted [N] out. *)
Lemma bytes_loop_be (N : Z) (sz : nat) (res0 : list Z) :
  0 <= N < 256 ^ Z.of_nat sz -> List.length res0 = sz ->
  exists t, (t <= sz)%nat /\ N < 256 ^ Z.of_nat t
    /\ loop (budget N) (bytes_round (-1)) (N, Z.of_nat sz - 1, res0)
       = Ok (Z.of_nat sz - 1 - Z.of_nat t,
             firstn (sz - t) res0 ++ be_bytes t N).
Proof.
  intros HN Hlen.
  destruct (loop_total (bytes_round (-1))
              (fun s => exists t, (t <= sz)%nat
                 /\ fst (fst s) = N / 256 ^ Z.of_nat t
                 /\ snd (fst s) = Z.of_nat sz - 1 - Z.of_nat t
                 /\ snd s = firstn (sz - t) res0 ++ be_bytes t N)
              (fun r => exists t, (t <= sz)%nat /\ N < 256 ^ Z.of_nat t
                 /\ r = (Z.of_nat sz - 1 - Z.of_nat t,
                         firstn (sz - t) res0 ++ be_bytes t N))
              (fun s => fst (fst s)) (budget N) (N, Z.of_nat sz - 1, res0))
    as (v & E & t & Ht & Hsmall & ->).
  - intros [[q i] res] (t & Ht & Hq & Hi & Hres). cbn [fst snd] in *.
    unfold bytes_round. destruct (Z.gtb_spec q 0) as [Hpos | Hzero].
    + assert (Hpow : 0 < 256 ^ Z.of_nat t) by (apply Z.pow_pos_nonneg; lia).
      assert (Hge : 256 ^ Z.of_nat t <= N).
      { destruct (Z.lt_ge_cases N (256 ^ Z.of_nat t)) as [Hlt | Hge'];
          [| exact Hge'].
        rewrite Z.div_small in Hq by lia. lia. }
      assert (Hts : (t < sz)%nat).
      { destruct (Nat.lt_ge_cases t sz) as [Hlt | Hge']; [exact Hlt |].
        assert (256 ^ Z.of_nat sz <= 256 ^ Z.of_nat t)
          by (apply Z.pow_le_mono_r; lia). lia. }
      cbn [fst snd]. split.
      * exists (S t). repeat split.
        -- lia.
        -- rewrite Hq. apply shiftr_8_div.
        -- lia.
        -- rewrite Hres.
           replace (sz - t)%nat with (S (sz - S t)) by lia.
           rewrite firstn_snoc by lia. rewrite <- app_assoc. cbn [app].
           rewrite (array_set_mid _ _ _ _ i)
             by (rewrite length_firstn; lia).
           cbn [be_bytes]. rewrite land_255, Hq. reflexivity.
      * pose proof (shiftr_lt q 8 ltac:(lia) ltac:(lia)). lia.
    + eexists. split; [reflexivity |]. exists t. repeat split; try lia.
      * assert (Hpow : 0 < 256 ^ Z.of_nat t) by (apply Z.pow_pos_nonneg; lia).
        destruct (Z.lt_ge_cases N (256 ^ Z.of_nat t)) as [Hlt | Hge]; [exact Hlt |].
        assert (1 <= N / 256 ^ Z.of_nat t)
          by (apply Z.div_le_lower_bound; lia). lia.
      * congruence.
  - exists 0%nat. cbn [fst snd be_bytes]. repeat split.
    + lia.
    + cbn. rewrite Z.div_1_r. reflexivity.
    + lia.
    + rewrite Nat.sub_0_r, app_nil_r, firstn_all2 by lia. reflexivity.
  - cbn [fst snd]. apply budget_spec.
  - exists t. auto.
Qed.

(** The little-endian twin leaves them at the start, in reverse. *)
Lemma bytes_loop_le (N : Z) (sz : nat) (res0 : list Z) :
  0 <= N < 256 ^ Z.of_nat sz -> List.length res0 = sz ->
  exists t, (t <= sz)%nat /\ N < 256 ^ Z.of_nat t
    /\ loop (budget N) (bytes_round 1) (N, 0, res0)
       = Ok (Z.of_nat t, rev (be_bytes t N) ++ skipn t res0).
Proof.
  intros HN Hlen.
  destruct (loop_total (bytes_round 1)
              (fun s => exists t, (t <= sz)%nat
                 /\ fst (fst s) = N / 256 ^ Z.of_nat t
                 /\ snd (fst s) = Z.of_nat t
                 /\ snd s = rev (be_bytes t N) ++ skipn t res0)
              (fun r => exists t, (t <= sz)%nat /\ N < 256 ^ Z.of_nat t
                 /\ r = (Z.of_nat t, rev (be_bytes t N) ++ skipn t res0))
              (fun s => fst (fst s)) (budget N) (N, 0, res0))
    as (v & E & t & Ht & Hsmall & ->).
  - intros [[q i] res] (t & Ht & Hq & Hi & Hres). cbn [fst snd] in *.
    unfold bytes_round. destruct (Z.gtb_spec q 0) as [Hpos | Hzero].
    + assert (Hpow : 0 < 256 ^ Z.of_nat t) by (apply Z.pow_pos_nonneg; lia).
      assert (Hge : 256 ^ Z.of_nat t <= N).
      { destruct (Z.lt_ge_cases N (256 ^ Z.of_nat t)) as [Hlt | Hge'];
          [| exact Hge'].
        rewrite Z.div_small in Hq by lia. lia. }
      assert (Hts : (t < sz)%nat).
      { destruct (Nat.lt_ge_cases t sz) as [Hlt | Hge']; [exact Hlt |].
        assert (256 ^ Z.of_nat sz <= 256 ^ Z.of_nat t)
          by (apply Z.pow_le_mono_r; lia). lia. }
      cbn [fst snd]. split.
      * exists (S t). repeat split.
        -- lia.
        -- rewrite Hq. apply shiftr_8_div.
        -- lia.
        -- rewrite Hres, (skipn_cons_nth res0 t) by lia.
           rewrite (array_set_mid _ _ _ _ i)
             by (rewrite length_rev, be_bytes_length; lia).
           cbn [be_bytes rev]. rewrite land_255, Hq, <- app_assoc. reflexivity.
      * pose proof (shiftr_lt q 8 ltac:(lia) ltac:(lia)). lia.
    + eexists. split; [reflexivity |]. exists t. repeat split; try lia.
      * assert (Hpow : 0 < 256 ^ Z.of_nat t) by (apply Z.pow_pos_nonneg; lia).
        destruct (Z.lt_ge_cases N (256 ^ Z.of_nat t)) as [Hlt | Hge]; [exact Hlt |].
        assert (1 <= N / 256 ^ Z.of_nat t)
          by (apply Z.div_le_lower_bound; lia). lia.
      * congruence.
  - exists 0%nat. cbn [fst snd be_bytes rev app skipn]. repeat split.
    + lia.
    + cbn. rewrite Z.div_1_r. reflexivity.
  - cbn [fst snd]. apply budget_spec.
  - exists t. auto.
Qed.

(** [for (; i >= 0; i--) res[i] = 0x00] *)
Lemma fill_down (k : nat) :
  forall pre suf, List.length pre = k ->
  fold_left (fun res i => array_set res i 0) (rev (upto 0 (Z.of_nat k)))
    (pre ++ suf) = repeat 0 k ++ suf.
Proof.
  induction k as [| k IH]; intros pre suf Hpre.
  - destruct pre; [reflexivity | discriminate].
  - rewrite Nat2Z.inj_succ, <- Z.add_1_r, upto_snoc by lia.
    rewrite rev_app_distr. cbn [rev app fold_left].
    rewrite <- (firstn_all pre), Hpre, firstn_snoc by lia.
    rewrite <- app_assoc. cbn [app].
    rewrite (array_set_mid _ _ _ _ (Z.of_nat k))
      by (rewrite length_firstn; lia).
    rewrite IH by (rewrite length_firstn; lia).
    cbn [repeat]. rewrite repeat_cons, <- app_assoc. reflexivity.
Qed.

(** [for (; i < size; i++) res[i] = 0x00] *)
Lemma fill_up (rest : list Z) :
  forall pre t, Z.of_nat (List.length pre) = t ->
  fold_left (fun res i => array_set res i 0)
    (upto t (t + Z.of_nat (List.length rest))) (pre ++ rest)
  = pre ++ repeat 0 (List.length rest).
Proof.
  induction rest as [| x rest IH]; intros pre t Hpre.
  - cbn [List.length]. rewrite Z.add_0_r, upto_nil. reflexivity.
  - cbn [List.length]. rewrite upto_cons by lia. cbn [fold_left].
    rewrite (array_set_mid _ _ _ _ t) by lia.
    replace (pre ++ 0 :: rest) with ((pre ++ [0]) ++ rest)
      by (rewrite <- app_assoc; reflexivity).
    replace (t + Z.of_nat (S (List.length rest)))
      with (t + 1 + Z.of_nat (List.length rest)) by lia.
    rewrite IH by (rewrite length_app; cbn [List.length]; lia).
    rewrite <- app_assoc. reflexivity.
Qed.

Lemma bit_count_le (N k : Z) : 0 <= k -> 0 <= N < 2 ^ k -> bit_count N <= k.
Proof.
  intros Hk HN. destruct (Z.eq_dec N 0) as [-> | Hne]; [cbn; lia |].
  pose proof (bit_count_bounds N ltac:(lia)) as Hb.
  pose proof (bit_count_nonneg N).
  destruct (Z.le_gt_cases (bit_count N) k) as [Hle | Hgt]; [exact Hle |].
  assert (2 ^ k <= 2 ^ (bit_count N - 1)) by (apply Z.pow_le_mono_r; lia).
  lia.
Qed.

Lemma pow_256 (k : Z) : 0 <= k -> 256 ^ k = 2 ^ (8 * k).
Proof. intros Hk. change 256 with (2 ^ 8). rewrite <- Z.pow_mul_r by lia. reflexivity. Qed.

(** The size that [toBuffer] and [toArrayLike] settle on holds the
    magnitude, and the least count of bytes does not exceed it. *)
Lemma byte_size_holds (n : Z) (length : option Z) :
  fits n length ->
  let bytes := (bit_count (Z.abs n) + 7) / 8 in
  let l := match length with Some l => l | None => 0 end in
  byte_size n length = (if negb (l =? 0) then l else Z.max 1 bytes)
  /\ 0 <= l < 2 ^ 32
  /\ bytes <= byte_size n length
  /\ 1 <= byte_size n length
  /\ Z.abs n < 256 ^ byte_size n length.
Proof.
  intros Hfit bytes l.
  pose proof (bit_count_nonneg (Z.abs n)) as Hbc.
  assert (Hbytes : 0 <= bytes /\ bit_count (Z.abs n) <= 8 * bytes)
    by (unfold bytes; div_lia).
  assert (Hmax : Z.abs n < 256 ^ Z.max 1 bytes).
  { rewrite pow_256 by lia.
    destruct (Z.eq_dec (Z.abs n) 0) as [-> | Hne].
    - apply Z.pow_pos_nonneg; lia.
    - pose proof (bit_count_bounds (Z.abs n) ltac:(lia)) as Hb.
      assert (2 ^ bit_count (Z.abs n) <= 2 ^ (8 * Z.max 1 bytes))
        by (apply Z.pow_le_mono_r; lia). lia. }
  assert (Hcase : (l = 0 /\ byte_size n length = Z.max 1 bytes)
                  \/ (0 < l < 2 ^ 32 /\ byte_size n length = l
                      /\ Z.abs n < 256 ^ l)).
  { unfold byte_size, l, fits in *. destruct length as [l0 |].
    - destruct Hfit as (Hl0 & Hor). destruct (Z.eqb_spec l0 0) as [-> | Hne].
      + left. auto.
      + right. destruct Hor as [| Hor]; [lia |].
        repeat split; first [lia | exact Hor].
    - left. auto. }
  destruct Hcase as [(Hl & ->) | (Hl & -> & Hsmall)].
  - rewrite Hl. cbn [Z.eqb negb]. repeat split; first [lia | exact Hmax].
  - destruct (Z.eqb_spec l 0); [lia |]. cbn [negb].
    assert (bytes <= l).
    { rewrite pow_256 in Hsmall by lia.
      pose proof (bit_count_le (Z.abs n) (8 * l) ltac:(lia) ltac:(lia)).
      unfold bytes. div_lia. }
    repeat split; first [lia | exact Hsmall].
Qed.

(** What [toArrayLike] writes. *)
Lemma toArrayLike_content (junk n : Z) (type : ArrayType)
  (endian : option string) (length : option Z) :
  endian_mode endian -> bit_count (Z.abs n) < 2 ^ 32 -> fits n length ->
  toArrayLike junk n type endian length
  = Ok (bytes_in endian (Z.to_nat (byte_size n length)) (Z.abs n)).
Proof.
  intros He Hbits Hfit.
  destruct (byte_size_holds n length Hfit) as (Esize & Hl & Hle & Hone & Hsmall).
  destruct (endian_mode_valid endian He) as (Hv & _).
  unfold toArrayLike, enforce, bytes_in. rewrite Hv. cbn [bind].
  set (l := match length with Some l => l | None => 0 end) in *.
  replace (to_uint32 l =? l) with true
    by (symmetry; apply Z.eqb_eq; unfold to_uint32; apply Z.mod_small; lia).
  cbn [bind]. rewrite byteLength_value by exact Hbits. cbn [bind].
  rewrite <- Esize. set (size := byte_size n length) in *.
  destruct (Z.gtb_spec ((bit_count (Z.abs n) + 7) / 8) size) as [| _]; [lia |].
  rewrite abs_spec. set (N := Z.abs n) in *.
  set (sz := Z.to_nat size).
  assert (Hsz : Z.of_nat sz = size) by (unfold sz; lia).
  assert (HN : 0 <= N < 256 ^ Z.of_nat sz) by (rewrite Hsz; unfold N; lia).
  assert (Hres : List.length (allocate junk type size) = sz)
    by (unfold allocate; apply repeat_length).
  destruct (endian_cases endian He) as [-> | ->].
  - change (("be" =? "be")%string) with true. change (("be" =? "le")%string) with false.
    destruct (bytes_loop_be N sz (allocate junk type size) HN Hres)
      as (t & Ht & Hsm & E).
    rewrite Hsz in E. rewrite E. cbn [bind]. f_equal.
    replace (size - 1 - Z.of_nat t + 1) with (Z.of_nat (sz - t)) by lia.
    rewrite fill_down by (rewrite length_firstn; lia).
    rewrite <- be_bytes_pad by lia. f_equal. lia.
  - change (("le" =? "be")%string) with false. change (("le" =? "le")%string) with true.
    destruct (bytes_loop_le N sz (allocate junk type size) HN Hres)
      as (t & Ht & Hsm & E).
    rewrite E. cbn [bind]. f_equal.
    assert (Hrest : List.length (skipn t (allocate junk type size)) = (sz - t)%nat)
      by (rewrite length_skipn; lia).
    replace (upto (Z.of_nat t) size)
      with (upto (Z.of_nat t)
              (Z.of_nat t + Z.of_nat (List.length (skipn t (allocate junk type size)))))
      by (f_equal; lia).
    rewrite fill_up by (rewrite length_rev, be_bytes_length; reflexivity).
    rewrite Hrest.
    replace (be_bytes sz N) with (be_bytes ((sz - t) + t) N) by (f_equal; lia).
    rewrite be_bytes_pad by lia. rewrite rev_app_distr, rev_repeat. reflexivity.
Qed.

(** ** Reversal in place *)

Lemma array_get_mid (pre suf : list Z) (x i : Z) :
  i = Z.of_nat (List.length pre) -> array_get (pre ++ x :: suf) i = x.
Proof.
  intros ->. unfold array_get.
  destruct (Z.ltb_spec (Z.of_nat (List.length pre)) 0); [lia |].
  rewrite Nat2Z.id. apply nth_middle.
Qed.

Lemma reverse_is_rev (data : list Z) : reverse data = Ok (rev data).
Proof.
  unfold reverse. set (len := Z.of_nat (List.length data)).
  destruct (loop_total reverse_round
              (fun s => exists A M B, data = A ++ M ++ B
                 /\ List.length A = List.length B
                 /\ snd s = rev B ++ M ++ rev A
                 /\ snd (fst s) = Z.of_nat (List.length A)
                 /\ fst (fst s) = len - 1 - Z.of_nat (List.length A))
              (fun r => r = rev data)
              (fun s => fst (fst s) - snd (fst s) + 1)
              (budget len) (len - 1, 0, data)) as (v & E & ->).
  - intros [[i j] cur] (A & M & B & Hd & HAB & Hc & Hj & Hi).
    cbn [fst snd] in *. unfold reverse_round.
    assert (Hlen : len = Z.of_nat (List.length A + List.length M + List.length B))
      by (unfold len; rewrite Hd, !length_app; lia).
    destruct (Z.gtb_spec i j) as [Hgt | Hle].
    + destruct M as [| x M]; [cbn [List.length] in Hlen; lia |].
      destruct (exists_last (l := M)) as (M' & y & ->).
      { intros ->. cbn [List.length] in Hlen. lia. }
      cbn [List.length] in Hlen. rewrite length_app in Hlen.
      cbn [List.length] in Hlen.
      assert (Ei : i = Z.of_nat (List.length (rev B ++ x :: M')))
        by (rewrite length_app, length_rev; cbn [List.length]; lia).
      assert (Ej : j = Z.of_nat (List.length (rev B)))
        by (rewrite length_rev; lia).
      assert (Hc1 : cur = (rev B ++ x :: M') ++ y :: rev A).
      { rewrite Hc, <- !app_assoc. cbn [app]. rewrite <- app_assoc. reflexivity. }
      assert (Hc2 : cur = rev B ++ x :: (M' ++ y :: rev A)).
      { rewrite Hc1, <- app_assoc. reflexivity. }
      assert (Gi : array_get cur i = y)
        by (rewrite Hc1; apply array_get_mid, Ei).
      assert (Gj : array_get cur j = x)
        by (rewrite Hc2; apply array_get_mid, Ej).
      rewrite Gi, Gj.
      assert (Si : array_set cur i x = rev B ++ x :: (M' ++ x :: rev A)).
      { rewrite Hc1, (array_set_mid _ _ _ _ i Ei), <- app_assoc. reflexivity. }
      rewrite Si, (array_set_mid _ _ _ _ j Ej).
      cbn [fst snd]. split; [| lia].
      exists (A ++ [x]), M', (y :: B). repeat split.
      * rewrite Hd, <- !app_assoc. cbn [app]. rewrite <- app_assoc. reflexivity.
      * rewrite length_app. cbn [List.length]. lia.
      * cbn [rev]. rewrite rev_app_distr, <- !app_assoc. reflexivity.
      * rewrite length_app. cbn [List.length]. lia.
      * rewrite length_app. cbn [List.length]. lia.
    + eexists. split; [reflexivity |].
      rewrite Hc, Hd, !rev_app_distr, <- app_assoc.
      destruct M as [| x [| y M]]; [reflexivity | reflexivity |].
      cbn [List.length] in Hlen. lia.
  - exists [], data, []. cbn [fst snd app rev List.length].
    rewrite app_nil_r. repeat split; lia.
  - cbn [fst snd]. apply budget_mono. lia.
  - exact E.
Qed.

(** Reversal of a view rewrites the view only: the bytes before it and
    the bytes after it in the store stay. *)
Lemma reverse_buffer_view (pre data post : list Z) :
  reverse_buffer {| buf_store := pre ++ data ++ post;
                    buf_offset := Z.of_nat (List.length pre);
                    buf_length := Z.of_nat (List.length data) |}
  = Ok {| buf_store := pre ++ rev data ++ post;
          buf_offset := Z.of_nat (List.length pre);
          buf_length := Z.of_nat (List.length data) |}.
Proof.
  unfold reverse_buffer, contents.
  cbn [buf_store buf_offset buf_length]. rewrite !Nat2Z.id.
  assert (Hskip : skipn (List.length pre) (pre ++ data ++ post) = data ++ post).
  { rewrite skipn_app, skipn_all, Nat.sub_diag. reflexivity. }
  assert (Hview : firstn (List.length data) (data ++ post) = data).
  { rewrite firstn_app, firstn_all, Nat.sub_diag. cbn [firstn].
    apply app_nil_r. }
  assert (Hpre : firstn (List.length pre) (pre ++ data ++ post) = pre).
  { rewrite firstn_app, firstn_all, Nat.sub_diag. cbn [firstn].
    apply app_nil_r. }
  assert (Hpost : skipn (List.length pre + List.length data)
                    (pre ++ data ++ post) = post).
  { rewrite (Nat.add_comm (List.length pre)), <- skipn_skipn, Hskip.
    rewrite skipn_app, skipn_all, Nat.sub_diag. reflexivity. }
  rewrite Hskip, Hview, reverse_is_rev. cbn [bind].
  rewrite Hpre, Hpost. reflexivity.
Qed.

Lemma reverse_buffer_alloc (pool bytes : list Z) :
  reverse_buffer (alloc_buffer pool bytes) = Ok (alloc_buffer pool (rev bytes)).
Proof.
  pose proof (reverse_buffer_view pool bytes []) as H.
  rewrite !app_nil_r in H. unfold alloc_buffer. rewrite length_rev. exact H.
Qed.

(** ** Writing a buffer through hexadecimal digits *)

Lemma hex_string_length (k : nat) (n : Z) : String.length (hex_string k n) = k.
Proof. induction k as [| k IH]; cbn [hex_string String.length]; congruence. Qed.

Lemma string_app_length (s1 s2 : string) :
  String.length (s1 ++ s2) = (String.length s1 + String.length s2)%nat.
Proof. induction s1 as [| c s1 IH]; cbn; congruence. Qed.

Lemma string_app_assoc (s1 s2 s3 : string) :
  ((s1 ++ s2) ++ s3 = s1 ++ (s2 ++ s3))%string.
Proof. induction s1 as [| c s1 IH]; cbn; congruence. Qed.

(** The digits with the lowest one split off, as [toString] finds them. *)
Lemma hex_string_snoc (d : nat) (n : Z) :
  hex_string (S d) n
  = (hex_string d (n / 16) ++ String (hex_char (n mod 16)) EmptyString)%string.
Proof.
  induction d as [| d IH].
  - cbn [hex_string append]. rewrite Z.pow_0_r, Z.div_1_r. reflexivity.
  - change (hex_string (S (S d)) n)
      with (String (hex_char ((n / 16 ^ Z.of_nat (S d)) mod 16))
              (hex_string (S d) n)).
    rewrite IH. cbn [hex_string append]. f_equal. f_equal. f_equal.
    rewrite Z.div_div by (try apply Z.pow_pos_nonneg; lia).
    rewrite Nat2Z.inj_succ, Z.pow_succ_r by lia. reflexivity.
Qed.

Lemma hex_digits_S (fuel : nat) (n : Z) (acc : string) :
  hex_digits (S fuel) n acc
  = if n / 16 =? 0 then String (hex_char (n mod 16)) acc
    else hex_digits fuel (n / 16) (String (hex_char (n mod 16)) acc).
Proof. reflexivity. Qed.

Lemma hex_digits_spec (fuel : nat) :
  forall n acc, 0 <= n < 2 ^ Z.of_nat (S fuel) ->
  exists d, (1 <= d)%nat /\ n < 16 ^ Z.of_nat d
    /\ (d = 1%nat \/ 16 ^ (Z.of_nat d - 1) <= n)
    /\ hex_digits (S fuel) n acc = (hex_string d n ++ acc)%string.
Proof.
  induction fuel as [| fuel IH]; intros n acc Hn.
  - exists 1%nat. change (2 ^ Z.of_nat 1) with 2 in Hn.
    cbn [hex_digits]. rewrite Z.div_small by lia. cbn [Z.eqb].
    repeat split; [lia | cbn; lia | left; reflexivity |].
    cbn [hex_string append]. rewrite Z.pow_0_r, Z.div_1_r. reflexivity.
  - rewrite hex_digits_S.
    destruct (Z.eqb_spec (n / 16) 0) as [E0 | N0].
    + assert (n < 16) by div_lia. exists 1%nat.
      repeat split; [lia | cbn; lia | left; reflexivity |].
      cbn [hex_string append]. rewrite Z.pow_0_r, Z.div_1_r. reflexivity.
    + assert (Hq : 0 <= n / 16 < 2 ^ Z.of_nat (S fuel)).
      { rewrite (Nat2Z.inj_succ (S fuel)), Z.pow_succ_r in Hn by lia. div_lia. }
      destruct (IH (n / 16) (String (hex_char (n mod 16)) acc) Hq)
        as (d & Hd & Hlt & Hmin & E).
      exists (S d). rewrite Nat2Z.inj_succ, Z.pow_succ_r by lia.
      replace (Z.succ (Z.of_nat d) - 1) with (Z.succ (Z.of_nat d - 1)) by lia.
      rewrite Z.pow_succ_r by lia.
      repeat split; [lia | div_lia | right |].
      * destruct Hmin as [-> | Hmin]; [cbn; div_lia | div_lia].
      * rewrite E, hex_string_snoc, string_app_assoc. reflexivity.
Qed.

Lemma hex_string_pad (j k : nat) (n : Z) :
  0 <= n < 16 ^ Z.of_nat k ->
  hex_string (j + k) n = (hex_string j 0 ++ hex_string k n)%string.
Proof.
  intros Hn. induction j as [| j IH]; [reflexivity |].
  cbn [Nat.add hex_string append]. rewrite IH. f_equal.
  rewrite Z.div_0_l by (apply Z.pow_nonzero; lia).
  rewrite Z.div_small; [reflexivity |].
  split; [lia |]. eapply Z.lt_le_trans; [apply Hn |].
  apply Z.pow_le_mono_r; lia.
Qed.

(** [padStart] with ['00'] writes zero digits. *)
Lemma pad_fill_zeros (j : nat) :
  forall cur, cur = "00"%string \/ cur = "0"%string \/ cur = EmptyString ->
  pad_fill j cur "00" = hex_string j 0.
Proof.
  induction j as [| j IH]; intros cur Hc; [reflexivity |].
  cbn [hex_string]. rewrite Z.div_0_l by (apply Z.pow_nonzero; lia).
  change (hex_char (0 mod 16)) with "0"%char.
  destruct Hc as [-> | [-> | ->]]; cbn [pad_fill]; f_equal; apply IH; auto.
Qed.

Lemma hex_decode_string (k : nat) (n : Z) :
  hex_decode (hex_string (2 * k) n) = be_bytes k n.
Proof.
  induction k as [| k IH]; [reflexivity |].
  replace (2 * S k)%nat with (S (S (2 * k))) by lia.
  cbn [hex_string hex_decode be_bytes].
  rewrite !hex_value_char by (apply Z.mod_pos_bound; lia).
  rewrite IH. f_equal.
  rewrite Nat2Z.inj_succ, Z.pow_succ_r by lia.
  replace (Z.of_nat (2 * k)) with (2 * Z.of_nat k) by lia.
  rewrite Z.pow_mul_r by lia. change (16 ^ 2) with 256.
  assert (Hp : 0 < 256 ^ Z.of_nat k) by (apply Z.pow_pos_nonneg; lia).
  replace (16 * 256 ^ Z.of_nat k) with (256 ^ Z.of_nat k * 16) by ring.
  rewrite <- Z.div_div by lia.
  set (M := n / 256 ^ Z.of_nat k). div_lia.
Qed.

(** The digits of [toBuffer], once their count is even: an even count
    [2 * b] of digits that hold [N], with the least [b] that does. *)
Lemma toString16_even (N : Z) :
  0 <= N ->
  let str := toString16 N in
  let str := if negb (Z.land (Z.of_nat (String.length str)) 1 =? 0)
             then String "0" str else str in
  exists b, (1 <= b)%nat /\ str = hex_string (2 * b) N
    /\ N < 256 ^ Z.of_nat b
    /\ Z.of_nat b = Z.max 1 ((bit_count N + 7) / 8).
Proof.
  intros HN. cbv zeta. unfold toString16.
  assert (Hfuel : 0 <= N < 2 ^ Z.of_nat (S (Z.to_nat (Z.log2 N))))
    by (split; [exact HN | apply budget_spec]).
  destruct (hex_digits_spec _ N EmptyString Hfuel) as (d & Hd & Hlt & Hmin & E).
  unfold budget. rewrite E.
  assert (Eapp : forall s, (s ++ EmptyString)%string = s)
    by (induction s; cbn; congruence).
  rewrite Eapp, hex_string_length, land_1.
  assert (Hbc : Z.max 1 ((bit_count N + 7) / 8) = (Z.of_nat d + 1) / 2).
  { destruct Hmin as [-> | Hmin].
    - change (16 ^ Z.of_nat 1) with (2 ^ 4) in Hlt.
      pose proof (bit_count_le N 4 ltac:(lia) ltac:(lia)).
      pose proof (bit_count_nonneg N).
      change (Z.of_nat 1) with 1. div_lia.
    - assert (Hpos : 0 < N).
      { assert (0 < 16 ^ (Z.of_nat d - 1)) by (apply Z.pow_pos_nonneg; lia). lia. }
      pose proof (bit_count_bounds N Hpos) as Hb.
      pose proof (bit_count_nonneg N) as Hnn.
      change 16 with (2 ^ 4) in Hlt, Hmin.
      rewrite <- Z.pow_mul_r in Hlt, Hmin by lia.
      assert (bit_count N <= 4 * Z.of_nat d)
        by (apply bit_count_le; lia).
      assert (4 * (Z.of_nat d - 1) < bit_count N).
      { destruct (Z.lt_ge_cases (4 * (Z.of_nat d - 1)) (bit_count N)) as [Hl | Hg];
          [exact Hl |].
        assert (2 ^ bit_count N <= 2 ^ (4 * (Z.of_nat d - 1)))
          by (apply Z.pow_le_mono_r; lia). lia. }
      div_lia. }
  destruct (Z.eqb_spec (Z.of_nat d mod 2) 0) as [Ev | Od]; cbn [negb].
  - exists (d / 2)%nat.
    assert (Hd2 : d = (2 * (d / 2))%nat).
    { pose proof (Nat.div_mod_eq d 2).
      assert (d mod 2 = 0)%nat; [| lia].
      apply Nat2Z.inj. rewrite Nat2Z.inj_mod. exact Ev. }
    repeat split.
    + lia.
    + rewrite <- Hd2. reflexivity.
    + rewrite pow_256 by lia. change 16 with (2 ^ 4) in Hlt.
      rewrite <- Z.pow_mul_r in Hlt by lia.
      replace (8 * Z.of_nat (d / 2)) with (4 * Z.of_nat d) by lia. exact Hlt.
    + rewrite Hbc. rewrite Nat2Z.inj_div. change (Z.of_nat 2) with 2. div_lia.
  - exists ((d + 1) / 2)%nat.
    assert (Hd2 : S d = (2 * ((d + 1) / 2))%nat).
    { pose proof (Nat.div_mod_eq (d + 1) 2).
      assert ((d + 1) mod 2 = 0)%nat; [| lia].
      apply Nat2Z.inj. rewrite Nat2Z.inj_mod, Nat2Z.inj_add.
      change (Z.of_nat 2) with 2. change (Z.of_nat 1) with 1. change (Z.of_nat 0) with 0.
      div_lia. }
    repeat split.
    + lia.
    + rewrite <- Hd2. cbn [hex_string]. f_equal.
      rewrite Z.div_small by lia. reflexivity.
    + rewrite pow_256 by lia. change 16 with (2 ^ 4) in Hlt.
      rewrite <- Z.pow_mul_r in Hlt by lia.
      eapply Z.lt_le_trans; [exact Hlt |]. apply Z.pow_le_mono_r; lia.
    + rewrite Hbc. rewrite Nat2Z.inj_div, Nat2Z.inj_add. reflexivity.
Qed.

(** What [toBuffer] writes. *)
Lemma toBuffer_content (pool : list Z) (n : Z) (endian : option string)
  (length : option Z) :
  endian_mode endian -> fits n length ->
  toBuffer pool n endian length
  = Ok (alloc_buffer pool
          (bytes_in endian (Z.to_nat (byte_size n length)) (Z.abs n))).
Proof.
  intros He Hfit.
  destruct (byte_size_holds n length Hfit) as (Esize & Hl & Hle & Hone & Hsmall).
  destruct (endian_mode_valid endian He) as (Hv & _).
  pose proof (toString16_even (Z.abs n) (Z.abs_nonneg n)) as Hstr.
  cbv zeta in Hstr. destruct Hstr as (b & Hb & Estr & Hsm & Eb).
  unfold toBuffer, enforce, bytes_in. rewrite Hv. cbn [bind].
  set (l := match length with Some l => l | None => 0 end) in *.
  replace (to_uint32 l =? l) with true
    by (symmetry; apply Z.eqb_eq; unfold to_uint32; apply Z.mod_small; lia).
  cbn [bind]. rewrite abs_spec, Estr, hex_string_length, shiftr_1.
  replace (Z.of_nat (2 * b) / 2) with (Z.of_nat b) by div_lia.
  set (size := byte_size n length) in *.
  assert (Es : (if negb (l =? 0) then l else Z.max 1 (Z.of_nat b)) = size).
  { rewrite Esize. destruct (negb (l =? 0)); [reflexivity | lia]. }
  rewrite Es.
  assert (Hbs : Z.of_nat b <= size).
  { rewrite Esize. destruct (Z.eqb_spec l 0); cbn [negb]; [lia |].
    rewrite Esize in Hle. destruct (Z.eqb_spec l 0); [lia |].
    cbn [negb] in Hle. lia. }
  destruct (Z.gtb_spec (Z.of_nat b) size) as [| _]; [lia |].
  set (sz := Z.to_nat size).
  assert (Hpad : padStart (hex_string (2 * b) (Z.abs n)) (size * 2) "00"
                 = hex_string (2 * sz) (Z.abs n)).
  { unfold padStart. rewrite hex_string_length.
    destruct (Z.leb_spec (size * 2) (Z.of_nat (2 * b))) as [Hfull | Hroom].
    - f_equal. lia.
    - rewrite pad_fill_zeros by auto.
      replace (2 * sz)%nat
        with (Z.to_nat (size * 2 - Z.of_nat (2 * b)) + 2 * b)%nat by lia.
      symmetry. apply hex_string_pad.
      split; [lia |]. replace (Z.of_nat (2 * b)) with (2 * Z.of_nat b) by lia.
      rewrite Z.pow_mul_r by lia. exact Hsm. }
  rewrite Hpad, hex_decode_string.
  destruct (endian_cases endian He) as [-> | ->].
  - reflexivity.
  - change (("le" =? "le")%string) with true. apply reverse_buffer_alloc.
Qed.

(** ** Reading a buffer word by word *)

Lemma lor_shiftl_low (n w k : Z) :
  0 <= n -> 0 <= k -> 0 <= w < 2 ^ k -> Z.lor (Z.shiftl n k) w = n * 2 ^ k + w.
Proof.
  intros Hn Hk Hw. rewrite Z.shiftl_mul_pow2 by lia.
  assert (Hland : Z.land (n * 2 ^ k) w = 0); [| rewrite <- Z.lxor_lor by exact Hland;
    symmetry; apply Z.add_nocarry_lxor; exact Hland].
  apply Z.bits_inj'. intros i Hi. rewrite Z.land_spec, Z.bits_0.
  destruct (Z_lt_le_dec i k) as [Hlt | Hge].
  - rewrite Z.mul_pow2_bits_low by lia. reflexivity.
  - destruct (Z.eq_dec w 0) as [-> | Hw0];
      [rewrite Z.bits_0; apply andb_false_r |].
    rewrite (Z.bits_above_log2 w i); [apply andb_false_r | lia |].
    apply Z.lt_le_trans with (m := k); [| exact Hge].
    apply Z.log2_lt_pow2; lia.
Qed.

Lemma buf_get_is_byte (data : Buffer) (i : Z) :
  Forall is_byte (buf_store data) -> is_byte (buf_get data i).
Proof.
  intros Hs. unfold buf_get.
  destruct (Nat.lt_ge_cases (Z.to_nat (buf_offset data + i))
              (List.length (buf_store data))) as [Hin | Hout].
  - rewrite Forall_forall in Hs. apply Hs, nth_In, Hin.
  - rewrite nth_overflow by exact Hout. unfold is_byte. lia.
Qed.

(** The bytes of the view are the elements that indexing shows. *)
Lemma contents_indexed (data : Buffer) :
  valid_buffer data ->
  contents data = map (buf_get data) (upto 0 (buf_length data)).
Proof.
  intros (Ho & Hl & Hin & _). unfold contents.
  set (c := firstn (Z.to_nat (buf_length data))
              (skipn (Z.to_nat (buf_offset data)) (buf_store data))).
  assert (Hc : List.length c = Z.to_nat (buf_length data)).
  { unfold c. rewrite length_firstn, length_skipn. lia. }
  rewrite <- (map_nth_upto c) at 1. rewrite Hc, Z2Nat.id by exact Hl.
  apply map_ext_in. intros i Hi. apply in_upto in Hi.
  unfold c, buf_get. rewrite nth_firstn.
  destruct (Nat.ltb_spec (Z.to_nat i) (Z.to_nat (buf_length data))); [| lia].
  rewrite nth_skipn. f_equal. lia.
Qed.

Lemma contents_is_byte (data : Buffer) :
  valid_buffer data -> Forall is_byte (contents data).
Proof.
  intros Hv. rewrite (contents_indexed data Hv). apply Forall_forall.
  intros b Hb. apply in_map_iff in Hb. destruct Hb as (i & <- & _).
  apply buf_get_is_byte, Hv.
Qed.

Lemma contents_length (data : Buffer) :
  valid_buffer data -> Z.of_nat (List.length (contents data)) = buf_length data.
Proof.
  intros Hv. rewrite (contents_indexed data Hv), length_map, upto_length.
  destruct Hv as (_ & Hl & _). lia.
Qed.

Section Words.

Variable D : Buffer.
Hypothesis D_bytes : Forall is_byte (buf_store D).

Lemma indexed_bytes (idx : list Z) : Forall is_byte (map (buf_get D) idx).
Proof.
  apply Forall_forall. intros b Hb. apply in_map_iff in Hb.
  destruct Hb as (i & <- & _). apply buf_get_is_byte, D_bytes.
Qed.

Lemma upto_word (i : Z) :
  upto (8 * i) (8 * i + 8) = map (fun k => 8 * i + Z.of_nat k) (seq 0 8).
Proof. unfold upto. replace (8 * i + 8 - 8 * i) with 8 by lia. reflexivity. Qed.

Lemma uint64_be (i : Z) :
  uint64_at "be" D i = be_value (map (buf_get D) (upto (8 * i) (8 * i + 8))).
Proof.
  unfold uint64_at. change (("be" =? "be")%string) with true. cbv beta iota zeta.
  rewrite fold_lor_be_value; [| lia | intros; apply buf_get_is_byte, D_bytes].
  rewrite Z.mul_0_l, Z.add_0_l, upto_word, map_map. reflexivity.
Qed.

Lemma uint64_le (ENDIAN : string) (i : Z) :
  String.eqb ENDIAN "be" = false ->
  uint64_at ENDIAN D i = be_value (rev (map (buf_get D) (upto (8 * i) (8 * i + 8)))).
Proof.
  intros E. unfold uint64_at. rewrite E.
  rewrite fold_lor_be_value; [| lia | intros; apply buf_get_is_byte, D_bytes].
  rewrite Z.mul_0_l, Z.add_0_l, upto_word, map_map, map_rev. reflexivity.
Qed.

Lemma word_bound (l : list Z) :
  List.length l = 8%nat -> 0 <= be_value (map (buf_get D) l) < 2 ^ 64
                           /\ 0 <= be_value (rev (map (buf_get D) l)) < 2 ^ 64.
Proof.
  intros Hl. change (2 ^ 64) with (256 ^ Z.of_nat 8). split.
  - rewrite <- Hl, <- (length_map (buf_get D)). apply be_value_bound, indexed_bytes.
  - rewrite <- Hl, <- (length_map (buf_get D)), <- length_rev, <- map_rev.
    apply be_value_bound, indexed_bytes.
Qed.

Lemma upto_word_length (i : Z) : List.length (upto (8 * i) (8 * i + 8)) = 8%nat.
Proof. rewrite upto_length. lia. Qed.

(** The words in ascending order, each most significant byte first. *)
Lemma words_be (a : nat) :
  fold_left (fun n i => Z.lor (Z.shiftl n 64) (uint64_at "be" D i))
    (upto 0 (Z.of_nat a)) 0
  = be_value (map (buf_get D) (upto 0 (8 * Z.of_nat a))).
Proof.
  induction a as [| a IH]; [reflexivity |].
  rewrite Nat2Z.inj_succ, <- Z.add_1_r, upto_snoc, fold_left_app by lia.
  cbn [fold_left]. rewrite IH, uint64_be.
  pose proof (word_bound _ (upto_word_length (Z.of_nat a))) as (Hw & _).
  pose proof (be_value_bound _ (indexed_bytes (upto 0 (8 * Z.of_nat a)))) as Hacc.
  rewrite lor_shiftl_low by lia.
  rewrite (upto_app 0 (8 * Z.of_nat a) (8 * (Z.of_nat a + 1))) by lia.
  rewrite map_app, be_value_app, length_map.
  replace (8 * (Z.of_nat a + 1)) with (8 * Z.of_nat a + 8) by ring.
  rewrite upto_word_length. reflexivity.
Qed.

(** The words in descending order, each least significant byte first. *)
Lemma words_le (ENDIAN : string) (a : nat) :
  String.eqb ENDIAN "be" = false ->
  forall n0, 0 <= n0 ->
  fold_left (fun n i => Z.lor (Z.shiftl n 64) (uint64_at ENDIAN D i))
    (rev (upto 0 (Z.of_nat a))) n0
  = n0 * 256 ^ (8 * Z.of_nat a)
    + be_value (rev (map (buf_get D) (upto 0 (8 * Z.of_nat a)))).
Proof.
  intros E. induction a as [| a IH]; intros n0 Hn0.
  - cbn. lia.
  - rewrite Nat2Z.inj_succ, <- Z.add_1_r, upto_snoc, rev_app_distr by lia.
    cbn [rev app fold_left]. rewrite uint64_le by exact E.
    pose proof (word_bound _ (upto_word_length (Z.of_nat a))) as (_ & Hw).
    rewrite lor_shiftl_low by lia. rewrite IH by lia.
    rewrite (upto_app 0 (8 * Z.of_nat a) (8 * (Z.of_nat a + 1))) by lia.
    rewrite map_app, rev_app_distr, be_value_app, length_rev, length_map.
    rewrite upto_length.
    replace (Z.of_nat (Z.to_nat (8 * Z.of_nat a - 0))) with (8 * Z.of_nat a) by lia.
    replace (8 * (Z.of_nat a + 1)) with (8 * Z.of_nat a + 8) by ring.
    change (2 ^ 64) with (256 ^ 8).
    replace (256 ^ (8 * Z.of_nat a + 8)) with (256 ^ 8 * 256 ^ (8 * Z.of_nat a))
      by (rewrite <- Z.pow_add_r by lia; f_equal; lia).
    ring.
Qed.

(** Both orders of reading give the positional value of all the bytes
    of the buffer. *)
Lemma read_all_be (L : Z) :
  0 <= L ->
  fold_left (fun n i => Z.lor (Z.shiftl n 8) (buf_get D i))
    (upto (L - Z.land L 7) L)
    (fold_left (fun n i => Z.lor (Z.shiftl n 64) (uint64_at "be" D i))
       (upto 0 (Z.shiftr L 3)) 0)
  = be_value (map (buf_get D) (upto 0 L)).
Proof.
  intros HL. rewrite land_7. rewrite Z.shiftr_div_pow2 by lia.
  change (2 ^ 3) with 8.
  assert (Hs : L - L mod 8 = 8 * (L / 8)) by div_lia.
  assert (Ha : 0 <= L / 8) by div_lia.
  rewrite <- (Z2Nat.id (L / 8)) at 1 by exact Ha.
  rewrite words_be, Z2Nat.id by exact Ha.
  pose proof (be_value_bound _ (indexed_bytes (upto 0 (8 * (L / 8))))) as Hacc.
  rewrite fold_lor_be_value;
    [| lia | intros; apply buf_get_is_byte, D_bytes].
  rewrite Hs, (upto_app 0 (8 * (L / 8)) L) by div_lia.
  rewrite map_app, be_value_app, length_map. reflexivity.
Qed.

Lemma read_all_le (ENDIAN : string) (L : Z) :
  String.eqb ENDIAN "be" = false -> 0 <= L ->
  fold_left (fun n i => Z.lor (Z.shiftl n 64) (uint64_at ENDIAN D i))
    (rev (upto 0 (Z.shiftr L 3)))
    (fold_left (fun n i => Z.lor (Z.shiftl n 8) (buf_get D i))
       (rev (upto (L - Z.land L 7) L)) 0)
  = be_value (rev (map (buf_get D) (upto 0 L))).
Proof.
  intros E HL. rewrite land_7. rewrite Z.shiftr_div_pow2 by lia.
  change (2 ^ 3) with 8.
  assert (Hs : L - L mod 8 = 8 * (L / 8)) by div_lia.
  assert (Ha : 0 <= L / 8) by div_lia.
  rewrite fold_lor_be_value;
    [| lia | intros; apply buf_get_is_byte, D_bytes].
  rewrite Z.mul_0_l, Z.add_0_l, map_rev.
  pose proof (be_value_bound _
                (Forall_rev (indexed_bytes (upto (L - L mod 8) L)))) as Hacc.
  rewrite <- (Z2Nat.id (L / 8)) at 1 by exact Ha.
  rewrite words_le by (exact E || apply Hacc).
  rewrite Z2Nat.id by exact Ha.
  rewrite Hs, (upto_app 0 (8 * (L / 8)) L) by div_lia.
  rewrite map_app, rev_app_distr, be_value_app, length_rev, length_map.
  rewrite upto_length.
  replace (Z.of_nat (Z.to_nat (8 * (L / 8) - 0))) with (8 * (L / 8)) by lia.
  reflexivity.
Qed.

End Words.

Lemma upto_shift (u len : Z) :
  upto u (u + len) = map (fun i => u + i) (upto 0 len).
Proof.
  unfold upto. replace (u + len - u) with (len - 0) by lia.
  rewrite map_map. apply map_ext. intros k. lia.
Qed.

Lemma mask_ones (w : Z) : mask w = Z.ones w.
Proof. unfold mask. rewrite Z.shiftl_1_l, Z.ones_equiv. lia. Qed.

(** What the second half of [fromBuffer] reads: the positional value of
    the bytes of the view in the byte order of the machine, whatever
    precedes the view in its store. *)
Lemma read_words_value (ENDIAN : string) (data : Buffer) :
  valid_buffer data ->
  read_words ENDIAN data
  = if String.eqb ENDIAN "be" then be_value (contents data)
    else be_value (rev (contents data)).
Proof.
  intros Hv. pose proof (contents_indexed data Hv) as HC.
  pose proof (contents_is_byte data Hv) as HCb.
  pose proof (contents_length data Hv) as HCl.
  set (C := contents data) in *.
  destruct data as [store off len]. destruct Hv as (Ho & Hl & Hin & Hs).
  cbn [buf_store buf_offset buf_length] in *.
  unfold read_words. cbn [buf_store buf_offset buf_length]. rewrite land_7.
  set (u := off mod 8).
  assert (Hu : 0 <= u < 8 /\ u <= off) by (unfold u; div_lia).
  pose (D := {| buf_store := store; buf_offset := off - u;
                buf_length := u + len |}).
  assert (ED : (if negb (u =? 0)
                then {| buf_store := store; buf_offset := off - u;
                        buf_length := u + len |}
                else {| buf_store := store; buf_offset := off;
                        buf_length := len |}) = D).
  { unfold D. destruct (Z.eqb_spec u 0) as [E | _]; cbn [negb];
      [f_equal; lia | reflexivity]. }
  rewrite ED. change (buf_length D) with (u + len).
  assert (HDs : Forall is_byte (buf_store D)) by exact Hs.
  set (F := map (buf_get D) (upto 0 u)).
  assert (HF : Forall is_byte F) by (apply indexed_bytes, HDs).
  assert (HFl : Z.of_nat (List.length F) = u)
    by (unfold F; rewrite length_map, upto_length; lia).
  assert (HW : map (buf_get D) (upto 0 (u + len)) = F ++ C).
  { rewrite (upto_app 0 u (u + len)), map_app by lia. fold F. f_equal.
    rewrite HC, upto_shift, map_map. apply map_ext. intros i.
    unfold buf_get, D. cbn [buf_store buf_offset]. f_equal. lia. }
  pose proof (be_value_bound C HCb) as HCv. rewrite HCl in HCv.
  pose proof (be_value_bound (rev F) (Forall_rev HF)) as HFv.
  rewrite length_rev, HFl in HFv.
  assert (HF0 : u = 0 -> F = []).
  { intros E. unfold F. rewrite E, upto_nil. reflexivity. }
  destruct (String.eqb ENDIAN "be") eqn:E.
  - apply String.eqb_eq in E. subst ENDIAN.
    rewrite (read_all_be D HDs (u + len)) by lia.
    rewrite HW, be_value_app, HCl.
    destruct (Z.eqb_spec u 0) as [E0 | N0]; cbn [negb].
    + rewrite (HF0 E0). cbn. lia.
    + rewrite mask_ones, Z.land_ones by lia.
      replace (2 ^ ((u + len - u) * 8)) with (256 ^ len)
        by (rewrite pow_256 by lia; f_equal; lia).
      rewrite Z.add_comm, Z.mod_add by (apply Z.pow_nonzero; lia).
      apply Z.mod_small. exact HCv.
  - rewrite (read_all_le D HDs ENDIAN (u + len) E) by lia.
    rewrite HW, rev_app_distr, be_value_app, length_rev, HFl.
    destruct (Z.eqb_spec u 0) as [E0 | N0]; cbn [negb].
    + rewrite (HF0 E0), E0. cbn. lia.
    + rewrite Z.shiftr_div_pow2 by lia.
      replace (2 ^ (u * 8)) with (256 ^ u)
        by (rewrite pow_256 by lia; f_equal; lia).
      rewrite Z.div_add_l by (apply Z.pow_nonzero; lia).
      rewrite (Z.div_small (be_value (rev F))) by exact HFv. lia.
Qed.

Lemma alloc_valid (pool bytes : list Z) :
  Forall is_byte pool -> Forall is_byte bytes ->
  valid_buffer (alloc_buffer pool bytes).
Proof.
  intros Hp Hb. unfold valid_buffer, alloc_buffer.
  cbn [buf_store buf_offset buf_length]. rewrite length_app.
  repeat split; try lia. apply Forall_app. split; assumption.
Qed.

(** What [fromBuffer] reads, on a machine of either byte order. *)
Lemma fromBuffer_value (ENDIAN : string) (pool : list Z) (data : Buffer)
  (endian : option string) :
  ENDIAN = "be"%string \/ ENDIAN = "le"%string ->
  Forall is_byte pool -> valid_buffer data -> endian_mode endian ->
  fromBuffer ENDIAN pool data endian = Ok (value_in endian (contents data)).
Proof.
  intros HE Hp Hv He. pose proof (contents_is_byte data Hv) as HCb.
  destruct (endian_mode_valid endian He) as (Hval & _).
  unfold fromBuffer, enforce, value_in. rewrite Hval. cbn [bind].
  destruct (endian_cases endian He) as [-> | ->]; destruct HE as [-> | ->].
  - change (("be" =? "be")%string) with true. cbn [negb bind].
    rewrite read_words_value by exact Hv. reflexivity.
  - change (("be" =? "le")%string) with false. cbn [negb].
    rewrite reverse_buffer_alloc. cbn [bind].
    rewrite read_words_value by (apply alloc_valid; [| apply Forall_rev]; assumption).
    rewrite contents_alloc, rev_involutive. reflexivity.
  - change (("le" =? "be")%string) with false. cbn [negb].
    change (("le" =? "le")%string) with true.
    rewrite reverse_buffer_alloc. cbn [bind].
    rewrite read_words_value by (apply alloc_valid; [| apply Forall_rev]; assumption).
    rewrite contents_alloc. reflexivity.
  - change (("le" =? "le")%string) with true. cbn [negb bind].
    rewrite read_words_value by exact Hv. reflexivity.
Qed.

(** ** What a caller can rely on *)

Lemma bytes_in_is_byte (endian : option string) (k : nat) (N : Z) :
  Forall is_byte (bytes_in endian k N).
Proof.
  unfold bytes_in. destruct (String.eqb _ _);
    [apply Forall_rev |]; apply be_bytes_is_byte.
Qed.

Lemma bytes_in_length (endian : option string) (k : nat) (N : Z) :
  List.length (bytes_in endian k N) = k.
Proof.
  unfold bytes_in. destruct (String.eqb _ _);
    rewrite ?length_rev; apply be_bytes_length.
Qed.

Lemma value_of_bytes_in (endian : option string) (k : nat) (N : Z) :
  0 <= N < 256 ^ Z.of_nat k -> value_in endian (bytes_in endian k N) = N.
Proof.
  intros HN. unfold value_in, bytes_in. destruct (String.eqb _ _);
    rewrite ?rev_involutive; apply be_bytes_small, HN.
Qed.

Lemma magnitude_fits (n : Z) (length : option Z) :
  fits n length ->
  0 <= Z.abs n < 256 ^ Z.of_nat (Z.to_nat (byte_size n length)).
Proof.
  intros Hfit.
  destruct (byte_size_holds n length Hfit) as (_ & _ & _ & Hone & Hsmall).
  rewrite Z2Nat.id by lia. lia.
Qed.

(** X24. [reverse(data)] always ends and returns the elements in
    reverse order, so that two reversals give the elements back; on a
    buffer it rewrites the view and leaves the rest of the store, the
    bytes before the view and the bytes after it, as it was. *)
Theorem reverse_reverses (pre data post : list Z) :
  reverse data = Ok (rev data)
  /\ (r <- reverse data ;; reverse r) = Ok data
  /\ reverse_buffer {| buf_store := pre ++ data ++ post;
                       buf_offset := Z.of_nat (List.length pre);
                       buf_length := Z.of_nat (List.length data) |}
     = Ok {| buf_store := pre ++ rev data ++ post;
             buf_offset := Z.of_nat (List.length pre);
             buf_length := Z.of_nat (List.length data) |}.
Proof.
  split; [apply reverse_is_rev |]. split; [| apply reverse_buffer_view].
  rewrite reverse_is_rev. cbn [bind].
  rewrite reverse_is_rev, rev_involutive. reflexivity.
Qed.

(** X25. Round trip through an array-like value: with a [length] that is
    absent, zero or large enough for the magnitude of the number,
    [toArrayLike] for [Buffer], [Array], [Int8Array], [Uint8Array] or
    [Uint8ClampedArray] returns [length || max(1, bytes)] elements, and
    [fromArrayLike] with the same byte order reads the magnitude back
    from them, on a machine of either byte order.  The sign is not
    kept. *)
Theorem array_like_round_trip (ENDIAN : string) (pool pool' : list Z)
  (junk : Z) (x this : BN) (type : ArrayType) (endian : option string)
  (length : option Z) :
  type <> OtherT ->
  ENDIAN = "be"%string \/ ENDIAN = "le"%string ->
  Forall is_byte pool -> Forall is_byte pool' ->
  endian_mode endian -> fits (bn_n x) length ->
  exists a, BN.toArrayLike pool junk x type endian length = Ok a
    /\ Z.of_nat (List.length (BN.elements a)) = byte_size (bn_n x) length
    /\ BN.fromArrayLike ENDIAN pool' this a endian
       = Ok (BN.set_n this (Z.abs (bn_n x))).
Proof.
  intros Htype HE Hp Hp' He Hfit.
  pose proof (toBuffer_content pool (bn_n x) endian length He Hfit) as Hb.
  pose proof (magnitude_fits (bn_n x) length Hfit) as Hmag.
  destruct (byte_size_holds (bn_n x) length Hfit) as (_ & _ & _ & Hone & _).
  set (bytes := bytes_in endian (Z.to_nat (byte_size (bn_n x) length))
                  (Z.abs (bn_n x))) in *.
  assert (Hbytes : Forall is_byte bytes) by apply bytes_in_is_byte.
  assert (Hlen : Z.of_nat (List.length bytes) = byte_size (bn_n x) length)
    by (unfold bytes; rewrite bytes_in_length; lia).
  assert (Hfb : fromBuffer ENDIAN pool' (alloc_buffer pool bytes) endian
                = Ok (Z.abs (bn_n x))).
  { rewrite fromBuffer_value by (try apply alloc_valid; assumption).
    rewrite contents_alloc. f_equal. apply value_of_bytes_in, Hmag. }
  assert (Hfa : fromArrayLike bytes endian = Ok (Z.abs (bn_n x))).
  { rewrite fromArrayLike_value by assumption.
    f_equal. apply value_of_bytes_in, Hmag. }
  unfold BN.toArrayLike, BN.toArray, BN.toBuffer.
  destruct type; [| | | | | contradiction]; rewrite Hb; cbn [bind];
    eexists; (split; [reflexivity |]);
    unfold BN.elements, BN.fromArrayLike, BN.fromBuffer, BN.fromArray;
    rewrite ?contents_alloc, ?length_map, ?Hfb, ?Hfa; cbn [bind];
    split; first [exact Hlen | reflexivity].
Qed.

Lemma array_like_round_trip_witness :
  exists a,
    BN.toArrayLike [1; 2; 3] 9 (new_BN (-258)) Int8ArrayT (Some "le"%string)
      (Some 4) = Ok a
    /\ Z.of_nat (List.length (BN.elements a)) = byte_size (bn_n (new_BN (-258))) (Some 4)
    /\ BN.fromArrayLike "be" [7] (new_BN 5) a (Some "le"%string)
       = Ok (BN.set_n (new_BN 5) (Z.abs (bn_n (new_BN (-258))))).
Proof.
  apply (array_like_round_trip "be" [1; 2; 3] [7] 9 (new_BN (-258)) (new_BN 5)
           Int8ArrayT (Some "le"%string) (Some 4)).
  - discriminate.
  - left. reflexivity.
  - repeat constructor; unfold is_byte; lia.
  - repeat constructor; unfold is_byte; lia.
  - right. right. reflexivity.
  - split; [lia | right; reflexivity].
Defined.

(** X26. With such a [length], [toBuffer] returns a buffer of
    [length || max(1, bytes)] bytes, and [fromBuffer] with the same byte
    order reads the magnitude of [n] back from it, on a machine of either
    byte order and wherever the buffer lies in its store. *)
Theorem toBuffer_round_trip (ENDIAN : string) (pool pool' : list Z) (n : Z)
  (endian : option string) (length : option Z) :
  ENDIAN = "be"%string \/ ENDIAN = "le"%string ->
  Forall is_byte pool -> Forall is_byte pool' ->
  endian_mode endian -> fits n length ->
  exists b, toBuffer pool n endian length = Ok b
    /\ buf_length b = byte_size n length
    /\ fromBuffer ENDIAN pool' b endian = Ok (Z.abs n).
Proof.
  intros HE Hp Hp' He Hfit.
  pose proof (magnitude_fits n length Hfit) as Hmag.
  destruct (byte_size_holds n length Hfit) as (_ & _ & _ & Hone & _).
  eexists. split; [apply toBuffer_content; assumption |]. split.
  - cbn [alloc_buffer buf_length]. rewrite bytes_in_length. lia.
  - rewrite fromBuffer_value
      by (try apply alloc_valid; try apply bytes_in_is_byte; assumption).
    rewrite contents_alloc. f_equal. apply value_of_bytes_in, Hmag.
Qed.

Lemma toBuffer_round_trip_witness :
  exists b, toBuffer [1; 2; 3] (-258) (Some "le"%string) None = Ok b
    /\ buf_length b = byte_size (-258) None
    /\ fromBuffer "be" [7] b (Some "le"%string) = Ok (Z.abs (-258)).
Proof.
  apply (toBuffer_round_trip "be" [1; 2; 3] [7] (-258) (Some "le"%string) None).
  - left. reflexivity.
  - repeat constructor; unfold is_byte; lia.
  - repeat constructor; unfold is_byte; lia.
  - right. right. reflexivity.
  - exact I.
Defined.

(** X27. The loop of the helper [toArrayLike], which shifts the bytes
    out one by one into a fresh array, and the way of [toBuffer] through
    the hexadecimal digits agree.  For an array type other than [Buffer],
    [Array] and the three 8-bit typed arrays, whose elements hold the
    numbers written to them (what [OtherT] stands for: the typed arrays
    of BigInts, on which the write of a number raises, are not among
    them), the elements that [toArrayLike] returns are the bytes that
    [toBuffer] writes, whatever the fresh array held, and
    [fromArrayLike] reads the magnitude back from them. *)
Theorem toArrayLike_agrees_with_toBuffer (ENDIAN : string)
  (pool pool' : list Z) (junk : Z) (x this : BN) (endian : option string)
  (length : option Z) :
  endian_mode endian -> bit_count (Z.abs (bn_n x)) < 2 ^ 32 ->
  fits (bn_n x) length ->
  exists b, BN.toBuffer pool x endian length = Ok b
    /\ BN.toArrayLike pool junk x OtherT endian length
       = Ok (BN.IsOther (contents b))
    /\ BN.fromArrayLike ENDIAN pool' this (BN.IsOther (contents b)) endian
       = Ok (BN.set_n this (Z.abs (bn_n x))).
Proof.
  intros He Hbits Hfit.
  pose proof (toBuffer_content pool (bn_n x) endian length He Hfit) as Hb.
  pose proof (toArrayLike_content junk (bn_n x) OtherT endian length
                He Hbits Hfit) as Ha.
  pose proof (magnitude_fits (bn_n x) length Hfit) as Hmag.
  unfold BN.toArrayLike, BN.toBuffer, BN.fromArrayLike. rewrite Hb, Ha.
  cbn [bind]. eexists. split; [reflexivity |].
  rewrite contents_alloc. split; [reflexivity |].
  rewrite fromArrayLike_value by (apply bytes_in_is_byte || assumption).
  cbn [bind]. f_equal. f_equal. apply value_of_bytes_in, Hmag.
Qed.

Lemma toArrayLike_agrees_with_toBuffer_witness :
  exists b, BN.toBuffer [1; 2; 3] (new_BN 65537) None (Some 5) = Ok b
    /\ BN.toArrayLike [1; 2; 3] 9 (new_BN 65537) OtherT None (Some 5)
       = Ok (BN.IsOther (contents b))
    /\ BN.fromArrayLike "le" [7] (new_BN 5) (BN.IsOther (contents b)) None
       = Ok (BN.set_n (new_BN 5) (Z.abs (bn_n (new_BN 65537)))).
Proof.
  apply (toArrayLike_agrees_with_toBuffer "le" [1; 2; 3] [7] 9 (new_BN 65537)
           (new_BN 5) None (Some 5)).
  - left. reflexivity.
  - reflexivity.
  - split; [lia | right; reflexivity].
Defined.

(** X28. [fromBuffer] reads the positional value of the bytes of the
    view in the byte order asked for, which is what [fromArrayLike] reads
    from the same bytes: neither the byte order of the machine, nor the
    alignment of the view, nor the bytes that precede it in its store
    change the result. *)
Theorem fromBuffer_agrees_with_fromArrayLike (ENDIAN : string)
  (pool : list Z) (data : Buffer) (endian : option string) :
  ENDIAN = "be"%string \/ ENDIAN = "le"%string ->
  Forall is_byte pool -> valid_buffer data -> endian_mode endian ->
  fromBuffer ENDIAN pool data endian = Ok (value_in endian (contents data))
  /\ fromArrayLike (contents data) endian
     = Ok (value_in endian (contents data)).
Proof.
  intros HE Hp Hv He. split.
  - apply fromBuffer_value; assumption.
  - apply fromArrayLike_value; [apply contents_is_byte |]; assumption.
Qed.

Lemma fromBuffer_agrees_with_fromArrayLike_witness :
  let data := {| buf_store := [9; 8; 7; 1; 2; 3; 4; 5; 6; 7; 8; 9; 10; 6];
                 buf_offset := 3; buf_length := 10 |} in
  fromBuffer "le" [5] data (Some "be"%string)
  = Ok (value_in (Some "be"%string) (contents data))
  /\ fromArrayLike (contents data) (Some "be"%string)
     = Ok (value_in (Some "be"%string) (contents data)).
Proof.
  cbv zeta.
  apply (fromBuffer_agrees_with_fromArrayLike "le" [5]
           {| buf_store := [9; 8; 7; 1; 2; 3; 4; 5; 6; 7; 8; 9; 10; 6];
              buf_offset := 3; buf_length := 10 |} (Some "be"%string)).
  - right. reflexivity.
  - repeat constructor; unfold is_byte; lia.
  - unfold valid_buffer. cbn [buf_store buf_offset buf_length List.length].
    repeat split; try lia. repeat constructor; unfold is_byte; lia.
  - right. left. reflexivity.
Defined.

(** X29. A [length] that is not zero and too small for the magnitude of
    [n] makes [toBuffer] and [toArrayLike] raise a [RangeError]; nothing
    is truncated. *)
Theorem byte_array_too_short (pool : list Z) (junk n l : Z)
  (type : ArrayType) (endian : option string) :
  endian_mode endian -> bit_count (Z.abs n) < 2 ^ 32 ->
  0 < l < 2 ^ 32 -> 256 ^ l <= Z.abs n ->
  toBuffer pool n endian (Some l)
  = Throw (RangeError "Byte array longer than desired length.")
  /\ toArrayLike junk n type endian (Some l)
     = Throw (RangeError "Byte array longer than desired length.").
Proof.
  intros He Hbits Hl Hbig.
  destruct (endian_mode_valid endian He) as (Hv & _).
  assert (Hpos : 0 < Z.abs n).
  { assert (0 < 256 ^ l) by (apply Z.pow_pos_nonneg; lia). lia. }
  pose proof (bit_count_bounds (Z.abs n) Hpos) as Hb.
  assert (Hlong : l < (bit_count (Z.abs n) + 7) / 8).
  { rewrite pow_256 in Hbig by lia.
    assert (8 * l < bit_count (Z.abs n)).
    { destruct (Z.lt_ge_cases (8 * l) (bit_count (Z.abs n))) as [Hlt | Hge];
        [exact Hlt |].
      assert (2 ^ bit_count (Z.abs n) <= 2 ^ (8 * l))
        by (apply Z.pow_le_mono_r; [lia | exact Hge]). lia. }
    div_lia. }
  assert (Hu : (to_uint32 l =? l) = true)
    by (apply Z.eqb_eq; unfold to_uint32; apply Z.mod_small; lia).
  split.
  - pose proof (toString16_even (Z.abs n) (Z.abs_nonneg n)) as Hstr.
    cbv zeta in Hstr. destruct Hstr as (b & Hb1 & Estr & Hsm & Eb).
    unfold toBuffer, enforce. rewrite Hv, Hu. cbn [bind].
    rewrite abs_spec, Estr, hex_string_length, shiftr_1.
    replace (Z.of_nat (2 * b) / 2) with (Z.of_nat b) by div_lia.
    destruct (Z.eqb_spec l 0); [lia |]. cbn [negb].
    destruct (Z.gtb_spec (Z.of_nat b) l); [reflexivity | lia].
  - unfold toArrayLike, enforce. rewrite Hv, Hu. cbn [bind].
    rewrite byteLength_value by exact Hbits. cbn [bind].
    destruct (Z.eqb_spec l 0); [lia |]. cbn [negb].
    destruct (Z.gtb_spec ((bit_count (Z.abs n) + 7) / 8) l); [reflexivity | lia].
Qed.

Lemma byte_array_too_short_witness :
  toBuffer [] 65536 None (Some 2)
  = Throw (RangeError "Byte array longer than desired length.")
  /\ toArrayLike 0 65536 OtherT None (Some 2)
     = Throw (RangeError "Byte array longer than desired length.").
Proof.
  apply (byte_array_too_short [] 0 65536 2 OtherT None).
  - left. reflexivity.
  - reflexivity.
  - lia.
  - discriminate.
Defined.

(** X30. The two byte orders are each other's reversal.  With such a
    [length], [toBuffer] with ['le'] writes the bytes of ['be'] (which is
    also the default) in reverse; and from any bytes [fromArrayLike]
    reads the same number with ['be'] as it reads with ['le'] from the
    reversed bytes. *)
Theorem byte_orders_are_reversals (pool : list Z) (n : Z)
  (length : option Z) (data : list Z) :
  fits n length -> Forall is_byte data ->
  (exists b,
     toBuffer pool n (Some "be"%string) length = Ok b
     /\ toBuffer pool n None length = Ok b
     /\ toBuffer pool n (Some "le"%string) length
        = Ok (alloc_buffer pool (rev (contents b))))
  /\ fromArrayLike data None = fromArrayLike data (Some "be"%string)
  /\ fromArrayLike (rev data) (Some "le"%string)
     = fromArrayLike data (Some "be"%string).
Proof.
  intros Hfit Hdata. split; [| split; [reflexivity |]].
  - exists (alloc_buffer pool
              (be_bytes (Z.to_nat (byte_size n length)) (Z.abs n))).
    rewrite !toBuffer_content;
      try assumption;
      [| right; right; reflexivity | left; reflexivity | right; left; reflexivity].
    rewrite contents_alloc. repeat (split; [reflexivity |]). reflexivity.
  - rewrite !fromArrayLike_value;
      [| assumption | right; left; reflexivity
       | apply Forall_rev; assumption | right; right; reflexivity].
    unfold value_in. cbn [endian_or_be].
    change (("le" =? "le")%string) with true.
    change (("be" =? "le")%string) with false.
    rewrite rev_involutive. reflexivity.
Qed.

Lemma byte_orders_are_reversals_witness :
  (exists b,
     toBuffer [4] (-258) (Some "be"%string) (Some 3) = Ok b
     /\ toBuffer [4] (-258) None (Some 3) = Ok b
     /\ toBuffer [4] (-258) (Some "le"%string) (Some 3)
        = Ok (alloc_buffer [4] (rev (contents b))))
  /\ fromArrayLike [1; 2; 3] None = fromArrayLike [1; 2; 3] (Some "be"%string)
  /\ fromArrayLike (rev [1; 2; 3]) (Some "le"%string)
     = fromArrayLike [1; 2; 3] (Some "be"%string).
Proof.
  apply (byte_orders_are_reversals [4] (-258) (Some 3) [1; 2; 3]).
  - split; [lia | right; reflexivity].
  - repeat constructor; unfold is_byte; lia.
Defined.
